(** * json.h / ali.h: a shallow embedding and its verified properties

    The development follows the layout of the sources:

    - [Machine]: the C integer types the code computes with (size_t,
      uint8_t, uint32_t, int) and the three outcomes of running a piece
      of C (a result, a memory fault, a loop that is still running);
    - [Libc]: the host routines the code calls (ctype, strcmp, strtod,
      printf with the conversion %.2lf);
    - [Log], [Utf8], [Sv], [Da], [Arena]: the modules of ali.h the
      properties are about;
    - [Json]: json.h (value model, bump arena, parser, serializer);
    - [Demo]: the part of ali_sb that main.c uses, and main.c;
    - [Sb]: the rest of ali_sb, and main from the file to its output;
    - [Temp], [Rand], [Util]: the temporary allocator, the random
      numbers and ali_path_name of ali.h.

    A definition that carries the name of a C function is a
    transcription of it; the C text is quoted above it. Each module
    gives its definitions first and its properties after them. *)

From Stdlib Require Import ZArith List String Ascii Bool Lia.
From Stdlib Require Import SpecFloat DecimalString.
Import ListNotations.

Local Open Scope Z_scope.

(* ================================================================== *)
(** * Machine integers and outcomes *)
(* ================================================================== *)

Module Machine.

(** size_t and ali_u64 are 64 bits wide, ali_u32 is 32, ali_u8 is 8;
    unsigned arithmetic wraps around. *)
Definition SIZE_WIDTH : Z := 64.
Definition size_modulus : Z := 2 ^ SIZE_WIDTH.
Definition to_size_t (z : Z) : Z := z mod size_modulus.
Definition to_u32 (z : Z) : Z := z mod 2 ^ 32.
Definition to_u8 (z : Z) : Z := z mod 2 ^ 8.

(** The conversion to int used by the casts [(int)(cursor - start)]:
    two's complement on 32 bits. *)
Definition to_int (z : Z) : Z :=
  let r := z mod 2 ^ 32 in
  if r <? 2 ^ 31 then r else r - 2 ^ 32.

(** What running a piece of C yields: a value, an access outside the
    bytes that are there to be read or written (undefined behaviour), or
    a loop that has not finished within the steps it was given. *)
Inductive result (A : Type) : Type :=
| Done (a : A)
| Fault
| Timeout.

Arguments Done {A} a.
Arguments Fault {A}.
Arguments Timeout {A}.

Definition bind {A B : Type} (r : result A) (k : A -> result B) : result B :=
  match r with
  | Done a => k a
  | Fault => Fault
  | Timeout => Timeout
  end.

(** A read through a pointer into a buffer: the buffer is the list of
    the bytes that can be read, the pointer is an index into it. *)
Definition load {A : Type} (mem : list A) (p : Z) : result A :=
  if p <? 0 then Fault
  else match nth_error mem (Z.to_nat p) with
       | Some a => Done a
       | None => Fault
       end.

End Machine.

Import Machine.

Declare Scope result_scope.
Delimit Scope result_scope with result.
Notation "x <- c ;; k" := (bind c (fun x => k))
  (at level 61, c at next level, right associativity) : result_scope.
Notation "' p <- c ;; k" := (bind c (fun x => let p := x in k))
  (at level 61, p pattern, c at next level, right associativity) : result_scope.

(* ================================================================== *)
(** * The host routines the code calls *)
(* ================================================================== *)

Module Libc.

(** A [double] is an IEEE 754 binary64 number. *)
Definition double : Type := spec_float.
Definition prec : Z := 53.
Definition emax : Z := 1024.

(** Texts are lists of characters; a C string ends before its first
    NUL. *)
Definition text : Type := list ascii.

Definition lit (s : string) : text := list_ascii_of_string s.

Definition is_nul (c : ascii) : bool := Ascii.eqb c zero.

Fixpoint c_str (s : text) : text :=
  match s with
  | [] => []
  | c :: rest => if is_nul c then [] else c :: c_str rest
  end.

Definition text_eqb (a b : text) : bool :=
  if list_eq_dec ascii_dec a b then true else false.

(** [strcmp(a, b) == 0] and [strncmp(a, b, n) == 0]. *)
Definition strcmp_eq (a b : text) : bool := text_eqb (c_str a) (c_str b).

Definition strncmp_eq (a b : text) (n : Z) : bool :=
  text_eqb (firstn (Z.to_nat n) (c_str a)) (firstn (Z.to_nat n) (c_str b)).

(** ctype.h in the "C" locale, which is the one in force: the program
    never calls setlocale. *)
Definition code (c : ascii) : Z := Z.of_nat (nat_of_ascii c).

Definition between (lo hi : Z) (c : ascii) : bool :=
  (lo <=? code c) && (code c <=? hi).

Definition isspace (c : ascii) : bool := (code c =? 32) || between 9 13 c.
Definition isdigit (c : ascii) : bool := between 48 57 c.
Definition isalpha (c : ascii) : bool := between 65 90 c || between 97 122 c.
Definition isxdigit (c : ascii) : bool :=
  isdigit c || between 65 70 c || between 97 102 c.

Definition digit_value (c : ascii) : Z :=
  if isdigit c then code c - 48
  else if between 65 70 c then code c - 55
  else code c - 87.

(** ** strtod

    The number of characters before the first one that satisfies
    [stop]; [None] when the readable bytes end first, which is a read
    past them. *)
Fixpoint scan (stop : ascii -> bool) (s : text) : option Z :=
  match s with
  | [] => None
  | c :: rest =>
      if stop c then Some 0
      else match scan stop rest with
           | Some n => Some (n + 1)
           | None => None
           end
  end.

(** A run of digits in a base: its value, its length and what follows
    it. [None] as for [scan]. *)
Fixpoint digits (base : Z) (is_digit : ascii -> bool) (acc : Z) (s : text)
  : option (Z * Z * text) :=
  match s with
  | [] => None
  | c :: rest =>
      if is_digit c then
        match digits base is_digit (acc * base + digit_value c) rest with
        | Some (v, n, rest') => Some (v, n + 1, rest')
        | None => None
        end
      else Some (acc, 0, s)
  end.

Definition is_char (a : string) (c : ascii) : bool :=
  existsb (Ascii.eqb c) (list_ascii_of_string a).

(** An optional exponent: the letter, an optional sign and at least one
    decimal digit. The value of the exponent and the characters it
    takes, both 0 when there is none. *)
Definition exponent (letters : string) (s : text) : option (Z * Z) :=
  match s with
  | [] => None
  | c :: rest =>
      if is_char letters c then
        match rest with
        | [] => None
        | sign :: rest' =>
            let signed := is_char "+-" sign in
            match digits 10 isdigit 0 (if signed then rest' else rest) with
            | None => None
            | Some (v, n, _) =>
                if n =? 0 then Some (0, 0)
                else Some ((if Ascii.eqb sign "-" then - v else v),
                           1 + (if signed then 1 else 0) + n)
            end
        end
      else Some (0, 0)
  end.

(** The double nearest to [m * 10^e] and to [m * 2^e], ties to even. *)
Definition round_decimal (m e : Z) : double :=
  if m =? 0 then S754_zero false
  else if 0 <=? e then binary_normalize prec emax (m * 10 ^ e) 0 false
  else
    let '(q, e', l) := SFdiv_core_binary prec emax m 0 (10 ^ (- e)) 0 in
    binary_round_aux prec emax false q e' l.

Definition round_binary (m e : Z) : double := binary_normalize prec emax m e false.

(** A mantissa in a base: digits, an optional point, digits. Its value
    as an integer, the number of digits after the point, the number of
    digits in all, the characters taken and what follows. *)
Definition mantissa (base : Z) (is_digit : ascii -> bool) (s : text)
  : option (Z * Z * Z * Z * text) :=
  match digits base is_digit 0 s with
  | None => None
  | Some (v1, n1, rest) =>
      match rest with
      | [] => None
      | c :: rest' =>
          if Ascii.eqb c "." then
            match digits base is_digit v1 rest' with
            | None => None
            | Some (v2, n2, rest'') => Some (v2, n2, n1 + n2, n1 + 1 + n2, rest'')
            end
          else Some (v1, 0, n1, n1, rest)
      end
  end.

Definition strtod_decimal (s : text) : option (double * Z) :=
  match mantissa 10 isdigit s with
  | None => None
  | Some (m, after_point, ndigits, taken, rest) =>
      if ndigits =? 0 then Some (S754_zero false, 0)
      else match exponent "eE" rest with
           | None => None
           | Some (e, taken_e) => Some (round_decimal m (e - after_point), taken + taken_e)
           end
  end.

Definition strtod_hex (s : text) : option (option (double * Z)) :=
  match mantissa 16 isxdigit s with
  | None => None
  | Some (m, after_point, ndigits, taken, rest) =>
      if ndigits =? 0 then Some None
      else match exponent "pP" rest with
           | None => None
           | Some (e, taken_e) =>
               Some (Some (round_binary m (e - 4 * after_point), taken + taken_e))
           end
  end.

(** [strtod(s, &endptr)] on a text that begins with a digit or a point,
    which is how json.h calls it (so the forms with leading blanks, a
    sign, "inf" or "nan" cannot occur): the double and [endptr - s].
    [Fault] when the number runs to the end of the readable bytes. *)
Definition strtod (s : text) : result (double * Z) :=
  let decimal := match strtod_decimal s with
                 | Some r => Done r
                 | None => Fault
                 end in
  match s with
  | c0 :: x :: rest =>
      if Ascii.eqb c0 "0" && is_char "xX" x then
        match strtod_hex rest with
        | None => Fault
        | Some None => Done (S754_zero false, 1)
        | Some (Some (d, taken)) => Done (d, 2 + taken)
        end
      else decimal
  | _ => decimal
  end.

(** ** printf

    The decimal digits of a natural number. *)
Definition decimal (n : Z) : text :=
  list_ascii_of_string (NilZero.string_of_uint (N.to_uint (Z.to_N n))).

(** [m * 2^e * 100] rounded to an integer, ties to even. *)
Definition hundredths (m e : Z) : Z :=
  if 0 <=? e then m * 2 ^ e * 100
  else
    let den := 2 ^ (- e) in
    let q := (m * 100) / den in
    let r := (m * 100) mod den in
    if (den <? 2 * r) || ((den =? 2 * r) && Z.odd q) then q + 1 else q.

(** The text [printf("%.2lf", d)] writes. *)
Definition printf_2lf (d : double) : text :=
  let sign (s : bool) := if s then lit "-" else [] in
  match d with
  | S754_zero s => sign s ++ lit "0.00"
  | S754_infinity s => sign s ++ lit "inf"
  | S754_nan => lit "nan"
  | S754_finite s m e =>
      let h := hundredths (Z.pos m) e in
      sign s ++ decimal (h / 100) ++ lit "." ++
      decimal ((h mod 100) / 10) ++ decimal (h mod 10)
  end.

End Libc.

(* ================================================================== *)
(** * ali_log *)
(* ================================================================== *)

Module Log.

(** <<
typedef enum { LOG_INFO = 0, LOG_WARN, LOG_ERROR, LOG_COUNT_ } AliLogLevel;
>> *)
Inductive AliLogLevel : Type := LOG_INFO | LOG_WARN | LOG_ERROR.

(** The integer value of an enumerator, which is what [>=] compares. *)
Definition level_value (l : AliLogLevel) : Z :=
  match l with
  | LOG_INFO => 0
  | LOG_WARN => 1
  | LOG_ERROR => 2
  end.

(** <<
const char* loglevel_to_str[LOG_COUNT_] = {
    [LOG_INFO] = "INFO", [LOG_WARN] = "WARN", [LOG_ERROR] = "ERROR" };
>> *)
Definition loglevel_to_str (l : AliLogLevel) : string :=
  match l with
  | LOG_INFO => "INFO"
  | LOG_WARN => "WARN"
  | LOG_ERROR => "ERROR"
  end.

(** A FILE*: the standard output or some other stream the embedding
    program opened. *)
Inductive FILE : Type := stdout | stream (id : nat).

Definition FILE_eqb (f g : FILE) : bool :=
  match f, g with
  | stdout, stdout => true
  | stream i, stream j => Nat.eqb i j
  | _, _ => false
  end.

(** The two globals of the module and what has been written so far to
    every stream.
<<
FILE* ali_global_logfile = NULL;
AliLogLevel ali_global_loglevel = LOG_INFO;
>> *)
Record LogState : Type := {
  ali_global_logfile : option FILE;
  ali_global_loglevel : AliLogLevel;
  written : FILE -> string
}.

Definition initial : LogState :=
  {| ali_global_logfile := None;
     ali_global_loglevel := LOG_INFO;
     written := fun _ => EmptyString |}.

Definition fputs (f : FILE) (s : string) (w : FILE -> string) : FILE -> string :=
  fun g => if FILE_eqb f g then (w g ++ s)%string else w g.

Definition newline : string := String (ascii_of_nat 10) EmptyString.

(** <<
void ali_log_log(AliLogLevel level, const char* fmt, ...) {
    if (ali_global_logfile == NULL) ali_global_logfile = stdout;
    va_list args;
    va_start(args, fmt);
    if (ali_global_loglevel >= level) {
        fprintf(ali_global_logfile, "[%s] ", loglevel_to_str[level]);
        vfprintf(ali_global_logfile, fmt, args);
        fprintf(ali_global_logfile, "\n");
    }
    va_end(args);
}
>>
    [message] is the text vfprintf produces from [fmt] and the
    arguments. *)
Definition ali_log_log (level : AliLogLevel) (message : string) (st : LogState)
  : LogState :=
  let logfile := match ali_global_logfile st with
                 | None => stdout
                 | Some f => f
                 end in
  let w := written st in
  let w :=
    if level_value level <=? level_value (ali_global_loglevel st) then
      let w := fputs logfile ("[" ++ loglevel_to_str level ++ "] ")%string w in
      let w := fputs logfile message w in
      fputs logfile newline w
    else w in
  {| ali_global_logfile := Some logfile;
     ali_global_loglevel := ali_global_loglevel st;
     written := w |}.

(** The line one call writes when it writes: the name of the level in
    brackets, the message, a newline. *)
Definition line (level : AliLogLevel) (message : string) : string :=
  ("[" ++ loglevel_to_str level ++ "] " ++ message ++ newline)%string.

(** The stream a call writes to. *)
Definition sink (st : LogState) : FILE :=
  match ali_global_logfile st with
  | None => stdout
  | Some f => f
  end.

(** Calls of ali_log_log one after the other, each with its level and
    the text of its message. *)
Fixpoint log_all (calls : list (AliLogLevel * string)) (st : LogState) : LogState :=
  match calls with
  | [] => st
  | (level, message) :: rest => log_all rest (ali_log_log level message st)
  end.

(** The lines of the calls whose level is at most [configured], in the
    order of the calls. *)
Fixpoint emitted (configured : AliLogLevel) (calls : list (AliLogLevel * string))
  : string :=
  match calls with
  | [] => EmptyString
  | (level, message) :: rest =>
      append (if level_value level <=? level_value configured
              then line level message else EmptyString)
             (emitted configured rest)
  end.

(** ** Properties *)

Lemma FILE_eqb_refl f : FILE_eqb f f = true.
Proof. destruct f; simpl; auto using Nat.eqb_refl. Qed.

Lemma append_assoc (a b c : string) : ((a ++ b) ++ c = a ++ (b ++ c))%string.
Proof. induction a; simpl; congruence. Qed.

(** What the code does, for every level and every configured level: the
    line is written exactly when the level of the message is at most
    the configured one. *)
Lemma ali_log_log_emits (level : AliLogLevel) (message : string) (st : LogState) :
  written (ali_log_log level message st) (sink st) =
  if level_value level <=? level_value (ali_global_loglevel st)
  then (written st (sink st) ++ line level message)%string
  else written st (sink st).
Proof.
  unfold ali_log_log, sink, line, fputs; cbn.
  destruct (level_value level <=? level_value (ali_global_loglevel st)); [|reflexivity].
  rewrite !FILE_eqb_refl. repeat (rewrite !append_assoc; simpl). reflexivity.
Qed.

(** C2: with the minimum left at its default LOG_INFO, a LOG_WARN and a
    LOG_ERROR message leave the sink empty (only LOG_INFO is written),
    although their level is at least the minimum: the comparison of
    ali_log_log is the wrong way round. *)
Theorem ali_log_log_default_drops_warn_and_error :
  written (ali_log_log LOG_INFO "m" initial) stdout = line LOG_INFO "m" /\
  written (ali_log_log LOG_WARN "m" initial) stdout = EmptyString /\
  written (ali_log_log LOG_ERROR "m" initial) stdout = EmptyString /\
  level_value (ali_global_loglevel initial) <= level_value LOG_WARN /\
  level_value (ali_global_loglevel initial) <= level_value LOG_ERROR.
Proof. repeat split; try reflexivity; simpl; lia. Qed.

Lemma append_empty_r (a : string) : (a ++ "")%string = a.
Proof. induction a; simpl; congruence. Qed.

Lemma ali_log_log_keeps (level : AliLogLevel) (message : string) (st : LogState) :
  sink (ali_log_log level message st) = sink st /\
  ali_global_logfile (ali_log_log level message st) = Some (sink st) /\
  ali_global_loglevel (ali_log_log level message st) = ali_global_loglevel st /\
  forall f, FILE_eqb (sink st) f = false ->
            written (ali_log_log level message st) f = written st f.
Proof.
  unfold ali_log_log, sink, fputs; cbn.
  repeat split.
  intros f Hf.
  destruct (level_value level <=? level_value (ali_global_loglevel st)); [|reflexivity].
  rewrite !Hf. reflexivity.
Qed.

(** X1: a run of calls of ali_log_log writes to one stream only, the
    one that was configured before the first call (the standard output
    if none was); it appends to it the lines of exactly the calls whose
    level is at most the configured level, in order, and never changes
    the configured level or another stream. *)
Theorem ali_log_log_sequence (calls : list (AliLogLevel * string)) (st : LogState) :
  sink (log_all calls st) = sink st /\
  ali_global_loglevel (log_all calls st) = ali_global_loglevel st /\
  written (log_all calls st) (sink st) =
    (written st (sink st) ++ emitted (ali_global_loglevel st) calls)%string /\
  (forall f, FILE_eqb (sink st) f = false ->
             written (log_all calls st) f = written st f).
Proof.
  revert st. induction calls as [|[level message] rest IH]; intros st.
  - cbn [log_all emitted]. rewrite append_empty_r. auto.
  - cbn [log_all emitted].
    destruct (ali_log_log_keeps level message st) as (Hs & _ & Hl & Ho).
    destruct (IH (ali_log_log level message st)) as (IHs & IHl & IHw & IHo).
    rewrite Hs, Hl in *. repeat split; try congruence.
    + rewrite IHw, ali_log_log_emits.
      destruct (level_value level <=? level_value (ali_global_loglevel st)).
      * apply append_assoc.
      * reflexivity.
    + intros f Hf. rewrite IHo by exact Hf. apply Ho. exact Hf.
Qed.

End Log.

(* ================================================================== *)
(** * ali_utf8 *)
(* ================================================================== *)

Module Utf8.

(** [ali_utf8] is a byte (0..255) and [ali_utf8codepoint] a 32-bit
    unsigned integer; both are carried as [Z]. *)

(** <<
size_t ali_codepoint_size(ali_utf8codepoint codepoint) {
    if (codepoint > 0x10FFFF) return 0;
    else if (codepoint > 0xFFFF) return 4;
    else if (codepoint > 0x07FF) return 3;
    else if (codepoint > 0x007F) return 2;
    else return 1;
}
>> *)
Definition ali_codepoint_size (codepoint : Z) : Z :=
  if codepoint >? 0x10FFFF then 0
  else if codepoint >? 0xFFFF then 4
  else if codepoint >? 0x07FF then 3
  else if codepoint >? 0x007F then 2
  else 1.

(** A write [buf[i] = v] into an array of bytes; the value is converted
    to ali_u8. The indices the encoder writes are all below 5, the size
    of its buffer. *)
Fixpoint store (buf : list Z) (i : nat) (v : Z) : list Z :=
  match buf, i with
  | [], _ => []
  | _ :: rest, O => to_u8 v :: rest
  | b :: rest, S j => b :: store rest j v
  end.

(** The buffer [static ali_utf8 utf8[5] = {0}] of the encoder as the
    program starts. It keeps its bytes from one call to the next. *)
Definition utf8_initial : list Z := [0; 0; 0; 0; 0].

(** <<
const ali_utf8* ali_codepoint_to_utf8(ali_utf8codepoint codepoint) {
static ali_utf8 utf8[5] = {0};
    size_t codepoint_size = ali_codepoint_size(codepoint);
    if (codepoint_size == 4) {
        utf8[0] = 0xF0 | ((codepoint >> 6*3) & 0x07);
        utf8[1] = 0x80 | ((codepoint >> 6*2) & 0x3F);
        utf8[2] = 0x80 | ((codepoint >> 6*1) & 0x3F);
        utf8[3] = 0x80 | ((codepoint >> 6*0) & 0x3F);
    } else if (codepoint_size == 3) {
        utf8[0] = 0xE0 | ((codepoint >> 6*2) & 0x0F);
        utf8[1] = 0x80 | ((codepoint >> 6*1) & 0x3F);
        utf8[2] = 0x80 | ((codepoint >> 6*0) & 0x3F);
    } else if (codepoint_size == 2) {
        utf8[0] = 0xC0 | ((codepoint >> 6*1) & 0x1F);
        utf8[1] = 0x80 | ((codepoint >> 6*0) & 0x3F);
    } else if (codepoint_size == 1) {
        utf8[0] = codepoint;
    } else {
        return NULL;
    }
    utf8[codepoint_size] = 0;
    return utf8;
}
>>
    The function takes the static buffer as it stands and returns it as
    the call leaves it, or [None] for the NULL of an invalid codepoint
    (the buffer is then untouched). *)
Definition ali_codepoint_to_utf8 (codepoint : Z) (utf8 : list Z) : option (list Z) :=
  let codepoint_size := ali_codepoint_size codepoint in
  let filled :=
    if codepoint_size =? 4 then
      let utf8 := store utf8 0 (Z.lor 0xF0 (Z.land (Z.shiftr codepoint (6*3)) 0x07)) in
      let utf8 := store utf8 1 (Z.lor 0x80 (Z.land (Z.shiftr codepoint (6*2)) 0x3F)) in
      let utf8 := store utf8 2 (Z.lor 0x80 (Z.land (Z.shiftr codepoint (6*1)) 0x3F)) in
      Some (store utf8 3 (Z.lor 0x80 (Z.land (Z.shiftr codepoint (6*0)) 0x3F)))
    else if codepoint_size =? 3 then
      let utf8 := store utf8 0 (Z.lor 0xE0 (Z.land (Z.shiftr codepoint (6*2)) 0x0F)) in
      let utf8 := store utf8 1 (Z.lor 0x80 (Z.land (Z.shiftr codepoint (6*1)) 0x3F)) in
      Some (store utf8 2 (Z.lor 0x80 (Z.land (Z.shiftr codepoint (6*0)) 0x3F)))
    else if codepoint_size =? 2 then
      let utf8 := store utf8 0 (Z.lor 0xC0 (Z.land (Z.shiftr codepoint (6*1)) 0x1F)) in
      Some (store utf8 1 (Z.lor 0x80 (Z.land (Z.shiftr codepoint (6*0)) 0x3F)))
    else if codepoint_size =? 1 then
      Some (store utf8 0 codepoint)
    else None in
  match filled with
  | Some utf8 => Some (store utf8 (Z.to_nat codepoint_size) 0)
  | None => None
  end.

(** <<
ali_utf8codepoint ali_utf8c_to_codepoint(const ali_utf8* utf8c, size_t* codepoint_size) {
    ali_utf8codepoint codepoint = 0;
    size_t codepoint_size_ = 0;
    if ((utf8c[0] & 0x80) == 0x00) {
        codepoint = utf8c[0];
        codepoint_size_ = 1;
    } else if ((utf8c[0] & 0xE0) == 0xC0) {
        codepoint = ((utf8c[0] & 0x1F) << 6*1) | ((utf8c[1] & 0x3F) << 6*0);
        codepoint_size_ = 2;
    } else if ((utf8c[0] & 0xF0) == 0xE0) {
        codepoint = ((utf8c[0] & 0x1F) << 6*2) | ((utf8c[1] & 0x3F) << 6*1) | ((utf8c[2] & 0x3F) << 6*0);
        codepoint_size_ = 3;
    } else if ((utf8c[0] & 0xF8) == 0xF0) {
        codepoint = ((utf8c[0] & 0x1F) << 6*3) | ((utf8c[1] & 0x3F) << 6*2) | ((utf8c[2] & 0x3F) << 6*1) | ((utf8c[3] & 0x3F) << 6*0);
        codepoint_size_ = 4;
    } else {
        return -1;
    }
    if (codepoint_size) *codepoint_size = codepoint_size_;
    return codepoint;
}
>>
    [utf8c] is the bytes that can be read from the pointer on.
    [codepoint_size] is [None] for a NULL pointer and else what the
    pointee holds before the call; the second component of the result is
    what it holds after it. *)
Definition ali_utf8c_to_codepoint (utf8c : list Z) (codepoint_size : option Z)
  : result (Z * option Z) :=
  let out (sz : Z) := match codepoint_size with
                      | Some _ => Some sz
                      | None => None
                      end in
  (b0 <- load utf8c 0 ;;
   if Z.land b0 0x80 =? 0x00 then
     Done (to_u32 b0, out 1)
   else if Z.land b0 0xE0 =? 0xC0 then
     b1 <- load utf8c 1 ;;
     Done (to_u32 (Z.lor (Z.shiftl (Z.land b0 0x1F) (6*1))
                         (Z.shiftl (Z.land b1 0x3F) (6*0))), out 2)
   else if Z.land b0 0xF0 =? 0xE0 then
     b1 <- load utf8c 1 ;;
     b2 <- load utf8c 2 ;;
     Done (to_u32 (Z.lor (Z.lor (Z.shiftl (Z.land b0 0x1F) (6*2))
                                (Z.shiftl (Z.land b1 0x3F) (6*1)))
                         (Z.shiftl (Z.land b2 0x3F) (6*0))), out 3)
   else if Z.land b0 0xF8 =? 0xF0 then
     b1 <- load utf8c 1 ;;
     b2 <- load utf8c 2 ;;
     b3 <- load utf8c 3 ;;
     Done (to_u32 (Z.lor (Z.lor (Z.lor (Z.shiftl (Z.land b0 0x1F) (6*3))
                                       (Z.shiftl (Z.land b1 0x3F) (6*2)))
                                (Z.shiftl (Z.land b2 0x3F) (6*1)))
                         (Z.shiftl (Z.land b3 0x3F) (6*0))), out 4)
   else
     Done (to_u32 (-1), codepoint_size))%result.

(** Encoding a codepoint, then decoding the bytes the encoder returned,
    with a size variable that holds 0 before the call. *)
Definition decode_encoded (codepoint : Z) (utf8 : list Z) : result (Z * option Z) :=
  match ali_codepoint_to_utf8 codepoint utf8 with
  | Some bytes => ali_utf8c_to_codepoint bytes (Some 0)
  | None => Fault
  end.

(** Checking a property of every integer of an interval by running it. *)
Fixpoint all_from (n : nat) (x : Z) (f : Z -> bool) : bool :=
  match n with
  | O => true
  | S k => if f x then all_from k (x + 1) f else false
  end.

(** Does [codepoint] come back from the decoder as [target codepoint],
    with the size ali_codepoint_size gives? *)
Definition roundtrips_to (target : Z -> Z) (codepoint : Z) : bool :=
  match decode_encoded codepoint utf8_initial with
  | Done (c, Some sz) => (c =? target codepoint) && (sz =? ali_codepoint_size codepoint)
  | _ => false
  end.

(** The payload the decoder takes from a continuation byte and from the
    lead byte of four, and the test it recognises that lead byte by. *)
Definition continuation_ok (x : Z) : bool :=
  Z.land (to_u8 (Z.lor 0x80 x)) 0x3F =? x.

Definition lead4_ok (x : Z) : bool :=
  let b := to_u8 (Z.lor 0xF0 x) in
  (Z.land b 0x1F =? 0x10 + x) &&
  negb (Z.land b 0x80 =? 0) && negb (Z.land b 0xE0 =? 0xC0) &&
  negb (Z.land b 0xF0 =? 0xE0) && (Z.land b 0xF8 =? 0xF0).

(** The value the size variable of a caller holds after a call of
    ali_utf8c_to_codepoint that was given its address. *)
Definition size_after (codepoint_size : option Z) : result Z :=
  match codepoint_size with
  | Some sz => Done sz
  | None => Fault
  end.

(** <<
size_t ali_utf8len(const ali_utf8* utf8) {
    size_t len = 0;
    while ( *utf8 != 0 ) {
        size_t codepoint_size = 0;
        ali_utf8c_to_codepoint(utf8, &codepoint_size);
        len++;
        utf8 += codepoint_size;
    }
    return len;
}
>>
    [utf8] is the bytes that can be read from the pointer on, so
    [utf8 += n] drops [n] of them. [utf8len_loop] is the loop, entered
    with the value of [len]; [fuel] bounds its turns. *)
Fixpoint utf8len_loop (fuel : nat) (utf8 : list Z) (len : Z) : result Z :=
  match fuel with
  | O => Timeout
  | S fuel =>
      (b <- load utf8 0 ;;
       if negb (b =? 0) then
         '(_, codepoint_size) <- ali_utf8c_to_codepoint utf8 (Some 0) ;;
         codepoint_size <- size_after codepoint_size ;;
         utf8len_loop fuel (skipn (Z.to_nat codepoint_size) utf8) (to_size_t (len + 1))
       else Done len)%result
  end.

Definition ali_utf8len (fuel : nat) (utf8 : list Z) : result Z :=
  utf8len_loop fuel utf8 0.

(** The write [codepoints[i] = v] into a block of cells; outside the
    block it is a write past the allocation. A cell never written holds
    [None]. *)
Fixpoint poke (cells : list (option Z)) (i : nat) (v : Z) : option (list (option Z)) :=
  match cells, i with
  | [], _ => None
  | _ :: rest, O => Some (Some v :: rest)
  | c :: rest, S j =>
      match poke rest j v with
      | Some rest' => Some (c :: rest')
      | None => None
      end
  end.

(** <<
ali_utf8codepoint* ali_utf8_to_codepoints(const ali_utf8* utf8, size_t* count) {
    size_t len = ali_utf8len(utf8);
    *count = len;
    ali_utf8codepoint* codepoints = ALI_MALLOC(len * sizeof( *codepoints ));
    len = 0;
    while ( *utf8 != 0 ) {
        size_t codepoint_size = 0;
        codepoints[len++] = ali_utf8c_to_codepoint(utf8, &codepoint_size);
        utf8 += codepoint_size;
    }
    return codepoints;
}
>>
    The result is the block and the value stored in [*count]; a
    codepoint takes four bytes of the block. *)
Fixpoint to_codepoints_loop (fuel : nat) (utf8 : list Z)
         (codepoints : list (option Z)) (len : Z) : result (list (option Z)) :=
  match fuel with
  | O => Timeout
  | S fuel =>
      (b <- load utf8 0 ;;
       if negb (b =? 0) then
         '(codepoint, codepoint_size) <- ali_utf8c_to_codepoint utf8 (Some 0) ;;
         codepoint_size <- size_after codepoint_size ;;
         match poke codepoints (Z.to_nat len) codepoint with
         | None => Fault
         | Some codepoints =>
             to_codepoints_loop fuel (skipn (Z.to_nat codepoint_size) utf8)
                                codepoints (to_size_t (len + 1))
         end
       else Done codepoints)%result
  end.

Definition ali_utf8_to_codepoints (fuel : nat) (utf8 : list Z)
  : result (list (option Z) * Z) :=
  (len <- ali_utf8len fuel utf8 ;;
   let count := len in
   let codepoints := repeat None (Z.to_nat (to_size_t (len * 4) / 4)) in
   codepoints <- to_codepoints_loop fuel utf8 codepoints 0 ;;
   Done (codepoints, count))%result.

(** <<
ali_utf8* ali_codepoints_to_utf8(ali_utf8codepoint* codepoints, size_t len) {
    size_t real_len = 0;
    for (size_t i = 0; i < len; ++i) {
        real_len += ali_codepoint_size(codepoints[i]);
    }
    ali_utf8* utf8 = ALI_MALLOC(real_len + 1);
    ali_utf8* utf8p = utf8;
    for (size_t i = 0; i < len; ++i) {
        size_t codepoint_size = ali_codepoint_size(codepoints[i]);
        memcpy(utf8p, ali_codepoint_to_utf8(codepoints[i]), codepoint_size);
        utf8p += codepoint_size;
    }
    utf8[real_len] = 0;
    return utf8;
}
>>
    [codepoints] is the array that can be read from the pointer on.
    [real_len_loop] and [fill_loop] are the two for loops, from [i] on
    for [turns] turns. The block is filled from its start without a
    gap, so [fill_loop] carries the bytes written so far, [written], in
    place of [utf8p]; the block has room for [real_len] bytes and the
    NUL, so more bytes than that are a write past it. The static buffer
    of ali_codepoint_to_utf8 goes from one call to the next. A memcpy
    from the NULL the encoder returns for an invalid codepoint is given
    no meaning. *)
Fixpoint real_len_loop (codepoints : list Z) (i : Z) (turns : nat) (real_len : Z)
  : result Z :=
  match turns with
  | O => Done real_len
  | S turns =>
      (c <- load codepoints i ;;
       real_len_loop codepoints (i + 1) turns (to_size_t (real_len + ali_codepoint_size c)))%result
  end.

Fixpoint fill_loop (codepoints : list Z) (i : Z) (turns : nat)
         (written : list Z) (static : list Z) : result (list Z * list Z) :=
  match turns with
  | O => Done (written, static)
  | S turns =>
      (c <- load codepoints i ;;
       let codepoint_size := ali_codepoint_size c in
       match ali_codepoint_to_utf8 c static with
       | None => Fault
       | Some static =>
           fill_loop codepoints (i + 1) turns
                     (written ++ firstn (Z.to_nat codepoint_size) static) static
       end)%result
  end.

Definition ali_codepoints_to_utf8 (codepoints : list Z) (len : Z) (static : list Z)
  : result (list Z * list Z) :=
  (real_len <- real_len_loop codepoints 0 (Z.to_nat len) 0 ;;
   '(written, static) <- fill_loop codepoints 0 (Z.to_nat len) [] static ;;
   if Z.of_nat (List.length written) =? real_len
   then Done (written ++ [0], static)
   else Fault)%result.

(** The bytes the encoder leaves for a codepoint, whatever the static
    buffer held. *)
Definition encoding (codepoint : Z) : list Z :=
  match ali_codepoint_to_utf8 codepoint utf8_initial with
  | Some bytes => firstn (Z.to_nat (ali_codepoint_size codepoint)) bytes
  | None => []
  end.

(** Does the decoder read [codepoint] back from its encoding alone,
    with nothing behind it, and is the first byte of the encoding not
    the NUL? *)
Definition reads_back (codepoint : Z) : bool :=
  match ali_utf8c_to_codepoint (encoding codepoint) (Some 0), encoding codepoint with
  | Done (c, Some sz), b :: _ =>
      (c =? codepoint) && (sz =? ali_codepoint_size codepoint) &&
      (sz =? Z.of_nat (List.length (encoding codepoint))) && negb (b =? 0)
  | _, _ => false
  end.

(** A lead byte that opens none of the four forms the decoder knows. *)
Definition no_lead (b : Z) : bool :=
  negb (Z.land b 0x80 =? 0x00) && negb (Z.land b 0xE0 =? 0xC0) &&
  negb (Z.land b 0xF0 =? 0xE0) && negb (Z.land b 0xF8 =? 0xF0).

Definition bad_lead_ok (b : Z) : bool :=
  if ((0x80 <=? b) && (b <=? 0xBF)) || ((0xF8 <=? b) && (b <=? 0xFF))
  then no_lead b && negb (b =? 0)
  else true.

(** ** Properties *)

Lemma all_from_sound (f : Z -> bool) (n : nat) (x : Z) :
  all_from n x f = true ->
  forall y, x <= y < x + Z.of_nat n -> f y = true.
Proof.
  revert x; induction n as [|k IH]; intros x H y Hy; [lia|].
  simpl in H. destruct (f x) eqn:Hfx; [|discriminate].
  destruct (Z.eq_dec y x) as [->|Hne]; [assumption|].
  apply (IH (x + 1) H). lia.
Qed.

(** Codepoints of one, two and three bytes come back unchanged. *)
Lemma roundtrip_up_to_FFFF (codepoint : Z) :
  0 <= codepoint <= 0xFFFF ->
  decode_encoded codepoint utf8_initial =
  Done (codepoint, Some (ali_codepoint_size codepoint)).
Proof.
  intros H.
  assert (E : roundtrips_to (fun c => c) codepoint = true).
  { apply (all_from_sound _ (Z.to_nat 0x10000) 0); [vm_compute; reflexivity | lia]. }
  unfold roundtrips_to in E.
  destruct (decode_encoded codepoint utf8_initial) as [[c [sz|]]| |]; try discriminate.
  apply andb_prop in E. destruct E as [E1 E2].
  apply Z.eqb_eq in E1, E2. subst. reflexivity.
Qed.

(** Bit-level facts the four-byte case rests on. *)
Lemma lor_shiftl_low (hi lo k : Z) :
  0 <= k -> 0 <= lo < 2 ^ k -> Z.lor (Z.shiftl hi k) lo = hi * 2 ^ k + lo.
Proof.
  intros Hk Hlo.
  rewrite <- Z.shiftl_mul_pow2 by assumption.
  assert (D : Z.land (Z.shiftl hi k) lo = 0).
  { apply Z.bits_inj'. intros n Hn.
    rewrite Z.land_spec, Z.bits_0.
    destruct (Z.lt_ge_cases n k) as [Hlt|Hge].
    - rewrite Z.shiftl_spec_low by assumption. reflexivity.
    - destruct (Z.eq_dec lo 0) as [->|Hne].
      + rewrite Z.bits_0. apply andb_false_r.
      + assert (Hl : Z.log2 lo < k) by (apply Z.log2_lt_pow2; lia).
        rewrite (Z.bits_above_log2 lo n) by lia. apply andb_false_r. }
  rewrite <- Z.lxor_lor by assumption.
  symmetry. apply Z.add_nocarry_lxor. assumption.
Qed.

Lemma continuation_payload (x : Z) :
  0 <= x < 64 -> Z.land (to_u8 (Z.lor 0x80 x)) 0x3F = x.
Proof.
  intros H. apply Z.eqb_eq.
  apply (all_from_sound continuation_ok 64 0); [vm_compute; reflexivity | lia].
Qed.

Lemma lead4_payload (x : Z) :
  0 <= x < 8 ->
  let b := to_u8 (Z.lor 0xF0 x) in
  Z.land b 0x1F = 0x10 + x /\
  (Z.land b 0x80 =? 0) = false /\ (Z.land b 0xE0 =? 0xC0) = false /\
  (Z.land b 0xF0 =? 0xE0) = false /\ (Z.land b 0xF8 =? 0xF0) = true.
Proof.
  intros H.
  assert (E : lead4_ok x = true)
    by (apply (all_from_sound lead4_ok 8 0); [vm_compute; reflexivity | lia]).
  unfold lead4_ok in E. cbv zeta in E |- *.
  repeat (apply andb_prop in E; destruct E as [E ?]).
  apply Z.eqb_eq in E.
  repeat split; try apply negb_true_iff; assumption.
Qed.

Lemma field_range (codepoint k n : Z) :
  0 <= k -> 0 <= n ->
  Z.land (Z.shiftr codepoint k) (Z.ones n) = (codepoint / 2 ^ k) mod 2 ^ n.
Proof.
  intros Hk Hn. rewrite Z.land_ones by assumption.
  rewrite Z.shiftr_div_pow2 by assumption. reflexivity.
Qed.

Lemma lor_disjoint (x y k : Z) :
  0 <= k -> x mod 2 ^ k = 0 -> 0 <= y < 2 ^ k -> Z.lor x y = x + y.
Proof.
  intros Hk Hx Hy.
  assert (P : 0 < 2 ^ k) by (apply Z.pow_pos_nonneg; lia).
  assert (E : x = x / 2 ^ k * 2 ^ k).
  { pose proof (Z.div_mod x (2 ^ k)). lia. }
  rewrite E at 1. rewrite <- Z.shiftl_mul_pow2 by assumption.
  rewrite lor_shiftl_low by assumption. lia.
Qed.

Lemma assemble4 (a b c d : Z) :
  0 <= a -> 0 <= b < 64 -> 0 <= c < 64 -> 0 <= d < 64 ->
  Z.lor (Z.lor (Z.lor (a * 262144) (b * 4096)) (c * 64)) (d * 1) =
  a * 262144 + b * 4096 + c * 64 + d.
Proof.
  intros Ha Hb Hc Hd.
  rewrite (lor_disjoint (a * 262144) (b * 4096) 18);
    [| lia | change (2 ^ 18) with 262144; Z.div_mod_to_equations; lia
     | change (2 ^ 18) with 262144; lia ].
  rewrite (lor_disjoint _ (c * 64) 12);
    [| lia | change (2 ^ 12) with 4096; Z.div_mod_to_equations; lia
     | change (2 ^ 12) with 4096; lia ].
  rewrite (lor_disjoint _ (d * 1) 6);
    [| lia | change (2 ^ 6) with 64; Z.div_mod_to_equations; lia
     | change (2 ^ 6) with 64; lia ].
  lia.
Qed.

(** Every codepoint of four bytes comes back with bit 22 set: the
    decoder keeps five bits of the lead byte (mask 0x1F) where the
    encoder stored three below the marker 0xF0 (mask 0x07). *)
Lemma roundtrip_four_bytes (codepoint : Z) :
  0x10000 <= codepoint <= 0x10FFFF ->
  decode_encoded codepoint utf8_initial = Done (codepoint + 0x400000, Some 4).
Proof.
  intros H.
  unfold decode_encoded, ali_codepoint_to_utf8.
  assert (S4 : ali_codepoint_size codepoint = 4).
  { unfold ali_codepoint_size.
    destruct (codepoint >? 0x10FFFF) eqn:E1; [lia|].
    destruct (codepoint >? 0xFFFF) eqn:E2; [reflexivity|lia]. }
  rewrite S4.
  change (4 =? 4) with true. cbv iota beta zeta.
  change (Z.to_nat 4) with 4%nat.
  cbv [utf8_initial store].
  change 0x07 with (Z.ones 3). change 0x3F with (Z.ones 6).
  rewrite !field_range by lia.
  change (6 * 3) with 18. change (6 * 2) with 12.
  change (6 * 1) with 6. change (6 * 0) with 0.
  set (a := (codepoint / 2 ^ 18) mod 2 ^ 3).
  set (b := (codepoint / 2 ^ 12) mod 2 ^ 6).
  set (c := (codepoint / 2 ^ 6) mod 2 ^ 6).
  set (d := (codepoint / 2 ^ 0) mod 2 ^ 6).
  assert (Ha : 0 <= a < 8) by (apply Z.mod_pos_bound; lia).
  assert (Hb : 0 <= b < 64) by (apply Z.mod_pos_bound; lia).
  assert (Hc : 0 <= c < 64) by (apply Z.mod_pos_bound; lia).
  assert (Hd : 0 <= d < 64) by (apply Z.mod_pos_bound; lia).
  unfold ali_utf8c_to_codepoint, load.
  change (Z.to_nat 0) with 0%nat. change (Z.to_nat 1) with 1%nat.
  change (Z.to_nat 2) with 2%nat. change (Z.to_nat 3) with 3%nat.
  cbn [Z.ltb Z.compare nth_error bind].
  destruct (lead4_payload a Ha) as (M0 & M1 & M2 & M3 & M4).
  cbv zeta in M0, M1, M2, M3, M4.
  rewrite M1, M2, M3, M4, M0.
  change (Z.ones 6) with 0x3F.
  rewrite !continuation_payload by assumption.
  rewrite !Z.shiftl_mul_pow2 by lia.
  change (2 ^ 18) with 262144 in *. change (2 ^ 12) with 4096 in *.
  change (2 ^ 6) with 64 in *. change (2 ^ 0) with 1 in *.
  change (2 ^ 3) with 8 in *.
  rewrite assemble4 by lia.
  f_equal. f_equal.
  unfold to_u32. subst a b c d.
  Z.div_mod_to_equations. lia.
Qed.

(** C3: 0x41, 0x7FF and 0xFFFF come back from the decoder with sizes 1,
    2 and 3, but the four bytes F4 8F BF BF the encoder writes for
    0x10FFFF decode to 0x50FFFF (size 4), not to 0x10FFFF. *)
Theorem utf8_roundtrip_breaks_at_10FFFF :
  decode_encoded 0x41 utf8_initial = Done (0x41, Some 1) /\
  decode_encoded 0x7FF utf8_initial = Done (0x7FF, Some 2) /\
  decode_encoded 0xFFFF utf8_initial = Done (0xFFFF, Some 3) /\
  ali_codepoint_to_utf8 0x10FFFF utf8_initial = Some [0xF4; 0x8F; 0xBF; 0xBF; 0] /\
  decode_encoded 0x10FFFF utf8_initial = Done (0x50FFFF, Some 4) /\
  ali_codepoint_size 0x10FFFF = 4.
Proof. repeat split; vm_compute; reflexivity. Qed.

(** *** Strings *)

Lemma load_app_l {A : Type} (l rest : list A) (i : Z) (x : A) :
  load l i = Done x -> load (l ++ rest) i = Done x.
Proof.
  unfold load. destruct (i <? 0); [discriminate|].
  destruct (nth_error l (Z.to_nat i)) as [y|] eqn:E; [|discriminate].
  intros [= ->]. rewrite nth_error_app1 by (apply nth_error_Some; congruence).
  rewrite E. reflexivity.
Qed.

(** The decoder reads the bytes of one sequence only: what lies behind
    them does not matter. *)
Lemma ali_utf8c_to_codepoint_app (l rest : list Z) (sz : option Z) (r : Z * option Z) :
  ali_utf8c_to_codepoint l sz = Done r ->
  ali_utf8c_to_codepoint (l ++ rest) sz = Done r.
Proof.
  unfold ali_utf8c_to_codepoint.
  destruct (load l 0) as [b0| |] eqn:E0; try discriminate.
  rewrite (load_app_l l rest 0 b0 E0). cbn [bind].
  repeat match goal with
         | |- (if ?c then _ else _) = _ -> _ => destruct c
         | |- context [load l ?i] =>
             let E := fresh "E" in
             destruct (load l i) eqn:E; try discriminate;
             rewrite (load_app_l l rest i _ E); cbn [bind]
         end; auto.
Qed.

Lemma reads_back_all (codepoint : Z) :
  0 < codepoint <= 0xFFFF -> reads_back codepoint = true.
Proof.
  intros H.
  apply (all_from_sound reads_back (Z.to_nat 0xFFFF) 1); [vm_compute; reflexivity | lia].
Qed.

Lemma decode_encoding (codepoint : Z) (rest : list Z) :
  0 < codepoint <= 0xFFFF ->
  exists b tail,
    encoding codepoint = b :: tail /\ b <> 0 /\
    Z.of_nat (List.length (encoding codepoint)) = ali_codepoint_size codepoint /\
    ali_utf8c_to_codepoint (encoding codepoint ++ rest) (Some 0) =
    Done (codepoint, Some (ali_codepoint_size codepoint)).
Proof.
  intros H. pose proof (reads_back_all codepoint H) as R. unfold reads_back in R.
  destruct (ali_utf8c_to_codepoint (encoding codepoint) (Some 0))
    as [[c [sz|]]| |] eqn:E; try discriminate.
  destruct (encoding codepoint) as [|b tail] eqn:Eenc; [discriminate|].
  apply andb_prop in R. destruct R as [R Rb].
  apply andb_prop in R. destruct R as [R Rl].
  apply andb_prop in R. destruct R as [Rc Rs].
  apply Z.eqb_eq in Rc, Rs, Rl. apply negb_true_iff, Z.eqb_neq in Rb.
  exists b, tail. split; [reflexivity|]. split; [exact Rb|].
  split; [congruence|].
  rewrite (ali_utf8c_to_codepoint_app _ rest _ _ E). congruence.
Qed.

(** The encoder leaves the same bytes whatever the static buffer held
    before the call. *)
Lemma ali_codepoint_to_utf8_any_static (codepoint : Z) (static : list Z) :
  List.length static = 5%nat ->
  0 <= codepoint <= 0x10FFFF ->
  exists static',
    ali_codepoint_to_utf8 codepoint static = Some static' /\
    List.length static' = 5%nat /\
    firstn (Z.to_nat (ali_codepoint_size codepoint)) static' = encoding codepoint.
Proof.
  intros Hl Hc.
  destruct static as [|a0 [|a1 [|a2 [|a3 [|a4 [|]]]]]]; try discriminate.
  unfold encoding, ali_codepoint_to_utf8, utf8_initial.
  unfold ali_codepoint_size.
  destruct (codepoint >? 0x10FFFF) eqn:E0; [lia|].
  destruct (codepoint >? 0xFFFF);
    [|destruct (codepoint >? 0x7FF); [|destruct (codepoint >? 0x7F)]];
    eexists; (split; [reflexivity|]); split; reflexivity.
Qed.

Lemma load_nth {A : Type} (done todo : list A) (x : A) :
  load (done ++ x :: todo) (Z.of_nat (List.length done)) = Done x.
Proof.
  unfold load. destruct (Z.ltb_spec (Z.of_nat (List.length done)) 0); [lia|].
  rewrite Nat2Z.id, nth_error_app2, Nat.sub_diag by lia. reflexivity.
Qed.

Lemma wrap_small (n : Z) : 0 <= n < size_modulus -> to_size_t n = n.
Proof. intros H. unfold to_size_t. apply Z.mod_small. exact H. Qed.

Lemma encoding_length (codepoint : Z) :
  0 < codepoint <= 0xFFFF ->
  Z.of_nat (List.length (encoding codepoint)) = ali_codepoint_size codepoint /\
  1 <= ali_codepoint_size codepoint <= 3.
Proof.
  intros H. destruct (decode_encoding codepoint [] H) as (_ & _ & _ & _ & L & _).
  split; [exact L|]. unfold ali_codepoint_size.
  destruct (codepoint >? 0x10FFFF) eqn:E0; [lia|].
  destruct (codepoint >? 0xFFFF) eqn:E1; [lia|].
  destruct (codepoint >? 0x7FF); [lia|]. destruct (codepoint >? 0x7F); lia.
Qed.

Lemma real_len_loop_spec (todo : list Z) :
  forall (done : list Z) (real_len : Z),
    Forall (fun c => 0 < c <= 0xFFFF) todo ->
    0 <= real_len ->
    real_len + 3 * Z.of_nat (List.length todo) < size_modulus ->
    real_len_loop (done ++ todo) (Z.of_nat (List.length done)) (List.length todo) real_len =
    Done (real_len + Z.of_nat (List.length (flat_map encoding todo))).
Proof.
  induction todo as [|c todo IH]; intros done real_len Hv Hr Hb.
  - cbn. rewrite Z.add_0_r. reflexivity.
  - inversion Hv as [|? ? Hc Hv']; subst.
    destruct (encoding_length c Hc) as [L S].
    cbn [List.length real_len_loop flat_map]. rewrite load_nth. cbn [bind].
    cbn [List.length] in Hb.
    rewrite wrap_small by lia.
    replace (Z.of_nat (List.length done) + 1) with (Z.of_nat (List.length (done ++ [c])))
      by (rewrite length_app; cbn [List.length]; lia).
    replace (done ++ c :: todo) with ((done ++ [c]) ++ todo)
      by (rewrite <- app_assoc; reflexivity).
    rewrite IH by (try assumption; lia).
    rewrite length_app. f_equal. lia.
Qed.

Lemma fill_loop_spec (todo : list Z) :
  forall (done written static : list Z),
    Forall (fun c => 0 < c <= 0xFFFF) todo ->
    List.length static = 5%nat ->
    exists static',
      fill_loop (done ++ todo) (Z.of_nat (List.length done)) (List.length todo)
                written static =
      Done (written ++ flat_map encoding todo, static') /\
      List.length static' = 5%nat.
Proof.
  induction todo as [|c todo IH]; intros done written static Hv Hs.
  - exists static. cbn. rewrite app_nil_r. auto.
  - inversion Hv as [|? ? Hc Hv']; subst.
    destruct (ali_codepoint_to_utf8_any_static c static Hs) as (s' & E & Ls' & F); [lia|].
    cbn [List.length fill_loop flat_map]. rewrite load_nth. cbn [bind]. rewrite E, F.
    replace (Z.of_nat (List.length done) + 1) with (Z.of_nat (List.length (done ++ [c])))
      by (rewrite length_app; cbn [List.length]; lia).
    replace (done ++ c :: todo) with ((done ++ [c]) ++ todo)
      by (rewrite <- app_assoc; reflexivity).
    destruct (IH (done ++ [c]) (written ++ encoding c) s' Hv' Ls') as (s'' & E' & L'').
    exists s''. rewrite E', <- app_assoc. auto.
Qed.

Lemma skipn_encoding (c : Z) (rest : list Z) :
  0 < c <= 0xFFFF ->
  skipn (Z.to_nat (ali_codepoint_size c)) (encoding c ++ rest) = rest.
Proof.
  intros Hc. destruct (encoding_length c Hc) as [L _].
  rewrite <- L, Nat2Z.id, skipn_app, skipn_all, Nat.sub_diag. reflexivity.
Qed.

Lemma utf8len_loop_spec (codepoints : list Z) (tail : list Z) :
  forall (fuel : nat) (len : Z),
    Forall (fun c => 0 < c <= 0xFFFF) codepoints ->
    (List.length codepoints < fuel)%nat ->
    0 <= len -> len + Z.of_nat (List.length codepoints) < size_modulus ->
    utf8len_loop fuel (flat_map encoding codepoints ++ 0 :: tail) len =
    Done (len + Z.of_nat (List.length codepoints)).
Proof.
  induction codepoints as [|c cs IH]; intros fuel len Hv Hfuel Hl Hb;
    (destruct fuel as [|fuel]; [cbn [List.length] in Hfuel; lia|]).
  - cbn. rewrite Z.add_0_r. reflexivity.
  - inversion Hv as [|? ? Hc Hv']; subst.
    cbn [flat_map List.length utf8len_loop] in *. rewrite <- app_assoc.
    destruct (decode_encoding c (flat_map encoding cs ++ 0 :: tail) Hc)
      as (b & t & Eb & Hb0 & _ & D).
    rewrite D. rewrite Eb at 1. cbn [app]. unfold load at 1.
    cbn [Z.ltb Z.compare Z.to_nat nth_error bind].
    destruct (Z.eqb_spec b 0) as [?|_]; [contradiction|]. cbn [negb size_after bind].
    rewrite skipn_encoding by assumption.
    rewrite wrap_small by lia. rewrite IH by (try assumption; lia).
    f_equal. lia.
Qed.

Lemma poke_next (done : list Z) (rest : list (option Z)) (v : Z) :
  poke (map Some done ++ None :: rest) (List.length done) v =
  Some (map Some (done ++ [v]) ++ rest).
Proof.
  induction done as [|x done IH]; cbn [map app List.length poke]; [reflexivity|].
  rewrite IH. reflexivity.
Qed.

Lemma to_codepoints_loop_spec (codepoints : list Z) (tail : list Z) :
  forall (fuel : nat) (done : list Z),
    Forall (fun c => 0 < c <= 0xFFFF) codepoints ->
    (List.length codepoints < fuel)%nat ->
    Z.of_nat (List.length done + List.length codepoints) < size_modulus ->
    to_codepoints_loop fuel (flat_map encoding codepoints ++ 0 :: tail)
                       (map Some done ++ repeat None (List.length codepoints))
                       (Z.of_nat (List.length done)) =
    Done (map Some (done ++ codepoints)).
Proof.
  induction codepoints as [|c cs IH]; intros fuel done Hv Hfuel Hb;
    (destruct fuel as [|fuel]; [cbn [List.length] in Hfuel; lia|]).
  - cbn. rewrite !app_nil_r. reflexivity.
  - inversion Hv as [|? ? Hc Hv']; subst.
    cbn [flat_map List.length to_codepoints_loop repeat] in *. rewrite <- app_assoc.
    destruct (decode_encoding c (flat_map encoding cs ++ 0 :: tail) Hc)
      as (b & t & Eb & Hb0 & _ & D).
    rewrite D. rewrite Eb at 1. cbn [app]. unfold load at 1.
    cbn [Z.ltb Z.compare Z.to_nat nth_error bind].
    destruct (Z.eqb_spec b 0) as [?|_]; [contradiction|]. cbn [negb size_after bind].
    rewrite Nat2Z.id, poke_next, skipn_encoding by assumption.
    rewrite wrap_small by lia.
    replace (Z.of_nat (List.length done) + 1) with (Z.of_nat (List.length (done ++ [c])))
      by (rewrite length_app; cbn [List.length]; lia).
    rewrite IH; [rewrite <- app_assoc; reflexivity | assumption | lia |].
    rewrite length_app. cbn [List.length]. lia.
Qed.

(** X2: a string of codepoints between 1 and 0xFFFF survives the round
    trip: ali_codepoints_to_utf8 builds a NUL-terminated string, whatever
    the static buffer of the encoder held, on which ali_utf8len counts
    the codepoints and ali_utf8_to_codepoints returns them, in order. *)
Theorem utf8_string_roundtrip (codepoints static : list Z) :
  Forall (fun c => 0 < c <= 0xFFFF) codepoints ->
  List.length static = 5%nat ->
  Z.of_nat (List.length codepoints) < 2 ^ 60 ->
  exists utf8 static',
    ali_codepoints_to_utf8 codepoints (Z.of_nat (List.length codepoints)) static =
      Done (utf8, static') /\
    ali_utf8len (S (List.length codepoints)) utf8 =
      Done (Z.of_nat (List.length codepoints)) /\
    ali_utf8_to_codepoints (S (List.length codepoints)) utf8 =
      Done (map Some codepoints, Z.of_nat (List.length codepoints)).
Proof.
  intros Hv Hs Hn.
  assert (M : size_modulus = 2 ^ 64) by reflexivity.
  destruct (fill_loop_spec codepoints [] [] static Hv Hs) as (static' & Ef & _).
  pose proof (real_len_loop_spec codepoints [] 0 Hv) as Er.
  cbn [app List.length Z.of_nat] in Ef, Er.
  exists (flat_map encoding codepoints ++ [0]), static'.
  assert (El : ali_utf8len (S (List.length codepoints))
                           (flat_map encoding codepoints ++ [0]) =
               Done (Z.of_nat (List.length codepoints))).
  { unfold ali_utf8len. rewrite utf8len_loop_spec; [reflexivity|assumption|lia|lia|lia]. }
  split; [|split].
  - unfold ali_codepoints_to_utf8. rewrite Nat2Z.id, Er by lia. cbn [bind].
    rewrite Ef. cbn [bind]. rewrite Z.add_0_l, Z.eqb_refl. reflexivity.
  - exact El.
  - unfold ali_utf8_to_codepoints. rewrite El. cbn [bind].
    rewrite wrap_small by lia.
    replace (Z.of_nat (List.length codepoints) * 4 / 4)
      with (Z.of_nat (List.length codepoints)) by (rewrite Z.div_mul; lia).
    rewrite Nat2Z.id.
    pose proof (to_codepoints_loop_spec codepoints [] (S (List.length codepoints)) [] Hv)
      as Ec.
    cbn [map app List.length Z.of_nat] in Ec. rewrite Ec by lia. reflexivity.
Qed.

Lemma utf8_string_roundtrip_witness :
  exists utf8 static',
    ali_codepoints_to_utf8 [0x41; 0xE9; 0x20AC] 3 [0xE2; 0x82; 0xAC; 0; 0] =
      Done (utf8, static') /\
    ali_utf8len 4 utf8 = Done 3 /\
    ali_utf8_to_codepoints 4 utf8 = Done ([Some 0x41; Some 0xE9; Some 0x20AC], 3).
Proof.
  apply (utf8_string_roundtrip [0x41; 0xE9; 0x20AC] [0xE2; 0x82; 0xAC; 0; 0]).
  - repeat constructor; lia.
  - reflexivity.
  - cbn. lia.
Defined.

(** *** Bytes that open no sequence *)

Lemma bad_lead_no_lead (b : Z) :
  0x80 <= b <= 0xBF \/ 0xF8 <= b <= 0xFF -> no_lead b = true /\ b <> 0.
Proof.
  intros H.
  assert (E : bad_lead_ok b = true)
    by (apply (all_from_sound bad_lead_ok 256 0); [vm_compute; reflexivity | lia]).
  unfold bad_lead_ok in E.
  replace (((0x80 <=? b) && (b <=? 0xBF)) || ((0xF8 <=? b) && (b <=? 0xFF))) with true in E.
  - apply andb_prop in E. destruct E as [E1 E2].
    apply negb_true_iff, Z.eqb_neq in E2. auto.
  - symmetry. apply orb_true_iff.
    destruct H as [H|H]; [left|right]; apply andb_true_iff; split; apply Z.leb_le; lia.
Qed.

Lemma ali_utf8c_to_codepoint_no_lead (b : Z) (rest : list Z) (sz : option Z) :
  no_lead b = true ->
  ali_utf8c_to_codepoint (b :: rest) sz = Done (to_u32 (-1), sz).
Proof.
  unfold no_lead. intros H.
  repeat (apply andb_prop in H; destruct H as [H ?]).
  repeat match goal with
         | H : negb _ = true |- _ => apply negb_true_iff in H
         end.
  unfold ali_utf8c_to_codepoint, load.
  cbn [Z.ltb Z.compare Z.to_nat nth_error bind].
  repeat match goal with
         | H : ?c = false |- context [if ?c then _ else _] => rewrite H
         end.
  reflexivity.
Qed.

Lemma utf8len_loop_no_lead (b : Z) (rest : list Z) :
  no_lead b = true -> b <> 0 ->
  forall fuel len, utf8len_loop fuel (b :: rest) len = Timeout.
Proof.
  intros Hn Hb. induction fuel as [|fuel IH]; intros len; [reflexivity|].
  cbn [utf8len_loop]. unfold load at 1.
  cbn [Z.ltb Z.compare Z.to_nat nth_error bind].
  destruct (Z.eqb_spec b 0) as [?|_]; [contradiction|]. cbn [negb].
  rewrite ali_utf8c_to_codepoint_no_lead by assumption.
  cbn [bind size_after Z.to_nat skipn]. apply IH.
Qed.

(** X3: on a string that begins with a byte that opens no sequence (a
    continuation byte 0x80..0xBF, or 0xF8..0xFF), the decoder leaves the
    size variable at 0, so the loop of ali_utf8len never leaves that
    byte: it is still running after any number of turns, and so is
    ali_utf8_to_codepoints, which calls it first. *)
Theorem ali_utf8len_never_ends_on_bad_lead (b : Z) (rest : list Z) (fuel : nat) :
  0x80 <= b <= 0xBF \/ 0xF8 <= b <= 0xFF ->
  ali_utf8c_to_codepoint (b :: rest) (Some 0) = Done (0xFFFFFFFF, Some 0) /\
  ali_utf8len fuel (b :: rest) = Timeout /\
  ali_utf8_to_codepoints fuel (b :: rest) = Timeout.
Proof.
  intros H. destruct (bad_lead_no_lead b H) as [Hn Hb].
  split; [apply (ali_utf8c_to_codepoint_no_lead b rest (Some 0) Hn)|].
  assert (E : ali_utf8len fuel (b :: rest) = Timeout)
    by (apply utf8len_loop_no_lead; assumption).
  split; [exact E|]. unfold ali_utf8_to_codepoints. rewrite E. reflexivity.
Qed.

Lemma ali_utf8len_never_ends_on_bad_lead_witness :
  ali_utf8c_to_codepoint [0x80; 0x41; 0] (Some 0) = Done (0xFFFFFFFF, Some 0) /\
  ali_utf8len 1000 [0x80; 0x41; 0] = Timeout /\
  ali_utf8_to_codepoints 1000 [0x80; 0x41; 0] = Timeout.
Proof.
  apply (ali_utf8len_never_ends_on_bad_lead 0x80 [0x41; 0] 1000). left. lia.
Defined.

End Utf8.

(* ================================================================== *)
(** * ali_sv *)
(* ================================================================== *)

Module Sv.

(** <<
typedef struct { char* start; size_t len; } AliSv;
>>
    A [char*] is NULL ([None]) or points at an index of the buffer the
    view was cut from. *)
Record AliSv : Type := { start : option Z; len : Z }.

(** The characters a view denotes. *)
Definition chars (mem : list ascii) (sv : AliSv) : list ascii :=
  match start sv with
  | Some p => firstn (Z.to_nat (len sv)) (skipn (Z.to_nat p) mem)
  | None => []
  end.

(** [ali_sv_from_cstr(cstr)] for the string that fills [mem] up to its
    terminating NUL. *)
Definition ali_sv_from_cstr (cstr : string) : list ascii * AliSv :=
  (list_ascii_of_string cstr ++ [zero],
   {| start := Some 0; len := Z.of_nat (String.length cstr) |}).

(** <<
void ali_sv_step(AliSv* self) {
    if (self->start == NULL || self->len == 0) return;
    self->start += 1;
    self->len -= 1;
}
>> *)
Definition ali_sv_step (self : AliSv) : AliSv :=
  match start self with
  | None => self
  | Some p =>
      if len self =? 0 then self
      else {| start := Some (p + 1); len := to_size_t (len self - 1) |}
  end.

Definition deref (mem : list ascii) (p : option Z) : result ascii :=
  match p with
  | Some i => load mem i
  | None => Fault
  end.

(** The loop of ali_sv_chop_by_c:
<<
    while ( *self->start != c ) {
        ali_sv_step(self);
        if (self->len == 0) break;
    }
>> *)
Fixpoint chop_loop (mem : list ascii) (fuel : nat) (c : ascii) (self : AliSv)
  : result AliSv :=
  match fuel with
  | O => Timeout
  | S fuel =>
      (ch <- deref mem (start self) ;;
       if negb (Ascii.eqb ch c) then
         let self := ali_sv_step self in
         if len self =? 0 then Done self
         else chop_loop mem fuel c self
       else Done self)%result
  end.

(** <<
AliSv ali_sv_chop_by_c(AliSv* self, char c) {
    AliSv chopped = { .start = self->start, .len = 0 };
    while ( ... ) { ... }
    ali_sv_step(self);
    chopped.len = self->start - chopped.start;
    return chopped;
}
>>
    The result is the returned view and the caller's view as the call
    leaves it. Every turn of the loop that does not leave it shortens
    the view, so [len + 1] turns are all it can take. *)
Definition ali_sv_chop_by_c (mem : list ascii) (self : AliSv) (c : ascii)
  : result (AliSv * AliSv) :=
  let chopped_start := start self in
  (self <- chop_loop mem (S (Z.to_nat (len self))) c self ;;
   let self := ali_sv_step self in
   match start self, chopped_start with
   | Some p, Some p0 =>
       Done ({| start := chopped_start; len := to_size_t (p - p0) |}, self)
   | _, _ => Fault
   end)%result.

(** The position of the first occurrence of [c] in a list. *)
Fixpoint first_index (c : ascii) (l : list ascii) : option nat :=
  match l with
  | [] => None
  | x :: rest =>
      if Ascii.eqb x c then Some O
      else match first_index c rest with
           | Some i => Some (S i)
           | None => None
           end
  end.

(** Three calls in a row, each on the view the previous one left. *)
Definition chop3 (mem : list ascii) (sv : AliSv) (c : ascii)
  : result (list (list ascii) * AliSv) :=
  ('(a, sv) <- ali_sv_chop_by_c mem sv c ;;
   '(b, sv) <- ali_sv_chop_by_c mem sv c ;;
   '(d, sv) <- ali_sv_chop_by_c mem sv c ;;
   Done ([chars mem a; chars mem b; chars mem d], sv))%result.

(** Pointer arithmetic [p + n] on a [char*]. NULL plus zero is NULL;
    NULL plus anything else is given no meaning. *)
Definition ptr_add (p : option Z) (n : Z) : result (option Z) :=
  match p with
  | Some i => Done (Some (i + n))
  | None => if n =? 0 then Done None else Fault
  end.

(** <<
#define ali_sv_from_parts(start_, len_) ((AliSv) { .start = start_, .len = len_ })
>> *)
Definition ali_sv_from_parts (start_ : option Z) (len_ : Z) : AliSv :=
  {| start := start_; len := len_ |}.

(** <<
AliSv ali_sv_trim_left(AliSv self) {
    while (self.len > 0 && isspace( *self.start )) {
        ali_sv_step(&self);
    }
    return self;
}
>>
    Every turn shortens the view, so [len + 1] turns are all the loop
    can take. *)
Fixpoint trim_left_loop (mem : list ascii) (fuel : nat) (self : AliSv)
  : result AliSv :=
  match fuel with
  | O => Timeout
  | S fuel =>
      if 0 <? len self then
        (ch <- deref mem (start self) ;;
         if Libc.isspace ch then trim_left_loop mem fuel (ali_sv_step self)
         else Done self)%result
      else Done self
  end.

Definition ali_sv_trim_left (mem : list ascii) (self : AliSv) : result AliSv :=
  trim_left_loop mem (S (Z.to_nat (len self))) self.

(** <<
AliSv ali_sv_trim_right(AliSv self) {
    while (self.len > 0 && isspace(self.start[self.len - 1])) {
        self.len -= 1;
    }
    return self;
}
>> *)
Fixpoint trim_right_loop (mem : list ascii) (fuel : nat) (self : AliSv)
  : result AliSv :=
  match fuel with
  | O => Timeout
  | S fuel =>
      if 0 <? len self then
        (p <- ptr_add (start self) (len self - 1) ;;
         ch <- deref mem p ;;
         if Libc.isspace ch then
           trim_right_loop mem fuel
             {| start := start self; len := to_size_t (len self - 1) |}
         else Done self)%result
      else Done self
  end.

Definition ali_sv_trim_right (mem : list ascii) (self : AliSv) : result AliSv :=
  trim_right_loop mem (S (Z.to_nat (len self))) self.

(** <<
AliSv ali_sv_trim(AliSv self) {
    return ali_sv_trim_left(ali_sv_trim_right(self));
}
>> *)
Definition ali_sv_trim (mem : list ascii) (self : AliSv) : result AliSv :=
  (self <- ali_sv_trim_right mem self ;; ali_sv_trim_left mem self)%result.

(** <<
AliSv ali_sv_chop_left(AliSv* self, size_t n) {
    if (self->len < n) n = self->len;
    AliSv chunk = ali_sv_from_parts(self->start, n);
    self->start += n;
    self->len -= n;
    return chunk;
}
>>
    The result is the chunk and the caller's view as the call leaves
    it. *)
Definition ali_sv_chop_left (self : AliSv) (n : Z) : result (AliSv * AliSv) :=
  let n := if len self <? n then len self else n in
  let chunk := ali_sv_from_parts (start self) n in
  (p <- ptr_add (start self) n ;;
   Done (chunk, {| start := p; len := to_size_t (len self - n) |}))%result.

(** <<
AliSv ali_sv_chop_right(AliSv* self, size_t n) {
    if (self->len < n) n = self->len;
    AliSv chunk = ali_sv_from_parts(self->start + self->len - n, n);
    self->len -= n;
    return chunk;
}
>> *)
Definition ali_sv_chop_right (self : AliSv) (n : Z) : result (AliSv * AliSv) :=
  let n := if len self <? n then len self else n in
  (p <- ptr_add (start self) (len self) ;;
   p <- ptr_add p (- n) ;;
   Done (ali_sv_from_parts p n,
         {| start := start self; len := to_size_t (len self - n) |}))%result.

(** <<
bool ali_sv_eq(AliSv left, AliSv right) {
    bool eq = left.len == right.len;
    for (size_t i = 0; eq && i < left.len; ++i) {
        eq &= left.start[i] == right.start[i];
    }
    return eq;
}
>>
    [eq_loop] is the loop from [i] on while [eq] holds; [turns] is the
    number of turns left, [left.len - i]. *)
Fixpoint eq_loop (mem : list ascii) (left right : AliSv) (i : Z) (turns : nat)
  : result bool :=
  match turns with
  | O => Done true
  | S turns =>
      (pl <- ptr_add (start left) i ;;
       a <- deref mem pl ;;
       pr <- ptr_add (start right) i ;;
       b <- deref mem pr ;;
       if Ascii.eqb a b then eq_loop mem left right (i + 1) turns
       else Done false)%result
  end.

Definition ali_sv_eq (mem : list ascii) (left right : AliSv) : result bool :=
  if len left =? len right
  then eq_loop mem left right 0 (Z.to_nat (len left))
  else Done false.

(** <<
bool ali_sv_starts_with(AliSv self, AliSv prefix) {
    if (self.len < prefix.len) return false;
    return ali_sv_eq(ali_sv_from_parts(self.start, prefix.len), prefix);
}
>> *)
Definition ali_sv_starts_with (mem : list ascii) (self prefix : AliSv)
  : result bool :=
  if len self <? len prefix then Done false
  else ali_sv_eq mem (ali_sv_from_parts (start self) (len prefix)) prefix.

(** <<
bool ali_sv_ends_with(AliSv self, AliSv suffix) {
    if (self.len < suffix.len) return false;
    return ali_sv_eq(ali_sv_from_parts(self.start + self.len - suffix.len, suffix.len), suffix);
}
>> *)
Definition ali_sv_ends_with (mem : list ascii) (self suffix : AliSv)
  : result bool :=
  if len self <? len suffix then Done false
  else
    (p <- ptr_add (start self) (len self) ;;
     p <- ptr_add p (- len suffix) ;;
     ali_sv_eq mem (ali_sv_from_parts p (len suffix)) suffix)%result.

(** A view that lies inside the buffer: it starts at index [p] and its
    [len] characters are all there. *)
Definition inside (mem : list ascii) (sv : AliSv) : Prop :=
  exists p : nat,
    start sv = Some (Z.of_nat p) /\
    0 <= len sv < size_modulus /\
    Z.of_nat p + len sv <= Z.of_nat (List.length mem).

(** Is [a] the beginning of [b]? *)
Fixpoint prefix_of (a b : list ascii) : bool :=
  match a, b with
  | [], _ => true
  | x :: a', y :: b' => Ascii.eqb x y && prefix_of a' b'
  | _ :: _, [] => false
  end.

(** A text without its leading blanks. *)
Fixpoint drop_spaces (s : list ascii) : list ascii :=
  match s with
  | [] => []
  | c :: rest => if Libc.isspace c then drop_spaces rest else s
  end.

(** ** Properties *)

Lemma load_skipn {A : Type} (mem : list A) (p : nat) (x : A) (rest : list A) :
  skipn p mem = x :: rest -> load mem (Z.of_nat p) = Done x.
Proof.
  intros H. unfold load.
  destruct (Z.ltb_spec (Z.of_nat p) 0) as [E|E]; [lia|].
  rewrite Nat2Z.id. clear E.
  revert mem H; induction p as [|p IH]; intros [|y mem] H;
    cbn [skipn nth_error] in *; try discriminate.
  - congruence.
  - apply IH. exact H.
Qed.

Lemma skipn_S_tail {A : Type} (mem : list A) (p : nat) (x : A) (rest : list A) :
  skipn p mem = x :: rest -> skipn (S p) mem = rest.
Proof.
  revert mem; induction p as [|p IH]; intros [|y mem] H; simpl in *;
    try discriminate.
  - congruence.
  - destruct mem; [destruct p; discriminate|]. apply (IH (a :: mem)). exact H.
Qed.

(** The loop ends within the fuel ali_sv_chop_by_c gives it: every turn
    that does not leave it shortens the view by one character. *)
Lemma chop_loop_ends (mem : list ascii) (c : ascii) (fuel : nat) :
  forall self : AliSv,
    0 <= len self < size_modulus ->
    (Z.to_nat (len self) < fuel)%nat ->
    chop_loop mem fuel c self <> Timeout.
Proof.
  induction fuel as [|fuel IH]; intros self Hlen Hfuel; [lia|].
  cbn [chop_loop].
  destruct self as [[p|] n]; cbn [deref start len] in *; [|discriminate].
  unfold load. destruct (p <? 0); [discriminate|].
  destruct (nth_error mem (Z.to_nat p)) as [ch|]; [|discriminate].
  cbn [bind]. destruct (negb (Ascii.eqb ch c)); [|discriminate].
  unfold ali_sv_step. cbn [start len].
  destruct (Z.eqb_spec n 0) as [->|Hn0]; [cbn [len]; discriminate|].
  cbn [len].
  assert (E : to_size_t (n - 1) = n - 1)
    by (unfold to_size_t; apply Z.mod_small; lia).
  rewrite E.
  destruct (Z.eqb_spec (n - 1) 0); [discriminate|].
  apply IH; cbn [len]; lia.
Qed.

(** The loop stops on the first occurrence of the separator when there
    is one inside the view. *)
Lemma chop_loop_found (mem : list ascii) (c : ascii) :
  forall (i fuel p : nat) (n : Z),
    first_index c (firstn (Z.to_nat n) (skipn p mem)) = Some i ->
    n < size_modulus ->
    (i < fuel)%nat ->
    chop_loop mem fuel c {| start := Some (Z.of_nat p); len := n |} =
    Done {| start := Some (Z.of_nat (p + i)); len := n - Z.of_nat i |}.
Proof.
  induction i as [|i IH]; intros fuel p n Hfirst Hn Hfuel;
    (destruct fuel as [|fuel]; [lia|]);
    destruct (Z.to_nat n) as [|k] eqn:Hk; simpl in Hfirst; try discriminate;
    destruct (skipn p mem) as [|x rest] eqn:Hs; simpl in Hfirst; try discriminate;
    simpl; rewrite (load_skipn _ _ _ _ Hs); simpl;
    destruct (Ascii.eqb x c) eqn:Hx; simpl.
  - rewrite Nat.add_0_r, Z.sub_0_r. reflexivity.
  - destruct (first_index c (firstn k rest)); discriminate.
  - discriminate.
  - destruct (first_index c (firstn k rest)) as [i'|] eqn:Hrest; [|discriminate].
    assert (i' = i) by congruence. subst i'.
    unfold ali_sv_step; cbn [start len].
    destruct (Z.eqb_spec n 0) as [Hn0|Hn0]; [lia|].
    assert (Hlen : to_size_t (n - 1) = n - 1).
    { unfold to_size_t. apply Z.mod_small. lia. }
    rewrite Hlen. cbn [start len].
    assert (Hk' : Z.to_nat (n - 1) = k) by lia.
    destruct k as [|k']; [simpl in Hrest; discriminate|].
    destruct (Z.eqb_spec (n - 1) 0) as [Hn1|Hn1]; [lia|].
    replace (Z.of_nat p + 1) with (Z.of_nat (S p)) by lia.
    rewrite (IH fuel (S p) (n - 1)).
    + f_equal. f_equal; [f_equal; lia | lia].
    + rewrite Hk', (skipn_S_tail _ _ _ _ Hs). exact Hrest.
    + lia.
    + lia.
Qed.

(** What the code returns when the separator occurs in the view, at
    index [i] for the first time: a view of [i + 1] characters, that is
    with the separator as its last character. *)
Lemma ali_sv_chop_by_c_found (mem : list ascii) (c : ascii) (p i : nat) (n : Z) :
  first_index c (firstn (Z.to_nat n) (skipn p mem)) = Some i ->
  n < size_modulus ->
  ali_sv_chop_by_c mem {| start := Some (Z.of_nat p); len := n |} c =
  Done ({| start := Some (Z.of_nat p); len := Z.of_nat i + 1 |},
        {| start := Some (Z.of_nat (p + i) + 1); len := n - Z.of_nat i - 1 |}).
Proof.
  intros Hfirst Hn.
  assert (Hi : (i < Z.to_nat n)%nat).
  { clear Hn. revert i Hfirst. generalize (skipn p mem). generalize (Z.to_nat n).
    induction n0 as [|k IH]; intros [|x l] i H; simpl in H; try discriminate.
    destruct (Ascii.eqb x c); [inversion H; lia|].
    destruct (first_index c (firstn k l)) eqn:E; [|discriminate].
    inversion H; subst. specialize (IH _ _ E). lia. }
  unfold ali_sv_chop_by_c. cbn [start len].
  rewrite (chop_loop_found mem c i _ p n Hfirst Hn) by lia.
  cbn [bind]. unfold ali_sv_step. cbn [start len].
  destruct (Z.eqb_spec (n - Z.of_nat i) 0) as [E|E]; [lia|].
  cbn [start len]. unfold to_size_t.
  rewrite !Z.mod_small by lia.
  do 3 f_equal. lia.
Qed.

(** C5: on the view of "a,b,c", three calls with ',' return "a,", "b,"
    and "c": the first two slices end with the separator (their lengths
    are 2, not 1). The remainder is empty. *)
Theorem ali_sv_chop_by_c_keeps_separator :
  let '(mem, sv) := ali_sv_from_cstr "a,b,c" in
  chop3 mem sv ","%char =
    Done ([list_ascii_of_string "a,"; list_ascii_of_string "b,";
           list_ascii_of_string "c"],
          {| start := Some 5; len := 0 |}) /\
  (exists rest, ali_sv_chop_by_c mem sv ","%char =
                Done ({| start := Some 0; len := 2 |}, rest)).
Proof.
  split; [vm_compute; reflexivity|].
  eexists. vm_compute. reflexivity.
Qed.

(** *** Views inside the buffer

    A view inside the buffer cuts it in three: what lies before the
    view, its characters, and what lies behind it. *)
Lemma chars_at (before body after : list ascii) :
  chars (before ++ body ++ after)
        {| start := Some (Z.of_nat (List.length before));
           len := Z.of_nat (List.length body) |} = body.
Proof.
  unfold chars. cbn [start len]. rewrite !Nat2Z.id.
  rewrite skipn_app, skipn_all, Nat.sub_diag. cbn [skipn app].
  rewrite firstn_app, firstn_all, Nat.sub_diag. cbn [firstn]. apply app_nil_r.
Qed.

Lemma inside_split (mem : list ascii) (sv : AliSv) :
  inside mem sv ->
  exists before after,
    mem = before ++ chars mem sv ++ after /\
    sv = {| start := Some (Z.of_nat (List.length before));
            len := Z.of_nat (List.length (chars mem sv)) |}.
Proof.
  intros (p & Hs & Hl & Hb). destruct sv as [s n]. cbn [start len] in *. subst s.
  exists (firstn p mem), (skipn (Z.to_nat n) (skipn p mem)).
  unfold chars. cbn [start len]. rewrite Nat2Z.id.
  rewrite firstn_skipn, firstn_skipn. split; [reflexivity|].
  rewrite !length_firstn, length_skipn. f_equal; [f_equal|]; lia.
Qed.

Lemma split_inside (before body after : list ascii) :
  Z.of_nat (List.length body) < size_modulus ->
  inside (before ++ body ++ after)
         {| start := Some (Z.of_nat (List.length before));
            len := Z.of_nat (List.length body) |}.
Proof.
  intros H. exists (List.length before). cbn [start len].
  rewrite !length_app. repeat split; lia.
Qed.

Lemma load_at {A : Type} (before after : list A) (x : A) :
  load (before ++ x :: after) (Z.of_nat (List.length before)) = Done x.
Proof.
  unfold load. destruct (Z.ltb_spec (Z.of_nat (List.length before)) 0); [lia|].
  rewrite Nat2Z.id, nth_error_app2, Nat.sub_diag by lia. reflexivity.
Qed.

Lemma to_size_t_small (n : Z) : 0 <= n < size_modulus -> to_size_t n = n.
Proof. intros H. unfold to_size_t. apply Z.mod_small. exact H. Qed.

(** *** ali_sv_chop_by_c without a separator *)

Lemma chop_loop_not_found (c : ascii) :
  forall (body before after : list ascii) (fuel : nat),
    first_index c body = None ->
    body <> [] ->
    Z.of_nat (List.length body) < size_modulus ->
    (List.length body < fuel)%nat ->
    chop_loop (before ++ body ++ after) fuel c
              {| start := Some (Z.of_nat (List.length before));
                 len := Z.of_nat (List.length body) |} =
    Done {| start := Some (Z.of_nat (List.length before + List.length body));
            len := 0 |}.
Proof.
  induction body as [|x rest IH]; intros before after fuel Hnone Hne Hlen Hfuel;
    [congruence|].
  destruct fuel as [|fuel]; [lia|].
  cbn [first_index] in Hnone.
  destruct (Ascii.eqb x c) eqn:Hx; [discriminate|].
  destruct (first_index c rest) eqn:Hrest; [discriminate|].
  cbn [chop_loop deref start]. cbn [app]. rewrite load_at. cbn [bind].
  rewrite Hx. cbn [negb]. unfold ali_sv_step. cbn [start len List.length] in *.
  destruct (Z.eqb_spec (Z.of_nat (S (List.length rest))) 0) as [?|_]; [lia|].
  rewrite to_size_t_small by lia. cbn [len].
  replace (Z.of_nat (S (List.length rest)) - 1) with (Z.of_nat (List.length rest)) by lia.
  replace (Z.of_nat (List.length before) + 1)
    with (Z.of_nat (List.length (before ++ [x]))) by (rewrite length_app; simpl; lia).
  destruct rest as [|y rest'].
  - cbn [List.length Z.of_nat Z.eqb]. rewrite length_app. reflexivity.
  - destruct (Z.eqb_spec (Z.of_nat (List.length (y :: rest'))) 0) as [E|_];
      [cbn [List.length] in E; lia|].
    replace (before ++ x :: (y :: rest') ++ after)
      with ((before ++ [x]) ++ (y :: rest') ++ after)
      by (rewrite <- app_assoc; reflexivity).
    rewrite IH; [|reflexivity|discriminate|cbn [List.length] in *; lia|lia].
    rewrite length_app. cbn [List.length]. do 3 f_equal. lia.
Qed.

(** X4: when the separator does not occur in a view that is inside the
    buffer and not empty, ali_sv_chop_by_c returns the whole view and
    leaves the caller an empty view at its end. *)
Theorem ali_sv_chop_by_c_without_separator (mem : list ascii) (self : AliSv) (c : ascii) :
  inside mem self ->
  0 < len self ->
  first_index c (chars mem self) = None ->
  exists rest,
    ali_sv_chop_by_c mem self c = Done (self, rest) /\
    len rest = 0 /\
    ptr_add (start self) (len self) = Done (start rest).
Proof.
  intros Hin Hpos Hnone.
  assert (Hlen : 0 < len self < size_modulus) by (destruct Hin as (? & _ & ? & _); lia).
  destruct (inside_split mem self Hin) as (before & after & Hmem & Hsv).
  set (body := chars mem self) in *.
  assert (Hbody : body <> []).
  { intros E. rewrite Hsv, E in Hlen. cbn [len List.length] in Hlen. lia. }
  assert (Hl : Z.of_nat (List.length body) < size_modulus).
  { rewrite Hsv in Hlen. cbn [len] in Hlen. lia. }
  eexists. rewrite Hsv at 1 2. rewrite Hmem at 1.
  unfold ali_sv_chop_by_c. cbn [start len]. rewrite Nat2Z.id.
  rewrite (chop_loop_not_found c body before after _ Hnone Hbody Hl) by lia.
  cbn [bind]. unfold ali_sv_step. cbn [start len Z.eqb].
  rewrite to_size_t_small by lia.
  split; [|split].
  - do 3 f_equal. lia.
  - reflexivity.
  - rewrite Hsv. cbn [start len ptr_add]. do 2 f_equal. lia.
Qed.

Lemma ali_sv_chop_by_c_without_separator_witness :
  let '(mem, sv) := ali_sv_from_cstr "abc" in
  exists rest,
    ali_sv_chop_by_c mem sv ","%char = Done (sv, rest) /\
    len rest = 0 /\
    ptr_add (start sv) (len sv) = Done (start rest).
Proof.
  apply (ali_sv_chop_by_c_without_separator
           (fst (ali_sv_from_cstr "abc")) (snd (ali_sv_from_cstr "abc")) ","%char).
  - exists O. cbn. unfold size_modulus, SIZE_WIDTH. repeat split; lia.
  - cbn. lia.
  - reflexivity.
Defined.

(** *** Chopping a number of characters *)

Lemma firstn_plus {A : Type} (n m : nat) (l : list A) :
  firstn (n + m) l = firstn n l ++ firstn m (skipn n l).
Proof.
  revert l; induction n as [|n IH]; intros [|x l]; cbn [Nat.add firstn skipn app];
    try reflexivity.
  - destruct m; reflexivity.
  - rewrite IH. reflexivity.
Qed.

(** X5: ali_sv_chop_left and ali_sv_chop_right cut [min n len]
    characters off a view inside the buffer, without reading it, and
    lose none: the chunk followed by what is left (for chop_right: what
    is left followed by the chunk) is the view as it was. *)
Theorem ali_sv_chop_left_right_split (mem : list ascii) (self : AliSv) (n : Z) :
  inside mem self ->
  0 <= n ->
  exists chunk rest chunk' rest',
    ali_sv_chop_left self n = Done (chunk, rest) /\
    ali_sv_chop_right self n = Done (chunk', rest') /\
    len chunk = Z.min n (len self) /\
    len chunk' = Z.min n (len self) /\
    len rest = len self - Z.min n (len self) /\
    len rest' = len self - Z.min n (len self) /\
    chars mem chunk ++ chars mem rest = chars mem self /\
    chars mem rest' ++ chars mem chunk' = chars mem self.
Proof.
  intros (p & Hs & Hl & Hb) Hn. destruct self as [s l]. cbn [start len] in *. subst s.
  unfold ali_sv_chop_left, ali_sv_chop_right, ali_sv_from_parts.
  cbn [start len ptr_add bind].
  set (m := if l <? n then l else n).
  assert (Hm : m = Z.min n l) by (subst m; destruct (Z.ltb_spec l n); lia).
  assert (Hm' : 0 <= m <= l) by lia.
  rewrite to_size_t_small by lia.
  do 4 eexists. split; [reflexivity|]. split; [reflexivity|].
  cbn [len]. repeat split; try lia; unfold chars; cbn [start len].
  - replace (Z.to_nat (Z.of_nat p + m)) with (Z.to_nat m + Z.to_nat (Z.of_nat p))%nat by lia.
    rewrite <- skipn_skipn, <- firstn_plus. f_equal. lia.
  - replace (Z.to_nat (Z.of_nat p + l + - m))
      with (Z.to_nat (l - m) + Z.to_nat (Z.of_nat p))%nat by lia.
    rewrite <- skipn_skipn, <- firstn_plus. f_equal. lia.
Qed.

Lemma ali_sv_chop_left_right_split_witness :
  let '(mem, sv) := ali_sv_from_cstr "key=value" in
  exists chunk rest chunk' rest',
    ali_sv_chop_left sv 3 = Done (chunk, rest) /\
    ali_sv_chop_right sv 3 = Done (chunk', rest') /\
    len chunk = Z.min 3 (len sv) /\
    len chunk' = Z.min 3 (len sv) /\
    len rest = len sv - Z.min 3 (len sv) /\
    len rest' = len sv - Z.min 3 (len sv) /\
    chars mem chunk ++ chars mem rest = chars mem sv /\
    chars mem rest' ++ chars mem chunk' = chars mem sv.
Proof.
  apply (ali_sv_chop_left_right_split
           (fst (ali_sv_from_cstr "key=value")) (snd (ali_sv_from_cstr "key=value")) 3).
  - exists O. cbn. unfold size_modulus, SIZE_WIDTH. repeat split; lia.
  - lia.
Defined.

(** *** Comparing views *)

Lemma text_eqb_cons (x y : ascii) (a b : list ascii) :
  Libc.text_eqb (x :: a) (y :: b) = Ascii.eqb x y && Libc.text_eqb a b.
Proof.
  unfold Libc.text_eqb.
  destruct (Ascii.eqb_spec x y) as [->|Hne]; cbn [andb].
  - destruct (list_eq_dec ascii_dec a b) as [Hab|Hab];
      destruct (list_eq_dec ascii_dec (y :: a) (y :: b)) as [E|E];
      try reflexivity; [subst; contradiction | inversion E; contradiction].
  - destruct (list_eq_dec ascii_dec (x :: a) (y :: b)) as [E|E];
      [inversion E; contradiction | reflexivity].
Qed.

Lemma text_eqb_refl (a : list ascii) : Libc.text_eqb a a = true.
Proof. unfold Libc.text_eqb. destruct (list_eq_dec ascii_dec a a); congruence. Qed.

Lemma load_chars (mem : list ascii) (p : nat) (n : Z) (i : nat) :
  0 <= n -> Z.of_nat p + n <= Z.of_nat (List.length mem) ->
  (i < Z.to_nat n)%nat ->
  exists x,
    load mem (Z.of_nat p + Z.of_nat i) = Done x /\
    skipn i (firstn (Z.to_nat n) (skipn p mem)) =
    x :: skipn (S i) (firstn (Z.to_nat n) (skipn p mem)).
Proof.
  intros Hn Hb Hi.
  destruct (nth_error mem (p + i)) as [x|] eqn:E.
  2:{ apply nth_error_None in E. lia. }
  exists x. split.
  - unfold load. destruct (Z.ltb_spec (Z.of_nat p + Z.of_nat i) 0); [lia|].
    replace (Z.to_nat (Z.of_nat p + Z.of_nat i)) with (p + i)%nat by lia.
    rewrite E. reflexivity.
  - assert (E' : nth_error (firstn (Z.to_nat n) (skipn p mem)) i = Some x).
    { rewrite nth_error_firstn. destruct (Nat.ltb_spec i (Z.to_nat n)); [|lia].
      rewrite nth_error_skipn. exact E. }
    revert E'. generalize (firstn (Z.to_nat n) (skipn p mem)). clear.
    induction i as [|i IH]; intros [|y l] E; cbn in E; try discriminate.
    + inversion E. reflexivity.
    + cbn [skipn]. rewrite (IH l E). reflexivity.
Qed.

Lemma eq_loop_spec (mem : list ascii) (pl pr : nat) (n : Z) :
  0 <= n ->
  Z.of_nat pl + n <= Z.of_nat (List.length mem) ->
  Z.of_nat pr + n <= Z.of_nat (List.length mem) ->
  forall (turns i : nat),
    (i + turns = Z.to_nat n)%nat ->
    eq_loop mem {| start := Some (Z.of_nat pl); len := n |}
                {| start := Some (Z.of_nat pr); len := n |} (Z.of_nat i) turns =
    Done (Libc.text_eqb (skipn i (firstn (Z.to_nat n) (skipn pl mem)))
                        (skipn i (firstn (Z.to_nat n) (skipn pr mem)))).
Proof.
  intros Hn Hbl Hbr.
  induction turns as [|turns IH]; intros i Hi.
  - cbn [eq_loop]. rewrite !skipn_all2 by (rewrite length_firstn, length_skipn; lia).
    reflexivity.
  - cbn [eq_loop start ptr_add bind deref].
    destruct (load_chars mem pl n i Hn Hbl) as (x & Lx & Sx); [lia|].
    destruct (load_chars mem pr n i Hn Hbr) as (y & Ly & Sy); [lia|].
    rewrite Lx. cbn [bind]. rewrite Ly. cbn [bind].
    rewrite Sx, Sy, text_eqb_cons.
    destruct (Ascii.eqb x y); [|reflexivity]. cbn [andb].
    replace (Z.of_nat i + 1) with (Z.of_nat (S i)) by lia.
    apply IH. lia.
Qed.

Lemma text_eqb_rev (a b : list ascii) :
  Libc.text_eqb (rev a) (rev b) = Libc.text_eqb a b.
Proof.
  unfold Libc.text_eqb.
  destruct (list_eq_dec ascii_dec a b) as [Hab|Hne];
    destruct (list_eq_dec ascii_dec (rev a) (rev b)) as [E|E]; try reflexivity.
  - subst. contradiction.
  - apply (f_equal (@rev ascii)) in E. rewrite !rev_involutive in E. contradiction.
Qed.

Lemma text_eqb_length (a b : list ascii) :
  List.length a <> List.length b -> Libc.text_eqb a b = false.
Proof.
  intros H. unfold Libc.text_eqb.
  destruct (list_eq_dec ascii_dec a b) as [->|]; [contradiction | reflexivity].
Qed.

Lemma chars_length (mem : list ascii) (sv : AliSv) :
  inside mem sv -> List.length (chars mem sv) = Z.to_nat (len sv).
Proof.
  intros (p & Hs & Hl & Hb). unfold chars. rewrite Hs, Nat2Z.id.
  rewrite length_firstn, length_skipn. lia.
Qed.

(** X6: on two views inside the buffer, ali_sv_eq reads no byte
    outside them and returns whether they hold the same characters. *)
Theorem ali_sv_eq_decides (mem : list ascii) (left right : AliSv) :
  inside mem left ->
  inside mem right ->
  ali_sv_eq mem left right =
  Done (Libc.text_eqb (chars mem left) (chars mem right)).
Proof.
  intros Hl Hr.
  pose proof (chars_length mem left Hl) as Ll.
  pose proof (chars_length mem right Hr) as Lr.
  destruct Hl as (pl & Hsl & Hnl & Hbl). destruct Hr as (pr & Hsr & Hnr & Hbr).
  destruct left as [sl nl], right as [sr nr]. cbn [start len] in *. subst sl sr.
  unfold ali_sv_eq. cbn [len].
  destruct (Z.eqb_spec nl nr) as [<-|Hne].
  - unfold chars. cbn [start len]. rewrite !Nat2Z.id.
    apply (eq_loop_spec mem pl pr nl) with (i := O); lia.
  - rewrite text_eqb_length by lia. reflexivity.
Qed.

Lemma ali_sv_eq_decides_witness :
  let mem := list_ascii_of_string "abcabd" in
  let left := {| start := Some 0; len := 3 |} in
  let right := {| start := Some 3; len := 3 |} in
  ali_sv_eq mem left right =
  Done (Libc.text_eqb (chars mem left) (chars mem right)).
Proof.
  apply ali_sv_eq_decides.
  - exists 0%nat. cbn. unfold size_modulus, SIZE_WIDTH. repeat split; lia.
  - exists 3%nat. cbn. unfold size_modulus, SIZE_WIDTH. repeat split; lia.
Defined.

Lemma prefix_of_firstn (a b : list ascii) :
  (List.length a <= List.length b)%nat ->
  Libc.text_eqb (firstn (List.length a) b) a = prefix_of a b.
Proof.
  revert b; induction a as [|x a IH]; intros [|y b] H; cbn [List.length] in *;
    try lia; [apply text_eqb_refl | apply text_eqb_refl |].
  cbn [firstn prefix_of]. rewrite text_eqb_cons, IH by lia.
  f_equal. destruct (Ascii.eqb_spec y x), (Ascii.eqb_spec x y); congruence.
Qed.

Lemma prefix_of_longer (a b : list ascii) :
  (List.length b < List.length a)%nat -> prefix_of a b = false.
Proof.
  revert b; induction a as [|x a IH]; intros [|y b] H; cbn [List.length] in *;
    try lia; [reflexivity|].
  cbn [prefix_of]. rewrite IH by lia. apply andb_false_r.
Qed.

(** X7: on views inside the buffer, ali_sv_starts_with tells whether
    the characters of [prefix] begin those of [self], and
    ali_sv_ends_with whether the characters of [suffix] end them. *)
Theorem ali_sv_starts_ends_with_decide (mem : list ascii) (self other : AliSv) :
  inside mem self ->
  inside mem other ->
  ali_sv_starts_with mem self other =
    Done (prefix_of (chars mem other) (chars mem self)) /\
  ali_sv_ends_with mem self other =
    Done (prefix_of (rev (chars mem other)) (rev (chars mem self))).
Proof.
  intros Hs Ho.
  pose proof (chars_length mem self Hs) as Ls.
  pose proof (chars_length mem other Ho) as Lo.
  unfold ali_sv_starts_with, ali_sv_ends_with.
  destruct (Z.ltb_spec (len self) (len other)) as [Hlt|Hge].
  - assert (Hso := Hs). destruct Hso as (_ & _ & Hn & _).
    assert (Hoo := Ho). destruct Hoo as (_ & _ & Hn' & _).
    rewrite !prefix_of_longer; [auto | rewrite !length_rev; lia | lia].
  - destruct Hs as (p & Hst & Hn & Hb).
    assert (Hoo := Ho). destruct Hoo as (q & Hso & Hno & Hbo).
    split.
    + rewrite ali_sv_eq_decides; [|exists p; cbn [ali_sv_from_parts start len]; repeat split; try assumption; lia|exact Ho].
      f_equal. rewrite <- prefix_of_firstn by lia. f_equal. rewrite Lo.
      unfold chars, ali_sv_from_parts. cbn [start len]. rewrite Hst.
      rewrite firstn_firstn. f_equal. lia.
    + rewrite Hst. cbn [ptr_add bind].
      rewrite ali_sv_eq_decides;
        [|exists (Z.to_nat (Z.of_nat p + len self + - len other));
          cbn [ali_sv_from_parts start len]; repeat split; try lia; f_equal; lia
         |exact Ho].
      f_equal.
      rewrite <- prefix_of_firstn by (rewrite !length_rev; lia).
      rewrite length_rev, Lo.
      assert (E : chars mem (ali_sv_from_parts (Some (Z.of_nat p + len self + - len other))
                                                 (len other)) =
                  skipn (Z.to_nat (len self - len other)) (chars mem self)).
      { unfold chars, ali_sv_from_parts. cbn [start len]. rewrite Hst, Nat2Z.id.
        replace (Z.to_nat (Z.of_nat p + len self + - len other))
          with (Z.to_nat (len self - len other) + p)%nat by lia.
        rewrite <- skipn_skipn.
        rewrite (firstn_skipn_comm (Z.to_nat (len other))). do 2 f_equal. lia. }
      rewrite E, firstn_rev, Ls, text_eqb_rev. do 3 f_equal. lia.
Qed.

Lemma ali_sv_starts_ends_with_decide_witness :
  let mem := list_ascii_of_string "main.c.c" in
  let self := {| start := Some 0; len := 6 |} in
  let other := {| start := Some 6; len := 2 |} in
  ali_sv_starts_with mem self other =
    Done (prefix_of (chars mem other) (chars mem self)) /\
  ali_sv_ends_with mem self other =
    Done (prefix_of (rev (chars mem other)) (rev (chars mem self))).
Proof.
  apply ali_sv_starts_ends_with_decide.
  - exists 0%nat. cbn. unfold size_modulus, SIZE_WIDTH. repeat split; lia.
  - exists 6%nat. cbn. unfold size_modulus, SIZE_WIDTH. repeat split; lia.
Defined.


(** *** Trimming *)

Lemma drop_spaces_suffix (s : list ascii) :
  exists pre, s = pre ++ drop_spaces s.
Proof.
  induction s as [|c s (pre & IH)]; [exists []; reflexivity|].
  cbn [drop_spaces]. destruct (Libc.isspace c).
  - exists (c :: pre). cbn [app]. congruence.
  - exists []. reflexivity.
Qed.

Lemma trim_left_loop_spec :
  forall (body before after : list ascii) (fuel : nat),
    (List.length body < fuel)%nat ->
    Z.of_nat (List.length body) < size_modulus ->
    trim_left_loop (before ++ body ++ after) fuel
                   {| start := Some (Z.of_nat (List.length before));
                      len := Z.of_nat (List.length body) |} =
    Done {| start := Some (Z.of_nat (List.length before + List.length body
                                     - List.length (drop_spaces body)));
            len := Z.of_nat (List.length (drop_spaces body)) |}.
Proof.
  induction body as [|c rest IH]; intros before after fuel Hfuel Hlen;
    (destruct fuel as [|fuel]; [lia|]); cbn [trim_left_loop len start].
  - cbn [List.length Z.of_nat Z.ltb Z.compare drop_spaces].
    do 3 f_equal. lia.
  - cbn [List.length] in *.
    destruct (Z.ltb_spec 0 (Z.of_nat (S (List.length rest)))) as [_|?]; [|lia].
    cbn [deref app]. rewrite load_at. cbn [bind drop_spaces].
    destruct (Libc.isspace c).
    + unfold ali_sv_step. cbn [start len].
      destruct (Z.eqb_spec (Z.of_nat (S (List.length rest))) 0) as [?|_]; [lia|].
      rewrite to_size_t_small by lia.
      replace (Z.of_nat (S (List.length rest)) - 1) with (Z.of_nat (List.length rest)) by lia.
      replace (Z.of_nat (List.length before) + 1)
        with (Z.of_nat (List.length (before ++ [c])))
        by (rewrite length_app; cbn [List.length]; lia).
      replace (before ++ c :: rest ++ after) with ((before ++ [c]) ++ rest ++ after)
        by (rewrite <- app_assoc; reflexivity).
      rewrite IH by lia. rewrite length_app. cbn [List.length].
      do 3 f_equal. lia.
    + cbn [List.length]. do 3 f_equal. lia.
Qed.

Lemma trim_right_loop_spec :
  forall (r before after : list ascii) (fuel : nat),
    (List.length r < fuel)%nat ->
    Z.of_nat (List.length r) < size_modulus ->
    trim_right_loop (before ++ rev r ++ after) fuel
                    {| start := Some (Z.of_nat (List.length before));
                       len := Z.of_nat (List.length r) |} =
    Done {| start := Some (Z.of_nat (List.length before));
            len := Z.of_nat (List.length (drop_spaces r)) |}.
Proof.
  induction r as [|c r IH]; intros before after fuel Hfuel Hlen;
    (destruct fuel as [|fuel]; [lia|]); cbn [trim_right_loop len start].
  - reflexivity.
  - cbn [List.length] in *.
    destruct (Z.ltb_spec 0 (Z.of_nat (S (List.length r)))) as [_|?]; [|lia].
    cbn [ptr_add bind deref rev].
    replace (before ++ (rev r ++ [c]) ++ after) with ((before ++ rev r) ++ c :: after)
      by (rewrite <- !app_assoc; reflexivity).
    replace (Z.of_nat (List.length before) + (Z.of_nat (S (List.length r)) - 1))
      with (Z.of_nat (List.length (before ++ rev r)))
      by (rewrite length_app, length_rev; lia).
    rewrite load_at. cbn [bind drop_spaces].
    destruct (Libc.isspace c); [|reflexivity].
    rewrite to_size_t_small by lia.
    replace (Z.of_nat (S (List.length r)) - 1) with (Z.of_nat (List.length r)) by lia.
    rewrite <- app_assoc. apply IH; lia.
Qed.

(** X8: on a view inside the buffer, ali_sv_trim_left returns the view
    without its leading blanks, ali_sv_trim_right the view without its
    trailing blanks, and ali_sv_trim the view without either; a view of
    blanks only becomes empty. No byte outside the view is read. *)
Theorem ali_sv_trim_strips_blanks (mem : list ascii) (self : AliSv) :
  inside mem self ->
  exists l r t,
    ali_sv_trim_left mem self = Done l /\
    ali_sv_trim_right mem self = Done r /\
    ali_sv_trim mem self = Done t /\
    chars mem l = drop_spaces (chars mem self) /\
    chars mem r = rev (drop_spaces (rev (chars mem self))) /\
    chars mem t = drop_spaces (rev (drop_spaces (rev (chars mem self)))).
Proof.
  intros Hin.
  pose proof (chars_length mem self Hin) as Hlen.
  assert (Hsz : Z.of_nat (List.length (chars mem self)) < size_modulus)
    by (destruct Hin as (? & _ & ? & _); lia).
  destruct (inside_split mem self Hin) as (before & after & Hmem & Hsv).
  set (body := chars mem self) in *. clearbody body. clear Hin Hlen.
  destruct (drop_spaces_suffix body) as (pre & Hpre).
  destruct (drop_spaces_suffix (rev body)) as (post & Hpost).
  set (core := rev (drop_spaces (rev body))).
  assert (Hbody : body = core ++ rev post).
  { subst core. rewrite <- rev_app_distr, <- Hpost. symmetry. apply rev_involutive. }
  destruct (drop_spaces_suffix core) as (pre' & Hpre').
  assert (Lcore : (List.length core <= List.length body)%nat).
  { rewrite Hbody at 1. rewrite length_app. lia. }
  (* the three results *)
  assert (El : ali_sv_trim_left mem self =
               Done {| start := Some (Z.of_nat (List.length (before ++ pre)));
                       len := Z.of_nat (List.length (drop_spaces body)) |}).
  { unfold ali_sv_trim_left. rewrite Hsv, Hmem. cbn [len].
    rewrite Nat2Z.id, trim_left_loop_spec by lia.
    do 3 f_equal. rewrite length_app. rewrite Hpre at 1. rewrite length_app. lia. }
  assert (Er : ali_sv_trim_right mem self =
               Done {| start := Some (Z.of_nat (List.length before));
                       len := Z.of_nat (List.length core) |}).
  { unfold ali_sv_trim_right. rewrite Hsv, Hmem. cbn [len].
    rewrite Nat2Z.id. rewrite <- (rev_involutive body) at 1.
    rewrite <- (length_rev body).
    rewrite trim_right_loop_spec by (rewrite length_rev; lia).
    subst core. rewrite length_rev. reflexivity. }
  assert (Et : ali_sv_trim mem self =
               Done {| start := Some (Z.of_nat (List.length (before ++ pre')));
                       len := Z.of_nat (List.length (drop_spaces core)) |}).
  { unfold ali_sv_trim. rewrite Er. cbn [bind]. unfold ali_sv_trim_left. cbn [len].
    rewrite Hmem. rewrite Hbody at 1. rewrite <- app_assoc, Nat2Z.id.
    rewrite trim_left_loop_spec by lia.
    do 3 f_equal. rewrite length_app. rewrite Hpre' at 1. rewrite length_app. lia. }
  do 3 eexists. split; [exact El|]. split; [exact Er|]. split; [exact Et|].
  split; [|split].
  - rewrite Hmem. rewrite Hpre at 1. rewrite <- app_assoc, app_assoc. apply chars_at.
  - rewrite Hmem. rewrite Hbody at 1. rewrite <- app_assoc. apply chars_at.
  - rewrite Hmem. rewrite Hbody at 1. rewrite Hpre' at 1.
    rewrite <- !app_assoc, app_assoc. apply chars_at.
Qed.

Lemma ali_sv_trim_strips_blanks_witness :
  let '(mem, sv) := ali_sv_from_cstr "  a b  " in
  exists l r t,
    ali_sv_trim_left mem sv = Done l /\
    ali_sv_trim_right mem sv = Done r /\
    ali_sv_trim mem sv = Done t /\
    chars mem l = drop_spaces (chars mem sv) /\
    chars mem r = rev (drop_spaces (rev (chars mem sv))) /\
    chars mem t = drop_spaces (rev (drop_spaces (rev (chars mem sv)))).
Proof.
  apply (ali_sv_trim_strips_blanks
           (fst (ali_sv_from_cstr "  a b  ")) (snd (ali_sv_from_cstr "  a b  "))).
  exists O. cbn. unfold size_modulus, SIZE_WIDTH. repeat split; lia.
Defined.

End Sv.

(* ================================================================== *)
(** * ali_da *)
(* ================================================================== *)

Module Da.

(** <<
#define ALI_DA_DEFAULT_INIT_CAPACITY 8
>> *)
Definition ALI_DA_DEFAULT_INIT_CAPACITY : Z := 8.

Section Items.

(** The element type the macros are used at. *)
Variable Item : Type.

(** <<
typedef struct { size_t count; size_t capacity; ali_u8 data[]; } AliDaHeader;
>>
    [data] is the cells of the block behind the header, one per element
    the block has room for; a cell that was never written holds [None].
    The handle [da] of the macros is NULL ([None]) or the address of
    [data], from which the header is found one header before it. *)
Record AliDaHeader : Type := {
  count : Z;
  capacity : Z;
  data : list (option Item)
}.

Definition handle : Type := option AliDaHeader.

(** <<
AliDaHeader* ali_da_new_header_with_size(size_t init_capacity, size_t item_size) {
    AliDaHeader* h = ALI_MALLOC(sizeof( *h ) + item_size * init_capacity);
    h->count = 0;
    h->capacity = init_capacity;
    return h;
}
>> *)
Definition ali_da_new_header_with_size (init_capacity : Z) : AliDaHeader :=
  {| count := 0;
     capacity := init_capacity;
     data := repeat None (Z.to_nat init_capacity) |}.

(** <<
AliDaHeader* ali_da_get_header_with_size(void* da, size_t item_size) {
    if (da == NULL) return ali_da_new_header_with_size(ALI_DA_DEFAULT_INIT_CAPACITY, item_size);
    return (AliDaHeader* )da - 1;
}
>> *)
Definition ali_da_get_header_with_size (da : handle) : AliDaHeader :=
  match da with
  | None => ali_da_new_header_with_size ALI_DA_DEFAULT_INIT_CAPACITY
  | Some h => h
  end.

(** The loop of ali_da_maybe_resize_with_size on the capacity:
<<
    while (h->count + to_add >= h->capacity) {
        if (h->capacity == 0) h->capacity = ALI_DA_DEFAULT_INIT_CAPACITY;
        else h->capacity *= 2;
    }
>>
    [needed] is the value of [h->count + to_add]. *)
Fixpoint grow (fuel : nat) (needed capacity : Z) : result Z :=
  match fuel with
  | O => Timeout
  | S fuel =>
      if capacity <=? needed then
        grow fuel needed
             (if capacity =? 0 then ALI_DA_DEFAULT_INIT_CAPACITY
              else to_size_t (capacity * 2))
      else Done capacity
  end.

(** The block after [ALI_REALLOC] to room for [capacity] elements: the
    cells it had, cut or followed by cells never written. *)
Definition realloc_cells (cells : list (option Item)) (capacity : Z)
  : list (option Item) :=
  let n := Z.to_nat capacity in
  firstn n cells ++ repeat None (n - List.length cells).

(** The capacity doubles from a value that is at most [needed]; from
    zero or after 64 doublings at the latest it has passed through 8, 16,
    ..., so 128 turns without leaving the loop are a loop that never
    ends. *)
Definition grow_fuel : nat := 128.

(** <<
void* ali_da_maybe_resize_with_size(void* da, size_t to_add, size_t item_size) {
    AliDaHeader* h = ali_da_get_header_with_size(da, item_size);
    if (h->count + to_add >= h->capacity) {
        while (h->count + to_add >= h->capacity) { ... }
        h = ALI_REALLOC(h, sizeof( *h ) + h->capacity * item_size);
    }
    return h->data;
}
>> *)
Definition ali_da_maybe_resize_with_size (da : handle) (to_add : Z)
  : result handle :=
  let h := ali_da_get_header_with_size da in
  let needed := to_size_t (count h + to_add) in
  if capacity h <=? needed then
    (capacity' <- grow grow_fuel needed (capacity h) ;;
     Done (Some {| count := count h;
                   capacity := capacity';
                   data := realloc_cells (data h) capacity' |}))%result
  else Done (Some h).

(** <<
#define ali_da_getlen(da) ((da) == NULL ? 0 : ali_da_get_header(da)->count)
>> *)
Definition ali_da_getlen (da : handle) : Z :=
  match da with
  | None => 0
  | Some _ => count (ali_da_get_header_with_size da)
  end.

(** The write [(da)[i] = item]: outside the cells of the block it is a
    write past the allocation. *)
Fixpoint write_cell (cells : list (option Item)) (i : nat) (item : Item)
  : option (list (option Item)) :=
  match cells, i with
  | [], _ => None
  | _ :: rest, O => Some (Some item :: rest)
  | c :: rest, S j =>
      match write_cell rest j item with
      | Some rest' => Some (c :: rest')
      | None => None
      end
  end.

(** <<
#define ali_da_append(da, item) ((da) = ali_da_maybe_resize(da, 1), \
    (da)[ali_da_get_header_with_size(da, sizeof( *(da) ))->count++] = item)
>> *)
Definition ali_da_append (da : handle) (item : Item) : result handle :=
  (da <- ali_da_maybe_resize_with_size da 1 ;;
   let h := ali_da_get_header_with_size da in
   match write_cell (data h) (Z.to_nat (count h)) item with
   | Some cells =>
       Done (Some {| count := to_size_t (count h + 1);
                     capacity := capacity h;
                     data := cells |})
   | None => Fault
   end)%result.

(** Appending the elements of a list one after the other. *)
Fixpoint append_all (da : handle) (items : list Item) : result handle :=
  match items with
  | [] => Done da
  | item :: rest =>
      (da <- ali_da_append da item ;; append_all da rest)%result
  end.

(** The elements a handle holds: the first [count] cells. *)
Definition elements (da : handle) : list (option Item) :=
  match da with
  | None => []
  | Some h => firstn (Z.to_nat (count h)) (data h)
  end.

(** What every handle built by appends satisfies: the block has one
    cell per unit of capacity, one cell at least is free, and the
    capacity is at most twice the length plus the initial 8. *)
Definition well_formed (h : AliDaHeader) : Prop :=
  0 <= count h < capacity h /\
  capacity h <= 2 * count h + 8 /\
  List.length (data h) = Z.to_nat (capacity h).

End Items.

Arguments count {Item} _.
Arguments capacity {Item} _.
Arguments data {Item} _.
Arguments ali_da_get_header_with_size {Item} da.
Arguments ali_da_maybe_resize_with_size {Item} da to_add.
Arguments ali_da_getlen {Item} da.
Arguments ali_da_append {Item} da item.
Arguments append_all {Item} da items.
Arguments elements {Item} da.
Arguments well_formed {Item} h.

(** The length and the capacity read back after [n] appends to the
    empty (NULL) handle; the elements appended are 0, 1, ..., n-1. *)
Definition after_appends (n : nat) : result (Z * Z) :=
  (da <- append_all (None : handle Z) (map Z.of_nat (seq 0 n)) ;;
   Done (ali_da_getlen da, capacity (ali_da_get_header_with_size da)))%result.

(** The assignment [(da)[i] = cell] of a cell read elsewhere in the
    block; outside the block it is a write past the allocation. *)
Fixpoint put {Item : Type} (cells : list (option Item)) (i : nat) (cell : option Item)
  : option (list (option Item)) :=
  match cells, i with
  | [], _ => None
  | _ :: rest, O => Some (cell :: rest)
  | c :: rest, S j =>
      match put rest j cell with
      | Some rest' => Some (c :: rest')
      | None => None
      end
  end.

(** <<
#define ali_da_reset(da) (ALI_ASSERT((da) != NULL), ali_da_get_header(da)->count = 0)
>>
    ALI_ASSERT is assert: [None] is the abort of a failed assertion. *)
Definition ali_da_reset {Item : Type} (da : handle Item) : option (handle Item) :=
  match da with
  | None => None
  | Some h => Some (Some {| count := 0; capacity := capacity h; data := data h |})
  end.

(** <<
#define ali_da_remove_unordered(da, i) (ALI_ASSERT(i >= 0), \
    (da)[i] = (da)[--ali_da_get_header(da)->count])
>>
    The result is [None] for the abort of the assertion and the handle
    as the macro leaves it otherwise. For a NULL [da] the header that is
    decremented is a fresh one, and the read goes through NULL. *)
Definition ali_da_remove_unordered {Item : Type} (da : handle Item) (i : Z)
  : result (option (handle Item)) :=
  if i <? 0 then Done None
  else
    match da with
    | None => Fault
    | Some h =>
        let count' := to_size_t (count h - 1) in
        match nth_error (data h) (Z.to_nat count') with
        | None => Fault
        | Some cell =>
            match put (data h) (Z.to_nat i) cell with
            | None => Fault
            | Some cells =>
                Done (Some (Some {| count := count';
                                    capacity := capacity h;
                                    data := cells |}))
            end
        end
    end.

(** <<
#define ali_da_remove_ordered(da, i) (ALI_ASSERT(i >= 0), \
    memmove(da + i, da + i + 1, (ali_da_get_header(da)->count - i - 1) * sizeof( *(da) )), \
    ali_da_get_header(da)->count--)
>>
    [item_size] is [sizeof( *(da) )]. The bytes moved are a whole number
    of elements unless the multiplication wrapped around, a case that is
    given no meaning; they must lie inside the block. *)
Definition ali_da_remove_ordered {Item : Type} (da : handle Item) (item_size i : Z)
  : result (option (handle Item)) :=
  if i <? 0 then Done None
  else
    match da with
    | None => Fault
    | Some h =>
        let bytes := to_size_t ((count h - i - 1) * item_size) in
        let moved := bytes / item_size in
        if (bytes mod item_size =? 0) &&
           ((i + 1) * item_size + bytes <=? Z.of_nat (List.length (data h)) * item_size)
        then
          let cells := data h in
          let n := Z.to_nat i in
          let k := Z.to_nat moved in
          Done (Some (Some {| count := to_size_t (count h - 1);
                              capacity := capacity h;
                              data := firstn n cells ++ firstn k (skipn (S n) cells)
                                        ++ skipn (n + k) cells |}))
        else Fault
    end.

(** <<
void* ali_da_free_with_size(void* da, size_t item_size) {
    AliDaHeader* h = ali_da_get_header_with_size(da, item_size);
    ALI_FREE(h);
    return (da = NULL);
}
#define ali_da_free(da) ((da) = ali_da_free_with_size(da, sizeof( *(da) )))
>> *)
Definition ali_da_free {Item : Type} (da : handle Item) : handle Item := None.

(** ** Properties *)

Section Growth.

Variable Item : Type.

Lemma well_formed_new :
  well_formed (ali_da_get_header_with_size (None : handle Item)).
Proof.
  unfold well_formed, ali_da_get_header_with_size, ali_da_new_header_with_size.
  cbn [count capacity data]. rewrite repeat_length.
  unfold ALI_DA_DEFAULT_INIT_CAPACITY. lia.
Qed.

Lemma write_cell_in_range (cells : list (option Item)) (i : nat) (item : Item) :
  (i < List.length cells)%nat ->
  exists cells', write_cell Item cells i item = Some cells' /\
                 List.length cells' = List.length cells.
Proof.
  revert i; induction cells as [|c rest IH]; intros [|j] H; simpl in *; try lia.
  - eexists; split; reflexivity.
  - destruct (IH j) as (rest' & E & L); [lia|].
    rewrite E. eexists; split; [reflexivity|]. simpl. congruence.
Qed.

Lemma realloc_cells_length (cells : list (option Item)) (c : Z) :
  List.length (realloc_cells Item cells c) = Z.to_nat c.
Proof.
  unfold realloc_cells. rewrite length_app, length_firstn, repeat_length. lia.
Qed.

Lemma grow_step (fuel : nat) (needed c : Z) :
  grow (S fuel) needed c =
  if c <=? needed
  then grow fuel needed (if c =? 0 then ALI_DA_DEFAULT_INIT_CAPACITY
                         else to_size_t (c * 2))
  else Done c.
Proof. reflexivity. Qed.

(** One append to a well-formed handle below 2^61 elements: no fault,
    the loop ends, the length grows by one and the capacity is kept or
    doubled. *)
Lemma ali_da_append_well_formed (da : handle Item) (item : Item) :
  let h := ali_da_get_header_with_size da in
  well_formed h ->
  count h < 2 ^ 61 ->
  exists h',
    ali_da_append da item = Done (Some h') /\
    well_formed h' /\
    count h' = count h + 1 /\
    capacity h' = (if capacity h <=? count h + 1 then 2 * capacity h
                   else capacity h).
Proof.
  intros h (Hc & Hcap & Hlen) Hn.
  assert (W : to_size_t (count h + 1) = count h + 1).
  { unfold to_size_t, size_modulus, SIZE_WIDTH. apply Z.mod_small. lia. }
  unfold ali_da_append, ali_da_maybe_resize_with_size. fold h. rewrite W.
  destruct (Z.leb_spec (capacity h) (count h + 1)) as [Hfull|Hroom].
  - assert (W2 : to_size_t (capacity h * 2) = capacity h * 2).
    { unfold to_size_t, size_modulus, SIZE_WIDTH. apply Z.mod_small. lia. }
    change grow_fuel with (S (S 126)).
    rewrite grow_step.
    destruct (Z.leb_spec (capacity h) (count h + 1)) as [_|?]; [|lia].
    destruct (Z.eqb_spec (capacity h) 0) as [?|_]; [lia|].
    rewrite W2, grow_step.
    destruct (Z.leb_spec (capacity h * 2) (count h + 1)) as [?|_]; [lia|].
    cbn [bind ali_da_get_header_with_size data count capacity].
    destruct (write_cell_in_range (realloc_cells Item (data h) (capacity h * 2))
                (Z.to_nat (count h)) item) as (cells' & E & L).
    { rewrite realloc_cells_length. lia. }
    rewrite E. eexists; split; [reflexivity|].
    unfold well_formed; cbn [count capacity data].
    rewrite L, realloc_cells_length, W. repeat split; lia.
  - cbn [bind ali_da_get_header_with_size].
    destruct (write_cell_in_range (data h) (Z.to_nat (count h)) item)
      as (cells' & E & L); [lia|].
    rewrite E. eexists; split; [reflexivity|].
    unfold well_formed; cbn [count capacity data].
    rewrite L, W. repeat split; lia.
Qed.

Lemma ali_da_getlen_count (da : handle Item) :
  ali_da_getlen da = count (ali_da_get_header_with_size da).
Proof. destruct da; reflexivity. Qed.

(** Appending a list of fewer than 2^61 elements succeeds and adds its
    length to the length of the handle. *)
Lemma append_all_length (items : list Item) :
  forall da : handle Item,
    well_formed (ali_da_get_header_with_size da) ->
    ali_da_getlen da + Z.of_nat (List.length items) < 2 ^ 61 ->
    exists da',
      append_all da items = Done da' /\
      well_formed (ali_da_get_header_with_size da') /\
      ali_da_getlen da' = ali_da_getlen da + Z.of_nat (List.length items).
Proof.
  induction items as [|item rest IH]; intros da Hwf Hn.
  - exists da. cbn [append_all List.length]. split; [reflexivity|].
    split; [assumption | lia].
  - cbn [List.length] in Hn. rewrite ali_da_getlen_count in Hn.
    destruct (ali_da_append_well_formed da item Hwf) as (h' & E & Hwf' & Hc & _);
      [lia|].
    destruct (IH (Some h')) as (da' & E' & Hwf'' & Hlen).
    + exact Hwf'.
    + cbn [ali_da_getlen ali_da_get_header_with_size]. lia.
    + exists da'. cbn [append_all]. rewrite E. cbn [bind].
      split; [assumption|]. split; [assumption|].
      rewrite Hlen, (ali_da_getlen_count da).
      cbn [ali_da_getlen ali_da_get_header_with_size List.length]. lia.
Qed.

End Growth.

(** Reading the length back after [n] appends yields [n], for every
    [n] below 2^61. *)
Lemma after_appends_length (n : nat) :
  Z.of_nat n < 2 ^ 61 ->
  exists cap, after_appends n = Done (Z.of_nat n, cap).
Proof.
  intros Hn. unfold after_appends.
  destruct (append_all_length Z (map Z.of_nat (seq 0 n)) None) as (da' & E & _ & L).
  - apply well_formed_new.
  - rewrite length_map, length_seq. simpl. lia.
  - rewrite E. cbn [bind]. eexists. rewrite L, length_map, length_seq.
    reflexivity.
Qed.

(** C6, as the code has it: the length read back after N appends is N
    for N = 0, 1, 8, 9 and 1000; the capacity is 8 up to seven
    elements, and the eighth append already doubles it to 16, because
    the block grows when [count + 1 >= capacity]. *)
Theorem ali_da_append_length_and_capacity :
  map after_appends (seq 0 10) =
    [Done (0, 8); Done (1, 8); Done (2, 8); Done (3, 8); Done (4, 8);
     Done (5, 8); Done (6, 8); Done (7, 8); Done (8, 16); Done (9, 16)] /\
  after_appends 1000 = Done (1000, 1024).
Proof. split; vm_compute; reflexivity. Qed.

(** C6, as stated, fails at N = 8: the capacity read back after eight
    appends is 16 and no longer the initial 8. *)
Lemma ali_da_capacity_after_8_appends :
  after_appends 8 = Done (8, 16) /\
  after_appends 8 <> Done (8, ALI_DA_DEFAULT_INIT_CAPACITY).
Proof. split; [vm_compute; reflexivity | vm_compute; discriminate]. Qed.

Section Contents.

Variable Item : Type.






End Contents.



Section Removal.

Variable Item : Type.

Lemma put_in_range (cells : list (option Item)) (i : nat) (cell : option Item) :
  (i < List.length cells)%nat ->
  put cells i cell = Some (firstn i cells ++ cell :: skipn (S i) cells).
Proof.
  revert i; induction cells as [|c rest IH]; intros [|j] H; cbn [List.length] in H;
    try lia; cbn [put firstn skipn app]; [reflexivity|].
  rewrite IH by lia. reflexivity.
Qed.

Lemma nth_error_put (cells : list (option Item)) (i j : nat) (cell : option Item) :
  (i < List.length cells)%nat ->
  nth_error (firstn i cells ++ cell :: skipn (S i) cells) j =
  if Nat.eqb j i then Some cell else nth_error cells j.
Proof.
  intros Hi.
  assert (L : List.length (firstn i cells) = i) by (rewrite length_firstn; lia).
  destruct (Nat.eqb_spec j i) as [->|Hne].
  - rewrite nth_error_app2, L, Nat.sub_diag by lia. reflexivity.
  - destruct (Nat.lt_ge_cases j i) as [Hlt|Hge].
    + rewrite nth_error_app1 by lia. rewrite nth_error_firstn.
      destruct (Nat.ltb_spec j i); [reflexivity|lia].
    + rewrite nth_error_app2, L by lia.
      destruct (j - i)%nat as [|k] eqn:Ek; [lia|].
      cbn [nth_error]. rewrite nth_error_skipn. f_equal. lia.
Qed.

End Removal.

(** X10: on a handle built by appends, ali_da_remove_unordered at an
    index below the length moves the last element to that index and
    shortens the array by one (so the order of the elements is not
    kept), and the capacity stays. *)
Theorem ali_da_remove_unordered_moves_last (Item : Type) (h : AliDaHeader Item) (i : Z) :
  well_formed h ->
  count h < size_modulus ->
  0 <= i < count h ->
  exists h',
    ali_da_remove_unordered (Some h) i = Done (Some (Some h')) /\
    count h' = count h - 1 /\
    capacity h' = capacity h /\
    forall j : nat,
      Z.of_nat j < count h - 1 ->
      nth_error (elements (Some h')) j =
      nth_error (elements (Some h))
                (if Nat.eqb j (Z.to_nat i) then Z.to_nat (count h - 1) else j).
Proof.
  intros (Hc & _ & Hlen) Hmax Hi.
  unfold ali_da_remove_unordered.
  destruct (Z.ltb_spec i 0) as [?|_]; [lia|].
  assert (W : to_size_t (count h - 1) = count h - 1).
  { unfold to_size_t. apply Z.mod_small. lia. }
  rewrite W.
  destruct (nth_error (data h) (Z.to_nat (count h - 1))) as [cell|] eqn:Ecell.
  2:{ apply nth_error_None in Ecell. lia. }
  rewrite (put_in_range Item) by lia.
  eexists. split; [reflexivity|]. cbn [count capacity data elements].
  split; [reflexivity|]. split; [reflexivity|].
  intros j Hj.
  rewrite !nth_error_firstn.
  destruct (Nat.ltb_spec j (Z.to_nat (count h - 1))) as [_|?]; [|lia].
  rewrite (nth_error_put Item) by lia.
  destruct (Nat.eqb_spec j (Z.to_nat i)) as [Hji|Hji].
  - destruct (Nat.ltb_spec (Z.to_nat (count h - 1)) (Z.to_nat (count h))); [|lia].
    symmetry. exact Ecell.
  - destruct (Nat.ltb_spec j (Z.to_nat (count h))); [reflexivity|lia].
Qed.

Lemma ali_da_remove_unordered_moves_last_witness :
  let h := {| count := 3; capacity := 8;
              data := [Some 10; Some 20; Some 30; None; None; None; None; None] |} in
  exists h',
    ali_da_remove_unordered (Some h) 0 = Done (Some (Some h')) /\
    count h' = count h - 1 /\
    capacity h' = capacity h /\
    forall j : nat,
      Z.of_nat j < count h - 1 ->
      nth_error (elements (Some h')) j =
      nth_error (elements (Some h))
                (if Nat.eqb j (Z.to_nat 0) then Z.to_nat (count h - 1) else j).
Proof.
  apply (ali_da_remove_unordered_moves_last Z
           {| count := 3; capacity := 8;
              data := [Some 10; Some 20; Some 30; None; None; None; None; None] |} 0).
  - unfold well_formed. cbn. lia.
  - cbn. unfold size_modulus, SIZE_WIDTH. lia.
  - cbn. lia.
Defined.

(** X11: on a handle built by appends, ali_da_remove_ordered at an
    index below the length shortens the array by one and keeps the
    other elements in their order: those before the index stay, those
    behind it move down by one. *)
Theorem ali_da_remove_ordered_keeps_order (Item : Type) (h : AliDaHeader Item)
        (item_size i : Z) :
  well_formed h ->
  0 < item_size ->
  capacity h * item_size < size_modulus ->
  0 <= i < count h ->
  exists h',
    ali_da_remove_ordered (Some h) item_size i = Done (Some (Some h')) /\
    count h' = count h - 1 /\
    capacity h' = capacity h /\
    forall j : nat,
      Z.of_nat j < count h - 1 ->
      nth_error (elements (Some h')) j =
      nth_error (elements (Some h)) (if Nat.ltb j (Z.to_nat i) then j else S j).
Proof.
  intros (Hc & _ & Hlen) Hs Hmax Hi.
  unfold ali_da_remove_ordered.
  destruct (Z.ltb_spec i 0) as [?|_]; [lia|].
  assert (Hcap : capacity h < size_modulus) by nia.
  assert (W : to_size_t (count h - 1) = count h - 1).
  { unfold to_size_t. apply Z.mod_small. lia. }
  assert (B : to_size_t ((count h - i - 1) * item_size) = (count h - i - 1) * item_size).
  { unfold to_size_t. apply Z.mod_small. nia. }
  rewrite W, B, Z.mod_mul, Z.div_mul by lia.
  cbn [Z.eqb andb].
  destruct (Z.leb_spec ((i + 1) * item_size + (count h - i - 1) * item_size)
                       (Z.of_nat (List.length (data h)) * item_size)) as [_|?]; [|nia].
  eexists. split; [reflexivity|]. cbn [count capacity data elements].
  split; [reflexivity|]. split; [reflexivity|].
  intros j Hj.
  set (n := Z.to_nat i). set (k := Z.to_nat (count h - i - 1)).
  rewrite !nth_error_firstn.
  destruct (Nat.ltb_spec j (Z.to_nat (count h - 1))) as [_|?]; [|lia].
  assert (Ln : List.length (firstn n (data h)) = n) by (rewrite length_firstn; lia).
  assert (Lk : List.length (firstn k (skipn (S n) (data h))) = k)
    by (rewrite length_firstn, length_skipn; lia).
  destruct (Nat.ltb_spec j n) as [Hlt|Hge].
  - rewrite nth_error_app1 by lia. rewrite nth_error_firstn.
    destruct (Nat.ltb_spec j n); [|lia].
    destruct (Nat.ltb_spec j (Z.to_nat (count h))); [reflexivity|lia].
  - rewrite nth_error_app2, Ln by lia.
    rewrite nth_error_app1 by lia. rewrite nth_error_firstn.
    destruct (Nat.ltb_spec (j - n) k); [|lia].
    rewrite nth_error_skipn.
    destruct (Nat.ltb_spec (S j) (Z.to_nat (count h))); [|lia].
    f_equal. lia.
Qed.

Lemma ali_da_remove_ordered_keeps_order_witness :
  let h := {| count := 3; capacity := 8;
              data := [Some 10; Some 20; Some 30; None; None; None; None; None] |} in
  exists h',
    ali_da_remove_ordered (Some h) 8 0 = Done (Some (Some h')) /\
    count h' = count h - 1 /\
    capacity h' = capacity h /\
    forall j : nat,
      Z.of_nat j < count h - 1 ->
      nth_error (elements (Some h')) j =
      nth_error (elements (Some h)) (if Nat.ltb j (Z.to_nat 0) then j else S j).
Proof.
  apply (ali_da_remove_ordered_keeps_order Z
           {| count := 3; capacity := 8;
              data := [Some 10; Some 20; Some 30; None; None; None; None; None] |} 8 0).
  - unfold well_formed. cbn. lia.
  - lia.
  - cbn. unfold size_modulus, SIZE_WIDTH. lia.
  - cbn. lia.
Defined.

(** X12: removing from an array without elements is not caught. After
    ali_da_reset (which keeps the block and its capacity and sets the
    length to 0), and on the NULL handle, ali_da_remove_unordered and
    ali_da_remove_ordered at any index that is not negative let the
    length wrap around below zero and read outside the block; the
    assertion only stops a negative index. *)
Theorem ali_da_remove_from_empty (Item : Type) (h : AliDaHeader Item) (item_size i : Z) :
  well_formed h ->
  0 < item_size ->
  capacity h * item_size < size_modulus - item_size ->
  0 <= i < size_modulus ->
  exists emptied,
    ali_da_reset (Some h) = Some (Some emptied) /\
    ali_da_getlen (Some emptied) = 0 /\
    capacity emptied = capacity h /\
    ali_da_remove_unordered (Some emptied) i = Fault /\
    ali_da_remove_ordered (Some emptied) item_size i = Fault /\
    ali_da_remove_unordered (None : handle Item) i = Fault /\
    ali_da_remove_ordered (None : handle Item) item_size i = Fault /\
    ali_da_remove_unordered (Some emptied) (-1) = Done None /\
    ali_da_remove_ordered (Some emptied) item_size (-1) = Done None.
Proof.
  intros (Hc & _ & Hlen) Hs Hmax Hi.
  eexists. split; [reflexivity|]. split; [reflexivity|]. split; [reflexivity|].
  assert (M : size_modulus = 2 ^ 64) by reflexivity.
  unfold ali_da_remove_unordered, ali_da_remove_ordered.
  destruct (Z.ltb_spec i 0) as [?|_]; [lia|].
  cbn [count capacity data].
  repeat split.
  - replace (to_size_t (0 - 1)) with (size_modulus - 1) by reflexivity.
    destruct (nth_error (data h) (Z.to_nat (size_modulus - 1))) eqn:E; [|reflexivity].
    assert (Z.to_nat (size_modulus - 1) < List.length (data h))%nat
      by (apply nth_error_Some; congruence).
    nia.
  - set (bytes := to_size_t ((0 - i - 1) * item_size)).
    destruct (Z.eqb_spec (bytes mod item_size) 0) as [_|_]; [|reflexivity].
    cbn [andb].
    destruct (Z.leb_spec ((i + 1) * item_size + bytes)
                         (Z.of_nat (List.length (data h)) * item_size)) as [Hle|_];
      [|reflexivity].
    exfalso.
    assert (Hb : 0 <= bytes < size_modulus)
      by (subst bytes; unfold to_size_t; apply Z.mod_pos_bound; lia).
    assert (Hm : ((i + 1) * item_size + bytes) mod size_modulus = 0).
    { subst bytes. unfold to_size_t. rewrite Zplus_mod_idemp_r.
      replace ((i + 1) * item_size + (0 - i - 1) * item_size) with 0 by ring.
      reflexivity. }
    apply Z.mod_divide in Hm; [|lia]. destruct Hm as [q Hq].
    assert (0 < q) by nia. nia.
Qed.

Lemma ali_da_remove_from_empty_witness :
  let h := {| count := 3; capacity := 8;
              data := [Some 10; Some 20; Some 30; None; None; None; None; None] |} in
  exists emptied,
    ali_da_reset (Some h) = Some (Some emptied) /\
    ali_da_getlen (Some emptied) = 0 /\
    capacity emptied = capacity h /\
    ali_da_remove_unordered (Some emptied) 0 = Fault /\
    ali_da_remove_ordered (Some emptied) 8 0 = Fault /\
    ali_da_remove_unordered (None : handle Z) 0 = Fault /\
    ali_da_remove_ordered (None : handle Z) 8 0 = Fault /\
    ali_da_remove_unordered (Some emptied) (-1) = Done None /\
    ali_da_remove_ordered (Some emptied) 8 (-1) = Done None.
Proof.
  apply (ali_da_remove_from_empty Z
           {| count := 3; capacity := 8;
              data := [Some 10; Some 20; Some 30; None; None; None; None; None] |} 8 0).
  - unfold well_formed. cbn. lia.
  - lia.
  - cbn. unfold size_modulus, SIZE_WIDTH. lia.
  - unfold size_modulus, SIZE_WIDTH. lia.
Defined.

End Da.

(* ================================================================== *)
(** * ali_arena *)
(* ================================================================== *)

Module Arena.

(** <<
#define ALI_REGION_DEFAULT_CAP (4 << 10)
>> *)
Definition ALI_REGION_DEFAULT_CAP : Z := Z.shiftl 4 10.

(** <<
typedef struct AliRegion {
    size_t count; size_t capacity; struct AliRegion* next; ali_u8 data[];
} AliRegion;
typedef struct { AliRegion *start, *end; } AliArena;
typedef struct { AliRegion* r; size_t count; } AliArenaMark;
>>
    The chain that hangs from [start] is the list [regions]: the [next]
    of a region is the region after it in the list, NULL for the last
    one. A pointer to a region is its position in the chain, so [start]
    is NULL exactly when the list is empty; [end_] is the field [end].
    The address of a byte of a region is the position of the region and
    the offset into its [data]. *)
Record AliRegion : Type := { count : Z; capacity : Z }.

Record AliArena : Type := { regions : list AliRegion; end_ : option nat }.

Record AliArenaMark : Type := { r : option nat; mark_count : Z }.

Definition address : Type := (nat * Z)%type.

Definition empty : AliArena := {| regions := []; end_ := None |}.

(** The allocator of the host, as the arena meets it: [host n] tells
    whether ALI_MALLOC has a block for one more region when the chain
    holds [n] of them. The regions of the chain are the memory the
    arena holds, and none is given back before ali_arena_free; a host
    whose memory has an end is one with [host n = false] for some
    [n]. *)
Definition Host : Type := nat -> bool.

(** A call that returns, or the abort of a failed ALI_ASSERT
    ([None]). *)
Definition and_then {A B : Type} (r : result (option A))
           (k : A -> result (option B)) : result (option B) :=
  match r with
  | Done (Some a) => k a
  | Done None => Done None
  | Fault => Fault
  | Timeout => Timeout
  end.

Definition returns {A : Type} (r : result A) : result (option A) :=
  match r with
  | Done a => Done (Some a)
  | Fault => Fault
  | Timeout => Timeout
  end.

(** <<
AliRegion* ali_region_new(size_t capacity) {
    AliRegion* new = ALI_MALLOC(sizeof( *new ) + capacity);
    ALI_ASSERT(new != NULL);
    new->count = 0; new->capacity = capacity; new->next = NULL;
    return new;
}
>>
    [ALI_MALLOC] is whether the allocator of the host returned a block;
    when it did not, the assertion fails and the program is aborted
    ([None]). *)
Definition ali_region_new (ALI_MALLOC : bool) (capacity : Z) : option AliRegion :=
  if ALI_MALLOC then Some {| count := 0; capacity := capacity |} else None.

(** <<
void* ali_region_alloc(AliRegion* self, size_t size) {
    if (self->count + size >= self->capacity) return NULL;
    void* ptr = self->data + self->count;
    self->count += size;
    return ptr;
}
>>
    [None] is the NULL; the offset of the block and the region as the
    call leaves it otherwise. *)
Definition ali_region_alloc (self : AliRegion) (size : Z) : option (Z * AliRegion) :=
  if capacity self <=? to_size_t (count self + size) then None
  else Some (count self,
             {| count := to_size_t (count self + size);
                capacity := capacity self |}).

(** Storing a region back at its place in the chain. *)
Fixpoint set_region (l : list AliRegion) (i : nat) (x : AliRegion) : list AliRegion :=
  match l, i with
  | [], _ => []
  | _ :: rest, O => x :: rest
  | y :: rest, S j => y :: set_region rest j x
  end.

(** The loop of ali_arena_alloc, from the region at position [i]:
<<
    do {
        ptr = ali_region_alloc(region, size);
        if (ptr == NULL) {
            if (region->next == NULL) {
                region->next = ali_region_new(ALI_REGION_DEFAULT_CAP);
            }
            region = region->next;
        }
    } while (ptr == NULL);
>> *)
Fixpoint alloc_loop (host : Host) (fuel : nat) (chain : list AliRegion) (i : nat)
         (size : Z) : result (option (list AliRegion * nat * Z)) :=
  match fuel with
  | O => Timeout
  | S fuel =>
      match nth_error chain i with
      | None => Fault
      | Some region =>
          match ali_region_alloc region size with
          | Some (offset, region') => Done (Some (set_region chain i region', i, offset))
          | None =>
              if Nat.eqb (S i) (List.length chain) then
                match ali_region_new (host (List.length chain)) ALI_REGION_DEFAULT_CAP with
                | None => Done None
                | Some new => alloc_loop host fuel (chain ++ [new]) (S i) size
                end
              else alloc_loop host fuel chain (S i) size
          end
      end
  end.

(** <<
void* ali_arena_alloc(AliArena* self, size_t size) {
    if (self->start == NULL) {
        self->start = ali_region_new(ALI_REGION_DEFAULT_CAP);
        self->end = self->start;
    }
    AliRegion* region = self->end;
    void* ptr;
    do { ... } while (ptr == NULL);
    self->end = region;
    return ptr;
}
>>
    [fuel] bounds the turns of the loop. *)
Definition ali_arena_alloc (host : Host) (fuel : nat) (self : AliArena) (size : Z)
  : result (option (address * AliArena)) :=
  and_then
    match regions self with
    | [] =>
        match ali_region_new (host O) ALI_REGION_DEFAULT_CAP with
        | None => Done None
        | Some new => Done (Some {| regions := [new]; end_ := Some O |})
        end
    | _ :: _ => Done (Some self)
    end
    (fun self =>
       match end_ self with
       | None => Fault
       | Some region =>
           and_then (alloc_loop host fuel (regions self) region size)
                    (fun '(chain, region, offset) =>
                       Done (Some ((region, offset),
                                   {| regions := chain; end_ := Some region |})))
       end).

(** <<
void ali_arena_reset(AliArena* self) {
    for (AliRegion* r = self->start; r != NULL; r = r->next) r->count = 0;
    self->end = self->start;
}
>> *)
Definition clear (x : AliRegion) : AliRegion :=
  {| count := 0; capacity := capacity x |}.

Definition ali_arena_reset (self : AliArena) : AliArena :=
  {| regions := map clear (regions self);
     end_ := match regions self with
             | [] => None
             | _ :: _ => Some O
             end |}.

(** <<
AliArenaMark ali_arena_mark(AliArena* self) {
    return (AliArenaMark) { self->end, self->end->count };
}
>> *)
Definition ali_arena_mark (self : AliArena) : result AliArenaMark :=
  match end_ self with
  | None => Fault
  | Some i =>
      match nth_error (regions self) i with
      | Some region => Done {| r := Some i; mark_count := count region |}
      | None => Fault
      end
  end.

(** <<
void ali_arena_rollback(AliArena* self, AliArenaMark mark) {
    if (mark.r == NULL) {
        ali_arena_reset(self);
        return;
    }
    mark.r->count = mark.count;
    for (AliRegion* r = mark.r; r != NULL; r = r->next) {
        r->count = 0;
    }
    self->end = mark.r;
}
>>
    The loop starts at [mark.r] itself. *)
Definition ali_arena_rollback (self : AliArena) (mark : AliArenaMark)
  : result AliArena :=
  match r mark with
  | None => Done (ali_arena_reset self)
  | Some i =>
      match nth_error (regions self) i with
      | None => Fault
      | Some region =>
          let chain :=
            set_region (regions self) i
              {| count := mark_count mark; capacity := capacity region |} in
          let chain := firstn i chain ++ map clear (skipn i chain) in
          Done {| regions := chain; end_ := Some i |}
      end
  end.

(** A block of [size] bytes at an address lies inside one region. *)
Definition block_inside (self : AliArena) (p : address) (size : Z) : Prop :=
  exists region, nth_error (regions self) (fst p) = Some region /\
                 0 <= snd p /\ snd p + size <= capacity region.

(** What holds of every arena the functions above build from the empty
    one: every region has the default capacity and is filled below it,
    and [end] points into the chain. *)
Definition region_ok (x : AliRegion) : bool :=
  (capacity x =? ALI_REGION_DEFAULT_CAP) && (0 <=? count x) && (count x <? capacity x).

Definition well_formed (self : AliArena) : bool :=
  forallb region_ok (regions self) &&
  match end_ self with
  | None => match regions self with [] => true | _ :: _ => false end
  | Some i => Nat.ltb i (List.length (regions self))
  end.

(** The arena [ali_arena_alloc] works on once it has created the first
    region of an empty one. *)
Definition with_first_region (self : AliArena) : AliArena :=
  match regions self with
  | [] => {| regions := [{| count := 0; capacity := ALI_REGION_DEFAULT_CAP |}];
             end_ := Some O |}
  | _ :: _ => self
  end.

(** The arena after one allocation of one byte from the empty arena. *)
Definition one_byte_used : AliArena :=
  {| regions := [{| count := 1; capacity := ALI_REGION_DEFAULT_CAP |}];
     end_ := Some O |}.

(** Allocations one after the other. *)
Fixpoint alloc_all (host : Host) (fuel : nat) (self : AliArena) (sizes : list Z)
  : result (option AliArena) :=
  match sizes with
  | [] => Done (Some self)
  | size :: rest =>
      and_then (ali_arena_alloc host fuel self size)
               (fun '(_, self) => alloc_all host fuel self rest)
  end.

(** Mark, then the address an allocation of [size] would get at that
    time; then the allocations [between], the rollback to the mark, and
    the address the next allocation of [size] gets. *)
Definition mark_rollback_scenario (host : Host) (fuel : nat) (self : AliArena)
           (between : list Z) (size : Z)
  : result (option (AliArenaMark * address * AliArena * address)) :=
  and_then (returns (ali_arena_mark self)) (fun mark =>
  and_then (ali_arena_alloc host fuel self size) (fun '(at_mark_time, _) =>
  and_then (alloc_all host fuel self between) (fun self =>
  and_then (returns (ali_arena_rollback self mark)) (fun self =>
  and_then (ali_arena_alloc host fuel self size) (fun '(after_rollback, _) =>
  Done (Some (mark, at_mark_time, self, after_rollback))))))).

(** The arena with 16 bytes in use in its first region. *)
Definition sixteen_used : AliArena :=
  {| regions := [{| count := 16; capacity := ALI_REGION_DEFAULT_CAP |}];
     end_ := Some O |}.

(** <<
void ali_arena_free(AliArena* self) {
    while (self->start != NULL) {
        AliRegion* next = self->start->next;
        ALI_FREE(self->start);
        self->start = next;
    }
    self->end = NULL;
}
>>
    Every turn of the loop drops the first region of the chain. *)
Fixpoint free_loop (chain : list AliRegion) : list AliRegion :=
  match chain with
  | [] => []
  | _ :: next => free_loop next
  end.

Definition ali_arena_free (self : AliArena) : AliArena :=
  {| regions := free_loop (regions self); end_ := None |}.

(** <<
void* ali_arena_memdup(AliArena* self, const void* mem, size_t size_bytes) {
    void* data = ali_arena_alloc(self, size_bytes);
    ALI_MEMCPY(data, mem, size_bytes);
    return data;
}
>>
    [mem] is the bytes that can be read from the pointer on. The result
    is the address of the block, the arena, and the bytes memcpy stored
    from that address on; a block that does not lie inside its region
    is a write outside it. *)
Definition ali_arena_memdup (host : Host) (fuel : nat) (self : AliArena)
           (mem : list ascii) (size_bytes : Z)
  : result (option (address * AliArena * list ascii)) :=
  and_then (ali_arena_alloc host fuel self size_bytes) (fun '(data, self) =>
   match nth_error (regions self) (fst data) with
   | None => Fault
   | Some region =>
       if (size_bytes <=? Z.of_nat (List.length mem)) &&
          (snd data + size_bytes <=? capacity region)
       then Done (Some (data, self, firstn (Z.to_nat size_bytes) mem))
       else Fault
   end).

(** [strlen(s)]: the number of bytes before the first NUL; a string
    without one is read past its end. *)
Definition strlen (s : list ascii) : result Z :=
  match Libc.scan Libc.is_nul s with
  | Some n => Done n
  | None => Fault
  end.

(** <<
char* ali_arena_strdup(AliArena* self, const char* cstr) {
    return ali_arena_memdup(self, cstr, strlen(cstr) + 1);
}
>> *)
Definition ali_arena_strdup (host : Host) (fuel : nat) (self : AliArena)
           (cstr : list ascii)
  : result (option (address * AliArena * list ascii)) :=
  (n <- strlen cstr ;;
   ali_arena_memdup host fuel self cstr (to_size_t (n + 1)))%result.


(** ** Properties *)

Lemma region_ok_spec (x : AliRegion) :
  region_ok x = true <->
  capacity x = ALI_REGION_DEFAULT_CAP /\ 0 <= count x < capacity x.
Proof.
  unfold region_ok. rewrite !andb_true_iff, Z.eqb_eq, Z.leb_le, Z.ltb_lt. tauto.
Qed.

Lemma set_region_length (l : list AliRegion) (i : nat) (x : AliRegion) :
  List.length (set_region l i x) = List.length l.
Proof.
  revert i; induction l as [|y l IH]; intros [|i]; simpl; auto.
Qed.

Lemma set_region_same (l : list AliRegion) (i : nat) (x : AliRegion) :
  (i < List.length l)%nat -> nth_error (set_region l i x) i = Some x.
Proof.
  revert i; induction l as [|y l IH]; intros [|i] H; simpl in *; try lia.
  - reflexivity.
  - apply IH. lia.
Qed.

Lemma set_region_forallb (f : AliRegion -> bool) (l : list AliRegion) (i : nat)
      (x : AliRegion) :
  forallb f l = true -> f x = true -> forallb f (set_region l i x) = true.
Proof.
  revert i; induction l as [|y l IH]; intros [|i] H Hx; simpl in *; auto;
    apply andb_true_iff in H; destruct H as [Hy Hl]; apply andb_true_iff; auto.
Qed.

Lemma forallb_nth_error (f : AliRegion -> bool) (l : list AliRegion) (i : nat)
      (x : AliRegion) :
  forallb f l = true -> nth_error l i = Some x -> f x = true.
Proof.
  intros H E. rewrite forallb_forall in H. apply H.
  eapply nth_error_In; eassumption.
Qed.

Lemma default_cap_value : ALI_REGION_DEFAULT_CAP = 4096.
Proof. reflexivity. Qed.

Lemma size_modulus_value : size_modulus = 18446744073709551616.
Proof. reflexivity. Qed.

(** A region filled below the default capacity refuses every request of
    at least that capacity whose sum with the offset stays below 2^64. *)
Lemma ali_region_alloc_refuses (x : AliRegion) (size : Z) :
  region_ok x = true ->
  ALI_REGION_DEFAULT_CAP <= size <= size_modulus - ALI_REGION_DEFAULT_CAP ->
  ali_region_alloc x size = None.
Proof.
  intros Hx Hs. apply region_ok_spec in Hx. destruct Hx as [Hc Hn].
  unfold ali_region_alloc, to_size_t.
  rewrite Z.mod_small by (rewrite default_cap_value in *; lia).
  destruct (Z.leb_spec (capacity x) (count x + size)); [reflexivity | lia].
Qed.

(** What a successful ali_region_alloc returns. *)
Lemma ali_region_alloc_some (x x' : AliRegion) (size offset : Z) :
  ali_region_alloc x size = Some (offset, x') ->
  offset = count x /\ capacity x' = capacity x /\
  count x' = to_size_t (count x + size) /\ count x' < capacity x.
Proof.
  unfold ali_region_alloc.
  destruct (Z.leb_spec (capacity x) (to_size_t (count x + size))); [discriminate|].
  intros E. inversion E; subst. cbn [count capacity]. auto.
Qed.

Lemma ali_region_alloc_keeps_ok (x x' : AliRegion) (size offset : Z) :
  region_ok x = true ->
  ali_region_alloc x size = Some (offset, x') ->
  region_ok x' = true.
Proof.
  intros Hx E. apply ali_region_alloc_some in E. destruct E as (_ & Hc & Hn & Hlt).
  apply region_ok_spec in Hx. apply region_ok_spec.
  rewrite Hc. split; [tauto|]. split; [|lia].
  rewrite Hn. unfold to_size_t. apply Z.mod_pos_bound. reflexivity.
Qed.

(** A request below the default capacity fits a region that is empty. *)
Lemma ali_region_alloc_new (size : Z) :
  0 <= size < ALI_REGION_DEFAULT_CAP ->
  ali_region_alloc {| count := 0; capacity := ALI_REGION_DEFAULT_CAP |} size =
  Some (0, {| count := size; capacity := ALI_REGION_DEFAULT_CAP |}).
Proof.
  intros H. unfold ali_region_alloc. cbn [count capacity].
  unfold to_size_t. rewrite Z.add_0_l.
  rewrite Z.mod_small by (rewrite default_cap_value, size_modulus_value in *; lia).
  destruct (Z.leb_spec ALI_REGION_DEFAULT_CAP size); [lia | reflexivity].
Qed.

Lemma ali_region_new_ok (ALI_MALLOC : bool) (new : AliRegion) :
  ali_region_new ALI_MALLOC ALI_REGION_DEFAULT_CAP = Some new ->
  ALI_MALLOC = true /\
  new = {| count := 0; capacity := ALI_REGION_DEFAULT_CAP |} /\
  region_ok new = true.
Proof.
  unfold ali_region_new. destruct ALI_MALLOC; intros [=]; subst.
  repeat split.
Qed.

Section Loop.

Variable host : Host.

(** The shape of every result of the loop that is a block. *)
Lemma alloc_loop_done (fuel : nat) :
  forall (chain chain' : list AliRegion) (i j : nat) (size offset : Z),
    forallb region_ok chain = true ->
    alloc_loop host fuel chain i size = Done (Some (chain', j, offset)) ->
    forallb region_ok chain' = true /\
    exists x', nth_error chain' j = Some x' /\
               0 <= offset < ALI_REGION_DEFAULT_CAP /\
               count x' = to_size_t (offset + size) /\
               count x' < capacity x' /\
               capacity x' = ALI_REGION_DEFAULT_CAP.
Proof.
  induction fuel as [|fuel IH]; intros chain chain' i j size offset Hok E;
    [discriminate|].
  cbn [alloc_loop] in E.
  destruct (nth_error chain i) as [x|] eqn:Hx; [|discriminate].
  assert (Hxok := forallb_nth_error _ _ _ _ Hok Hx).
  destruct (ali_region_alloc x size) as [[off x']|] eqn:Ha.
  - inversion E; subst; clear E.
    assert (Hi : (j < List.length chain)%nat)
      by (apply nth_error_Some; congruence).
    assert (Hx' := ali_region_alloc_keeps_ok _ _ _ _ Hxok Ha).
    split; [apply set_region_forallb; assumption|].
    exists x'. rewrite set_region_same by assumption.
    apply ali_region_alloc_some in Ha. destruct Ha as (-> & Hc & Hn & Hlt).
    apply region_ok_spec in Hxok, Hx'.
    repeat split; try tauto; try lia.
  - destruct (Nat.eqb (S i) (List.length chain)); [|apply IH in E; assumption].
    destruct (ali_region_new (host (List.length chain)) ALI_REGION_DEFAULT_CAP)
      as [new|] eqn:Hnew; [|discriminate].
    apply ali_region_new_ok in Hnew. destruct Hnew as (_ & _ & Hnok).
    apply IH in E; [exact E|].
    rewrite forallb_app, Hok. cbn [forallb]. rewrite Hnok. reflexivity.
Qed.

(** No turn of the loop can serve a request of at least the default
    capacity (and at most 2^64 minus it): the loop returns no block. *)
Lemma alloc_loop_serves_no_large (fuel : nat) (chain : list AliRegion) (i : nat)
      (size : Z) (r : list AliRegion * nat * Z) :
  forallb region_ok chain = true ->
  ALI_REGION_DEFAULT_CAP <= size <= size_modulus - ALI_REGION_DEFAULT_CAP ->
  alloc_loop host fuel chain i size <> Done (Some r).
Proof.
  intros Hok Hs E. destruct r as [[chain' j] offset].
  destruct (alloc_loop_done _ _ _ _ _ _ _ Hok E)
    as (_ & x' & _ & Hoff & Hc & Hlt & Hcap).
  unfold to_size_t in Hc.
  rewrite Z.mod_small in Hc
    by (rewrite default_cap_value, size_modulus_value in *; lia).
  lia.
Qed.

(** Such a request makes the loop run through the chain and add a
    region on every turn after that: it is still running as long as the
    host gives it regions, and it is aborted when the host does not. *)
Lemma alloc_loop_runs_on (fuel : nat) :
  forall (chain : list AliRegion) (i : nat) (size : Z),
    forallb region_ok chain = true ->
    (i < List.length chain)%nat ->
    ALI_REGION_DEFAULT_CAP <= size <= size_modulus - ALI_REGION_DEFAULT_CAP ->
    (forall n, (List.length chain <= n <= i + fuel)%nat -> host n = true) ->
    alloc_loop host fuel chain i size = Timeout.
Proof.
  induction fuel as [|fuel IH]; intros chain i size Hok Hi Hs Hhost; [reflexivity|].
  cbn [alloc_loop].
  destruct (nth_error chain i) as [x|] eqn:Hx;
    [|apply nth_error_None in Hx; lia].
  rewrite (ali_region_alloc_refuses x size (forallb_nth_error _ _ _ _ Hok Hx) Hs).
  destruct (Nat.eqb_spec (S i) (List.length chain)) as [Hlast|Hmore].
  - rewrite (Hhost (List.length chain)) by lia. cbn [ali_region_new].
    apply IH; [|rewrite length_app; simpl; lia|assumption|].
    + rewrite forallb_app, Hok. reflexivity.
    + intros n Hn. rewrite length_app in Hn. cbn [List.length] in Hn.
      apply Hhost. lia.
  - apply IH; [assumption|lia|assumption|]. intros n Hn. apply Hhost. lia.
Qed.

Lemma alloc_loop_aborts (fuel : nat) :
  forall (chain : list AliRegion) (i : nat) (size : Z) (n : nat),
    forallb region_ok chain = true ->
    (i < List.length chain)%nat ->
    ALI_REGION_DEFAULT_CAP <= size <= size_modulus - ALI_REGION_DEFAULT_CAP ->
    (List.length chain <= n)%nat ->
    host n = false ->
    (n - i <= fuel)%nat ->
    alloc_loop host fuel chain i size = Done None.
Proof.
  induction fuel as [|fuel IH]; intros chain i size n Hok Hi Hs Hn Hfail Hfuel; [lia|].
  cbn [alloc_loop].
  destruct (nth_error chain i) as [x|] eqn:Hx;
    [|apply nth_error_None in Hx; lia].
  rewrite (ali_region_alloc_refuses x size (forallb_nth_error _ _ _ _ Hok Hx) Hs).
  destruct (Nat.eqb_spec (S i) (List.length chain)) as [Hlast|Hmore].
  - destruct (host (List.length chain)) eqn:Hh; cbn [ali_region_new]; [|reflexivity].
    assert (n <> List.length chain) by congruence.
    apply (IH _ _ _ n); [|rewrite length_app; simpl; lia|assumption| |assumption|lia].
    + rewrite forallb_app, Hok. reflexivity.
    + rewrite length_app. cbn [List.length]. lia.
  - apply (IH _ _ _ n); [assumption|lia|assumption|lia|assumption|lia].
Qed.

(** A request below the default capacity is served after at most one
    turn per region of the chain from [i] on, and one more, when the
    host has a block for the region the last turn may need. *)
Lemma alloc_loop_serves (fuel : nat) :
  forall (chain : list AliRegion) (i : nat) (size : Z),
    forallb region_ok chain = true ->
    (i < List.length chain)%nat ->
    (List.length chain - i < fuel)%nat ->
    0 <= size < ALI_REGION_DEFAULT_CAP ->
    host (List.length chain) = true ->
    exists chain' j offset,
      alloc_loop host fuel chain i size = Done (Some (chain', j, offset)) /\
      (j < List.length chain')%nat.
Proof.
  induction fuel as [|fuel IH]; intros chain i size Hok Hi Hfuel Hs Hhost; [lia|].
  cbn [alloc_loop].
  destruct (nth_error chain i) as [x|] eqn:Hx;
    [|apply nth_error_None in Hx; lia].
  destruct (ali_region_alloc x size) as [[off x']|] eqn:Ha.
  - do 3 eexists. split; [reflexivity|]. rewrite set_region_length. exact Hi.
  - destruct (Nat.eqb_spec (S i) (List.length chain)) as [Hlast|Hmore].
    + rewrite Hhost. cbn [ali_region_new].
      destruct fuel as [|fuel']; [lia|].
      cbn [alloc_loop].
      rewrite nth_error_app2 by lia.
      replace (S i - List.length chain)%nat with O by lia.
      cbn [nth_error]. rewrite (ali_region_alloc_new size Hs).
      do 3 eexists. split; [reflexivity|].
      rewrite set_region_length, length_app. simpl. lia.
    + apply IH; [assumption|lia|lia|assumption|assumption].
Qed.




Lemma with_first_region_ok (self : AliArena) :
  well_formed self = true ->
  forallb region_ok (regions (with_first_region self)) = true /\
  exists i, end_ (with_first_region self) = Some i /\
            (i < List.length (regions (with_first_region self)))%nat.
Proof.
  unfold well_formed, with_first_region. intros H.
  apply andb_true_iff in H. destruct H as [Hok Hend].
  destruct (regions self) as [|x l] eqn:Hr.
  - split; [reflexivity|]. exists O. split; [reflexivity|simpl; lia].
  - cbn [regions end_]. rewrite Hr. split; [assumption|].
    destruct (end_ self) as [i|]; [|discriminate].
    exists i. split; [reflexivity|]. apply Nat.ltb_lt. exact Hend.
Qed.

(** ali_arena_alloc is the loop on the arena with its first region,
    unless the host has no block for that region. *)
Lemma ali_arena_alloc_unfold (fuel : nat) (self : AliArena) (size : Z) :
  ali_arena_alloc host fuel self size =
  if match regions self with [] => host O | _ :: _ => true end then
    match end_ (with_first_region self) with
    | None => Fault
    | Some region =>
        and_then (alloc_loop host fuel (regions (with_first_region self)) region size)
                 (fun '(chain, region, offset) =>
                    Done (Some ((region, offset),
                                {| regions := chain; end_ := Some region |})))
    end
  else Done None.
Proof.
  unfold ali_arena_alloc, with_first_region, ali_region_new.
  destruct (regions self); [destruct (host O)|]; reflexivity.
Qed.

(** The functions of the module keep an arena well formed: an
    allocation that returns, whatever the size; ... *)
Lemma ali_arena_alloc_well_formed (fuel : nat) (self self' : AliArena)
      (size : Z) (p : address) :
  well_formed self = true ->
  ali_arena_alloc host fuel self size = Done (Some (p, self')) ->
  well_formed self' = true.
Proof.
  intros Hwf E.
  destruct (with_first_region_ok self Hwf) as (Hok & i & Hend & Hi).
  rewrite ali_arena_alloc_unfold, Hend in E.
  destruct (match regions self with [] => host O | _ :: _ => true end);
    [|discriminate].
  destruct (alloc_loop host fuel (regions (with_first_region self)) i size)
    as [[[[chain' j] off]|]| |] eqn:El; try discriminate.
  cbn [and_then] in E. inversion E; subst; clear E.
  destruct (alloc_loop_done _ _ _ _ _ _ _ Hok El) as (Hok' & x' & Hx' & _).
  unfold well_formed. cbn [regions end_]. rewrite Hok'.
  apply Nat.ltb_lt. apply nth_error_Some. congruence.
Qed.

End Loop.

(** ... a reset; ... *)
Lemma ali_arena_reset_well_formed (self : AliArena) :
  well_formed self = true -> well_formed (ali_arena_reset self) = true.
Proof.
  unfold well_formed, ali_arena_reset. cbn [regions end_].
  intros H. apply andb_true_iff in H. destruct H as [Hok Hend].
  apply andb_true_iff. split.
  - rewrite forallb_forall in Hok |- *. intros y Hy.
    apply in_map_iff in Hy. destruct Hy as (x & <- & Hx).
    specialize (Hok x Hx). apply region_ok_spec in Hok. apply region_ok_spec.
    cbn [clear count capacity]. rewrite default_cap_value in *. lia.
  - destruct (regions self); reflexivity.
Qed.

(** A request of fewer bytes than a region holds is served by a block
    inside a region, when the host has a block for the region the call
    may have to add; the chain grows by one region at most. *)
Lemma ali_arena_alloc_fits (host : Host) (self : AliArena) (size : Z) :
  well_formed self = true ->
  0 <= size < ALI_REGION_DEFAULT_CAP ->
  host (List.length (regions self)) = true ->
  exists fuel p self',
    ali_arena_alloc host fuel self size = Done (Some (p, self')) /\
    (exists x, nth_error (regions self') (fst p) = Some x /\
               0 <= snd p /\ snd p + size <= capacity x).
Proof.
  intros Hwf Hs Hhost.
  assert (M := size_modulus_value). assert (C := default_cap_value).
  destruct (regions self) as [|x0 l0] eqn:Hr.
  - (* the empty arena: the first region, and the block at its start *)
    exists 1%nat, (O, 0),
      {| regions := [{| count := size; capacity := ALI_REGION_DEFAULT_CAP |}];
         end_ := Some O |}.
    rewrite ali_arena_alloc_unfold. unfold with_first_region. rewrite Hr.
    cbn [List.length] in Hhost. rewrite Hhost.
    cbn [end_ regions alloc_loop nth_error].
    rewrite (ali_region_alloc_new size Hs). cbn [set_region and_then].
    split; [reflexivity|]. eexists. cbn [regions fst snd nth_error].
    split; [reflexivity|]. cbn [capacity]. lia.
  - destruct (with_first_region_ok self Hwf) as (Hok & i & Hend & Hi).
    assert (Hfirst : with_first_region self = self)
      by (unfold with_first_region; rewrite Hr; reflexivity).
    rewrite Hfirst in *.
    destruct (alloc_loop_serves host (S (List.length (regions self)) - i)
                (regions self) i size Hok Hi)
      as (chain' & j & off & El & Hj); [lia|lia|rewrite Hr; exact Hhost|].
    destruct (alloc_loop_done _ _ _ _ _ _ _ _ Hok El)
      as (_ & x' & Hx' & Hoff' & Hc & Hlt & Hcap).
    exists (S (List.length (regions self)) - i)%nat,
           (j, off), {| regions := chain'; end_ := Some j |}.
    rewrite ali_arena_alloc_unfold, Hfirst, Hr, Hend. rewrite <- Hr, El.
    split; [reflexivity|].
    exists x'. cbn [regions fst snd]. split; [assumption|].
    unfold to_size_t in Hc. rewrite Z.mod_small in Hc by lia. lia.
Qed.

(** A request of at least the default capacity, and at most 2^64 minus
    it, is served by no call; the call is aborted when the host has no
    block for a region, and it is still running as long as the host has
    one for every region asked for. *)
Lemma ali_arena_alloc_large (host : Host) (self : AliArena) (size : Z) :
  well_formed self = true ->
  ALI_REGION_DEFAULT_CAP <= size <= size_modulus - ALI_REGION_DEFAULT_CAP ->
  (forall fuel r, ali_arena_alloc host fuel self size <> Done (Some r)) /\
  (forall n, (List.length (regions self) <= n)%nat -> host n = false ->
             exists fuel, ali_arena_alloc host fuel self size = Done None) /\
  (forall fuel,
      (forall n, (n <= List.length (regions self) + fuel)%nat -> host n = true) ->
      ali_arena_alloc host fuel self size = Timeout).
Proof.
  intros Hwf Hs.
  destruct (with_first_region_ok self Hwf) as (Hok & i & Hend & Hi).
  split; [|split].
  - intros fuel r E. rewrite ali_arena_alloc_unfold, Hend in E.
    destruct (match regions self with [] => host O | _ :: _ => true end);
      [|discriminate].
    destruct (alloc_loop host fuel (regions (with_first_region self)) i size)
      as [[r'|]| |] eqn:El; try discriminate.
    exact (alloc_loop_serves_no_large host _ _ _ _ r' Hok Hs El).
  - intros n Hn Hfail.
    assert (Hlen : (i < List.length (regions (with_first_region self)))%nat) by exact Hi.
    destruct (regions self) as [|x0 l0] eqn:Hr.
    + destruct (host O) eqn:H0.
      * assert (n <> O) by congruence.
        exists n. rewrite ali_arena_alloc_unfold, Hr, H0, Hend.
        rewrite (alloc_loop_aborts host n _ i size n Hok Hlen Hs); try assumption;
          [reflexivity | | lia].
        unfold with_first_region. rewrite Hr. cbn [regions List.length]. lia.
      * exists O. rewrite ali_arena_alloc_unfold, Hr, H0. reflexivity.
    + exists n. rewrite ali_arena_alloc_unfold, Hr, Hend.
      rewrite (alloc_loop_aborts host n _ i size n Hok Hlen Hs); try assumption;
        [reflexivity | | lia].
      unfold with_first_region. rewrite Hr. cbn [regions]. rewrite Hr. exact Hn.
  - intros fuel Hhost. rewrite ali_arena_alloc_unfold, Hend.
    assert (H0 : match regions self with [] => host O | _ :: _ => true end = true).
    { destruct (regions self); [apply Hhost; lia | reflexivity]. }
    rewrite H0.
    rewrite (alloc_loop_runs_on host fuel _ i size Hok Hi Hs); [reflexivity|].
    intros n Hn. apply Hhost.
    assert (Hil : (i <= List.length (regions self))%nat).
    { unfold with_first_region in Hi.
      destruct (regions self) eqn:Hr; cbn [regions List.length] in Hi;
        [lia | rewrite Hr in Hi; cbn [List.length] in Hi |- *; lia]. }
    lia.
Qed.

(** C9, as the code has it. On an arena built by the functions of the
    module, for a size that is a value of size_t: a block that lies
    inside one region is returned only for a size below the default
    capacity, and for every such size when the host has a block for one
    more region. For every size of at least that capacity and at most
    2^64 minus it (so that no [count + size] wraps around) the call
    returns no block, whatever the host does: every turn of the loop
    asks the host for another region, the call is aborted by
    [ALI_ASSERT(new != NULL)] once the host has none, and it is still
    running for as long as the host has one. *)
Theorem ali_arena_alloc_returns_iff_small (host : Host) (self : AliArena) (size : Z) :
  well_formed self = true ->
  0 <= size < size_modulus ->
  ((exists fuel p self',
       ali_arena_alloc host fuel self size = Done (Some (p, self')) /\
       block_inside self' p size)
   -> size < ALI_REGION_DEFAULT_CAP) /\
  (size < ALI_REGION_DEFAULT_CAP ->
   host (List.length (regions self)) = true ->
   exists fuel p self',
     ali_arena_alloc host fuel self size = Done (Some (p, self')) /\
     block_inside self' p size) /\
  (ALI_REGION_DEFAULT_CAP <= size <= size_modulus - ALI_REGION_DEFAULT_CAP ->
   (forall fuel r, ali_arena_alloc host fuel self size <> Done (Some r)) /\
   (forall n, (List.length (regions self) <= n)%nat -> host n = false ->
              exists fuel, ali_arena_alloc host fuel self size = Done None) /\
   (forall fuel,
       (forall n, (n <= List.length (regions self) + fuel)%nat -> host n = true) ->
       ali_arena_alloc host fuel self size = Timeout)).
Proof.
  intros Hwf Hsize.
  destruct (with_first_region_ok self Hwf) as (Hok & i & Hend & Hi).
  split; [|split].
  - (* a block inside a region was returned: the size is small *)
    intros (fuel & [j off] & self' & E & (x & Hx & Hoff & Hin)).
    rewrite ali_arena_alloc_unfold, Hend in E.
    destruct (match regions self with [] => host O | _ :: _ => true end);
      [|discriminate].
    destruct (alloc_loop host fuel (regions (with_first_region self)) i size)
      as [[[[chain' j'] off']|]| |] eqn:El; try discriminate.
    cbn [and_then] in E. inversion E; subst; clear E.
    destruct (alloc_loop_done _ _ _ _ _ _ _ _ Hok El)
      as (_ & x' & Hx' & Hoff' & Hc & Hlt & Hcap).
    cbn [regions fst snd] in *. rewrite Hx' in Hx. inversion Hx; subst x'.
    unfold to_size_t in Hc.
    rewrite Z.mod_small in Hc
      by (rewrite default_cap_value, size_modulus_value in *; lia).
    lia.
  - (* a small size is served, by a block inside a region *)
    intros Hsmall Hhost.
    destruct (ali_arena_alloc_fits host self size Hwf) as (fuel & p & self' & E & Hin);
      [lia | exact Hhost |].
    exists fuel, p, self'. split; [exact E | exact Hin].
  - (* a large size is served by no region *)
    intros Hlarge. apply ali_arena_alloc_large; assumption.
Qed.

Lemma ali_arena_alloc_returns_iff_small_witness :
  let host : Host := fun n => Nat.ltb n 3 in
  (((exists fuel p self',
        ali_arena_alloc host fuel empty 100 = Done (Some (p, self')) /\
        block_inside self' p 100)
    -> 100 < ALI_REGION_DEFAULT_CAP) /\
   (100 < ALI_REGION_DEFAULT_CAP ->
    host (List.length (regions empty)) = true ->
    exists fuel p self',
      ali_arena_alloc host fuel empty 100 = Done (Some (p, self')) /\
      block_inside self' p 100) /\
   (ALI_REGION_DEFAULT_CAP <= 100 <= size_modulus - ALI_REGION_DEFAULT_CAP ->
    (forall fuel r, ali_arena_alloc host fuel empty 100 <> Done (Some r)) /\
    (forall n, (List.length (regions empty) <= n)%nat -> host n = false ->
               exists fuel, ali_arena_alloc host fuel empty 100 = Done None) /\
    (forall fuel,
        (forall n, (n <= List.length (regions empty) + fuel)%nat -> host n = true) ->
        ali_arena_alloc host fuel empty 100 = Timeout))) /\
  (((exists fuel p self',
        ali_arena_alloc host fuel empty 5000 = Done (Some (p, self')) /\
        block_inside self' p 5000)
    -> 5000 < ALI_REGION_DEFAULT_CAP) /\
   (5000 < ALI_REGION_DEFAULT_CAP ->
    host (List.length (regions empty)) = true ->
    exists fuel p self',
      ali_arena_alloc host fuel empty 5000 = Done (Some (p, self')) /\
      block_inside self' p 5000) /\
   (ALI_REGION_DEFAULT_CAP <= 5000 <= size_modulus - ALI_REGION_DEFAULT_CAP ->
    (forall fuel r, ali_arena_alloc host fuel empty 5000 <> Done (Some r)) /\
    (forall n, (List.length (regions empty) <= n)%nat -> host n = false ->
               exists fuel, ali_arena_alloc host fuel empty 5000 = Done None) /\
    (forall fuel,
        (forall n, (n <= List.length (regions empty) + fuel)%nat -> host n = true) ->
        ali_arena_alloc host fuel empty 5000 = Timeout))) /\
  100 < ALI_REGION_DEFAULT_CAP /\
  host (List.length (regions empty)) = true /\
  ALI_REGION_DEFAULT_CAP <= 5000 <= size_modulus - ALI_REGION_DEFAULT_CAP /\
  host 3%nat = false /\
  (forall n, (n <= List.length (regions empty) + 2)%nat -> host n = true).
Proof.
  intros host.
  split; [|split; [|repeat split; try reflexivity; try discriminate]].
  3:{ intros [|[|[|n]]] Hn; [reflexivity | reflexivity | reflexivity |].
      cbn [regions empty List.length Nat.add] in Hn. lia. }
  - apply (ali_arena_alloc_returns_iff_small host empty 100);
      [reflexivity | rewrite size_modulus_value; lia].
  - apply (ali_arena_alloc_returns_iff_small host empty 5000);
      [reflexivity | rewrite size_modulus_value; lia].
Defined.

(** C9, as stated, fails in two ways. For the largest size_t once a
    byte is in use, [1 + (2^64 - 1)] wraps around to 0, which is below
    the capacity, so the first turn of the loop returns the address
    after that byte. And a request of 5000 bytes does not keep the loop
    running for ever: on a host with memory for three regions the call
    has made the three after three turns, and it is aborted on the
    fourth. *)
Lemma ali_arena_alloc_wraps_around :
  let host : Host := fun n => Nat.ltb n 3 in
  ali_arena_alloc host 1 empty 1 = Done (Some ((O, 0), one_byte_used)) /\
  well_formed one_byte_used = true /\
  ALI_REGION_DEFAULT_CAP <= size_modulus - 1 < size_modulus /\
  ali_arena_alloc host 1 one_byte_used (size_modulus - 1) =
    Done (Some ((O, 1),
                {| regions := [{| count := 0; capacity := ALI_REGION_DEFAULT_CAP |}];
                   end_ := Some O |})) /\
  ali_arena_alloc host 2 empty 5000 = Timeout /\
  ali_arena_alloc host 3 empty 5000 = Done None.
Proof. repeat split; vm_compute; congruence. Qed.

(** *** Mark and rollback *)

Lemma nth_error_clear_from (chain : list AliRegion) (i j : nat) :
  nth_error (firstn i chain ++ map clear (skipn i chain)) j =
  if Nat.ltb j i then nth_error chain j
  else option_map clear (nth_error chain j).
Proof.
  revert chain j; induction i as [|i IH]; intros chain j.
  - cbn [firstn skipn app Nat.ltb Nat.leb]. apply nth_error_map.
  - destruct chain as [|x chain].
    + cbn [firstn skipn map app]. destruct (Nat.ltb j (S i)), j; reflexivity.
    + destruct j as [|j]; [reflexivity|].
      cbn [firstn skipn app nth_error]. rewrite IH. reflexivity.
Qed.

(** What the code does on a mark whose region is in the chain: the
    regions before it are untouched, the marked region and every region
    after it are emptied (the offset of the mark is written and then
    overwritten by the loop), and [end] is the marked region. *)
Lemma ali_arena_rollback_clears_marked (self : AliArena) (i : nat) (c : Z)
      (x : AliRegion) :
  nth_error (regions self) i = Some x ->
  exists self',
    ali_arena_rollback self {| r := Some i; mark_count := c |} = Done self' /\
    end_ self' = Some i /\
    nth_error (regions self') i = Some {| count := 0; capacity := capacity x |} /\
    (forall j, (j < i)%nat -> nth_error (regions self') j = nth_error (regions self) j) /\
    (forall j y, (i < j)%nat -> nth_error (regions self) j = Some y ->
                 nth_error (regions self') j = Some (clear y)).
Proof.
  intros Hx. unfold ali_arena_rollback. cbn [r mark_count]. rewrite Hx.
  eexists. split; [reflexivity|]. cbn [regions end_].
  assert (Hi : (i < List.length (regions self))%nat)
    by (apply nth_error_Some; congruence).
  split; [reflexivity|]. split; [|split].
  - rewrite nth_error_clear_from, Nat.ltb_irrefl, set_region_same by assumption.
    reflexivity.
  - intros j Hj. rewrite nth_error_clear_from.
    destruct (Nat.ltb_spec j i); [|lia].
    clear - Hj. revert i j Hj. induction (regions self) as [|z l IH];
      intros [|i] [|j] Hj; simpl; try lia; auto. apply IH. lia.
  - intros j y Hj Hy. rewrite nth_error_clear_from.
    destruct (Nat.ltb_spec j i); [lia|].
    replace (nth_error (set_region (regions self) i
                          {| count := c; capacity := capacity x |}) j)
      with (nth_error (regions self) j); [rewrite Hy; reflexivity|].
    clear - Hj. revert i j Hj. induction (regions self) as [|z l IH];
      intros [|i] [|j] Hj; simpl; try lia; auto. apply IH. lia.
Qed.

Lemma set_region_other (l : list AliRegion) (i j : nat) (x : AliRegion) :
  i <> j -> nth_error (set_region l i x) j = nth_error l j.
Proof.
  revert i j; induction l as [|y l IH]; intros [|i] [|j] H; simpl; try congruence.
  apply IH. congruence.
Qed.

(** ... and a rollback. *)
Lemma ali_arena_rollback_well_formed (self self' : AliArena) (mark : AliArenaMark) :
  well_formed self = true ->
  ali_arena_rollback self mark = Done self' ->
  well_formed self' = true.
Proof.
  intros Hwf E. unfold ali_arena_rollback in E.
  destruct (r mark) as [i|].
  2:{ inversion E; subst. apply ali_arena_reset_well_formed. exact Hwf. }
  destruct (nth_error (regions self) i) as [x|] eqn:Hx; [|discriminate].
  inversion E; subst; clear E.
  assert (Hi : (i < List.length (regions self))%nat)
    by (apply nth_error_Some; congruence).
  unfold well_formed in *. cbn [regions end_].
  apply andb_true_iff in Hwf. destruct Hwf as [Hok _].
  apply andb_true_iff. split.
  - apply forallb_forall. intros y Hy.
    apply In_nth_error in Hy. destruct Hy as [j Hj].
    rewrite nth_error_clear_from in Hj.
    assert (Hcap : forall z, nth_error (set_region (regions self) i
                     {| count := mark_count mark; capacity := capacity x |}) j = Some z ->
                   capacity z = ALI_REGION_DEFAULT_CAP).
    { intros z Hz. destruct (Nat.eq_dec i j) as [<-|Hne].
      - rewrite set_region_same in Hz by assumption. inversion Hz; subst.
        cbn [capacity]. apply (forallb_nth_error _ _ _ _ Hok) in Hx.
        apply region_ok_spec in Hx. tauto.
      - rewrite set_region_other in Hz by assumption.
        apply (forallb_nth_error _ _ _ _ Hok) in Hz.
        apply region_ok_spec in Hz. tauto. }
    destruct (Nat.ltb_spec j i) as [Hlt|Hge].
    + rewrite set_region_other in Hj by lia.
      apply (forallb_nth_error _ _ _ _ Hok Hj).
    + destruct (nth_error (set_region (regions self) i
                  {| count := mark_count mark; capacity := capacity x |}) j)
        as [z|] eqn:Hz; [|discriminate].
      inversion Hj; subst y. apply region_ok_spec. cbn [clear count capacity].
      rewrite (Hcap z eq_refl), default_cap_value. lia.
  - apply Nat.ltb_lt. rewrite length_app, length_firstn, length_map, length_skipn,
      set_region_length. lia.
Qed.

(** C4: with 16 bytes in use (the arena after one allocation of 16
    bytes, on a host that had a block for the first region), the mark
    records offset 16 and an allocation of 8 bytes would return offset
    16. After the mark, one allocation of 8 bytes and the rollback, the
    offset of the marked region is 0, not 16, and the next allocation
    of 8 bytes returns offset 0: inside the 16 bytes that were in use
    before the mark. No call of the scenario needs a new region, so
    this is what happens on every host. *)
Theorem ali_arena_rollback_loses_marked_offset :
  forall host : Host,
    ali_arena_alloc host 2 empty 16 =
      (if host O then Done (Some ((O, 0), sixteen_used)) else Done None) /\
    mark_rollback_scenario host 2 sixteen_used [8] 8 =
      Done (Some ({| r := Some O; mark_count := 16 |},
                  (O, 16),
                  {| regions := [{| count := 0; capacity := ALI_REGION_DEFAULT_CAP |}];
                     end_ := Some O |},
                  (O, 0))).
Proof.
  intros host. split.
  - unfold ali_arena_alloc, empty, ali_region_new. cbn [regions].
    destruct (host O); reflexivity.
  - reflexivity.
Qed.

(** *** Blocks handed out one after the other *)




(** *** Starting over *)

Lemma free_loop_nil (chain : list AliRegion) : free_loop chain = [].
Proof. induction chain as [|x chain IH]; [reflexivity | exact IH]. Qed.

(** X14: ali_arena_reset keeps every region of the chain and empties
    it, so the arena stays one the module could have built and the next
    allocation of fewer bytes than a region holds is served at once
    from the start of the first region, without a new region; but for
    an arena that had no region, where the call makes the first one and
    is aborted when the host has no block for it.
    ali_arena_free leaves the empty arena. *)
Theorem ali_arena_reset_starts_over (host : Host) (self : AliArena) (size : Z) :
  well_formed self = true ->
  0 <= size < ALI_REGION_DEFAULT_CAP ->
  List.length (regions (ali_arena_reset self)) = List.length (regions self) /\
  Forall (fun x => count x = 0 /\ capacity x = ALI_REGION_DEFAULT_CAP)
         (regions (ali_arena_reset self)) /\
  well_formed (ali_arena_reset self) = true /\
  (if match regions self with [] => host O | _ :: _ => true end
   then exists self',
       ali_arena_alloc host 1 (ali_arena_reset self) size = Done (Some ((O, 0), self')) /\
       List.length (regions self') = Nat.max 1 (List.length (regions self))
   else ali_arena_alloc host 1 (ali_arena_reset self) size = Done None) /\
  ali_arena_free self = empty.
Proof.
  intros Hwf Hs.
  assert (Hok : forallb region_ok (regions self) = true).
  { unfold well_formed in Hwf. apply andb_true_iff in Hwf. tauto. }
  split; [unfold ali_arena_reset; cbn [regions]; apply length_map|].
  split.
  { unfold ali_arena_reset. cbn [regions]. apply Forall_forall. intros y Hy.
    apply in_map_iff in Hy. destruct Hy as (x & <- & Hx).
    rewrite forallb_forall in Hok. specialize (Hok x Hx).
    apply region_ok_spec in Hok. cbn [clear count capacity]. tauto. }
  split; [apply ali_arena_reset_well_formed; exact Hwf|].
  split.
  - unfold ali_arena_alloc, ali_arena_reset. cbn [regions end_].
    destruct (regions self) as [|x chain] eqn:Hr.
    + destruct (host O).
      * cbn [map ali_region_new and_then regions end_ alloc_loop nth_error].
        rewrite (ali_region_alloc_new size Hs). cbn [set_region and_then].
        eexists. split; reflexivity.
      * reflexivity.
    + cbn [map and_then regions end_ alloc_loop nth_error].
      cbn [forallb] in Hok. apply andb_true_iff in Hok. destruct Hok as [Hx _].
      apply region_ok_spec in Hx. destruct Hx as [Hcap _].
      assert (Ec : clear x = {| count := 0; capacity := ALI_REGION_DEFAULT_CAP |}).
      { unfold clear. rewrite Hcap. reflexivity. }
      rewrite Ec, (ali_region_alloc_new size Hs). cbn [set_region and_then].
      eexists. split; [reflexivity|]. cbn [regions List.length].
      rewrite length_map. lia.
  - unfold ali_arena_free. rewrite free_loop_nil. reflexivity.
Qed.

Lemma ali_arena_reset_starts_over_witness :
  let host : Host := fun _ => false in
  List.length (regions (ali_arena_reset sixteen_used)) = List.length (regions sixteen_used) /\
  Forall (fun x => count x = 0 /\ capacity x = ALI_REGION_DEFAULT_CAP)
         (regions (ali_arena_reset sixteen_used)) /\
  well_formed (ali_arena_reset sixteen_used) = true /\
  (if match regions sixteen_used with [] => host O | _ :: _ => true end
   then exists self',
       ali_arena_alloc host 1 (ali_arena_reset sixteen_used) 8 =
         Done (Some ((O, 0), self')) /\
       List.length (regions self') = Nat.max 1 (List.length (regions sixteen_used))
   else ali_arena_alloc host 1 (ali_arena_reset sixteen_used) 8 = Done None) /\
  ali_arena_free sixteen_used = empty.
Proof.
  intros host.
  apply (ali_arena_reset_starts_over host sixteen_used 8).
  - reflexivity.
  - rewrite default_cap_value. lia.
Defined.

(** *** Copies of strings *)

Lemma scan_nul (s tail : list ascii) :
  forallb (fun c => negb (Libc.is_nul c)) s = true ->
  Libc.scan Libc.is_nul (s ++ zero :: tail) = Some (Z.of_nat (List.length s)).
Proof.
  induction s as [|c s IH]; intros H; cbn [forallb] in H.
  - reflexivity.
  - apply andb_true_iff in H. destruct H as [Hc Hs]. apply negb_true_iff in Hc.
    cbn [app Libc.scan]. rewrite Hc, (IH Hs). f_equal. cbn [List.length]. lia.
Qed.

(** X15: ali_arena_strdup of a string of fewer than 4095 characters
    returns a block inside a region that holds the characters and the
    NUL, when the host has a block for the region the call may have to
    add; for a string of 4095 characters or more, the allocation of its
    copy is one no region can serve: the call returns no copy, and it
    is aborted once the host has no block for another region. *)
Theorem ali_arena_strdup_copies_or_aborts (host : Host) (self : AliArena)
        (s tail : list ascii) :
  well_formed self = true ->
  forallb (fun c => negb (Libc.is_nul c)) s = true ->
  Z.of_nat (List.length s) + 1 <= size_modulus - ALI_REGION_DEFAULT_CAP ->
  (Z.of_nat (List.length s) + 1 < ALI_REGION_DEFAULT_CAP ->
   host (List.length (regions self)) = true ->
   exists fuel p self',
     ali_arena_strdup host fuel self (s ++ zero :: tail) =
       Done (Some (p, self', s ++ [zero])) /\
     block_inside self' p (Z.of_nat (List.length s) + 1)) /\
  (ALI_REGION_DEFAULT_CAP <= Z.of_nat (List.length s) + 1 ->
   (forall fuel r, ali_arena_strdup host fuel self (s ++ zero :: tail) <> Done (Some r)) /\
   (forall n, (List.length (regions self) <= n)%nat -> host n = false ->
              exists fuel, ali_arena_strdup host fuel self (s ++ zero :: tail) = Done None)).
Proof.
  intros Hwf Hs Hmax.
  assert (M := size_modulus_value). assert (C := default_cap_value).
  set (n := Z.of_nat (List.length s) + 1) in *.
  assert (W : to_size_t n = n) by (unfold to_size_t; apply Z.mod_small; lia).
  unfold ali_arena_strdup, strlen. rewrite (scan_nul s tail Hs). cbn [bind].
  fold n. rewrite W.
  split.
  - intros Hsmall Hhost.
    destruct (ali_arena_alloc_fits host self n Hwf)
      as (fuel & p & self' & E & x & Hx & Hoff & Hin); [lia|exact Hhost|].
    exists fuel, p, self'. unfold ali_arena_memdup. rewrite E. cbn [and_then]. rewrite Hx.
    destruct (Z.leb_spec n (Z.of_nat (List.length (s ++ zero :: tail)))) as [_|Hl].
    2:{ rewrite length_app in Hl. cbn [List.length] in Hl. lia. }
    destruct (Z.leb_spec (snd p + n) (capacity x)) as [_|?]; [|lia].
    cbn [andb]. split.
    + do 3 f_equal. subst n.
      replace (Z.to_nat (Z.of_nat (List.length s) + 1)) with (List.length s + 1)%nat by lia.
      rewrite firstn_app_2. reflexivity.
    + exists x. auto.
  - intros Hlarge.
    destruct (ali_arena_alloc_large host self n Hwf) as (Hno & Habort & _); [lia|].
    split.
    + intros fuel r E. unfold ali_arena_memdup in E.
      destruct (ali_arena_alloc host fuel self n) as [[[p self']|]| |] eqn:Ea;
        try discriminate.
      exact (Hno fuel _ Ea).
    + intros k Hk Hfail. destruct (Habort k Hk Hfail) as [fuel Ea].
      exists fuel. unfold ali_arena_memdup. rewrite Ea. reflexivity.
Qed.

Lemma ali_arena_strdup_copies_or_aborts_witness :
  let host : Host := fun n => Nat.ltb n 2 in
  let short := list_ascii_of_string "hi" in
  let long := repeat "a"%char 4095 in
  ((Z.of_nat (List.length short) + 1 < ALI_REGION_DEFAULT_CAP ->
    host (List.length (regions empty)) = true ->
    exists fuel p self',
      ali_arena_strdup host fuel empty (short ++ zero :: []) =
        Done (Some (p, self', short ++ [zero])) /\
      block_inside self' p (Z.of_nat (List.length short) + 1)) /\
   (ALI_REGION_DEFAULT_CAP <= Z.of_nat (List.length short) + 1 ->
    (forall fuel r,
        ali_arena_strdup host fuel empty (short ++ zero :: []) <> Done (Some r)) /\
    (forall n, (List.length (regions empty) <= n)%nat -> host n = false ->
               exists fuel,
                 ali_arena_strdup host fuel empty (short ++ zero :: []) = Done None))) /\
  ((Z.of_nat (List.length long) + 1 < ALI_REGION_DEFAULT_CAP ->
    host (List.length (regions empty)) = true ->
    exists fuel p self',
      ali_arena_strdup host fuel empty (long ++ zero :: []) =
        Done (Some (p, self', long ++ [zero])) /\
      block_inside self' p (Z.of_nat (List.length long) + 1)) /\
   (ALI_REGION_DEFAULT_CAP <= Z.of_nat (List.length long) + 1 ->
    (forall fuel r,
        ali_arena_strdup host fuel empty (long ++ zero :: []) <> Done (Some r)) /\
    (forall n, (List.length (regions empty) <= n)%nat -> host n = false ->
               exists fuel,
                 ali_arena_strdup host fuel empty (long ++ zero :: []) = Done None))) /\
  Z.of_nat (List.length short) + 1 < ALI_REGION_DEFAULT_CAP /\
  ALI_REGION_DEFAULT_CAP <= Z.of_nat (List.length long) + 1 /\
  host 2%nat = false.
Proof.
  intros host short long.
  split; [|split; [|split; [|split]]].
  - apply (ali_arena_strdup_copies_or_aborts host empty short []).
    + reflexivity.
    + reflexivity.
    + rewrite size_modulus_value, default_cap_value. cbn. lia.
  - apply (ali_arena_strdup_copies_or_aborts host empty long []).
    + reflexivity.
    + reflexivity.
    + subst long. rewrite repeat_length, size_modulus_value, default_cap_value. lia.
  - rewrite default_cap_value. cbn. lia.
  - subst long. rewrite repeat_length, default_cap_value. lia.
  - reflexivity.
Defined.

End Arena.

(* ================================================================== *)
(** * json.h *)
(* ================================================================== *)

Module Json.

Import Libc.

(** ** The value model

<<
typedef enum { JSON_NUMBER, JSON_BOOLEAN, JSON_STRING, JSON_ARRAY, JSON_OBJECT } JsonValueType;
typedef struct { size_t len; JsonArrayNode* next; } JsonArray;
typedef struct { size_t len; JsonObjectItem* next; } JsonObject;
typedef union { double number; bool boolean; char* string;
                JsonObject object; JsonArray array; } JsonValueAs;
typedef struct { JsonValueType type; JsonValueAs as; } JsonValue;
struct JsonObjectItem { char* key; JsonValue value; JsonObjectItem* next; };
struct JsonArrayNode { JsonValue value; JsonArrayNode* next; };
>>
    The union holds the member that was written last; [type] is stored
    beside it and need not agree with it. A [JsonArrayNode*] is NULL or
    the node it points to, and likewise a [JsonObjectItem*]. A [char*]
    is the bytes json_strndup copied, before the NUL it adds. *)
Inductive JsonValueType : Type :=
| JSON_NUMBER | JSON_BOOLEAN | JSON_STRING | JSON_ARRAY | JSON_OBJECT.

Inductive JsonValue : Type :=
| Build_JsonValue (type : JsonValueType) (as_ : JsonValueAs)
with JsonValueAs : Type :=
| as_number (number : double)
| as_boolean (boolean : bool)
| as_string (string : text)
| as_object (object : JsonObject)
| as_array (array : JsonArray)
with JsonObject : Type :=
| Build_JsonObject (len : Z) (next : JsonObjectItem)
with JsonArray : Type :=
| Build_JsonArray (len : Z) (next : JsonArrayNode)
with JsonObjectItem : Type :=
| item_NULL
| item (key : text) (value : JsonValue) (next : JsonObjectItem)
with JsonArrayNode : Type :=
| node_NULL
| node (value : JsonValue) (next : JsonArrayNode).

Definition type (v : JsonValue) : JsonValueType :=
  match v with Build_JsonValue t _ => t end.
Definition as_ (v : JsonValue) : JsonValueAs :=
  match v with Build_JsonValue _ a => a end.
Definition object_len (o : JsonObject) : Z :=
  match o with Build_JsonObject l _ => l end.
Definition object_next (o : JsonObject) : JsonObjectItem :=
  match o with Build_JsonObject _ n => n end.
Definition array_len (a : JsonArray) : Z :=
  match a with Build_JsonArray l _ => l end.
Definition array_next (a : JsonArray) : JsonArrayNode :=
  match a with Build_JsonArray _ n => n end.

Definition type_eqb (a b : JsonValueType) : bool :=
  match a, b with
  | JSON_NUMBER, JSON_NUMBER | JSON_BOOLEAN, JSON_BOOLEAN
  | JSON_STRING, JSON_STRING | JSON_ARRAY, JSON_ARRAY
  | JSON_OBJECT, JSON_OBJECT => true
  | _, _ => false
  end.

(** A [JsonValue*] as the lookups return it: the null pointer, the
    address of the value of a node or item of the tree (known by what
    it holds), or [value_of_NULL], an address a few bytes past the null
    pointer: not NULL, and not the address of a value. *)
Inductive JsonValue_ptr : Type :=
| NULL
| value_of (v : JsonValue)
| value_of_NULL.

(** [&cur->value] for a [cur] that is NULL. The compiled program adds
    the offset of the member [value] to the null pointer:
<<
struct JsonObjectItem { char* key; JsonValue value; JsonObjectItem* next; };
struct JsonArrayNode { JsonValue value; JsonArrayNode* next; };
>>
    [value] is the first member of a JsonArrayNode, so the address
    formed there is the null pointer itself; in a JsonObjectItem it
    lies behind the pointer [key], 8 bytes on. *)
Definition offsetof_JsonArrayNode_value : Z := 0.
Definition offsetof_JsonObjectItem_value : Z := 8.

Definition address_of_member_of_NULL (offset : Z) : JsonValue_ptr :=
  if offset =? 0 then NULL else value_of_NULL.

(** Reading a member of the union through a pointer to it. Reading
    another member than the one written last is not given a meaning. *)
Definition read_number (a : JsonValueAs) : result double :=
  match a with as_number d => Done d | _ => Fault end.
Definition read_boolean (a : JsonValueAs) : result bool :=
  match a with as_boolean b => Done b | _ => Fault end.
Definition read_string (a : JsonValueAs) : result text :=
  match a with as_string s => Done s | _ => Fault end.
Definition read_object (a : JsonValueAs) : result JsonObject :=
  match a with as_object o => Done o | _ => Fault end.
Definition read_array (a : JsonValueAs) : result JsonArray :=
  match a with as_array x => Done x | _ => Fault end.

(** ** The bump arena

<<
#define JSON_ARENA_MAX_SIZE (1 << 20)
uint8_t json_arena[JSON_ARENA_MAX_SIZE] = {0};
size_t json_arena_size = 0;
>>
    The state of the arena is [json_arena_size]. *)
Definition JSON_ARENA_MAX_SIZE : Z := Z.shiftl 1 20.

(** <<
size_t json_arena_stamp() { return json_arena_size; }
void json_arena_rewind(size_t stamp) { json_arena_size = stamp; }
>> *)
Definition json_arena_stamp (json_arena_size : Z) : Z := json_arena_size.
Definition json_arena_rewind (stamp : Z) : Z := stamp.

(** <<
void* json_alloc(size_t size) {
    void* ptr = &json_arena[json_arena_size];
    json_arena_size += size;
    return ptr;
}
>>
    Every caller fills the whole block at once, so a block that does not
    lie inside [json_arena] is a write outside the array. The result is
    the new [json_arena_size]. *)
Definition json_alloc (json_arena_size : Z) (size : Z) : result Z :=
  if json_arena_size + size <=? JSON_ARENA_MAX_SIZE
  then Done (to_size_t (json_arena_size + size))
  else Fault.

(** The sizes of the two node types on x86-64, the target ali.h tests
    for: a JsonValue takes 24 bytes. *)
Definition sizeof_JsonArrayNode : Z := 32.
Definition sizeof_JsonObjectItem : Z := 40.

(** <<
char* json_strndup(const char* str, size_t len) {
    char* copy = json_alloc(len + 1);
    memcpy(copy, str, len);
    copy[len] = 0;
    return copy;
}
>>
    [str] is the readable bytes from the pointer on. *)
Definition json_strndup (json_arena_size : Z) (str : text) (len : Z)
  : result (Z * text) :=
  (json_arena_size <- json_alloc json_arena_size (to_size_t (len + 1)) ;;
   if len <=? Z.of_nat (List.length str)
   then Done (json_arena_size, firstn (Z.to_nat len) str)
   else Fault)%result.

(** ** Lists

<<
void json_array_append(JsonArray* array, JsonValue value) {
    array->len++;
    if (array->next == NULL) {
        array->next = json_alloc(sizeof( *array->next ));
        array->next->value = value;
        array->next->next = NULL;
    } else {
        JsonArrayNode* cur = array->next;
        while (cur != NULL && cur->next != NULL) cur = cur->next;
        cur->next = json_alloc(sizeof( *cur->next ));
        cur->next->value = value;
        cur->next->next = NULL;
    }
}
>>
    [node_append] is the walk to the last node and the link of the new
    one behind it. *)
Fixpoint node_append (cur : JsonArrayNode) (v : JsonValue) : JsonArrayNode :=
  match cur with
  | node_NULL => node v node_NULL
  | node x next => node x (node_append next v)
  end.

Definition json_array_append (json_arena_size : Z) (array : JsonArray) (v : JsonValue)
  : result (Z * JsonArray) :=
  let len := to_size_t (array_len array + 1) in
  (json_arena_size <- json_alloc json_arena_size sizeof_JsonArrayNode ;;
   Done (json_arena_size, Build_JsonArray len (node_append (array_next array) v)))%result.

(** json_object_append is the same function on items, with the key. *)
Fixpoint item_append (cur : JsonObjectItem) (k : text) (v : JsonValue) : JsonObjectItem :=
  match cur with
  | item_NULL => item k v item_NULL
  | item k0 x next => item k0 x (item_append next k v)
  end.

Definition json_object_append (json_arena_size : Z) (object : JsonObject)
           (k : text) (v : JsonValue) : result (Z * JsonObject) :=
  let len := to_size_t (object_len object + 1) in
  (json_arena_size <- json_alloc json_arena_size sizeof_JsonObjectItem ;;
   Done (json_arena_size, Build_JsonObject len (item_append (object_next object) k v)))%result.

(** <<
JsonValue* json_array_get_item(JsonArray* array, size_t index) {
    if (index > array->len) return NULL;
    JsonArrayNode* cur = array->next;
    while (cur != NULL && index > 0) {
        cur = cur->next;
        index--;
    }
    return &cur->value;
}
>>
    [node_walk] is the loop and the return after it. *)
Fixpoint node_walk (cur : JsonArrayNode) (index : nat) : JsonValue_ptr :=
  match cur with
  | node_NULL => address_of_member_of_NULL offsetof_JsonArrayNode_value
  | node v next =>
      match index with
      | O => value_of v
      | S index => node_walk next index
      end
  end.

Definition json_array_get_item (array : JsonArray) (index : Z) : JsonValue_ptr :=
  if array_len array <? index then NULL
  else node_walk (array_next array) (Z.to_nat index).

(** json_object_get_item is the same function on items. *)
Fixpoint item_walk (cur : JsonObjectItem) (index : nat) : JsonValue_ptr :=
  match cur with
  | item_NULL => address_of_member_of_NULL offsetof_JsonObjectItem_value
  | item _ v next =>
      match index with
      | O => value_of v
      | S index => item_walk next index
      end
  end.

Definition json_object_get_item (object : JsonObject) (index : Z) : JsonValue_ptr :=
  if object_len object <? index then NULL
  else item_walk (object_next object) (Z.to_nat index).

(** <<
JsonValue* json_object_find_value(JsonObject* object, char* key) {
    if (object->len == 0) return NULL;
    JsonObjectItem* item = object->next;
    while (item != NULL) {
        if (strcmp(item->key, key) == 0) return &item->value;
        item = item->next;
    }
    return NULL;
}
>> *)
Fixpoint item_find (cur : JsonObjectItem) (k : text) : JsonValue_ptr :=
  match cur with
  | item_NULL => NULL
  | item k0 v next => if strcmp_eq k0 k then value_of v else item_find next k
  end.

Definition json_object_find_value (object : JsonObject) (k : text) : JsonValue_ptr :=
  if object_len object =? 0 then NULL
  else item_find (object_next object) k.

(** <<
double* json_value_as_number(JsonValue* value) {
    if (value->type != JSON_NUMBER) return NULL;
    return &value->as.number;
}
>>
    and the four others alike. The pointer returned is the address of
    the union, or [None] for NULL. *)
Definition as_if (t : JsonValueType) (value : JsonValue) : option JsonValueAs :=
  if type_eqb (type value) t then Some (as_ value) else None.

Definition json_value_as_number := as_if JSON_NUMBER.
Definition json_value_as_string := as_if JSON_STRING.
Definition json_value_as_boolean := as_if JSON_BOOLEAN.
Definition json_value_as_array := as_if JSON_ARRAY.
Definition json_value_as_object := as_if JSON_OBJECT.

(** ** The lexer

<<
typedef struct { const char* content_start; size_t content_len; const char* cursor; } JsonLexer;
>>
    The two pointers are indices into the buffer the lexer reads,
    [mem] below. *)
Record JsonLexer : Type := {
  content_start : Z;
  content_len : Z;
  cursor : Z
}.

(** <<
JsonLexer json_lexer(const char* content_start, size_t content_size) {
    JsonLexer lexer = { content_start, content_size, content_start };
    return lexer;
}
>> *)
Definition json_lexer (content_start content_size : Z) : JsonLexer :=
  {| content_start := content_start;
     content_len := content_size;
     cursor := content_start |}.

(** <<
bool json_is_empty(JsonLexer* lexer) {
    return lexer->content_start >= lexer->content_start + lexer->content_len;
}
>> *)
Definition json_is_empty (lexer : JsonLexer) : bool :=
  content_start lexer + content_len lexer <=? content_start lexer.

Definition advance (lexer : JsonLexer) (n : Z) : JsonLexer :=
  {| content_start := content_start lexer;
     content_len := content_len lexer;
     cursor := cursor lexer + n |}.

Definition quote : ascii := ascii_of_nat 34.

Section Reading.

(** The bytes that can be read through the pointers of the lexer. *)
Variable mem : text.

(** The bytes from the cursor on. *)
Definition ahead (lexer : JsonLexer) : text :=
  if cursor lexer <? 0 then [] else skipn (Z.to_nat (cursor lexer)) mem.

(** The loops of the form
<<
    while (!json_is_empty(lexer) && !stop( *lexer->cursor )) lexer->cursor++;
>> *)
Definition skip_until (stop : ascii -> bool) (lexer : JsonLexer) : result JsonLexer :=
  if json_is_empty lexer then Done lexer
  else match scan stop (ahead lexer) with
       | Some n => Done (advance lexer n)
       | None => Fault
       end.

(** <<
void json_lexer_trim_left(JsonLexer* lexer) {
    if (json_is_empty(lexer)) return;
    while (!json_is_empty(lexer) && isspace( *lexer->cursor )) lexer->cursor++;
}
>> *)
Definition json_lexer_trim_left (lexer : JsonLexer) : result JsonLexer :=
  if json_is_empty lexer then Done lexer
  else skip_until (fun c => negb (isspace c)) lexer.

(** <<
bool json_lexer_expect_char(JsonLexer* lexer, char c) {
    if (json_is_empty(lexer)) { fprintf(stderr, "Unexpected EOF\n"); return false; }
    if ( *lexer->cursor != c ) { fprintf(stderr, "Unexpected char '%c'\n", c); return false; }
    lexer->cursor++;
    return true;
}
>>
    The diagnostics on stderr are left out of the model. *)
Definition json_lexer_expect_char (lexer : JsonLexer) (c : ascii)
  : result (bool * JsonLexer) :=
  if json_is_empty lexer then Done (false, lexer)
  else
    (ch <- load mem (cursor lexer) ;;
     if negb (Ascii.eqb ch c) then Done (false, lexer)
     else Done (true, advance lexer 1))%result.

(** The length [(int)(lexer->cursor - start)] as json_strndup receives
    it in its size_t parameter. *)
Definition span (start : JsonLexer) (lexer : JsonLexer) : Z :=
  to_size_t (to_int (cursor lexer - cursor start)).

(** What a parsing function hands back: the lexer and the arena as it
    leaves them, and the value it stored when it returns true ([None]
    when it returns false). *)
Definition parsed (A : Type) : Type := result (JsonLexer * Z * option A).

(** <<
bool json_lexer_parse_object_item(JsonLexer* lexer, JsonObjectItem* item) {
    json_lexer_trim_left(lexer);
    if (!json_lexer_expect_char(lexer, QUOTE)) return false;
    const char* start = lexer->cursor;
    while (!json_is_empty(lexer) && *lexer->cursor != QUOTE) {
        lexer->cursor++;
    }
    item->key = json_strndup(start, (int)(lexer->cursor - start));
    if (!json_lexer_expect_char(lexer, QUOTE)) return false;
    if (!json_lexer_expect_char(lexer, ':')) return false;
    if (!json_lexer_parse_value(lexer, &item->value)) return false;
    return true;
}
>>
    (QUOTE stands for the character constant of the double quote.)
    [parse_value] is json_lexer_parse_value, which calls this function
    in turn. *)
Definition json_lexer_parse_object_item
           (parse_value : JsonLexer -> Z -> parsed JsonValue)
           (lexer : JsonLexer) (json_arena_size : Z)
  : parsed (text * JsonValue) :=
  (lexer <- json_lexer_trim_left lexer ;;
   '(ok, lexer) <- json_lexer_expect_char lexer quote ;;
   if negb ok then Done (lexer, json_arena_size, None) else
   let start := lexer in
   lexer <- skip_until (Ascii.eqb quote) lexer ;;
   '(json_arena_size, k) <- json_strndup json_arena_size (ahead start) (span start lexer) ;;
   '(ok, lexer) <- json_lexer_expect_char lexer quote ;;
   if negb ok then Done (lexer, json_arena_size, None) else
   '(ok, lexer) <- json_lexer_expect_char lexer ":" ;;
   if negb ok then Done (lexer, json_arena_size, None) else
   '(lexer, json_arena_size, v) <- parse_value lexer json_arena_size ;;
   match v with
   | None => Done (lexer, json_arena_size, None)
   | Some v => Done (lexer, json_arena_size, Some (k, v))
   end)%result.

(** <<
bool json_lexer_parse_value(JsonLexer* lexer, JsonValue* value) {
    json_lexer_trim_left(lexer);

    if (isdigit( *lexer->cursor ) || *lexer->cursor == '.') {
        value->type = JSON_NUMBER;
        char* endptr;
        value->as.number = strtod(lexer->cursor, &endptr);
        lexer->cursor = endptr;
        return true;
    }

    if ( *lexer->cursor == QUOTE ) {
        value->type = JSON_STRING;
        const char* start = ++lexer->cursor;
        while (!json_is_empty(lexer) && *lexer->cursor != QUOTE) {
            lexer->cursor++;
        }
        value->type = JSON_STRING;
        value->as.string = json_strndup(start, (int)(lexer->cursor - start));
        if (!json_lexer_expect_char(lexer, QUOTE)) return false;
        return true;
    }

    if ( *lexer->cursor == 'f' || *lexer->cursor == 't') {
        size_t stamp = json_arena_stamp();
        value->type = JSON_BOOLEAN;
        const char* start = lexer->cursor;
        while (!json_is_empty(lexer) && !isalpha( *lexer->cursor )) {
            lexer->cursor++;
        }
        char* value_ = json_strndup(start, (int)(lexer->cursor - start));
        value->type = JSON_STRING;
        value->as.boolean = strncmp(value_, "true", lexer->cursor - start) == 0;
        json_arena_rewind(stamp);
        return true;
    }

    if ( *lexer->cursor == '{') {
        value->type = JSON_OBJECT;
        value->as.object.len = 0;
        value->as.object.next = NULL;
        json_lexer_expect_char(lexer, '{');
        while (!json_is_empty(lexer)) {
            JsonObjectItem item;
            if (!json_lexer_parse_object_item(lexer, &item)) return false;
            json_object_append(&value->as.object, item.key, item.value);
            if ( *lexer->cursor != ',') break;
            if (!json_lexer_expect_char(lexer, ',')) return false;
        }
        json_lexer_trim_left(lexer);
        if (!json_lexer_expect_char(lexer, '}')) return false;
        return true;
    }

    if ( *lexer->cursor == '[') {
        value->type = JSON_ARRAY;
        value->as.array.len = 0;
        value->as.array.next = NULL;
        if (!json_lexer_expect_char(lexer, '[')) return false;
        while (!json_is_empty(lexer)) {
            JsonValue value_;
            if (!json_lexer_parse_value(lexer, &value_)) return false;
            json_array_append(&value->as.array, value_);
            if ( *lexer->cursor != ',') break;
            if (!json_lexer_expect_char(lexer, ',')) return false;
        }
        json_lexer_trim_left(lexer);
        if (!json_lexer_expect_char(lexer, ']')) return false;
        return true;
    }

    fprintf(stderr, "Unexpected char '%c'\n", *lexer->cursor);
    return false;
}
>>
    [object_loop] and [array_loop] are the two while loops; they hand
    back the object or array as the loop leaves it, or [None] for a
    [return false] from inside the loop. [fuel] bounds the depth of the
    calls and the turns of the loops together. *)
Fixpoint json_lexer_parse_value (fuel : nat) (lexer : JsonLexer) (json_arena_size : Z)
         {struct fuel} : parsed JsonValue :=
  match fuel with
  | O => Timeout
  | S fuel =>
      (lexer <- json_lexer_trim_left lexer ;;
       c <- load mem (cursor lexer) ;;
       if isdigit c || Ascii.eqb c "." then
         '(d, taken) <- strtod (ahead lexer) ;;
         Done (advance lexer taken, json_arena_size,
               Some (Build_JsonValue JSON_NUMBER (as_number d)))
       else if Ascii.eqb c quote then
         let lexer := advance lexer 1 in
         let start := lexer in
         lexer <- skip_until (Ascii.eqb quote) lexer ;;
         '(json_arena_size, s) <-
           json_strndup json_arena_size (ahead start) (span start lexer) ;;
         '(ok, lexer) <- json_lexer_expect_char lexer quote ;;
         if negb ok then Done (lexer, json_arena_size, None)
         else Done (lexer, json_arena_size,
                    Some (Build_JsonValue JSON_STRING (as_string s)))
       else if Ascii.eqb c "f" || Ascii.eqb c "t" then
         let stamp := json_arena_stamp json_arena_size in
         let start := lexer in
         lexer <- skip_until isalpha lexer ;;
         '(_, value_) <-
           json_strndup json_arena_size (ahead start) (span start lexer) ;;
         let b := strncmp_eq value_ (lit "true")
                             (to_size_t (cursor lexer - cursor start)) in
         Done (lexer, json_arena_rewind stamp,
               Some (Build_JsonValue JSON_STRING (as_boolean b)))
       else if Ascii.eqb c "{" then
         '(_, lexer) <- json_lexer_expect_char lexer "{" ;;
         '(lexer, json_arena_size, object) <-
           object_loop fuel lexer json_arena_size (Build_JsonObject 0 item_NULL) ;;
         match object with
         | None => Done (lexer, json_arena_size, None)
         | Some object =>
             lexer <- json_lexer_trim_left lexer ;;
             '(ok, lexer) <- json_lexer_expect_char lexer "}" ;;
             if negb ok then Done (lexer, json_arena_size, None)
             else Done (lexer, json_arena_size,
                        Some (Build_JsonValue JSON_OBJECT (as_object object)))
         end
       else if Ascii.eqb c "[" then
         '(ok, lexer) <- json_lexer_expect_char lexer "[" ;;
         if negb ok then Done (lexer, json_arena_size, None) else
         '(lexer, json_arena_size, array) <-
           array_loop fuel lexer json_arena_size (Build_JsonArray 0 node_NULL) ;;
         match array with
         | None => Done (lexer, json_arena_size, None)
         | Some array =>
             lexer <- json_lexer_trim_left lexer ;;
             '(ok, lexer) <- json_lexer_expect_char lexer "]" ;;
             if negb ok then Done (lexer, json_arena_size, None)
             else Done (lexer, json_arena_size,
                        Some (Build_JsonValue JSON_ARRAY (as_array array)))
         end
       else Done (lexer, json_arena_size, None))%result
  end

with object_loop (fuel : nat) (lexer : JsonLexer) (json_arena_size : Z)
                 (object : JsonObject) {struct fuel} : parsed JsonObject :=
  match fuel with
  | O => Timeout
  | S fuel =>
      if json_is_empty lexer then Done (lexer, json_arena_size, Some object)
      else
        ('(lexer, json_arena_size, it) <-
           json_lexer_parse_object_item (json_lexer_parse_value fuel)
                                        lexer json_arena_size ;;
         match it with
         | None => Done (lexer, json_arena_size, None)
         | Some (k, v) =>
             '(json_arena_size, object) <-
               json_object_append json_arena_size object k v ;;
             c <- load mem (cursor lexer) ;;
             if negb (Ascii.eqb c ",") then
               Done (lexer, json_arena_size, Some object)
             else
               '(ok, lexer) <- json_lexer_expect_char lexer "," ;;
               if negb ok then Done (lexer, json_arena_size, None)
               else object_loop fuel lexer json_arena_size object
         end)%result
  end

with array_loop (fuel : nat) (lexer : JsonLexer) (json_arena_size : Z)
                (array : JsonArray) {struct fuel} : parsed JsonArray :=
  match fuel with
  | O => Timeout
  | S fuel =>
      if json_is_empty lexer then Done (lexer, json_arena_size, Some array)
      else
        ('(lexer, json_arena_size, v) <-
           json_lexer_parse_value fuel lexer json_arena_size ;;
         match v with
         | None => Done (lexer, json_arena_size, None)
         | Some value_ =>
             '(json_arena_size, array) <-
               json_array_append json_arena_size array value_ ;;
             c <- load mem (cursor lexer) ;;
             if negb (Ascii.eqb c ",") then
               Done (lexer, json_arena_size, Some array)
             else
               '(ok, lexer) <- json_lexer_expect_char lexer "," ;;
               if negb ok then Done (lexer, json_arena_size, None)
               else array_loop fuel lexer json_arena_size array
         end)%result
  end.

End Reading.

Arguments ahead mem lexer : simpl never.

(** ** The serializer

<<
void json_stringify(JsonValue* value) {
    switch (value->type) {
        case JSON_NUMBER: printf("%.2lf", value->as.number); break;
        case JSON_STRING: printf(QUOTE "%s" QUOTE, value->as.string); break;
        case JSON_BOOLEAN: printf("%s", value->as.boolean ? "true" : "false"); break;
        case JSON_ARRAY: {
            printf("[");
            JsonArrayNode* item = value->as.array.next;
            while (item != NULL) {
                json_stringify(&item->value);
                item = item->next;
                if (item != NULL) printf(", ");
            }
            printf("]");
        } break;
        case JSON_OBJECT: {
            printf("{");
            JsonObjectItem* item = value->as.object.next;
            while (item != NULL) {
                printf(QUOTE "%s" QUOTE ": ", item->key);
                json_stringify(&item->value);
                item = item->next;
                if (item != NULL) printf(", ");
            }
            printf("}");
        }break;
        default: UNREACHABLE();
    }
}
>>
    The result is the text written to the standard output. The
    [default] case cannot be reached: the enumeration has no sixth
    value. *)
Definition separator_before (rest_is_null : bool) : text :=
  if rest_is_null then [] else lit ", ".

Fixpoint json_stringify (value : JsonValue) : result text :=
  match value with
  | Build_JsonValue JSON_NUMBER (as_number d) => Done (printf_2lf d)
  | Build_JsonValue JSON_STRING (as_string s) => Done (quote :: c_str s ++ [quote])
  | Build_JsonValue JSON_BOOLEAN (as_boolean b) =>
      Done (lit (if b then "true" else "false"))
  | Build_JsonValue JSON_ARRAY (as_array (Build_JsonArray _ next)) =>
      (body <- stringify_nodes next ;; Done (lit "[" ++ body ++ lit "]"))%result
  | Build_JsonValue JSON_OBJECT (as_object (Build_JsonObject _ next)) =>
      (body <- stringify_items next ;; Done (lit "{" ++ body ++ lit "}"))%result
  | Build_JsonValue _ _ => Fault
  end

with stringify_nodes (cur : JsonArrayNode) : result text :=
  match cur with
  | node_NULL => Done []
  | node v next =>
      (s <- json_stringify v ;;
       rest <- stringify_nodes next ;;
       Done (s ++ separator_before (match next with node_NULL => true | _ => false end)
               ++ rest))%result
  end

with stringify_items (cur : JsonObjectItem) : result text :=
  match cur with
  | item_NULL => Done []
  | item k v next =>
      (s <- json_stringify v ;;
       rest <- stringify_items next ;;
       Done (quote :: c_str k ++ quote :: lit ": " ++ s
               ++ separator_before (match next with item_NULL => true | _ => false end)
               ++ rest))%result
  end.

(** ** Notions the properties are stated with *)

(** [le_result r1 r2]: the run [r2] had at least the fuel of [r1]; it
    agrees with [r1] unless [r1] ran out of fuel. *)
Definition le_result {A : Type} (r1 r2 : result A) : Prop :=
  r1 = Timeout \/ r1 = r2.

(** [ensures r P]: the run ended, and with a result that satisfies [P]
    if it was not a fault. *)
Definition ensures {A : Type} (r : result A) (P : A -> Prop) : Prop :=
  match r with
  | Done a => P a
  | Fault => True
  | Timeout => False
  end.

(** The lexer moved forward, if at all, over the same content. *)
Definition follows (lexer lexer' : JsonLexer) : Prop :=
  content_start lexer' = content_start lexer /\
  content_len lexer' = content_len lexer /\
  cursor lexer <= cursor lexer'.

(** The number of nodes of a chain. *)
Fixpoint count_nodes (cur : JsonArrayNode) : Z :=
  match cur with
  | node_NULL => 0
  | node _ next => count_nodes next + 1
  end.

Fixpoint count_items (cur : JsonObjectItem) : Z :=
  match cur with
  | item_NULL => 0
  | item _ _ next => count_items next + 1
  end.

(** A value is consistent when, in it and in every value below it, the
    union holds the member [type] names, and the [len] of every array
    and object is the number of its nodes as a size_t. *)
Fixpoint consistent (v : JsonValue) : bool :=
  match v with
  | Build_JsonValue JSON_NUMBER (as_number _) => true
  | Build_JsonValue JSON_STRING (as_string _) => true
  | Build_JsonValue JSON_BOOLEAN (as_boolean _) => true
  | Build_JsonValue JSON_ARRAY (as_array (Build_JsonArray len next)) =>
      consistent_nodes next && (len =? to_size_t (count_nodes next))
  | Build_JsonValue JSON_OBJECT (as_object (Build_JsonObject len next)) =>
      consistent_items next && (len =? to_size_t (count_items next))
  | Build_JsonValue _ _ => false
  end

with consistent_nodes (cur : JsonArrayNode) : bool :=
  match cur with
  | node_NULL => true
  | node v next => consistent v && consistent_nodes next
  end

with consistent_items (cur : JsonObjectItem) : bool :=
  match cur with
  | item_NULL => true
  | item _ v next => consistent v && consistent_items next
  end.

Definition consistent_array (x : JsonArray) : bool :=
  consistent (Build_JsonValue JSON_ARRAY (as_array x)).

Definition consistent_object (o : JsonObject) : bool :=
  consistent (Build_JsonValue JSON_OBJECT (as_object o)).

Section Measures.

Variable mem : text.

(** The characters left to read. *)
Definition remaining (lexer : JsonLexer) : nat :=
  Z.to_nat (Z.of_nat (List.length mem) - cursor lexer).

Definition is_f_or_t (c : ascii) : bool := Ascii.eqb c "f" || Ascii.eqb c "t".

(** The cursor is on an 'f' or a 't'. The branch of the parser for such
    a character leaves the cursor where it is. *)
Definition bool_head (lexer : JsonLexer) : Prop :=
  exists c, load mem (cursor lexer) = Done c /\ is_f_or_t c = true.

(** What the parsing functions are shown to guarantee when they return:
    the lexer moved forward, and a value returned with [true] is
    consistent, unless the cursor was left on a literal. *)
Definition value_post (lexer : JsonLexer) (r : JsonLexer * Z * option JsonValue)
  : Prop :=
  follows lexer (fst (fst r)) /\
  forall v, snd r = Some v ->
            consistent v = true \/
            (bool_head (fst (fst r)) /\ type v = JSON_STRING).

Definition item_post (lexer : JsonLexer)
           (r : JsonLexer * Z * option (text * JsonValue)) : Prop :=
  follows lexer (fst (fst r)) /\
  forall k v, snd r = Some (k, v) ->
              consistent v = true \/ bool_head (fst (fst r)).

Definition array_post (lexer : JsonLexer) (x : JsonArray)
           (r : JsonLexer * Z * option JsonArray) : Prop :=
  follows lexer (fst (fst r)) /\
  forall x', snd r = Some x' -> consistent_array x = true ->
             consistent_array x' = true \/ bool_head (fst (fst r)).

Definition object_post (lexer : JsonLexer) (o : JsonObject)
           (r : JsonLexer * Z * option JsonObject) : Prop :=
  follows lexer (fst (fst r)) /\
  forall o', snd r = Some o' -> consistent_object o = true ->
             consistent_object o' = true \/ bool_head (fst (fst r)).

End Measures.

(** The parser as a function: two units of fuel for every character
    left and one more are enough ([parser_ends]), and more fuel changes
    nothing ([fuel_monotone]). *)
Definition json_lexer_parse (mem : text) (lexer : JsonLexer) (json_arena_size : Z)
  : parsed JsonValue :=
  json_lexer_parse_value mem (S (2 * remaining mem lexer)) lexer json_arena_size.

(** Running the parser on a text held in a buffer of its own, as a C
    string literal is: the characters, then the NUL; the arena is
    empty. *)
Definition parse_text (s : text) : parsed JsonValue :=
  json_lexer_parse (s ++ [zero]) (json_lexer 0 (Z.of_nat (List.length s))) 0.

(** The two texts of the examples, and the value the second one is
    parsed to. *)
Definition text_a_b : text :=
  lit "{" ++ quote :: lit "a" ++ quote :: lit ": true, " ++
  quote :: lit "b" ++ quote :: lit ": " ++ quote :: lit "hi" ++ quote :: lit "}".

Definition text_products : text :=
  lit "{" ++ quote :: lit "products" ++ quote :: lit ": [1, 2, 3]}".

(** The double that is the integer [n], for [n] small enough to be
    one. *)
Definition number_of (n : Z) : JsonValue :=
  Build_JsonValue JSON_NUMBER (as_number (binary_normalize prec emax n 0 false)).

(** The real number a finite double stands for is [m * 2^e]; it is the
    integer [n] when [m = n * 2^(-e)]. *)
Definition is_integer (n : Z) (v : JsonValue) : bool :=
  match v with
  | Build_JsonValue JSON_NUMBER (as_number (S754_finite false m e)) =>
      (e <=? 0) && (Z.pos m =? n * 2 ^ (- e))
  | _ => false
  end.

Definition products_array : JsonArray :=
  Build_JsonArray 3
    (node (number_of 1) (node (number_of 2) (node (number_of 3) node_NULL))).

Definition products_object : JsonObject :=
  Build_JsonObject 1
    (item (lit "products") (Build_JsonValue JSON_ARRAY (as_array products_array))
          item_NULL).

(** The values of a chain of nodes, first to last. *)
Fixpoint node_values (cur : JsonArrayNode) : list JsonValue :=
  match cur with
  | node_NULL => []
  | node v next => v :: node_values next
  end.

Fixpoint item_values (cur : JsonObjectItem) : list JsonValue :=
  match cur with
  | item_NULL => []
  | item _ v next => v :: item_values next
  end.

(** ** The constructors

<<
JsonValue json_value_string(char* string) {
    JsonValue value = {0};
    value.type = JSON_STRING;
    value.as.string = string;
    return value;
}
JsonValue json_value_number(double number) {
    JsonValue value = {0};
    value.type = JSON_NUMBER;
    value.as.number = number;
    return value;
}
JsonValue json_value_array(void) {
    JsonValue value = {0};
    value.type = JSON_ARRAY;
    return value;
}
JsonValue json_value_object(void) {
    JsonValue value = {0};
    value.type = JSON_OBJECT;
    return value;
}
>>
    The initializer leaves the union all zero bits, which on x86-64
    read as [len] 0 and [next] NULL through the members [array] and
    [object]: json_value_array and json_value_object return the empty
    array and the empty object. *)
Definition json_value_string (string : text) : JsonValue :=
  Build_JsonValue JSON_STRING (as_string string).

Definition json_value_number (number : double) : JsonValue :=
  Build_JsonValue JSON_NUMBER (as_number number).

Definition json_value_array : JsonValue :=
  Build_JsonValue JSON_ARRAY (as_array (Build_JsonArray 0 node_NULL)).

Definition json_value_object : JsonValue :=
  Build_JsonValue JSON_OBJECT (as_object (Build_JsonObject 0 item_NULL)).

(** Appends one after the other, to an array and to an object. *)
Fixpoint append_values (json_arena_size : Z) (array : JsonArray) (values : list JsonValue)
  : result (Z * JsonArray) :=
  match values with
  | [] => Done (json_arena_size, array)
  | v :: rest =>
      ('(json_arena_size, array) <- json_array_append json_arena_size array v ;;
       append_values json_arena_size array rest)%result
  end.

Fixpoint append_pairs (json_arena_size : Z) (object : JsonObject)
         (pairs : list (text * JsonValue)) : result (Z * JsonObject) :=
  match pairs with
  | [] => Done (json_arena_size, object)
  | (k, v) :: rest =>
      ('(json_arena_size, object) <- json_object_append json_arena_size object k v ;;
       append_pairs json_arena_size object rest)%result
  end.

(** The value of the first pair whose key is [k] as a C string. *)
Fixpoint first_with_key (k : text) (pairs : list (text * JsonValue)) : option JsonValue :=
  match pairs with
  | [] => None
  | (k0, v) :: rest => if strcmp_eq k0 k then Some v else first_with_key k rest
  end.

(** The keys and values of a chain of items, first to last. *)
Fixpoint item_pairs (cur : JsonObjectItem) : list (text * JsonValue) :=
  match cur with
  | item_NULL => []
  | item k v next => (k, v) :: item_pairs next
  end.

(** The lexer has the text [s] in front of its cursor. *)
Definition reads (mem : text) (lexer : JsonLexer) (s : text) : Prop :=
  0 <= cursor lexer /\ ahead mem lexer = s.

(** The characters one of the five forms of json_lexer_parse_value
    begins with. *)
Definition opens_value (c : ascii) : bool :=
  isdigit c || Ascii.eqb c "." || Ascii.eqb c quote ||
  Ascii.eqb c "f" || Ascii.eqb c "t" || Ascii.eqb c "{" || Ascii.eqb c "[".

Definition no_quote (s : text) : bool :=
  forallb (fun c => negb (Ascii.eqb quote c)) s.

Definition blanks (s : text) : bool := forallb isspace s.

(** ** Values that survive printing and parsing

    A text that json_stringify prints as it is and the parser reads
    back as it is: no quote and no NUL in it. *)
Definition plain (s : text) : bool :=
  forallb (fun c => negb (Ascii.eqb quote c) && negb (is_nul c)) s.

(** The values made of such strings, of arrays that are not empty and
    of objects that are not empty, with such keys. *)
Fixpoint printable (v : JsonValue) : bool :=
  match v with
  | Build_JsonValue JSON_STRING (as_string s) => plain s
  | Build_JsonValue JSON_ARRAY (as_array (Build_JsonArray _ next)) =>
      match next with node_NULL => false | node _ _ => printable_nodes next end
  | Build_JsonValue JSON_OBJECT (as_object (Build_JsonObject _ next)) =>
      match next with item_NULL => false | item _ _ _ => printable_items next end
  | Build_JsonValue _ _ => false
  end

with printable_nodes (cur : JsonArrayNode) : bool :=
  match cur with
  | node_NULL => true
  | node v next => printable v && printable_nodes next
  end

with printable_items (cur : JsonObjectItem) : bool :=
  match cur with
  | item_NULL => true
  | item k v next => plain k && printable v && printable_items next
  end.

(** The bytes of the arena the parse of a value takes: every string and
    key with its NUL, every node and every item. *)
Fixpoint need (v : JsonValue) : Z :=
  match v with
  | Build_JsonValue _ (as_string s) => Z.of_nat (List.length s) + 1
  | Build_JsonValue _ (as_array (Build_JsonArray _ next)) => need_nodes next
  | Build_JsonValue _ (as_object (Build_JsonObject _ next)) => need_items next
  | Build_JsonValue _ _ => 0
  end

with need_nodes (cur : JsonArrayNode) : Z :=
  match cur with
  | node_NULL => 0
  | node v next => need v + sizeof_JsonArrayNode + need_nodes next
  end

with need_items (cur : JsonObjectItem) : Z :=
  match cur with
  | item_NULL => 0
  | item k v next =>
      Z.of_nat (List.length k) + 1 + need v + sizeof_JsonObjectItem + need_items next
  end.

(** A chain with the nodes of a second chain appended one by one. *)
Fixpoint node_chain (cur0 cur : JsonArrayNode) : JsonArrayNode :=
  match cur with
  | node_NULL => cur0
  | node v next => node_chain (node_append cur0 v) next
  end.

Fixpoint item_chain (cur0 cur : JsonObjectItem) : JsonObjectItem :=
  match cur with
  | item_NULL => cur0
  | item k v next => item_chain (item_append cur0 k v) next
  end.

(** What is shown of the parser on the text of a value, of the nodes of
    an array and of the items of an object: with enough fuel it reads
    the text to its end and returns what was printed. *)
Definition reads_back_value (v : JsonValue) : Prop :=
  printable v = true -> consistent v = true ->
  forall (mem : text) (lexer : JsonLexer) (a : Z) (ws out rest : text),
    json_stringify v = Done out ->
    json_is_empty lexer = false ->
    reads mem lexer (ws ++ out ++ rest) ->
    blanks ws = true ->
    0 <= a -> a + need v <= JSON_ARENA_MAX_SIZE ->
    exists f, forall f', (f <= f')%nat ->
      json_lexer_parse_value mem f' lexer a =
      Done (advance lexer (Z.of_nat (List.length ws) + Z.of_nat (List.length out)),
            a + need v, Some v).

Definition reads_back_nodes (cur : JsonArrayNode) : Prop :=
  cur <> node_NULL ->
  printable_nodes cur = true -> consistent_nodes cur = true ->
  forall (mem : text) (lexer : JsonLexer) (a : Z) (ws out rest : text) (c : ascii)
         (x : JsonArray),
    stringify_nodes cur = Done out ->
    json_is_empty lexer = false ->
    reads mem lexer (ws ++ out ++ c :: rest) ->
    blanks ws = true ->
    Ascii.eqb c "," = false ->
    0 <= a -> a + need_nodes cur <= JSON_ARENA_MAX_SIZE ->
    0 <= array_len x ->
    array_len x + count_nodes cur < size_modulus ->
    exists f, forall f', (f <= f')%nat ->
      array_loop mem f' lexer a x =
      Done (advance lexer (Z.of_nat (List.length ws) + Z.of_nat (List.length out)),
            a + need_nodes cur,
            Some (Build_JsonArray (array_len x + count_nodes cur)
                                  (node_chain (array_next x) cur))).

Definition reads_back_items (cur : JsonObjectItem) : Prop :=
  cur <> item_NULL ->
  printable_items cur = true -> consistent_items cur = true ->
  forall (mem : text) (lexer : JsonLexer) (a : Z) (ws out rest : text) (c : ascii)
         (o : JsonObject),
    stringify_items cur = Done out ->
    json_is_empty lexer = false ->
    reads mem lexer (ws ++ out ++ c :: rest) ->
    blanks ws = true ->
    Ascii.eqb c "," = false ->
    0 <= a -> a + need_items cur <= JSON_ARENA_MAX_SIZE ->
    0 <= object_len o ->
    object_len o + count_items cur < size_modulus ->
    exists f, forall f', (f <= f')%nat ->
      object_loop mem f' lexer a o =
      Done (advance lexer (Z.of_nat (List.length ws) + Z.of_nat (List.length out)),
            a + need_items cur,
            Some (Build_JsonObject (object_len o + count_items cur)
                                   (item_chain (object_next o) cur))).

(** ** More fuel changes no result *)

Lemma le_result_refl {A : Type} (r : result A) : le_result r r.
Proof. right; reflexivity. Qed.

Lemma le_result_bind {A B : Type} (c1 c2 : result A) (k1 k2 : A -> result B) :
  le_result c1 c2 ->
  (forall a, le_result (k1 a) (k2 a)) ->
  le_result (bind c1 k1) (bind c2 k2).
Proof.
  intros [->| ->] Hk; [left; reflexivity|].
  destruct c2; simpl; auto using le_result_refl.
Qed.

Ltac le_result_step :=
  match goal with
  | |- le_result ?x ?x => apply le_result_refl
  | |- le_result Timeout _ => left; reflexivity
  | |- le_result (bind _ _) (bind _ _) => apply le_result_bind; [ | intros ]
  | |- le_result (match ?x with _ => _ end) (match ?x with _ => _ end) => destruct x
  end.

Section FuelMonotone.

Variable mem : text.

Lemma json_lexer_parse_object_item_le
      (pv1 pv2 : JsonLexer -> Z -> parsed JsonValue) :
  (forall lexer a, le_result (pv1 lexer a) (pv2 lexer a)) ->
  forall lexer a,
    le_result (json_lexer_parse_object_item mem pv1 lexer a)
              (json_lexer_parse_object_item mem pv2 lexer a).
Proof.
  intros H lexer a. unfold json_lexer_parse_object_item.
  repeat first [ apply H | le_result_step ].
Qed.

Lemma fuel_monotone (f : nat) :
  forall f', (f <= f')%nat ->
    (forall lexer a,
        le_result (json_lexer_parse_value mem f lexer a)
                  (json_lexer_parse_value mem f' lexer a)) /\
    (forall lexer a o,
        le_result (object_loop mem f lexer a o) (object_loop mem f' lexer a o)) /\
    (forall lexer a x,
        le_result (array_loop mem f lexer a x) (array_loop mem f' lexer a x)).
Proof.
  induction f as [|f IH]; intros f' Hle.
  - repeat split; intros; left; reflexivity.
  - destruct f' as [|f']; [lia|].
    destruct (IH f') as (IHv & IHo & IHa); [lia|].
    repeat split; intros.
    + cbn [json_lexer_parse_value]. cbv zeta.
      repeat first [ apply IHo | apply IHa | le_result_step ].
    + cbn [object_loop].
      repeat first [ apply IHo
                   | apply json_lexer_parse_object_item_le; exact IHv
                   | le_result_step ].
    + cbn [array_loop].
      repeat first [ apply IHa | apply IHv | le_result_step ].
Qed.

(** A run that ended is the run with any larger fuel. *)
Lemma json_lexer_parse_value_more_fuel (f f' : nat) (lexer : JsonLexer) (a : Z) :
  (f <= f')%nat ->
  json_lexer_parse_value mem f lexer a <> Timeout ->
  json_lexer_parse_value mem f' lexer a = json_lexer_parse_value mem f lexer a.
Proof.
  intros Hle Hne.
  destruct (fuel_monotone f f' Hle) as (Hv & _).
  destruct (Hv lexer a) as [E|E]; [contradiction | symmetry; exact E].
Qed.

End FuelMonotone.

(** ** What the pieces of the parser guarantee *)

Lemma ensures_bind {A B : Type} (c : result A) (k : A -> result B)
      (Q : A -> Prop) (P : B -> Prop) :
  ensures c Q -> (forall a, Q a -> ensures (k a) P) -> ensures (bind c k) P.
Proof. destruct c; simpl; auto. Qed.

Lemma ensures_weaken {A : Type} (r : result A) (P Q : A -> Prop) :
  ensures r P -> (forall a, P a -> Q a) -> ensures r Q.
Proof. destruct r; simpl; auto. Qed.

Lemma ensures_done {A : Type} (r : result A) (P : A -> Prop) (a : A) :
  ensures r P -> r = Done a -> P a.
Proof. intros H ->. exact H. Qed.

Lemma digits_taken (base : Z) (is_digit : ascii -> bool) (s : text) :
  forall acc v n rest,
    digits base is_digit acc s = Some (v, n, rest) -> 0 <= n.
Proof.
  induction s as [|c s IH]; intros acc v n rest H; simpl in H; [discriminate|].
  destruct (is_digit c).
  - destruct (digits base is_digit (acc * base + digit_value c) s)
      as [[[v' n'] rest']|] eqn:E; [|discriminate].
    inversion H; subst. apply IH in E. lia.
  - inversion H; subst. lia.
Qed.

Lemma mantissa_taken (base : Z) (is_digit : ascii -> bool) (s : text)
      (m after_point ndigits taken : Z) (rest : text) :
  mantissa base is_digit s = Some (m, after_point, ndigits, taken, rest) ->
  0 <= taken.
Proof.
  unfold mantissa.
  destruct (digits base is_digit 0 s) as [[[v1 n1] r1]|] eqn:E1; [|discriminate].
  apply digits_taken in E1.
  destruct r1 as [|c r1']; [discriminate|].
  destruct (Ascii.eqb c ".").
  - destruct (digits base is_digit v1 r1') as [[[v2 n2] r2]|] eqn:E2; [|discriminate].
    apply digits_taken in E2. intros H; inversion H; subst. lia.
  - intros H; inversion H; subst. lia.
Qed.

Lemma exponent_taken (letters : string) (s : text) (e taken : Z) :
  exponent letters s = Some (e, taken) -> 0 <= taken.
Proof.
  unfold exponent. destruct s as [|c rest]; [discriminate|].
  destruct (is_char letters c); [|intros H; inversion H; lia].
  destruct rest as [|sign rest']; [discriminate|].
  destruct (digits 10 isdigit 0 (if is_char "+-" sign then rest' else sign :: rest'))
    as [[[v n] r]|] eqn:E; [|discriminate].
  apply digits_taken in E.
  destruct (Z.eqb_spec n 0); intros H; inversion H; subst;
    destruct (is_char "+-" sign); lia.
Qed.

(** strtod ends, and never moves [endptr] backwards. *)
Lemma strtod_spec (s : text) : ensures (strtod s) (fun r => 0 <= snd r).
Proof.
  assert (D : ensures (match strtod_decimal s with
                       | Some r => Done r
                       | None => Fault
                       end) (fun r => 0 <= snd r)).
  { unfold strtod_decimal.
    destruct (mantissa 10 isdigit s) as [[[[[m ap] nd] tk] rest]|] eqn:E;
      [|exact I].
    apply mantissa_taken in E.
    destruct (nd =? 0); [simpl; lia|].
    destruct (exponent "eE" rest) as [[e te]|] eqn:Ee; [|exact I].
    apply exponent_taken in Ee. simpl. lia. }
  unfold strtod.
  destruct s as [|c0 [|x rest]]; try exact D.
  destruct (Ascii.eqb c0 "0" && is_char "xX" x); [|exact D].
  unfold strtod_hex.
  destruct (mantissa 16 isxdigit rest) as [[[[[m ap] nd] tk] rest']|] eqn:E;
    [|exact I].
  apply mantissa_taken in E.
  destruct (nd =? 0); [cbn [ensures snd]; lia|].
  destruct (exponent "pP" rest') as [[e te]|] eqn:Ee; [|exact I].
  apply exponent_taken in Ee. cbn [ensures snd]. lia.
Qed.

Lemma scan_taken (stop : ascii -> bool) (s : text) (n : Z) :
  scan stop s = Some n -> 0 <= n.
Proof.
  revert n; induction s as [|c s IH]; intros n H; simpl in H; [discriminate|].
  destruct (stop c); [inversion H; lia|].
  destruct (scan stop s) as [m|]; [|discriminate].
  inversion H; subst. specialize (IH m eq_refl). lia.
Qed.

Lemma json_alloc_spec (a size : Z) : ensures (json_alloc a size) (fun _ => True).
Proof. unfold json_alloc. destruct (a + size <=? JSON_ARENA_MAX_SIZE); exact I. Qed.

Lemma json_strndup_spec (a : Z) (str : text) (n : Z) :
  ensures (json_strndup a str n) (fun _ => True).
Proof.
  unfold json_strndup.
  eapply ensures_bind; [apply json_alloc_spec|]. intros a' _.
  destruct (n <=? Z.of_nat (List.length str)); exact I.
Qed.

Lemma json_array_append_spec (a : Z) (x : JsonArray) (v : JsonValue) :
  ensures (json_array_append a x v)
          (fun r => snd r = Build_JsonArray (to_size_t (array_len x + 1))
                                            (node_append (array_next x) v)).
Proof.
  unfold json_array_append.
  eapply ensures_bind; [apply json_alloc_spec|]. intros a' _. reflexivity.
Qed.

Lemma json_object_append_spec (a : Z) (o : JsonObject) (k : text) (v : JsonValue) :
  ensures (json_object_append a o k v)
          (fun r => snd r = Build_JsonObject (to_size_t (object_len o + 1))
                                             (item_append (object_next o) k v)).
Proof.
  unfold json_object_append.
  eapply ensures_bind; [apply json_alloc_spec|]. intros a' _. reflexivity.
Qed.

Section Progress.

Variable mem : text.

Lemma follows_refl (lexer : JsonLexer) : follows lexer lexer.
Proof. unfold follows. repeat split; lia. Qed.

Lemma follows_trans (l1 l2 l3 : JsonLexer) :
  follows l1 l2 -> follows l2 l3 -> follows l1 l3.
Proof. unfold follows. intuition congruence || lia. Qed.

Lemma follows_advance (lexer : JsonLexer) (n : Z) :
  0 <= n -> follows lexer (advance lexer n).
Proof. unfold follows, advance. simpl. repeat split; lia. Qed.

Lemma follows_empty (lexer lexer' : JsonLexer) :
  follows lexer lexer' -> json_is_empty lexer' = json_is_empty lexer.
Proof. unfold follows, json_is_empty. intros (-> & -> & _). reflexivity. Qed.

Lemma advance_0 (lexer : JsonLexer) : advance lexer 0 = lexer.
Proof. destruct lexer. unfold advance. simpl. rewrite Z.add_0_r. reflexivity. Qed.

Lemma remaining_follows (lexer lexer' : JsonLexer) :
  follows lexer lexer' -> (remaining mem lexer' <= remaining mem lexer)%nat.
Proof. unfold follows, remaining. intros (_ & _ & H). lia. Qed.

Lemma load_cases (p : Z) :
  load mem p = Fault \/
  exists c, load mem p = Done c /\ 0 <= p < Z.of_nat (List.length mem).
Proof.
  unfold load. destruct (Z.ltb_spec p 0); [left; reflexivity|].
  destruct (nth_error mem (Z.to_nat p)) as [c|] eqn:E; [|left; reflexivity].
  right. exists c. split; [reflexivity|].
  assert (Z.to_nat p < List.length mem)%nat by (apply nth_error_Some; congruence).
  lia.
Qed.

Lemma load_ahead (lexer : JsonLexer) (c : ascii) :
  load mem (cursor lexer) = Done c -> exists rest, ahead mem lexer = c :: rest.
Proof.
  unfold load, ahead. destruct (cursor lexer <? 0); [discriminate|].
  generalize (Z.to_nat (cursor lexer)). intros n. revert mem.
  induction n as [|n IH]; intros [|x l] H; simpl in *; try discriminate.
  - inversion H; subst. eexists; reflexivity.
  - apply IH. exact H.
Qed.

Lemma skip_until_spec (stop : ascii -> bool) (lexer : JsonLexer) :
  ensures (skip_until mem stop lexer) (follows lexer).
Proof.
  unfold skip_until. destruct (json_is_empty lexer); [apply follows_refl|].
  destruct (scan stop (ahead mem lexer)) as [n|] eqn:E; [|exact I].
  apply follows_advance. eapply scan_taken; eassumption.
Qed.

Lemma json_lexer_trim_left_spec (lexer : JsonLexer) :
  ensures (json_lexer_trim_left mem lexer) (follows lexer).
Proof.
  unfold json_lexer_trim_left. destruct (json_is_empty lexer);
    [apply follows_refl | apply skip_until_spec].
Qed.

Lemma json_lexer_expect_char_spec (lexer : JsonLexer) (c : ascii) :
  ensures (json_lexer_expect_char mem lexer c)
          (fun r => if fst r
                    then snd r = advance lexer 1 /\
                         load mem (cursor lexer) = Done c /\
                         0 <= cursor lexer < Z.of_nat (List.length mem)
                    else snd r = lexer).
Proof.
  unfold json_lexer_expect_char. destruct (json_is_empty lexer); [reflexivity|].
  destruct (load_cases (cursor lexer)) as [->|(ch & -> & Hb)]; [exact I|].
  cbn [bind]. destruct (Ascii.eqb_spec ch c) as [->|Hne]; simpl; auto.
Qed.

Lemma json_lexer_expect_char_follows (lexer : JsonLexer) (c : ascii) :
  ensures (json_lexer_expect_char mem lexer c) (fun r => follows lexer (snd r)).
Proof.
  eapply ensures_weaken; [apply json_lexer_expect_char_spec|].
  intros [[|] lexer'] H; simpl in *.
  - destruct H as (-> & _). apply follows_advance. lia.
  - subst. apply follows_refl.
Qed.

(** *** Values whose tags can be trusted *)

Lemma count_nodes_nonneg (cur : JsonArrayNode) : 0 <= count_nodes cur.
Proof. induction cur; simpl; lia. Qed.

Lemma count_items_nonneg (cur : JsonObjectItem) : 0 <= count_items cur.
Proof. induction cur; simpl; lia. Qed.

Lemma to_size_t_succ (n : Z) : to_size_t (to_size_t n + 1) = to_size_t (n + 1).
Proof. unfold to_size_t. apply Zplus_mod_idemp_l. Qed.

Lemma node_append_consistent (cur : JsonArrayNode) (v : JsonValue) :
  consistent_nodes (node_append cur v) = consistent_nodes cur && consistent v.
Proof.
  induction cur as [|x next IH]; simpl.
  - apply andb_true_r.
  - rewrite IH. apply andb_assoc.
Qed.

Lemma node_append_count (cur : JsonArrayNode) (v : JsonValue) :
  count_nodes (node_append cur v) = count_nodes cur + 1.
Proof. induction cur as [|x next IH]; simpl; lia. Qed.

Lemma item_append_consistent (cur : JsonObjectItem) (k : text) (v : JsonValue) :
  consistent_items (item_append cur k v) = consistent_items cur && consistent v.
Proof.
  induction cur as [|k0 x next IH]; simpl.
  - apply andb_true_r.
  - rewrite IH. apply andb_assoc.
Qed.

Lemma item_append_count (cur : JsonObjectItem) (k : text) (v : JsonValue) :
  count_items (item_append cur k v) = count_items cur + 1.
Proof. induction cur as [|k0 x next IH]; simpl; lia. Qed.

Lemma json_array_append_consistent (x : JsonArray) (v : JsonValue) :
  consistent_array x = true -> consistent v = true ->
  consistent_array (Build_JsonArray (to_size_t (array_len x + 1))
                                    (node_append (array_next x) v)) = true.
Proof.
  destruct x as [len next]. unfold consistent_array. cbn [consistent array_len array_next].
  rewrite !andb_true_iff, !Z.eqb_eq. intros (Hn & ->) Hv.
  rewrite node_append_consistent, node_append_count, Hn, Hv, to_size_t_succ. auto.
Qed.

Lemma json_object_append_consistent (o : JsonObject) (k : text) (v : JsonValue) :
  consistent_object o = true -> consistent v = true ->
  consistent_object (Build_JsonObject (to_size_t (object_len o + 1))
                                      (item_append (object_next o) k v)) = true.
Proof.
  destruct o as [len next]. unfold consistent_object. cbn [consistent object_len object_next].
  rewrite !andb_true_iff, !Z.eqb_eq. intros (Hn & ->) Hv.
  rewrite item_append_consistent, item_append_count, Hn, Hv, to_size_t_succ. auto.
Qed.

(** *** The lexer in front of a literal *)

Lemma is_f_or_t_cases (c : ascii) :
  is_f_or_t c = true -> c = "f"%char \/ c = "t"%char.
Proof.
  unfold is_f_or_t. intros H. apply orb_true_iff in H.
  destruct H as [H|H]; apply Ascii.eqb_eq in H; auto.
Qed.

Lemma skip_until_at_stop (stop : ascii -> bool) (lexer : JsonLexer) (c : ascii) :
  load mem (cursor lexer) = Done c -> stop c = true ->
  skip_until mem stop lexer = Done lexer.
Proof.
  intros Hc Hs. unfold skip_until. destruct (json_is_empty lexer); [reflexivity|].
  destruct (load_ahead _ _ Hc) as [rest ->]. simpl. rewrite Hs, advance_0. reflexivity.
Qed.

Lemma bool_head_trim (lexer : JsonLexer) :
  bool_head mem lexer -> json_lexer_trim_left mem lexer = Done lexer.
Proof.
  intros (c & Hc & Hft). unfold json_lexer_trim_left.
  destruct (json_is_empty lexer); [reflexivity|].
  apply (skip_until_at_stop _ _ c Hc).
  destruct (is_f_or_t_cases c Hft) as [->| ->]; reflexivity.
Qed.

Lemma bool_head_not (lexer : JsonLexer) (c : ascii) :
  bool_head mem lexer -> load mem (cursor lexer) = Done c -> is_f_or_t c = false ->
  False.
Proof. intros (c' & Hc' & Hft) Hc Hn. congruence. Qed.

(** *** The parser ends, and what it returns *)

Ltac follows_tac :=
  repeat match goal with
         | H : follows _ _ |- _ => destruct H as (? & ? & ?)
         end;
  unfold follows, advance in *; cbn [content_start content_len cursor fst snd] in *;
  subst; cbn [content_start content_len cursor fst snd] in *;
  repeat split; try congruence; try lia.

Lemma json_lexer_parse_object_item_spec
      (pv : JsonLexer -> Z -> parsed JsonValue) (lexer : JsonLexer) (a : Z) :
  (forall lexer' a', follows lexer lexer' -> ensures (pv lexer' a') (value_post mem lexer')) ->
  ensures (json_lexer_parse_object_item mem pv lexer a) (item_post mem lexer).
Proof.
  intros Hpv. unfold json_lexer_parse_object_item.
  eapply ensures_bind; [apply json_lexer_trim_left_spec|]. intros l1 F1.
  eapply ensures_bind; [apply json_lexer_expect_char_follows|]. intros [ok l2] F2.
  cbn [fst snd] in F2.
  destruct ok; cbn [negb].
  2:{ split; [cbn [fst snd]; follows_tac | intros ? ? [=]]. }
  eapply ensures_bind; [apply skip_until_spec|]. intros l3 F3.
  eapply ensures_bind; [apply json_strndup_spec|]. intros [a' k] _.
  eapply ensures_bind; [apply json_lexer_expect_char_follows|]. intros [ok l4] F4.
  cbn [fst snd] in F4.
  destruct ok; cbn [negb].
  2:{ split; [cbn [fst snd]; follows_tac | intros ? ? [=]]. }
  eapply ensures_bind; [apply json_lexer_expect_char_follows|]. intros [ok l5] F5.
  cbn [fst snd] in F5.
  destruct ok; cbn [negb].
  2:{ split; [cbn [fst snd]; follows_tac | intros ? ? [=]]. }
  eapply ensures_bind; [apply (Hpv l5 a'); follows_tac|].
  intros [[l6 a6] [v|]] (F6 & Hv); cbn [fst snd] in *.
  - split; [cbn [fst snd]; follows_tac|].
    cbn [fst snd]. intros k' v' [= <- <-].
    destruct (Hv v eq_refl) as [Hok|[Hbh _]]; [left|right]; assumption.
  - split; [cbn [fst snd]; follows_tac | intros ? ? [=]].
Qed.

Lemma is_alpha_f_or_t (c : ascii) : is_f_or_t c = true -> isalpha c = true.
Proof. intros H. destruct (is_f_or_t_cases c H) as [->| ->]; reflexivity. Qed.

Lemma parser_ends (f : nat) :
  (forall lexer a,
      (2 * remaining mem lexer + 1 <= f)%nat ->
      ensures (json_lexer_parse_value mem f lexer a) (value_post mem lexer)) /\
  (forall lexer a o,
      (2 * remaining mem lexer + 2 <= f)%nat ->
      ensures (object_loop mem f lexer a o) (object_post mem lexer o)) /\
  (forall lexer a x,
      (2 * remaining mem lexer + 2 <= f)%nat ->
      ensures (array_loop mem f lexer a x) (array_post mem lexer x)).
Proof.
  induction f as [|f (IHv & IHo & IHa)]; [repeat split; intros; lia|].
  split; [|split].
  - (* json_lexer_parse_value *)
    intros lexer a Hf. cbn [json_lexer_parse_value].
    eapply ensures_bind; [apply json_lexer_trim_left_spec|]. intros l1 F1.
    destruct (load_cases (cursor l1)) as [->|(c & Hc & Hb)]; [exact I|].
    rewrite Hc. cbn [bind].
    assert (R1 : (remaining mem l1 <= remaining mem lexer)%nat)
      by (apply remaining_follows; assumption).
    assert (R1' : (1 <= remaining mem l1)%nat) by (unfold remaining; lia).
    destruct (isdigit c || Ascii.eqb c ".").
    { eapply ensures_bind; [apply strtod_spec|]. intros [d n] Hn. cbn [snd] in Hn.
      split; [cbn [fst snd]; follows_tac|].
      cbn [fst snd]. intros v [= <-]. left. reflexivity. }
    destruct (Ascii.eqb c quote).
    { cbv zeta.
      eapply ensures_bind; [apply skip_until_spec|]. intros l2 F2.
      eapply ensures_bind; [apply json_strndup_spec|]. intros [a' s] _.
      eapply ensures_bind; [apply json_lexer_expect_char_follows|]. intros [ok l3] F3.
      cbn [fst snd] in F3.
      destruct ok; cbn [negb]; (split; [cbn [fst snd]; follows_tac|]);
        cbn [fst snd]; intros v [= <-]. left. reflexivity. }
    destruct (Ascii.eqb c "f" || Ascii.eqb c "t") eqn:Hft.
    { cbv zeta.
      rewrite (skip_until_at_stop isalpha l1 c Hc (is_alpha_f_or_t c Hft)).
      cbn [bind].
      eapply ensures_bind; [apply json_strndup_spec|]. intros [a' s] _.
      split; [cbn [fst snd]; follows_tac|].
      cbn [fst snd]. intros v [= <-]. right.
      split; [exists c; split; assumption | reflexivity]. }
    destruct (Ascii.eqb_spec c "{") as [->|_].
    { unfold json_lexer_expect_char at 1.
      destruct (json_is_empty l1) eqn:Hemp; cbn [bind].
      - (* no content: the loop is not entered *)
        destruct f as [|f]; [lia|]. cbn [object_loop]. rewrite Hemp. cbn [bind].
        unfold json_lexer_trim_left, json_lexer_expect_char.
        repeat (rewrite Hemp; cbn [bind negb]).
        split; [cbn [fst snd]; follows_tac | intros ? [=]].
      - rewrite Hc. cbn [bind]. rewrite Ascii.eqb_refl. cbn [negb bind].
        eapply ensures_bind.
        { apply IHo. unfold remaining in *. cbn [advance cursor]. lia. }
        intros [[l3 a3] [o'|]] (F3 & Ho); cbn [fst snd] in *.
        2:{ split; [cbn [fst snd]; follows_tac | intros ? [=]]. }
        destruct (json_lexer_trim_left mem l3) as [l4| |] eqn:Et;
          [| exact I | exfalso; pose proof (json_lexer_trim_left_spec l3) as X;
                       rewrite Et in X; exact X ].
        pose proof (json_lexer_trim_left_spec l3) as F4. rewrite Et in F4.
        cbn [ensures bind] in *.
        pose proof (json_lexer_expect_char_spec l4 "}") as X.
        destruct (json_lexer_expect_char mem l4 "}") as [[ok l5]| |];
          [| exact I | exact X ].
        cbn [ensures bind fst snd] in *.
        destruct ok; cbn [negb].
        2:{ subst l5. split; [cbn [fst snd]; follows_tac | intros ? [=]]. }
        destruct X as (-> & Hclose & _).
        split; [cbn [fst snd]; follows_tac|].
        cbn [fst snd]. intros v [= <-]. left.
        destruct (Ho o' eq_refl eq_refl) as [Hok|Hbh]; [exact Hok|].
        exfalso. rewrite (bool_head_trim l3 Hbh) in Et. inversion Et; subst l4.
        exact (bool_head_not l3 "}" Hbh Hclose eq_refl). }
    destruct (Ascii.eqb_spec c "[") as [->|_].
    { unfold json_lexer_expect_char at 1.
      destruct (json_is_empty l1) eqn:Hemp; cbn [bind negb].
      - split; [cbn [fst snd]; follows_tac | intros ? [=]].
      - rewrite Hc. cbn [bind]. rewrite Ascii.eqb_refl. cbn [negb bind].
        eapply ensures_bind.
        { apply IHa. unfold remaining in *. cbn [advance cursor]. lia. }
        intros [[l3 a3] [x'|]] (F3 & Hx); cbn [fst snd] in *.
        2:{ split; [cbn [fst snd]; follows_tac | intros ? [=]]. }
        destruct (json_lexer_trim_left mem l3) as [l4| |] eqn:Et;
          [| exact I | exfalso; pose proof (json_lexer_trim_left_spec l3) as X;
                       rewrite Et in X; exact X ].
        pose proof (json_lexer_trim_left_spec l3) as F4. rewrite Et in F4.
        cbn [ensures bind] in *.
        pose proof (json_lexer_expect_char_spec l4 "]") as X.
        destruct (json_lexer_expect_char mem l4 "]") as [[ok l5]| |];
          [| exact I | exact X ].
        cbn [ensures bind fst snd] in *.
        destruct ok; cbn [negb].
        2:{ subst l5. split; [cbn [fst snd]; follows_tac | intros ? [=]]. }
        destruct X as (-> & Hclose & _).
        split; [cbn [fst snd]; follows_tac|].
        cbn [fst snd]. intros v [= <-]. left.
        destruct (Hx x' eq_refl eq_refl) as [Hok|Hbh]; [exact Hok|].
        exfalso. rewrite (bool_head_trim l3 Hbh) in Et. inversion Et; subst l4.
        exact (bool_head_not l3 "]" Hbh Hclose eq_refl). }
    split; [cbn [fst snd]; follows_tac | intros ? [=]].
  - (* object_loop *)
    intros lexer a o Hf. cbn [object_loop].
    destruct (json_is_empty lexer) eqn:Hemp.
    { split; [apply follows_refl|]. cbn [fst snd]. intros o' [= <-] H. left. exact H. }
    eapply ensures_bind.
    { apply json_lexer_parse_object_item_spec. intros l' a' F'.
      apply IHv. pose proof (remaining_follows _ _ F'). lia. }
    intros [[l1 a1] [[k v]|]] (F1 & Hv); cbn [fst snd] in *.
    2:{ split; [cbn [fst snd]; follows_tac | intros ? [=]]. }
    eapply ensures_bind; [apply json_object_append_spec|].
    intros [a2 o2] Ho2. cbn [snd] in Ho2.
    destruct (load_cases (cursor l1)) as [->|(c & Hc & Hb)]; [exact I|].
    rewrite Hc. cbn [bind].
    destruct (Ascii.eqb_spec c ",") as [->|Hne]; cbn [negb].
    + pose proof (json_lexer_expect_char_spec l1 ",") as X.
      destruct (json_lexer_expect_char mem l1 ",") as [[ok l2]| |];
        [| exact I | exact X ].
      cbn [ensures bind fst snd] in *.
      destruct ok; cbn [negb].
      2:{ subst l2. split; [cbn [fst snd]; follows_tac | intros ? [=]]. }
      destruct X as (-> & _ & _).
      eapply ensures_weaken.
      { apply IHo. pose proof (remaining_follows _ _ F1).
        unfold remaining in *. cbn [advance cursor]. lia. }
      intros [[l3 a3] o3] (F3 & Ho3). cbn [fst snd] in *.
      split; [cbn [fst snd]; follows_tac|].
      cbn [fst snd]. intros o' E Hc0. apply (Ho3 o' E).
      subst o2. apply json_object_append_consistent; [exact Hc0|].
      destruct (Hv k v eq_refl) as [Hok|Hbh]; [exact Hok|].
      exfalso. exact (bool_head_not l1 "," Hbh Hc eq_refl).
    + split; [cbn [fst snd]; follows_tac|].
      cbn [fst snd]. intros o' [= <-] Hc0.
      destruct (Hv k v eq_refl) as [Hok|Hbh]; [left|right; exact Hbh].
      subst o2. apply json_object_append_consistent; assumption.
  - (* array_loop *)
    intros lexer a x Hf. cbn [array_loop].
    destruct (json_is_empty lexer) eqn:Hemp.
    { split; [apply follows_refl|]. cbn [fst snd]. intros x' [= <-] H. left. exact H. }
    eapply ensures_bind; [apply IHv; lia|].
    intros [[l1 a1] [v|]] (F1 & Hv); cbn [fst snd] in *.
    2:{ split; [cbn [fst snd]; follows_tac | intros ? [=]]. }
    eapply ensures_bind; [apply json_array_append_spec|].
    intros [a2 x2] Hx2. cbn [snd] in Hx2.
    destruct (load_cases (cursor l1)) as [->|(c & Hc & Hb)]; [exact I|].
    rewrite Hc. cbn [bind].
    destruct (Ascii.eqb_spec c ",") as [->|Hne]; cbn [negb].
    + pose proof (json_lexer_expect_char_spec l1 ",") as X.
      destruct (json_lexer_expect_char mem l1 ",") as [[ok l2]| |];
        [| exact I | exact X ].
      cbn [ensures bind fst snd] in *.
      destruct ok; cbn [negb].
      2:{ subst l2. split; [cbn [fst snd]; follows_tac | intros ? [=]]. }
      destruct X as (-> & _ & _).
      eapply ensures_weaken.
      { apply IHa. pose proof (remaining_follows _ _ F1).
        unfold remaining in *. cbn [advance cursor]. lia. }
      intros [[l3 a3] x3] (F3 & Hx3). cbn [fst snd] in *.
      split; [cbn [fst snd]; follows_tac|].
      cbn [fst snd]. intros x' E Hc0. apply (Hx3 x' E).
      subst x2. apply json_array_append_consistent; [exact Hc0|].
      destruct (Hv v eq_refl) as [Hok|[Hbh _]]; [exact Hok|].
      exfalso. exact (bool_head_not l1 "," Hbh Hc eq_refl).
    + split; [cbn [fst snd]; follows_tac|].
      cbn [fst snd]. intros x' [= <-] Hc0.
      destruct (Hv v eq_refl) as [Hok|[Hbh _]]; [left|right; exact Hbh].
      subst x2. apply json_array_append_consistent; assumption.
Qed.

End Progress.

(** ** The parser as a function *)

(** json_lexer_parse_value always ends: it returns or it reads or
    writes outside its buffers. *)
Lemma json_lexer_parse_ends (mem : text) (lexer : JsonLexer) (a : Z) :
  ensures (json_lexer_parse mem lexer a) (value_post mem lexer).
Proof. apply parser_ends. lia. Qed.

(** Whatever a run of the model returns with some fuel is what
    [json_lexer_parse] returns. *)
Lemma json_lexer_parse_complete (mem : text) (f : nat) (lexer : JsonLexer) (a : Z)
      (r : JsonLexer * Z * option JsonValue) :
  json_lexer_parse_value mem f lexer a = Done r ->
  json_lexer_parse mem lexer a = Done r.
Proof.
  intros E. unfold json_lexer_parse.
  destruct (Nat.le_ge_cases f (S (2 * remaining mem lexer))) as [Hle|Hge].
  - rewrite (json_lexer_parse_value_more_fuel mem f _ lexer a Hle); [exact E|].
    rewrite E. discriminate.
  - rewrite <- E. symmetry.
    apply json_lexer_parse_value_more_fuel; [exact Hge|].
    pose proof (json_lexer_parse_ends mem lexer a) as H.
    unfold json_lexer_parse in H. intros T. rewrite T in H. exact H.
Qed.

(** ** Literals *)

(** Whatever begins with an 'f' or a 't' is parsed the same way: the
    loop on [!isalpha] does not move the cursor, the span is empty,
    [strncmp] over zero characters finds no difference, and the tag is
    overwritten with JSON_STRING. *)
Lemma json_lexer_parse_value_literal (mem : text) (f : nat) (lexer : JsonLexer) (a : Z) :
  bool_head mem lexer ->
  a + 1 <= JSON_ARENA_MAX_SIZE ->
  json_lexer_parse_value mem (S f) lexer a =
  Done (lexer, a, Some (Build_JsonValue JSON_STRING (as_boolean true))).
Proof.
  intros Hbh Ha. cbn [json_lexer_parse_value].
  rewrite (bool_head_trim mem lexer Hbh). cbn [bind].
  destruct Hbh as (c & Hc & Hft). rewrite Hc. cbn [bind].
  assert (E1 : isdigit c || Ascii.eqb c "." = false)
    by (destruct (is_f_or_t_cases c Hft) as [->| ->]; reflexivity).
  assert (E2 : Ascii.eqb c quote = false)
    by (destruct (is_f_or_t_cases c Hft) as [->| ->]; reflexivity).
  rewrite E1, E2. fold (is_f_or_t c). rewrite Hft. cbv zeta.
  rewrite (skip_until_at_stop mem isalpha lexer c Hc (is_alpha_f_or_t c Hft)).
  cbn [bind]. unfold span. rewrite Z.sub_diag.
  change (to_size_t (to_int 0)) with 0. change (to_size_t 0) with 0.
  unfold json_strndup, json_alloc. change (to_size_t (0 + 1)) with 1.
  destruct (Z.leb_spec (a + 1) JSON_ARENA_MAX_SIZE) as [_|?]; [|lia].
  cbn [bind].
  destruct (Z.leb_spec 0 (Z.of_nat (List.length (ahead mem lexer)))) as [_|?]; [|lia].
  reflexivity.
Qed.

(** C1: the text false is parsed to a value tagged JSON_STRING whose
    boolean member holds true, with the cursor left on the 'f';
    json_value_as_boolean returns NULL for it. And the parse of
    {QUOTE a QUOTE: true, QUOTE b QUOTE: QUOTE hi QUOTE} (the text of
    the claim) returns false: after the value for a, the cursor is
    still on the 't' of true, where neither ',' nor '}' is found. *)
Theorem json_parse_literals_wrong :
  parse_text (lit "false") =
    Done ({| content_start := 0; content_len := 5; cursor := 0 |}, 0,
          Some (Build_JsonValue JSON_STRING (as_boolean true))) /\
  json_value_as_boolean (Build_JsonValue JSON_STRING (as_boolean true)) = None /\
  parse_text text_a_b =
    Done ({| content_start := 0; content_len := 22; cursor := 6 |}, 42, None).
Proof. repeat split; vm_compute; reflexivity. Qed.

(** ** The products *)

(** C7: the parse of the products text returns true, at the end of the
    text, with an object of one item. Its key products leads to a
    value that json_value_as_array accepts: an array of length 3 whose
    items 0, 1 and 2 are the numbers 1, 2 and 3, and json_stringify
    prints them as 1.00, 2.00 and 3.00. *)
Theorem json_parse_products :
  parse_text text_products =
    Done ({| content_start := 0; content_len := 23; cursor := 23 |}, 145,
          Some (Build_JsonValue JSON_OBJECT (as_object products_object))) /\
  json_value_as_object (Build_JsonValue JSON_OBJECT (as_object products_object)) =
    Some (as_object products_object) /\
  json_object_find_value products_object (lit "products") =
    value_of (Build_JsonValue JSON_ARRAY (as_array products_array)) /\
  json_value_as_array (Build_JsonValue JSON_ARRAY (as_array products_array)) =
    Some (as_array products_array) /\
  array_len products_array = 3 /\
  map (json_array_get_item products_array) [0; 1; 2] =
    [value_of (number_of 1); value_of (number_of 2); value_of (number_of 3)] /\
  map json_value_as_number [number_of 1; number_of 2; number_of 3] =
    map (fun v => Some (as_ v)) [number_of 1; number_of 2; number_of 3] /\
  map (fun n => is_integer n (number_of n)) [1; 2; 3] = [true; true; true] /\
  map json_stringify [number_of 1; number_of 2; number_of 3] =
    [Done (lit "1.00"); Done (lit "2.00"); Done (lit "3.00")].
Proof. repeat split; vm_compute; reflexivity. Qed.

(** ** Lookup by index *)

Lemma count_nodes_values (cur : JsonArrayNode) :
  count_nodes cur = Z.of_nat (List.length (node_values cur)).
Proof. induction cur as [|v next IH]; simpl List.length; simpl count_nodes; lia. Qed.

Lemma count_items_values (cur : JsonObjectItem) :
  count_items cur = Z.of_nat (List.length (item_values cur)).
Proof. induction cur as [|k v next IH]; simpl List.length; simpl count_items; lia. Qed.

Lemma node_walk_nth (cur : JsonArrayNode) (i : nat) :
  node_walk cur i = match nth_error (node_values cur) i with
                    | Some v => value_of v
                    | None => NULL
                    end.
Proof.
  revert i; induction cur as [|v next IH]; intros [|i]; simpl; auto.
Qed.

Lemma item_walk_nth (cur : JsonObjectItem) (i : nat) :
  item_walk cur i = match nth_error (item_values cur) i with
                    | Some v => value_of v
                    | None => value_of_NULL
                    end.
Proof.
  revert i; induction cur as [|k v next IH]; intros [|i]; simpl; auto.
Qed.

(** What a lookup by index returns, on a list of values whose stored
    length is its number of nodes; [past_end] is what the walk gives
    when it has left the chain. *)
Lemma walk_by_index (values : list JsonValue) (len index : Z) (past_end : JsonValue_ptr) :
  len = Z.of_nat (List.length values) -> 0 <= index ->
  let found := if len <? index then NULL
               else match nth_error values (Z.to_nat index) with
                    | Some v => value_of v
                    | None => past_end
                    end in
  (len < index -> found = NULL) /\
  (index = len -> found = past_end) /\
  (index < len ->
   exists v, nth_error values (Z.to_nat index) = Some v /\ found = value_of v).
Proof.
  intros Hlen Hi found. subst found.
  destruct (Z.ltb_spec len index) as [Hgt|Hle].
  - split; [reflexivity|]. split; intros; lia.
  - destruct (nth_error values (Z.to_nat index)) as [v|] eqn:E.
    + assert (Z.to_nat index < List.length values)%nat
        by (apply nth_error_Some; congruence).
      split; [lia|]. split; [lia|].
      intros _. exists v. auto.
    + apply nth_error_None in E.
      split; [lia|]. split; [reflexivity|lia].
Qed.

(** C10, as the code has it. On an array and on an object whose [len]
    is the number of their nodes, the guard of json_array_get_item and
    of json_object_get_item returns NULL for every index above [len]
    and for no other, and an index below [len] gives the address of the
    value of that node. For the index equal to [len] the loop leaves
    the chain and the result is [&cur->value] for a [cur] that is NULL:
    in json_object_get_item an address that is not NULL and not that of
    a value; in json_array_get_item, where [value] is the first member
    of the node, the null pointer. So json_array_get_item returns NULL
    exactly from [len] on, json_object_get_item exactly above it. *)
Theorem get_item_at_length (x : JsonArray) (o : JsonObject) (index : Z) :
  array_len x = count_nodes (array_next x) ->
  object_len o = count_items (object_next o) ->
  0 <= index ->
  ((json_array_get_item x index = NULL <-> array_len x <= index) /\
   (index < array_len x ->
    exists v, nth_error (node_values (array_next x)) (Z.to_nat index) = Some v /\
              json_array_get_item x index = value_of v)) /\
  ((json_object_get_item o index = NULL <-> object_len o < index) /\
   (index = object_len o -> json_object_get_item o index = value_of_NULL) /\
   (index < object_len o ->
    exists v, nth_error (item_values (object_next o)) (Z.to_nat index) = Some v /\
              json_object_get_item o index = value_of v)).
Proof.
  intros Hx Ho Hi. split.
  - unfold json_array_get_item. rewrite node_walk_nth.
    destruct (walk_by_index (node_values (array_next x)) (array_len x) index NULL)
      as (Habove & Hat & Hbelow); [rewrite Hx; apply count_nodes_values | exact Hi |].
    cbv zeta in Habove, Hat, Hbelow. split; [split|exact Hbelow].
    + intros E. destruct (Z.lt_ge_cases index (array_len x)) as [Hlt|Hge]; [|lia].
      destruct (Hbelow Hlt) as (v & _ & Ev). rewrite Ev in E. discriminate.
    + intros Hle. destruct (Z.eq_dec index (array_len x)) as [Heq|Hne];
        [apply Hat; exact Heq | apply Habove; lia].
  - unfold json_object_get_item. rewrite item_walk_nth.
    destruct (walk_by_index (item_values (object_next o)) (object_len o) index value_of_NULL)
      as (Habove & Hat & Hbelow); [rewrite Ho; apply count_items_values | exact Hi |].
    cbv zeta in Habove, Hat, Hbelow. split; [split|split; [exact Hat|exact Hbelow]].
    + intros E. destruct (Z.lt_trichotomy index (object_len o)) as [Hlt|[Heq|Hgt]];
        [|rewrite (Hat Heq) in E; discriminate|exact Hgt].
      destruct (Hbelow Hlt) as (v & _ & Ev). rewrite Ev in E. discriminate.
    + exact Habove.
Qed.

Lemma get_item_at_length_witness :
  let x := products_array in
  let o := Build_JsonObject 3
             (item (lit "a") (number_of 1)
                (item (lit "b") (number_of 2)
                   (item (lit "c") (number_of 3) item_NULL))) in
  ((json_array_get_item x 3 = NULL <-> array_len x <= 3) /\
   (3 < array_len x ->
    exists v, nth_error (node_values (array_next x)) (Z.to_nat 3) = Some v /\
              json_array_get_item x 3 = value_of v)) /\
  ((json_object_get_item o 3 = NULL <-> object_len o < 3) /\
   (3 = object_len o -> json_object_get_item o 3 = value_of_NULL) /\
   (3 < object_len o ->
    exists v, nth_error (item_values (object_next o)) (Z.to_nat 3) = Some v /\
              json_object_get_item o 3 = value_of v)).
Proof.
  intros x o.
  apply (get_item_at_length x o 3); [reflexivity | reflexivity | lia].
Defined.

(** C10, as stated, fails for json_array_get_item: on the array of the
    three products the index 3 is the length, the walk ends on the
    null tail pointer, and the call returns NULL, as it does for the
    index 4 that the guard rejects; json_object_get_item on an object
    of three items returns an address that is not NULL. *)
Lemma json_array_get_item_at_length_is_NULL :
  array_len products_array = 3 /\
  json_array_get_item products_array 3 = NULL /\
  json_array_get_item products_array 4 = NULL /\
  json_object_get_item
    (Build_JsonObject 3
       (item (lit "a") (number_of 1)
          (item (lit "b") (number_of 2)
             (item (lit "c") (number_of 3) item_NULL)))) 3 = value_of_NULL.
Proof. repeat split. Qed.

(** ** Consistent values *)

Scheme JsonValue_ind' := Induction for JsonValue Sort Prop
  with JsonValueAs_ind' := Induction for JsonValueAs Sort Prop
  with JsonObject_ind' := Induction for JsonObject Sort Prop
  with JsonArray_ind' := Induction for JsonArray Sort Prop
  with JsonObjectItem_ind' := Induction for JsonObjectItem Sort Prop
  with JsonArrayNode_ind' := Induction for JsonArrayNode Sort Prop.

(** json_stringify prints every consistent value to its end. *)
Lemma json_stringify_consistent (value : JsonValue) :
  consistent value = true -> exists out, json_stringify value = Done out.
Proof.
  apply (JsonValue_ind'
    (fun v => consistent v = true -> exists out, json_stringify v = Done out)
    (fun a => forall t, consistent (Build_JsonValue t a) = true ->
                        exists out, json_stringify (Build_JsonValue t a) = Done out)
    (fun o => consistent_items (object_next o) = true ->
              exists out, stringify_items (object_next o) = Done out)
    (fun x => consistent_nodes (array_next x) = true ->
              exists out, stringify_nodes (array_next x) = Done out)
    (fun cur => consistent_items cur = true ->
                exists out, stringify_items cur = Done out)
    (fun cur => consistent_nodes cur = true ->
                exists out, stringify_nodes cur = Done out)).
  - intros t a IH. apply IH.
  - intros d [] H; try discriminate. eexists; reflexivity.
  - intros b [] H; try discriminate. eexists; reflexivity.
  - intros s0 [] H; try discriminate. eexists; reflexivity.
  - intros [len next] IH [] H; try discriminate.
    cbn [consistent] in H. apply andb_true_iff in H. destruct H as [H _].
    destruct (IH H) as [out E]. cbn [object_next] in E.
    cbn [json_stringify]. rewrite E. eexists; reflexivity.
  - intros [len next] IH [] H; try discriminate.
    cbn [consistent] in H. apply andb_true_iff in H. destruct H as [H _].
    destruct (IH H) as [out E]. cbn [array_next] in E.
    cbn [json_stringify]. rewrite E. eexists; reflexivity.
  - intros len next IH. exact IH.
  - intros len next IH. exact IH.
  - intros _. eexists; reflexivity.
  - intros k v IHv next IHn H. cbn [consistent_items] in H.
    apply andb_true_iff in H. destruct H as [Hv Hn].
    destruct (IHv Hv) as [o1 E1]. destruct (IHn Hn) as [o2 E2].
    cbn [stringify_items]. rewrite E1, E2. eexists; reflexivity.
  - intros _. eexists; reflexivity.
  - intros v IHv next IHn H. cbn [consistent_nodes] in H.
    apply andb_true_iff in H. destruct H as [Hv Hn].
    destruct (IHv Hv) as [o1 E1]. destruct (IHn Hn) as [o2 E2].
    cbn [stringify_nodes]. rewrite E1, E2. eexists; reflexivity.
Qed.

Lemma consistent_nodes_nth (cur : JsonArrayNode) (i : nat) (v : JsonValue) :
  consistent_nodes cur = true ->
  nth_error (node_values cur) i = Some v ->
  consistent v = true.
Proof.
  revert i; induction cur as [|x next IH]; intros [|i] H E; simpl in *;
    try discriminate; apply andb_true_iff in H; destruct H as [Hx Hn].
  - congruence.
  - eapply IH; eassumption.
Qed.

Lemma item_find_consistent (cur : JsonObjectItem) (k : text) (v : JsonValue) :
  consistent_items cur = true ->
  item_find cur k = value_of v ->
  consistent v = true.
Proof.
  induction cur as [|k0 x next IH]; intros H E; simpl in *; [discriminate|].
  apply andb_true_iff in H. destruct H as [Hx Hn].
  destruct (strcmp_eq k0 k); [congruence | auto].
Qed.

Lemma item_find_not_value_of_NULL (cur : JsonObjectItem) (k : text) :
  item_find cur k <> value_of_NULL.
Proof.
  induction cur as [|k0 x next IH]; simpl; [discriminate|].
  destruct (strcmp_eq k0 k); [discriminate | exact IH].
Qed.

Lemma to_size_t_le (n : Z) : 0 <= n -> 0 <= to_size_t n <= n.
Proof.
  intros H. unfold to_size_t. split.
  - apply Z.mod_pos_bound. reflexivity.
  - apply Z.mod_le; [exact H | reflexivity].
Qed.

(** A value the parser returned under the tag JSON_OBJECT or
    JSON_ARRAY is consistent: the one value that is not, the literal,
    carries the tag JSON_STRING. *)
Lemma json_lexer_parse_consistent (mem : text) (lexer lexer' : JsonLexer)
      (a a' : Z) (v : JsonValue) :
  json_lexer_parse mem lexer a = Done (lexer', a', Some v) ->
  type v <> JSON_STRING ->
  consistent v = true.
Proof.
  intros E Ht. pose proof (json_lexer_parse_ends mem lexer a) as H.
  rewrite E in H. destruct H as (_ & H). cbn [fst snd] in H.
  destruct (H v eq_refl) as [Hok|[_ Hs]]; [exact Hok | contradiction].
Qed.

Lemma as_if_some (t : JsonValueType) (v : JsonValue) (p : JsonValueAs) :
  as_if t v = Some p -> type v = t /\ p = as_ v.
Proof.
  unfold as_if. destruct v as [t' a']. cbn [type as_].
  destruct t, t'; cbn [type_eqb]; intros [=]; auto.
Qed.

Lemma as_if_none (t : JsonValueType) (v : JsonValue) :
  as_if t v = None -> type v <> t.
Proof.
  unfold as_if. destruct v as [t' a']. cbn [type as_].
  destruct t, t'; cbn [type_eqb]; intros [=]; discriminate.
Qed.

Lemma consistent_object_payload (v : JsonValue) :
  consistent v = true -> type v = JSON_OBJECT ->
  exists o, as_ v = as_object o /\ consistent_items (object_next o) = true.
Proof.
  destruct v as [[] a]; cbn [type]; intros H [=].
  destruct a as [| | |[len next]|]; try discriminate.
  cbn [consistent] in H. apply andb_true_iff in H.
  eexists; split; [reflexivity|]. tauto.
Qed.

Lemma consistent_array_payload (v : JsonValue) :
  consistent v = true -> type v = JSON_ARRAY ->
  exists x, as_ v = as_array x /\ consistent_array x = true.
Proof.
  destruct v as [[] a]; cbn [type]; intros H [=].
  destruct a as [| | | |x]; try discriminate.
  eexists; split; [reflexivity|]. exact H.
Qed.

(** ** Arrays and objects built by appends *)

Lemma node_values_append (cur : JsonArrayNode) (v : JsonValue) :
  node_values (node_append cur v) = node_values cur ++ [v].
Proof. induction cur as [|x next IH]; cbn; congruence. Qed.

Lemma item_pairs_append (cur : JsonObjectItem) (k : text) (v : JsonValue) :
  item_pairs (item_append cur k v) = item_pairs cur ++ [(k, v)].
Proof. induction cur as [|k0 x next IH]; cbn; congruence. Qed.

Lemma item_find_pairs (cur : JsonObjectItem) (k : text) :
  item_find cur k = match first_with_key k (item_pairs cur) with
                    | Some v => value_of v
                    | None => NULL
                    end.
Proof.
  induction cur as [|k0 x next IH]; cbn [item_find item_pairs first_with_key];
    [reflexivity|].
  destruct (strcmp_eq k0 k); [reflexivity | exact IH].
Qed.

Lemma small_size_t (n : Z) : 0 <= n < size_modulus -> to_size_t n = n.
Proof. intros H. unfold to_size_t. apply Z.mod_small. exact H. Qed.

Lemma append_values_spec (values : list JsonValue) :
  forall (a : Z) (x : JsonArray),
    0 <= a ->
    a + sizeof_JsonArrayNode * Z.of_nat (List.length values) <= JSON_ARENA_MAX_SIZE ->
    array_len x = Z.of_nat (List.length (node_values (array_next x))) ->
    array_len x + Z.of_nat (List.length values) < size_modulus ->
    exists x',
      append_values a x values =
        Done (a + sizeof_JsonArrayNode * Z.of_nat (List.length values), x') /\
      node_values (array_next x') = node_values (array_next x) ++ values /\
      array_len x' = array_len x + Z.of_nat (List.length values).
Proof.
  assert (M : size_modulus = 2 ^ 64) by reflexivity.
  assert (J : JSON_ARENA_MAX_SIZE = 2 ^ 20) by reflexivity.
  unfold sizeof_JsonArrayNode.
  induction values as [|v rest IH]; intros a x Ha Hfit Hlen Hmax.
  - exists x. cbn [append_values List.length Z.of_nat]. rewrite app_nil_r.
    repeat split; [do 2 f_equal; lia | lia].
  - cbn [List.length] in Hfit, Hmax.
    cbn [append_values]. unfold json_array_append, json_alloc, sizeof_JsonArrayNode.
    destruct (Z.leb_spec (a + 32) JSON_ARENA_MAX_SIZE) as [_|?]; [|lia].
    cbn [bind]. rewrite (small_size_t (a + 32)), (small_size_t (array_len x + 1)) by lia.
    destruct (IH (a + 32) (Build_JsonArray (array_len x + 1)
                                            (node_append (array_next x) v)))
      as (x' & E & Hv & Hl).
    + lia.
    + lia.
    + cbn [array_len array_next]. rewrite node_values_append, length_app.
      cbn [List.length]. lia.
    + cbn [array_len]. lia.
    + exists x'. rewrite E. cbn [array_len array_next] in Hv, Hl.
      split; [do 2 f_equal; cbn [List.length]; lia|].
      split; [rewrite Hv, node_values_append, <- app_assoc; reflexivity|].
      rewrite Hl. cbn [List.length]. lia.
Qed.

Lemma append_pairs_spec (pairs : list (text * JsonValue)) :
  forall (a : Z) (o : JsonObject),
    0 <= a ->
    a + sizeof_JsonObjectItem * Z.of_nat (List.length pairs) <= JSON_ARENA_MAX_SIZE ->
    object_len o = Z.of_nat (List.length (item_pairs (object_next o))) ->
    object_len o + Z.of_nat (List.length pairs) < size_modulus ->
    exists o',
      append_pairs a o pairs =
        Done (a + sizeof_JsonObjectItem * Z.of_nat (List.length pairs), o') /\
      item_pairs (object_next o') = item_pairs (object_next o) ++ pairs /\
      object_len o' = object_len o + Z.of_nat (List.length pairs).
Proof.
  assert (M : size_modulus = 2 ^ 64) by reflexivity.
  assert (J : JSON_ARENA_MAX_SIZE = 2 ^ 20) by reflexivity.
  unfold sizeof_JsonObjectItem.
  induction pairs as [|[k v] rest IH]; intros a o Ha Hfit Hlen Hmax.
  - exists o. cbn [append_pairs List.length Z.of_nat]. rewrite app_nil_r.
    repeat split; [do 2 f_equal; lia | lia].
  - cbn [List.length] in Hfit, Hmax.
    cbn [append_pairs]. unfold json_object_append, json_alloc, sizeof_JsonObjectItem.
    destruct (Z.leb_spec (a + 40) JSON_ARENA_MAX_SIZE) as [_|?]; [|lia].
    cbn [bind]. rewrite (small_size_t (a + 40)), (small_size_t (object_len o + 1)) by lia.
    destruct (IH (a + 40) (Build_JsonObject (object_len o + 1)
                                             (item_append (object_next o) k v)))
      as (o' & E & Hv & Hl).
    + lia.
    + lia.
    + cbn [object_len object_next]. rewrite item_pairs_append, length_app.
      cbn [List.length]. lia.
    + cbn [object_len]. lia.
    + exists o'. rewrite E. cbn [object_len object_next] in Hv, Hl.
      split; [do 2 f_equal; cbn [List.length]; lia|].
      split; [rewrite Hv, item_pairs_append, <- app_assoc; reflexivity|].
      rewrite Hl. cbn [List.length]. lia.
Qed.

(** X16: the values appended with json_array_append to the array of
    json_value_array, while the arena has room for their nodes (32
    bytes each), are the items of the array, in order:
    json_array_get_item returns the address of the i-th appended value
    for every index below their number, and the stored length is their
    number. An append that the arena has no room for writes outside
    it. *)
Theorem json_array_append_then_get_item (values : list JsonValue) (a : Z) (v : JsonValue) :
  0 <= a ->
  a + 32 * Z.of_nat (List.length values) <= JSON_ARENA_MAX_SIZE ->
  exists x,
    read_array (as_ json_value_array) = Done (Build_JsonArray 0 node_NULL) /\
    append_values a (Build_JsonArray 0 node_NULL) values =
      Done (a + 32 * Z.of_nat (List.length values), x) /\
    array_len x = Z.of_nat (List.length values) /\
    (forall i : nat,
        (i < List.length values)%nat ->
        exists vi, nth_error values i = Some vi /\
                   json_array_get_item x (Z.of_nat i) = value_of vi) /\
    (JSON_ARENA_MAX_SIZE < a + 32 * Z.of_nat (List.length values) + 32 ->
     json_array_append (a + 32 * Z.of_nat (List.length values)) x v = Fault).
Proof.
  intros Ha Hfit.
  assert (J : JSON_ARENA_MAX_SIZE = 2 ^ 20) by reflexivity.
  destruct (append_values_spec values a (Build_JsonArray 0 node_NULL))
    as (x & E & Hv & Hl).
  { exact Ha. }
  { unfold sizeof_JsonArrayNode. exact Hfit. }
  { reflexivity. }
  { cbn [array_len]. unfold size_modulus, SIZE_WIDTH. lia. }
  cbn [array_len array_next node_values app] in Hv, Hl.
  exists x. split; [reflexivity|]. split; [exact E|]. split; [lia|]. split.
  - intros i Hi. destruct (nth_error values i) as [vi|] eqn:Ei.
    2:{ apply nth_error_None in Ei. lia. }
    exists vi. split; [reflexivity|].
    unfold json_array_get_item. rewrite Hl.
    destruct (Z.ltb_spec (0 + Z.of_nat (List.length values)) (Z.of_nat i)); [lia|].
    rewrite node_walk_nth, Hv, Nat2Z.id, Ei. reflexivity.
  - intros Hfull. unfold json_array_append, json_alloc, sizeof_JsonArrayNode.
    destruct (Z.leb_spec (a + 32 * Z.of_nat (List.length values) + 32) JSON_ARENA_MAX_SIZE);
      [lia | reflexivity].
Qed.

Lemma json_array_append_then_get_item_witness :
  exists x,
    read_array (as_ json_value_array) = Done (Build_JsonArray 0 node_NULL) /\
    append_values 0 (Build_JsonArray 0 node_NULL) [number_of 1; number_of 2] =
      Done (0 + 32 * Z.of_nat (List.length [number_of 1; number_of 2]), x) /\
    array_len x = Z.of_nat (List.length [number_of 1; number_of 2]) /\
    (forall i : nat,
        (i < List.length [number_of 1; number_of 2])%nat ->
        exists vi, nth_error [number_of 1; number_of 2] i = Some vi /\
                   json_array_get_item x (Z.of_nat i) = value_of vi) /\
    (JSON_ARENA_MAX_SIZE < 0 + 32 * Z.of_nat (List.length [number_of 1; number_of 2]) + 32 ->
     json_array_append (0 + 32 * Z.of_nat (List.length [number_of 1; number_of 2])) x
                       (number_of 3) = Fault).
Proof.
  apply (json_array_append_then_get_item [number_of 1; number_of 2] 0 (number_of 3)).
  - lia.
  - cbn. lia.
Defined.

(** X17: on the object of json_value_object after appends with
    json_object_append, json_object_find_value returns the address of
    the value of the first pair appended under a key equal to the key
    looked up (a later pair under the same key is never found), and
    NULL when no pair has that key or nothing was appended. *)
Theorem json_object_append_then_find_value (pairs : list (text * JsonValue))
        (a : Z) (k : text) :
  0 <= a ->
  a + 40 * Z.of_nat (List.length pairs) <= JSON_ARENA_MAX_SIZE ->
  exists o,
    read_object (as_ json_value_object) = Done (Build_JsonObject 0 item_NULL) /\
    append_pairs a (Build_JsonObject 0 item_NULL) pairs =
      Done (a + 40 * Z.of_nat (List.length pairs), o) /\
    object_len o = Z.of_nat (List.length pairs) /\
    json_object_find_value o k =
      match first_with_key k pairs with
      | Some v => value_of v
      | None => NULL
      end.
Proof.
  intros Ha Hfit.
  assert (J : JSON_ARENA_MAX_SIZE = 2 ^ 20) by reflexivity.
  destruct (append_pairs_spec pairs a (Build_JsonObject 0 item_NULL))
    as (o & E & Hv & Hl).
  { exact Ha. }
  { unfold sizeof_JsonObjectItem. exact Hfit. }
  { reflexivity. }
  { cbn [object_len]. unfold size_modulus, SIZE_WIDTH. lia. }
  cbn [object_len object_next item_pairs app] in Hv, Hl.
  exists o. split; [reflexivity|]. split; [exact E|]. split; [lia|].
  unfold json_object_find_value. rewrite Hl, item_find_pairs, Hv.
  destruct (Z.eqb_spec (0 + Z.of_nat (List.length pairs)) 0) as [H0|_]; [|reflexivity].
  destruct pairs; [reflexivity | cbn [List.length] in H0; lia].
Qed.

Lemma json_object_append_then_find_value_witness :
  let pairs := [(lit "a", number_of 1); (lit "b", number_of 2); (lit "a", number_of 3)] in
  exists o,
    read_object (as_ json_value_object) = Done (Build_JsonObject 0 item_NULL) /\
    append_pairs 0 (Build_JsonObject 0 item_NULL) pairs =
      Done (0 + 40 * Z.of_nat (List.length pairs), o) /\
    object_len o = Z.of_nat (List.length pairs) /\
    json_object_find_value o (lit "a") =
      match first_with_key (lit "a") pairs with
      | Some v => value_of v
      | None => NULL
      end.
Proof.
  apply (json_object_append_then_find_value
           [(lit "a", number_of 1); (lit "b", number_of 2); (lit "a", number_of 3)]
           0 (lit "a")).
  - lia.
  - cbn. lia.
Defined.

(** ** The parser on a text *)

Section Cursor.

Variable mem : text.

Lemma advance_advance (lexer : JsonLexer) (n m : Z) :
  advance (advance lexer n) m = advance lexer (n + m).
Proof. unfold advance. cbn. f_equal. lia. Qed.

Lemma json_is_empty_advance (lexer : JsonLexer) (n : Z) :
  json_is_empty (advance lexer n) = json_is_empty lexer.
Proof. reflexivity. Qed.

Lemma reads_advance (lexer : JsonLexer) (pre s : text) :
  reads mem lexer (pre ++ s) ->
  reads mem (advance lexer (Z.of_nat (List.length pre))) s.
Proof.
  unfold reads, ahead, advance. cbn [cursor]. intros [Hc H].
  destruct (Z.ltb_spec (cursor lexer) 0) as [?|_]; [lia|].
  split; [lia|].
  destruct (Z.ltb_spec (cursor lexer + Z.of_nat (List.length pre)) 0) as [?|_]; [lia|].
  replace (Z.to_nat (cursor lexer + Z.of_nat (List.length pre)))
    with (List.length pre + Z.to_nat (cursor lexer))%nat by lia.
  rewrite <- skipn_skipn, H, skipn_app, skipn_all, Nat.sub_diag. reflexivity.
Qed.

Lemma reads_load (lexer : JsonLexer) (c : ascii) (s : text) :
  reads mem lexer (c :: s) -> load mem (cursor lexer) = Done c.
Proof.
  unfold reads, ahead. intros [Hc H].
  destruct (Z.ltb_spec (cursor lexer) 0) as [?|_]; [lia|].
  rewrite <- (Z2Nat.id (cursor lexer)) at 1 by lia.
  eapply Sv.load_skipn. exact H.
Qed.

Lemma scan_stop (stop : ascii -> bool) (pre : text) (c : ascii) (s : text) :
  forallb (fun x => negb (stop x)) pre = true -> stop c = true ->
  scan stop (pre ++ c :: s) = Some (Z.of_nat (List.length pre)).
Proof.
  intros Hpre Hc. induction pre as [|x pre IH]; cbn [app scan List.length].
  - rewrite Hc. reflexivity.
  - cbn [forallb] in Hpre. apply andb_true_iff in Hpre. destruct Hpre as [Hx Hpre].
    apply negb_true_iff in Hx. rewrite Hx, (IH Hpre). f_equal. lia.
Qed.

Lemma scan_none (stop : ascii -> bool) (s : text) :
  forallb (fun x => negb (stop x)) s = true -> scan stop s = None.
Proof.
  induction s as [|x s IH]; intros H; cbn [scan]; [reflexivity|].
  cbn [forallb] in H. apply andb_true_iff in H. destruct H as [Hx H].
  apply negb_true_iff in Hx. rewrite Hx, (IH H). reflexivity.
Qed.

Lemma skip_until_reads (stop : ascii -> bool) (lexer : JsonLexer)
      (pre : text) (c : ascii) (s : text) :
  json_is_empty lexer = false ->
  reads mem lexer (pre ++ c :: s) ->
  forallb (fun x => negb (stop x)) pre = true -> stop c = true ->
  skip_until mem stop lexer = Done (advance lexer (Z.of_nat (List.length pre))).
Proof.
  intros He [_ Hr] Hpre Hc. unfold skip_until.
  rewrite He, Hr, (scan_stop stop pre c s Hpre Hc). reflexivity.
Qed.

Lemma trim_left_reads (lexer : JsonLexer) (ws : text) (c : ascii) (s : text) :
  json_is_empty lexer = false ->
  reads mem lexer (ws ++ c :: s) ->
  blanks ws = true -> isspace c = false ->
  json_lexer_trim_left mem lexer = Done (advance lexer (Z.of_nat (List.length ws))).
Proof.
  intros He Hr Hws Hc. unfold json_lexer_trim_left. rewrite He.
  apply (skip_until_reads _ lexer ws c s He Hr).
  - unfold blanks in Hws. rewrite forallb_forall in Hws |- *.
    intros x Hx. rewrite (Hws x Hx). reflexivity.
  - rewrite Hc. reflexivity.
Qed.

Lemma expect_char_reads (lexer : JsonLexer) (c c' : ascii) (s : text) :
  json_is_empty lexer = false ->
  reads mem lexer (c :: s) ->
  json_lexer_expect_char mem lexer c' =
  Done (if Ascii.eqb c c' then (true, advance lexer 1) else (false, lexer)).
Proof.
  intros He Hr. unfold json_lexer_expect_char.
  rewrite He, (reads_load lexer c s Hr). cbn [bind].
  destruct (Ascii.eqb c c'); reflexivity.
Qed.

(** The end of every call on a character that opens no value: false,
    with the cursor on that character. *)
Lemma parse_value_rejects (fuel : nat) (lexer : JsonLexer) (a : Z)
      (ws : text) (c : ascii) (rest : text) :
  json_is_empty lexer = false ->
  reads mem lexer (ws ++ c :: rest) ->
  blanks ws = true -> isspace c = false -> opens_value c = false ->
  json_lexer_parse_value mem (S fuel) lexer a =
  Done (advance lexer (Z.of_nat (List.length ws)), a, None).
Proof.
  intros He Hr Hws Hc Ho. cbn [json_lexer_parse_value].
  rewrite (trim_left_reads lexer ws c rest He Hr Hws Hc). cbn [bind].
  rewrite (reads_load _ c rest (reads_advance lexer ws _ Hr)). cbn [bind].
  unfold opens_value in Ho.
  repeat (apply orb_false_iff in Ho; destruct Ho as [Ho ?]).
  repeat match goal with
         | H : ?b = false |- context [?b] => rewrite H
         end.
  cbn [orb]. reflexivity.
Qed.

(** The same on a lexer whose content has no length: json_is_empty
    holds, json_lexer_trim_left returns at once, and the character the
    cursor is on decides. *)
Lemma parse_value_rejects_at_end (fuel : nat) (lexer : JsonLexer) (a : Z)
      (c : ascii) (rest : text) :
  json_is_empty lexer = true ->
  reads mem lexer (c :: rest) ->
  opens_value c = false ->
  json_lexer_parse_value mem (S fuel) lexer a = Done (lexer, a, None).
Proof.
  intros He Hr Ho. cbn [json_lexer_parse_value].
  unfold json_lexer_trim_left. rewrite He. cbn [bind].
  rewrite (reads_load _ c rest Hr). cbn [bind].
  unfold opens_value in Ho.
  repeat (apply orb_false_iff in Ho; destruct Ho as [Ho ?]).
  repeat match goal with
         | H : ?b = false |- context [?b] => rewrite H
         end.
  cbn [orb]. reflexivity.
Qed.

Lemma small_int (n : Z) : 0 <= n < 2 ^ 31 -> to_size_t (to_int n) = n.
Proof.
  intros H. unfold to_int. rewrite (Z.mod_small n) by lia.
  destruct (Z.ltb_spec n (2 ^ 31)); [|lia].
  unfold to_size_t. apply Z.mod_small. unfold size_modulus, SIZE_WIDTH. lia.
Qed.

(** The copy of the characters between two quotes, as the string form
    and the keys of objects take it: from the cursor behind the opening
    quote to the closing quote. *)
Lemma quoted_reads (lexer : JsonLexer) (a : Z) (s rest : text) :
  json_is_empty lexer = false ->
  reads mem lexer (s ++ quote :: rest) ->
  no_quote s = true ->
  0 <= a -> a + Z.of_nat (List.length s) + 1 <= JSON_ARENA_MAX_SIZE ->
  skip_until mem (Ascii.eqb quote) lexer =
    Done (advance lexer (Z.of_nat (List.length s))) /\
  json_strndup a (ahead mem lexer)
               (span lexer (advance lexer (Z.of_nat (List.length s)))) =
    Done (a + Z.of_nat (List.length s) + 1, s) /\
  json_lexer_expect_char mem (advance lexer (Z.of_nat (List.length s))) quote =
    Done (true, advance lexer (Z.of_nat (List.length s) + 1)).
Proof.
  intros He Hr Hs Ha Hfit.
  assert (J : JSON_ARENA_MAX_SIZE = 2 ^ 20) by reflexivity.
  split; [|split].
  - apply (skip_until_reads (Ascii.eqb quote) lexer s quote rest He Hr Hs).
    apply Ascii.eqb_refl.
  - unfold span, advance. cbn [cursor].
    replace (cursor lexer + Z.of_nat (List.length s) - cursor lexer)
      with (Z.of_nat (List.length s)) by lia.
    rewrite small_int by lia.
    unfold json_strndup, json_alloc.
    assert (W : to_size_t (Z.of_nat (List.length s) + 1) = Z.of_nat (List.length s) + 1).
    { unfold to_size_t. apply Z.mod_small. unfold size_modulus, SIZE_WIDTH. lia. }
    rewrite W.
    destruct (Z.leb_spec (a + (Z.of_nat (List.length s) + 1)) JSON_ARENA_MAX_SIZE);
      [|lia].
    cbn [bind]. destruct Hr as [_ ->].
    destruct (Z.leb_spec (Z.of_nat (List.length s))
                         (Z.of_nat (List.length (s ++ quote :: rest)))) as [_|Hl].
    2:{ rewrite length_app in Hl. lia. }
    rewrite Nat2Z.id, firstn_app, firstn_all, Nat.sub_diag. cbn [firstn].
    rewrite app_nil_r.
    unfold to_size_t. rewrite Z.mod_small by (unfold size_modulus, SIZE_WIDTH; lia).
    rewrite Z.add_assoc. reflexivity.
  - pose proof (reads_advance lexer s _ Hr) as Hr'.
    rewrite (expect_char_reads (advance lexer (Z.of_nat (List.length s)))
               quote quote rest He Hr').
    rewrite Ascii.eqb_refl, advance_advance. reflexivity.
Qed.

Lemma parse_value_string (fuel : nat) (lexer : JsonLexer) (a : Z) (ws s rest : text) :
  json_is_empty lexer = false ->
  reads mem lexer (ws ++ quote :: s ++ quote :: rest) ->
  blanks ws = true -> no_quote s = true ->
  0 <= a -> a + Z.of_nat (List.length s) + 1 <= JSON_ARENA_MAX_SIZE ->
  json_lexer_parse_value mem (S fuel) lexer a =
  Done (advance lexer (Z.of_nat (List.length ws) + Z.of_nat (List.length s) + 2),
        a + Z.of_nat (List.length s) + 1,
        Some (json_value_string s)).
Proof.
  intros He Hr Hws Hs Ha Hfit. cbn [json_lexer_parse_value].
  rewrite (trim_left_reads lexer ws quote _ He Hr Hws eq_refl). cbn [bind].
  pose proof (reads_advance lexer ws _ Hr) as Hr1.
  set (l1 := advance lexer (Z.of_nat (List.length ws))) in *.
  assert (He1 : json_is_empty l1 = false) by exact He.
  rewrite (reads_load _ _ _ Hr1). cbn [bind].
  change (isdigit quote || Ascii.eqb quote ".") with false.
  change (Ascii.eqb quote quote) with true. cbv iota zeta.
  pose proof (reads_advance l1 [quote] _ Hr1) as Hr2.
  change (Z.of_nat (List.length [quote])) with 1 in Hr2.
  set (l2 := advance l1 1) in *.
  assert (He2 : json_is_empty l2 = false) by exact He.
  destruct (quoted_reads l2 a s rest He2 Hr2 Hs Ha Hfit) as (E1 & E2 & E3).
  rewrite E1. cbn [bind]. rewrite E2. cbn [bind]. rewrite E3. cbn [bind negb].
  subst l2 l1. rewrite !advance_advance. unfold json_value_string.
  do 3 f_equal. f_equal. lia.
Qed.

End Cursor.

(** Every run of the model is the run of [json_lexer_parse], unless
    it ran out of fuel. *)
Lemma json_lexer_parse_value_always_ends_aux (mem : text) (lexer : JsonLexer) (a : Z)
      (fuel : nat) :
  le_result (json_lexer_parse_value mem fuel lexer a) (json_lexer_parse mem lexer a).
Proof.
  pose proof (json_lexer_parse_ends mem lexer a) as Hends.
  unfold json_lexer_parse in *.
  destruct (Nat.le_ge_cases fuel (S (2 * remaining mem lexer))) as [Hle|Hge].
  - apply (fuel_monotone mem fuel _ Hle).
  - right.
    apply (json_lexer_parse_value_more_fuel mem _ fuel lexer a Hge).
    intros T. rewrite T in Hends. exact Hends.
Qed.

(** X18: json_lexer_parse_value ends on every buffer, lexer and arena:
    it returns, or it reads or writes outside its buffers. When it
    returns, the cursor has not moved backwards and the bounds of the
    lexer are untouched. The result does not depend on the fuel of the
    model: every run that ends is the run of [json_lexer_parse]. *)
Theorem json_lexer_parse_value_always_ends (mem : text) (lexer : JsonLexer) (a : Z) :
  ensures (json_lexer_parse mem lexer a) (fun r => follows lexer (fst (fst r))) /\
  (forall fuel,
      le_result (json_lexer_parse_value mem fuel lexer a) (json_lexer_parse mem lexer a)).
Proof.
  pose proof (json_lexer_parse_ends mem lexer a) as Hends.
  split.
  - eapply ensures_weaken; [exact Hends|]. intros r [H _]. exact H.
  - intros fuel. apply json_lexer_parse_value_always_ends_aux.
Qed.

Lemma isspace_opens_none (c : ascii) : isspace c = true -> opens_value c = false.
Proof.
  destruct c as [[] [] [] [] [] [] [] []]; intros H; try reflexivity; discriminate H.
Qed.

(** X19: a text whose first character after the blanks opens none of
    the forms the parser knows is refused: the call returns false with
    the cursor on that character and the arena untouched. This is the
    fate of a negative number (the minus sign), of null, and of a text
    of blanks only (the NUL behind it). A lexer whose content has the
    length 0 is refused as well, with the cursor where it was: there
    json_lexer_trim_left skips nothing, and neither a blank nor the
    character behind the blanks opens a value. *)
Theorem json_lexer_parse_value_rejects (mem : text) (lexer : JsonLexer) (a : Z)
        (ws : text) (c : ascii) (rest : text) :
  reads mem lexer (ws ++ c :: rest) ->
  blanks ws = true ->
  isspace c = false ->
  opens_value c = false ->
  json_lexer_parse mem lexer a =
    Done (if json_is_empty lexer then lexer
          else advance lexer (Z.of_nat (List.length ws)), a, None) /\
  map opens_value ["-"%char; "n"%char; zero; "]"%char; "}"%char; ","%char] =
    [false; false; false; false; false; false].
Proof.
  intros Hr Hws Hc Ho. split; [|reflexivity].
  apply (json_lexer_parse_complete mem 1).
  destruct (json_is_empty lexer) eqn:He.
  - destruct ws as [|x ws].
    + apply (parse_value_rejects_at_end mem 0 lexer a c rest); assumption.
    + cbn [app] in Hr. cbn [blanks forallb] in Hws.
      apply andb_true_iff in Hws. destruct Hws as [Hx _].
      apply (parse_value_rejects_at_end mem 0 lexer a x (ws ++ c :: rest));
        [assumption | assumption | apply isspace_opens_none; exact Hx].
  - apply (parse_value_rejects mem 0 lexer a ws c rest); assumption.
Qed.

Lemma json_lexer_parse_value_rejects_witness :
  (json_lexer_parse (lit " -1" ++ [zero]) (json_lexer 0 3) 0 =
     Done (advance (json_lexer 0 3) 1, 0, None) /\
   map opens_value ["-"%char; "n"%char; zero; "]"%char; "}"%char; ","%char] =
     [false; false; false; false; false; false]) /\
  (json_lexer_parse [zero] (json_lexer 0 0) 0 = Done (json_lexer 0 0, 0, None) /\
   map opens_value ["-"%char; "n"%char; zero; "]"%char; "}"%char; ","%char] =
     [false; false; false; false; false; false]) /\
  (json_lexer_parse (lit "  -1" ++ [zero]) (json_lexer 0 0) 0 =
     Done (json_lexer 0 0, 0, None) /\
   map opens_value ["-"%char; "n"%char; zero; "]"%char; "}"%char; ","%char] =
     [false; false; false; false; false; false]).
Proof.
  split; [|split].
  - apply (json_lexer_parse_value_rejects (lit " -1" ++ [zero]) (json_lexer 0 3) 0
             (lit " ") "-"%char (lit "1" ++ [zero]));
      [split; [cbn; lia | reflexivity] | reflexivity | reflexivity | reflexivity].
  - apply (json_lexer_parse_value_rejects [zero] (json_lexer 0 0) 0 [] zero []);
      [split; [cbn; lia | reflexivity] | reflexivity | reflexivity | reflexivity].
  - apply (json_lexer_parse_value_rejects (lit "  -1" ++ [zero]) (json_lexer 0 0) 0
             (lit "  ") "-"%char (lit "1" ++ [zero])).
    + split; [cbn; lia | reflexivity].
    + reflexivity.
    + reflexivity.
    + reflexivity.
Defined.

(** X20: the empty array and the empty object are refused. After the
    opening bracket the loop asks for a value (for an item) before it
    looks for the closing bracket, and the closing bracket opens none:
    the call returns false with the cursor on the closing bracket. *)
Theorem json_lexer_parse_value_rejects_empty (mem : text) (lexer : JsonLexer) (a : Z)
        (ws ws' rest : text) :
  json_is_empty lexer = false ->
  blanks ws = true ->
  blanks ws' = true ->
  (reads mem lexer (ws ++ "["%char :: ws' ++ "]"%char :: rest) ->
   json_lexer_parse mem lexer a =
     Done (advance lexer (Z.of_nat (List.length ws) + 1 + Z.of_nat (List.length ws')),
           a, None)) /\
  (reads mem lexer (ws ++ "{"%char :: ws' ++ "}"%char :: rest) ->
   json_lexer_parse mem lexer a =
     Done (advance lexer (Z.of_nat (List.length ws) + 1 + Z.of_nat (List.length ws')),
           a, None)).
Proof.
  intros He Hws Hws'. split; intros Hr; apply (json_lexer_parse_complete mem 3).
  - cbn [json_lexer_parse_value].
    rewrite (trim_left_reads mem lexer ws "[" _ He Hr Hws eq_refl). cbn [bind].
    pose proof (reads_advance mem lexer ws _ Hr) as Hr1.
    set (l1 := advance lexer (Z.of_nat (List.length ws))) in *.
    assert (He1 : json_is_empty l1 = false) by exact He.
    rewrite (reads_load mem _ _ _ Hr1). cbn [bind].
    change (isdigit "[" || Ascii.eqb "[" ".") with false.
    change (Ascii.eqb "[" quote) with false.
    change (Ascii.eqb "[" "f" || Ascii.eqb "[" "t") with false.
    change (Ascii.eqb "[" "{") with false.
    change (Ascii.eqb "[" "[") with true. cbv iota.
    rewrite (expect_char_reads mem l1 "[" "[" _ He1 Hr1).
    change (Ascii.eqb "[" "[") with true. cbn [bind negb].
    pose proof (reads_advance mem l1 ["["%char] _ Hr1) as Hr2.
    change (Z.of_nat (List.length ["["%char])) with 1 in Hr2.
    set (l2 := advance l1 1) in *.
    assert (He2 : json_is_empty l2 = false) by exact He.
    cbn [array_loop]. rewrite He2.
    rewrite (parse_value_rejects mem 0 l2 a ws' "]" rest He2 Hr2 Hws' eq_refl eq_refl).
    cbn [bind]. subst l2 l1. rewrite !advance_advance, Z.add_assoc. reflexivity.
  - cbn [json_lexer_parse_value].
    rewrite (trim_left_reads mem lexer ws "{" _ He Hr Hws eq_refl). cbn [bind].
    pose proof (reads_advance mem lexer ws _ Hr) as Hr1.
    set (l1 := advance lexer (Z.of_nat (List.length ws))) in *.
    assert (He1 : json_is_empty l1 = false) by exact He.
    rewrite (reads_load mem _ _ _ Hr1). cbn [bind].
    change (isdigit "{" || Ascii.eqb "{" ".") with false.
    change (Ascii.eqb "{" quote) with false.
    change (Ascii.eqb "{" "f" || Ascii.eqb "{" "t") with false.
    change (Ascii.eqb "{" "{") with true. cbv iota.
    rewrite (expect_char_reads mem l1 "{" "{" _ He1 Hr1).
    change (Ascii.eqb "{" "{") with true. cbn [bind].
    pose proof (reads_advance mem l1 ["{"%char] _ Hr1) as Hr2.
    change (Z.of_nat (List.length ["{"%char])) with 1 in Hr2.
    set (l2 := advance l1 1) in *.
    assert (He2 : json_is_empty l2 = false) by exact He.
    cbn [object_loop]. rewrite He2.
    unfold json_lexer_parse_object_item.
    rewrite (trim_left_reads mem l2 ws' "}" rest He2 Hr2 Hws' eq_refl). cbn [bind].
    pose proof (reads_advance mem l2 ws' _ Hr2) as Hr3.
    set (l3 := advance l2 (Z.of_nat (List.length ws'))) in *.
    assert (He3 : json_is_empty l3 = false) by exact He.
    rewrite (expect_char_reads mem l3 "}" quote _ He3 Hr3).
    change (Ascii.eqb "}" quote) with false. cbn [bind negb].
    subst l3 l2 l1. rewrite !advance_advance, Z.add_assoc. reflexivity.
Qed.

Lemma json_lexer_parse_value_rejects_empty_witness :
  let mem := lit "[ ]" ++ [zero] in
  let lexer := json_lexer 0 3 in
  (reads mem lexer ([] ++ "["%char :: lit " " ++ "]"%char :: [zero]) ->
   json_lexer_parse mem lexer 0 =
     Done (advance lexer (Z.of_nat (List.length (@nil ascii)) + 1
                          + Z.of_nat (List.length (lit " "))), 0, None)) /\
  (reads mem lexer ([] ++ "{"%char :: lit " " ++ "}"%char :: [zero]) ->
   json_lexer_parse mem lexer 0 =
     Done (advance lexer (Z.of_nat (List.length (@nil ascii)) + 1
                          + Z.of_nat (List.length (lit " "))), 0, None)).
Proof.
  apply (json_lexer_parse_value_rejects_empty (lit "[ ]" ++ [zero]) (json_lexer 0 3) 0
           [] (lit " ") [zero]); reflexivity.
Defined.

(** X21: a string is the characters between the opening quote and the
    next quote, whatever they are: a backslash is a character like any
    other (no escape is known), so a quote always ends the string; the
    characters are copied to the arena with a NUL behind them and the
    cursor is left behind the closing quote. When no quote follows, the
    loop runs past the end of the readable bytes, whatever the length
    the lexer was given. *)
Theorem json_lexer_parse_value_string (mem : text) (lexer : JsonLexer) (a : Z)
        (ws s rest : text) :
  json_is_empty lexer = false ->
  blanks ws = true ->
  no_quote s = true ->
  0 <= a ->
  a + Z.of_nat (List.length s) + 1 <= JSON_ARENA_MAX_SIZE ->
  (reads mem lexer (ws ++ quote :: s ++ quote :: rest) ->
   json_lexer_parse mem lexer a =
     Done (advance lexer (Z.of_nat (List.length ws) + Z.of_nat (List.length s) + 2),
           a + Z.of_nat (List.length s) + 1,
           Some (json_value_string s))) /\
  (reads mem lexer (ws ++ quote :: s) ->
   json_lexer_parse mem lexer a = Fault).
Proof.
  intros He Hws Hs Ha Hfit. split; intros Hr.
  - apply (json_lexer_parse_complete mem 1).
    apply (parse_value_string mem 0 lexer a ws s rest); assumption.
  - assert (F : json_lexer_parse_value mem 1 lexer a = Fault).
    { cbn [json_lexer_parse_value].
      rewrite (trim_left_reads mem lexer ws quote _ He Hr Hws eq_refl). cbn [bind].
      pose proof (reads_advance mem lexer ws _ Hr) as Hr1.
      set (l1 := advance lexer (Z.of_nat (List.length ws))) in *.
      rewrite (reads_load mem _ _ _ Hr1). cbn [bind].
      change (isdigit quote || Ascii.eqb quote ".") with false.
      change (Ascii.eqb quote quote) with true. cbv iota zeta.
      pose proof (reads_advance mem l1 [quote] _ Hr1) as [_ Hr2].
      unfold skip_until.
      replace (json_is_empty (advance l1 1)) with false by (symmetry; exact He).
      change (Z.of_nat (List.length [quote])) with 1 in Hr2.
      rewrite Hr2, (scan_none (Ascii.eqb quote) s Hs). reflexivity. }
    destruct (json_lexer_parse_value_always_ends_aux mem lexer a 1) as [T|E].
    + rewrite F in T. discriminate.
    + rewrite <- E. exact F.
Qed.

Lemma json_lexer_parse_value_string_witness :
  let s := ["a"%char; "\"%char] in
  let mem := quote :: s ++ quote :: lit "b" ++ [quote; zero] in
  let lexer := json_lexer 0 6 in
  (reads mem lexer ([] ++ quote :: s ++ quote :: lit "b" ++ [quote; zero]) ->
   json_lexer_parse mem lexer 0 =
     Done (advance lexer (Z.of_nat (List.length (@nil ascii))
                          + Z.of_nat (List.length s) + 2),
           0 + Z.of_nat (List.length s) + 1,
           Some (json_value_string s))) /\
  (reads mem lexer ([] ++ quote :: s) ->
   json_lexer_parse mem lexer 0 = Fault).
Proof.
  apply (json_lexer_parse_value_string
           (quote :: ["a"%char; "\"%char] ++ quote :: lit "b" ++ [quote; zero])
           (json_lexer 0 6) 0 [] ["a"%char; "\"%char] (lit "b" ++ [quote; zero]));
    try reflexivity; cbn; lia.
Defined.

(** ** Printing, then parsing *)

Lemma plain_text (s : text) :
  plain s = true -> c_str s = s /\ no_quote s = true.
Proof.
  unfold plain, no_quote. induction s as [|c s IH]; intros H; [auto|].
  cbn [forallb] in H. apply andb_true_iff in H. destruct H as [Hc Hs].
  apply andb_true_iff in Hc. destruct Hc as [Hq Hn].
  destruct (IH Hs) as [E Q]. cbn [c_str forallb].
  apply negb_true_iff in Hn. rewrite Hn, E, Hq, Q. auto.
Qed.

Lemma need_nonneg :
  (forall v, 0 <= need v) /\
  (forall cur, 0 <= need_nodes cur) /\
  (forall cur, 0 <= need_items cur).
Proof.
  assert (H : forall v, 0 <= need v).
  { apply (JsonValue_ind'
      (fun v => 0 <= need v)
      (fun a => forall t, 0 <= need (Build_JsonValue t a))
      (fun o => 0 <= need_items (object_next o))
      (fun x => 0 <= need_nodes (array_next x))
      (fun cur => 0 <= need_items cur)
      (fun cur => 0 <= need_nodes cur)).
    - intros t a IH. apply IH.
    - intros d t. cbn. lia.
    - intros b t. cbn. lia.
    - intros s t. cbn [need]. lia.
    - intros [len next] IH t. exact IH.
    - intros [len next] IH t. exact IH.
    - intros len next IH. exact IH.
    - intros len next IH. exact IH.
    - cbn. lia.
    - intros k v IHv next IHn. cbn [need_items]. unfold sizeof_JsonObjectItem. lia.
    - cbn. lia.
    - intros v IHv next IHn. cbn [need_nodes]. unfold sizeof_JsonArrayNode. lia. }
  split; [exact H|]. split.
  - induction cur as [|v next IH]; cbn [need_nodes]; [lia|].
    specialize (H v). unfold sizeof_JsonArrayNode. lia.
  - induction cur as [|k v next IH]; cbn [need_items]; [lia|].
    specialize (H v). unfold sizeof_JsonObjectItem. lia.
Qed.

Lemma count_nodes_need (cur : JsonArrayNode) : count_nodes cur <= need_nodes cur.
Proof.
  destruct need_nonneg as (Hv & _ & _).
  induction cur as [|v next IH]; cbn [count_nodes need_nodes]; [lia|].
  specialize (Hv v). unfold sizeof_JsonArrayNode. lia.
Qed.

Lemma count_items_need (cur : JsonObjectItem) : count_items cur <= need_items cur.
Proof.
  destruct need_nonneg as (Hv & _ & _).
  induction cur as [|k v next IH]; cbn [count_items need_items]; [lia|].
  specialize (Hv v). unfold sizeof_JsonObjectItem. lia.
Qed.

Lemma node_chain_null (cur0 cur : JsonArrayNode) :
  node_values (node_chain cur0 cur) = node_values cur0 ++ node_values cur.
Proof.
  revert cur0; induction cur as [|v next IH]; intros cur0; cbn [node_chain node_values].
  - rewrite app_nil_r. reflexivity.
  - rewrite IH, node_values_append, <- app_assoc. reflexivity.
Qed.

Lemma node_values_inj (c1 c2 : JsonArrayNode) :
  node_values c1 = node_values c2 -> c1 = c2.
Proof.
  revert c2; induction c1 as [|v next IH]; intros [|v' next'] H; cbn in H;
    try discriminate; [reflexivity|].
  inversion H; subst. f_equal. apply IH. assumption.
Qed.

Lemma item_chain_null (cur0 cur : JsonObjectItem) :
  item_pairs (item_chain cur0 cur) = item_pairs cur0 ++ item_pairs cur.
Proof.
  revert cur0; induction cur as [|k v next IH]; intros cur0; cbn [item_chain item_pairs].
  - rewrite app_nil_r. reflexivity.
  - rewrite IH, item_pairs_append, <- app_assoc. reflexivity.
Qed.

Lemma item_pairs_inj (c1 c2 : JsonObjectItem) :
  item_pairs c1 = item_pairs c2 -> c1 = c2.
Proof.
  revert c2; induction c1 as [|k v next IH]; intros [|k' v' next'] H; cbn in H;
    try discriminate; [reflexivity|].
  inversion H; subst. f_equal. apply IH. assumption.
Qed.

Lemma reads_back_string (s : text) (t : JsonValueType) :
  reads_back_value (Build_JsonValue t (as_string s)).
Proof.
  intros Hp _ mem lexer a ws out rest Hout He Hr Hws Ha Hfit.
  destruct t; try discriminate. cbn [printable] in Hp.
  destruct (plain_text s Hp) as [Ec Hq].
  cbn [json_stringify] in Hout. rewrite Ec in Hout. inversion Hout; subst out; clear Hout.
  cbn [need] in Hfit |- *.
  exists 1%nat. intros f' Hf'. destruct f' as [|f']; [lia|].
  rewrite (parse_value_string mem f' lexer a ws s rest He); try assumption; try lia.
  - cbn [List.length]. rewrite length_app. cbn [List.length].
    unfold json_value_string. do 3 f_equal; [|lia]. f_equal. lia.
  - cbn [app] in Hr. rewrite <- app_assoc in Hr. exact Hr.
Qed.

Lemma json_array_append_fits (a : Z) (x : JsonArray) (v : JsonValue) :
  0 <= a -> a + sizeof_JsonArrayNode <= JSON_ARENA_MAX_SIZE ->
  0 <= array_len x -> array_len x + 1 < size_modulus ->
  json_array_append a x v =
  Done (a + sizeof_JsonArrayNode,
        Build_JsonArray (array_len x + 1) (node_append (array_next x) v)).
Proof.
  intros Ha Hfit Hx Hmax. unfold json_array_append, json_alloc.
  destruct (Z.leb_spec (a + sizeof_JsonArrayNode) JSON_ARENA_MAX_SIZE); [|lia].
  assert (JSON_ARENA_MAX_SIZE = 2 ^ 20) by reflexivity.
  assert (size_modulus = 2 ^ 64) by reflexivity.
  assert (sizeof_JsonArrayNode = 32) by reflexivity.
  cbn [bind]. rewrite (small_size_t (a + _)), (small_size_t (array_len x + 1)) by lia.
  reflexivity.
Qed.

Lemma json_object_append_fits (a : Z) (o : JsonObject) (k : text) (v : JsonValue) :
  0 <= a -> a + sizeof_JsonObjectItem <= JSON_ARENA_MAX_SIZE ->
  0 <= object_len o -> object_len o + 1 < size_modulus ->
  json_object_append a o k v =
  Done (a + sizeof_JsonObjectItem,
        Build_JsonObject (object_len o + 1) (item_append (object_next o) k v)).
Proof.
  intros Ha Hfit Hx Hmax. unfold json_object_append, json_alloc.
  destruct (Z.leb_spec (a + sizeof_JsonObjectItem) JSON_ARENA_MAX_SIZE); [|lia].
  assert (JSON_ARENA_MAX_SIZE = 2 ^ 20) by reflexivity.
  assert (size_modulus = 2 ^ 64) by reflexivity.
  assert (sizeof_JsonObjectItem = 40) by reflexivity.
  cbn [bind]. rewrite (small_size_t (a + _)), (small_size_t (object_len o + 1)) by lia.
  reflexivity.
Qed.

Lemma reads_back_node (v : JsonValue) (next : JsonArrayNode) :
  reads_back_value v -> reads_back_nodes next -> reads_back_nodes (node v next).
Proof.
  intros IHv IHn _ Hp Hc mem lexer a ws out rest c x Hout He Hr Hws Hcomma
         Ha Hfit Hx0 Hxlen.
  cbn [printable_nodes consistent_nodes] in Hp, Hc.
  apply andb_true_iff in Hp, Hc. destruct Hp as [Hpv Hpn]. destruct Hc as [Hcv Hcn].
  cbn [stringify_nodes] in Hout.
  destruct (json_stringify v) as [sv| |] eqn:Esv; try discriminate.
  destruct (stringify_nodes next) as [sn| |] eqn:Esn; try discriminate.
  cbn [bind] in Hout. inversion Hout; subst out; clear Hout.
  cbn [need_nodes count_nodes] in Hfit, Hxlen |- *.
  destruct need_nonneg as (Nv & Nn & _).
  pose proof (Nv v) as Hnv. pose proof (Nn next) as Hnn.
  pose proof (count_nodes_nonneg next) as Hcn0.
  assert (S32 : sizeof_JsonArrayNode = 32) by reflexivity.
  set (sep := separator_before match next with node_NULL => true | node _ _ => false end) in *.
  assert (Hr0 : reads mem lexer (ws ++ sv ++ (sep ++ sn ++ c :: rest))).
  { rewrite <- !app_assoc in Hr. exact Hr. }
  destruct (IHv Hpv Hcv mem lexer a ws sv (sep ++ sn ++ c :: rest) Esv He Hr0 Hws Ha)
    as [fv Hfv]; [lia|].
  set (l1 := advance lexer (Z.of_nat (List.length ws) + Z.of_nat (List.length sv))) in *.
  assert (He1 : json_is_empty l1 = false) by exact He.
  assert (Hr1 : reads mem l1 (sep ++ sn ++ c :: rest)).
  { subst l1. rewrite <- Nat2Z.inj_add, <- length_app. apply reads_advance.
    rewrite <- app_assoc. exact Hr0. }
  pose proof (json_array_append_fits (a + need v) x v) as Eapp.
  rewrite S32 in Eapp.
  destruct next as [|v2 next2].
  - (* the last node *)
    cbn [stringify_nodes] in Esn. inversion Esn; subst sn; clear Esn.
    subst sep. cbn [separator_before app] in Hr1.
    exists (S fv). intros f' Hf'. destruct f' as [|f']; [lia|].
    cbn [array_loop]. rewrite He, (Hfv f') by lia. cbn [bind].
    rewrite Eapp by lia. cbn [bind].
    rewrite (reads_load mem l1 c rest Hr1). cbn [bind]. rewrite Hcomma. cbn [negb].
    subst l1. cbn [separator_before need_nodes count_nodes node_chain].
    cbn [app]. rewrite !app_nil_r, S32.
    replace (a + (need v + 32 + 0)) with (a + need v + 32) by lia.
    replace (array_len x + (0 + 1)) with (array_len x + 1) by lia. reflexivity.
  - (* a node with nodes behind it *)
    subst sep. cbn [separator_before] in Hr1. change (lit ", ") with [","%char; " "%char] in *.
    cbn [app] in Hr1.
    pose proof (reads_advance mem l1 [","%char] _ Hr1) as Hr2.
    change (Z.of_nat (List.length [","%char])) with 1 in Hr2.
    set (l2 := advance l1 1) in *.
    assert (He2 : json_is_empty l2 = false) by exact He.
    destruct (IHn ltac:(discriminate) Hpn Hcn mem l2 (a + need v + 32) [" "%char] sn rest c
                  (Build_JsonArray (array_len x + 1) (node_append (array_next x) v))
                  Esn He2 Hr2 eq_refl Hcomma)
      as [fn Hfn]; cbn [array_len]; try lia.
    exists (S (Nat.max fv fn)). intros f' Hf'. destruct f' as [|f']; [lia|].
    cbn [array_loop]. rewrite He, (Hfv f') by lia. cbn [bind].
    rewrite Eapp by lia. cbn [bind].
    rewrite (reads_load mem l1 _ _ Hr1). cbn [bind].
    change (Ascii.eqb "," ",") with true. cbn [negb].
    rewrite (expect_char_reads mem l1 "," "," _ He1 Hr1).
    change (Ascii.eqb "," ",") with true. cbn [bind negb].
    fold l2. rewrite (Hfn f') by lia.
    subst l2 l1. rewrite !advance_advance. cbn [array_len array_next node_chain].
    rewrite !length_app. change (List.length (separator_before false)) with 2%nat.
    rewrite S32. change (List.length [" "%char]) with 1%nat.
    replace (Z.of_nat (List.length ws) + Z.of_nat (List.length sv) +
             (1 + (Z.of_nat 1 + Z.of_nat (List.length sn))))
      with (Z.of_nat (List.length ws) +
            Z.of_nat (List.length sv + (2 + List.length sn))) by lia.
    replace (a + (need v + 32 + need_nodes (node v2 next2)))
      with (a + need v + 32 + need_nodes (node v2 next2)) by lia.
    replace (array_len x + (count_nodes (node v2 next2) + 1))
      with (array_len x + 1 + count_nodes (node v2 next2)) by lia.
    reflexivity.
Qed.
Lemma object_result_eq (lexer : JsonLexer) (n n' a a' len len' : Z)
      (next : JsonObjectItem) :
  n = n' -> a = a' -> len = len' ->
  @Done (JsonLexer * Z * option JsonObject)
        (advance lexer n, a, Some (Build_JsonObject len next)) =
  Done (advance lexer n', a', Some (Build_JsonObject len' next)).
Proof. intros -> -> ->. reflexivity. Qed.

Lemma reads_back_item (k : text) (v : JsonValue) (next : JsonObjectItem) :
  reads_back_value v -> reads_back_items next -> reads_back_items (item k v next).
Proof.
  intros IHv IHn _ Hp Hc mem lexer a ws out rest c o Hout He Hr Hws Hcomma
         Ha Hfit Hx0 Hxlen.
  cbn [printable_items consistent_items] in Hp, Hc.
  apply andb_true_iff in Hp. destruct Hp as [Hp Hpn].
  apply andb_true_iff in Hp. destruct Hp as [Hpk Hpv].
  apply andb_true_iff in Hc. destruct Hc as [Hcv Hcn].
  destruct (plain_text k Hpk) as [Ek Hqk].
  cbn [stringify_items] in Hout.
  destruct (json_stringify v) as [sv| |] eqn:Esv; try discriminate.
  destruct (stringify_items next) as [sn| |] eqn:Esn; try discriminate.
  cbn [bind] in Hout. rewrite Ek in Hout. inversion Hout; subst out; clear Hout.
  cbn [need_items count_items] in Hfit, Hxlen |- *.
  destruct need_nonneg as (Nv & _ & Nn).
  pose proof (Nv v) as Hnv. pose proof (Nn next) as Hnn.
  pose proof (count_items_nonneg next) as Hcn0.
  assert (S40 : sizeof_JsonObjectItem = 40) by reflexivity.
  set (sep := separator_before match next with item_NULL => true | item _ _ _ => false end) in *.
  set (K := Z.of_nat (List.length k)) in *.
  assert (HK : 0 <= K) by (subst K; lia).
  change (lit ": ") with [":"%char; " "%char] in Hr |- *.
  assert (Hr0 : reads mem lexer
                  (ws ++ quote :: k ++ quote :: ":"%char :: [" "%char] ++ sv
                      ++ (sep ++ sn ++ c :: rest))).
  { cbn [app] in Hr |- *. rewrite <- !app_assoc in Hr. cbn [app] in Hr.
    rewrite <- !app_assoc in Hr. exact Hr. }
  clear Hr.
  (* the blanks and the opening quote *)
  pose proof (trim_left_reads mem lexer ws quote _ He Hr0 Hws eq_refl) as Etrim.
  pose proof (reads_advance mem lexer ws _ Hr0) as Hr1.
  set (l0 := advance lexer (Z.of_nat (List.length ws))) in *.
  assert (He0 : json_is_empty l0 = false) by exact He.
  pose proof (expect_char_reads mem l0 quote quote _ He0 Hr1) as Eq1.
  rewrite Ascii.eqb_refl in Eq1.
  pose proof (reads_advance mem l0 [quote] _ Hr1) as Hr2.
  change (Z.of_nat (List.length [quote])) with 1 in Hr2.
  set (l1 := advance l0 1) in *.
  assert (He1 : json_is_empty l1 = false) by exact He.
  (* the key *)
  destruct (quoted_reads mem l1 a k _ He1 Hr2 Hqk Ha) as (Eskip & Edup & Eq2);
    [fold K; lia|]. fold K in Eskip, Edup, Eq2.
  pose proof (reads_advance mem l1 (k ++ [quote]) _
                ltac:(rewrite <- app_assoc; exact Hr2)) as Hr3.
  rewrite length_app, Nat2Z.inj_add in Hr3. change (Z.of_nat (List.length [quote])) with 1 in Hr3.
  fold K in Hr3.
  set (l2 := advance l1 (K + 1)) in *.
  assert (He2 : json_is_empty l2 = false) by exact He.
  (* the colon *)
  pose proof (expect_char_reads mem l2 ":" ":" _ He2 Hr3) as Ecolon.
  change (Ascii.eqb ":" ":") with true in Ecolon.
  pose proof (reads_advance mem l2 [":"%char] _ Hr3) as Hr4.
  change (Z.of_nat (List.length [":"%char])) with 1 in Hr4.
  set (l3 := advance l2 1) in *.
  assert (He3 : json_is_empty l3 = false) by exact He.
  (* the value *)
  destruct (IHv Hpv Hcv mem l3 (a + K + 1) [" "%char] sv (sep ++ sn ++ c :: rest)
                Esv He3 Hr4 eq_refl) as [fv Hfv]; try lia.
  change (Z.of_nat (List.length [" "%char])) with 1 in Hfv.
  pose proof (reads_advance mem l3 ([" "%char] ++ sv) _
                ltac:(rewrite <- app_assoc; exact Hr4)) as Hr5.
  rewrite length_app, Nat2Z.inj_add in Hr5.
  change (Z.of_nat (List.length [" "%char])) with 1 in Hr5.
  set (l4 := advance l3 (1 + Z.of_nat (List.length sv))) in *.
  assert (He4 : json_is_empty l4 = false) by exact He.
  pose proof (json_object_append_fits (a + K + 1 + need v) o k v) as Eapp.
  rewrite S40 in Eapp.
  assert (Eitem : forall f', (fv <= f')%nat ->
            json_lexer_parse_object_item mem (json_lexer_parse_value mem f') lexer a =
            Done (l4, a + K + 1 + need v, Some (k, v))).
  { intros f' Hf'. unfold json_lexer_parse_object_item.
    rewrite Etrim. cbn [bind]. rewrite Eq1. cbn [bind negb].
    fold l1. rewrite Eskip. cbn [bind]. rewrite Edup. cbn [bind].
    rewrite Eq2. cbn [bind negb]. fold l2. rewrite Ecolon. cbn [bind negb].
    fold l3. rewrite (Hfv f' Hf'). cbn [bind]. reflexivity. }
  destruct next as [|k2 v2 next2].
  - (* the last item *)
    cbn [stringify_items] in Esn. inversion Esn; subst sn; clear Esn.
    subst sep. cbn [separator_before app] in Hr5.
    exists (S fv). intros f' Hf'. destruct f' as [|f']; [lia|].
    cbn [object_loop]. rewrite He, (Eitem f') by lia. cbn [bind].
    rewrite Eapp by lia. cbn [bind].
    rewrite (reads_load mem l4 c rest Hr5). cbn [bind]. rewrite Hcomma. cbn [negb].
    subst l4 l3 l2 l1 l0. rewrite !advance_advance.
    cbn [separator_before need_items count_items item_chain app].
    rewrite !app_nil_r, S40. cbn [List.length]. rewrite !length_app. cbn [List.length].
    apply object_result_eq; subst K; lia.
  - (* an item with items behind it *)
    subst sep. cbn [separator_before] in Hr5. change (lit ", ") with [","%char; " "%char] in *.
    cbn [app] in Hr5.
    pose proof (reads_advance mem l4 [","%char] _ Hr5) as Hr6.
    change (Z.of_nat (List.length [","%char])) with 1 in Hr6.
    set (l5 := advance l4 1) in *.
    assert (He5 : json_is_empty l5 = false) by exact He.
    destruct (IHn ltac:(discriminate) Hpn Hcn mem l5 (a + K + 1 + need v + 40)
                  [" "%char] sn rest c
                  (Build_JsonObject (object_len o + 1) (item_append (object_next o) k v))
                  Esn He5 Hr6 eq_refl Hcomma)
      as [fn Hfn]; cbn [object_len]; try lia.
    exists (S (Nat.max fv fn)). intros f' Hf'. destruct f' as [|f']; [lia|].
    cbn [object_loop]. rewrite He, (Eitem f') by lia. cbn [bind].
    rewrite Eapp by lia. cbn [bind].
    rewrite (reads_load mem l4 _ _ Hr5). cbn [bind].
    change (Ascii.eqb "," ",") with true. cbn [negb].
    rewrite (expect_char_reads mem l4 "," "," _ He4 Hr5).
    change (Ascii.eqb "," ",") with true. cbn [bind negb].
    fold l5. rewrite (Hfn f') by lia.
    subst l5 l4 l3 l2 l1 l0. rewrite !advance_advance.
    cbn [object_len object_next item_chain].
    change (separator_before false) with [","%char; " "%char].
    cbn [app List.length]. rewrite !length_app. cbn [List.length].
    rewrite !length_app. cbn [List.length]. rewrite S40.
    apply object_result_eq; subst K; lia.
Qed.
Lemma node_chain_start (cur : JsonArrayNode) : node_chain node_NULL cur = cur.
Proof. apply node_values_inj. rewrite node_chain_null. reflexivity. Qed.

Lemma item_chain_start (cur : JsonObjectItem) : item_chain item_NULL cur = cur.
Proof. apply item_pairs_inj. rewrite item_chain_null. reflexivity. Qed.

Lemma reads_back_array (t : JsonValueType) (len : Z) (next : JsonArrayNode) :
  reads_back_nodes next ->
  reads_back_value (Build_JsonValue t (as_array (Build_JsonArray len next))).
Proof.
  intros IHn Hp Hc mem lexer a ws out rest Hout He Hr Hws Ha Hfit.
  destruct t; try discriminate. cbn [printable consistent need] in Hp, Hc, Hfit |- *.
  assert (Hnext : next <> node_NULL) by (intros ->; discriminate).
  assert (Hpn : printable_nodes next = true) by (destruct next; [discriminate|exact Hp]).
  apply andb_true_iff in Hc. destruct Hc as [Hcn Hlen]. apply Z.eqb_eq in Hlen.
  cbn [json_stringify] in Hout.
  destruct (stringify_nodes next) as [body| |] eqn:Ebody; try discriminate.
  cbn [bind] in Hout. inversion Hout; subst out; clear Hout.
  change (lit "[") with ["["%char] in *. change (lit "]") with ["]"%char] in *.
  cbn [app] in Hr.
  pose proof (count_nodes_need next) as Hcount.
  pose proof (count_nodes_nonneg next) as Hcount0.
  assert (J : JSON_ARENA_MAX_SIZE = 2 ^ 20) by reflexivity.
  assert (M : size_modulus = 2 ^ 64) by reflexivity.
  rewrite small_size_t in Hlen by lia. subst len.
  pose proof (trim_left_reads mem lexer ws "[" _ He Hr Hws eq_refl) as Etrim.
  pose proof (reads_advance mem lexer ws _ Hr) as Hr1.
  set (l0 := advance lexer (Z.of_nat (List.length ws))) in *.
  assert (He0 : json_is_empty l0 = false) by exact He.
  pose proof (reads_advance mem l0 ["["%char] _ Hr1) as Hr2.
  change (Z.of_nat (List.length ["["%char])) with 1 in Hr2.
  set (l1 := advance l0 1) in *.
  assert (He1 : json_is_empty l1 = false) by exact He.
  destruct (IHn Hnext Hpn Hcn mem l1 a [] body rest "]"%char
                (Build_JsonArray 0 node_NULL) Ebody He1
                ltac:(rewrite <- app_assoc in Hr2; exact Hr2) eq_refl eq_refl Ha Hfit)
    as [fn Hfn]; cbn [array_len]; try lia.
  cbn [array_len array_next List.length] in Hfn. rewrite node_chain_start in Hfn.
  change (Z.of_nat 0) with 0 in Hfn.
  pose proof (reads_advance mem l1 body _ ltac:(rewrite <- app_assoc in Hr2; exact Hr2)) as Hr3.
  set (l2 := advance l1 (0 + Z.of_nat (List.length body))) in *.
  assert (Hr3' : reads mem l2 ([] ++ "]"%char :: rest)).
  { subst l2. cbn [app]. exact Hr3. }
  assert (He2 : json_is_empty l2 = false) by exact He.
  pose proof (trim_left_reads mem l2 [] "]" _ He2 Hr3' eq_refl eq_refl) as Etrim2.
  pose proof (reads_advance mem l2 [] _ Hr3') as Hr4.
  change (Z.of_nat (List.length (@nil ascii))) with 0 in Etrim2, Hr4.
  set (l3 := advance l2 0) in *.
  assert (He3 : json_is_empty l3 = false) by exact He.
  exists (S fn). intros f' Hf'. destruct f' as [|f']; [lia|].
  cbn [json_lexer_parse_value]. rewrite Etrim. cbn [bind].
  rewrite (reads_load mem l0 _ _ Hr1). cbn [bind].
  change (isdigit "[" || Ascii.eqb "[" ".") with false.
  change (Ascii.eqb "[" quote) with false.
  change (Ascii.eqb "[" "f" || Ascii.eqb "[" "t") with false.
  change (Ascii.eqb "[" "{") with false.
  change (Ascii.eqb "[" "[") with true. cbv iota.
  rewrite (expect_char_reads mem l0 "[" "[" _ He0 Hr1).
  change (Ascii.eqb "[" "[") with true. cbn [bind negb]. fold l1.
  rewrite (Hfn f') by lia. cbn [bind]. fold l2. rewrite Etrim2. cbn [bind].
  rewrite (expect_char_reads mem l3 "]" "]" _ He3 Hr4).
  change (Ascii.eqb "]" "]") with true. cbn [bind negb].
  subst l3 l2 l1 l0. rewrite !advance_advance. cbn [List.length].
  rewrite length_app. cbn [List.length].
  replace (0 + count_nodes next) with (count_nodes next) by lia.
  do 3 f_equal. f_equal. lia.
Qed.

Lemma reads_back_object (t : JsonValueType) (len : Z) (next : JsonObjectItem) :
  reads_back_items next ->
  reads_back_value (Build_JsonValue t (as_object (Build_JsonObject len next))).
Proof.
  intros IHn Hp Hc mem lexer a ws out rest Hout He Hr Hws Ha Hfit.
  destruct t; try discriminate. cbn [printable consistent need] in Hp, Hc, Hfit |- *.
  assert (Hnext : next <> item_NULL) by (intros ->; discriminate).
  assert (Hpn : printable_items next = true) by (destruct next; [discriminate|exact Hp]).
  apply andb_true_iff in Hc. destruct Hc as [Hcn Hlen]. apply Z.eqb_eq in Hlen.
  cbn [json_stringify] in Hout.
  destruct (stringify_items next) as [body| |] eqn:Ebody; try discriminate.
  cbn [bind] in Hout. inversion Hout; subst out; clear Hout.
  change (lit "{") with ["{"%char] in *. change (lit "}") with ["}"%char] in *.
  cbn [app] in Hr.
  pose proof (count_items_need next) as Hcount.
  pose proof (count_items_nonneg next) as Hcount0.
  assert (J : JSON_ARENA_MAX_SIZE = 2 ^ 20) by reflexivity.
  assert (M : size_modulus = 2 ^ 64) by reflexivity.
  rewrite small_size_t in Hlen by lia. subst len.
  pose proof (trim_left_reads mem lexer ws "{" _ He Hr Hws eq_refl) as Etrim.
  pose proof (reads_advance mem lexer ws _ Hr) as Hr1.
  set (l0 := advance lexer (Z.of_nat (List.length ws))) in *.
  assert (He0 : json_is_empty l0 = false) by exact He.
  pose proof (reads_advance mem l0 ["{"%char] _ Hr1) as Hr2.
  change (Z.of_nat (List.length ["{"%char])) with 1 in Hr2.
  set (l1 := advance l0 1) in *.
  assert (He1 : json_is_empty l1 = false) by exact He.
  destruct (IHn Hnext Hpn Hcn mem l1 a [] body rest "}"%char
                (Build_JsonObject 0 item_NULL) Ebody He1
                ltac:(rewrite <- app_assoc in Hr2; exact Hr2) eq_refl eq_refl Ha Hfit)
    as [fn Hfn]; cbn [object_len]; try lia.
  cbn [object_len object_next List.length] in Hfn. rewrite item_chain_start in Hfn.
  change (Z.of_nat 0) with 0 in Hfn.
  pose proof (reads_advance mem l1 body _ ltac:(rewrite <- app_assoc in Hr2; exact Hr2)) as Hr3.
  set (l2 := advance l1 (0 + Z.of_nat (List.length body))) in *.
  assert (Hr3' : reads mem l2 ([] ++ "}"%char :: rest)).
  { subst l2. cbn [app]. exact Hr3. }
  assert (He2 : json_is_empty l2 = false) by exact He.
  pose proof (trim_left_reads mem l2 [] "}" _ He2 Hr3' eq_refl eq_refl) as Etrim2.
  pose proof (reads_advance mem l2 [] _ Hr3') as Hr4.
  change (Z.of_nat (List.length (@nil ascii))) with 0 in Etrim2, Hr4.
  set (l3 := advance l2 0) in *.
  assert (He3 : json_is_empty l3 = false) by exact He.
  exists (S fn). intros f' Hf'. destruct f' as [|f']; [lia|].
  cbn [json_lexer_parse_value]. rewrite Etrim. cbn [bind].
  rewrite (reads_load mem l0 _ _ Hr1). cbn [bind].
  change (isdigit "{" || Ascii.eqb "{" ".") with false.
  change (Ascii.eqb "{" quote) with false.
  change (Ascii.eqb "{" "f" || Ascii.eqb "{" "t") with false.
  change (Ascii.eqb "{" "{") with true. cbv iota.
  rewrite (expect_char_reads mem l0 "{" "{" _ He0 Hr1).
  change (Ascii.eqb "{" "{") with true. cbn [bind negb]. fold l1.
  rewrite (Hfn f') by lia. cbn [bind]. fold l2. rewrite Etrim2. cbn [bind].
  rewrite (expect_char_reads mem l3 "}" "}" _ He3 Hr4).
  change (Ascii.eqb "}" "}") with true. cbn [bind negb].
  subst l3 l2 l1 l0. rewrite !advance_advance. cbn [List.length].
  rewrite length_app. cbn [List.length].
  replace (0 + count_items next) with (count_items next) by lia.
  do 3 f_equal. f_equal. lia.
Qed.

Lemma reads_back_every_value (value : JsonValue) : reads_back_value value.
Proof.
  apply (JsonValue_ind'
    reads_back_value
    (fun a => forall t, reads_back_value (Build_JsonValue t a))
    (fun o => reads_back_items (object_next o))
    (fun x => reads_back_nodes (array_next x))
    reads_back_items
    reads_back_nodes).
  - intros t a IH. apply IH.
  - intros d t Hp. destruct t; discriminate.
  - intros b t Hp. destruct t; discriminate.
  - intros s t. apply reads_back_string.
  - intros [len next] IH t. apply reads_back_object. exact IH.
  - intros [len next] IH t. apply reads_back_array. exact IH.
  - intros len next IH. exact IH.
  - intros len next IH. exact IH.
  - intros H. congruence.
  - intros k v IHv next IHn. apply reads_back_item; assumption.
  - intros H. congruence.
  - intros v IHv next IHn. apply reads_back_node; assumption.
Qed.
(** X22: what json_stringify prints, json_lexer_parse_value reads back.
    For a consistent value made of strings and keys without a quote or
    a NUL, of arrays and of objects that are not empty, the parser on
    the printed text (after blanks, before whatever follows) returns
    true with that same value, the cursor behind the text, and the
    arena grown by the strings, keys, nodes and items of the value. *)
Theorem json_stringify_then_parse (value : JsonValue) (mem : text) (lexer : JsonLexer)
        (a : Z) (ws out rest : text) :
  printable value = true ->
  consistent value = true ->
  json_stringify value = Done out ->
  json_is_empty lexer = false ->
  reads mem lexer (ws ++ out ++ rest) ->
  blanks ws = true ->
  0 <= a -> a + need value <= JSON_ARENA_MAX_SIZE ->
  json_lexer_parse mem lexer a =
  Done (advance lexer (Z.of_nat (List.length ws) + Z.of_nat (List.length out)),
        a + need value, Some value).
Proof.
  intros Hp Hc Hout He Hr Hws Ha Hfit.
  destruct (reads_back_every_value value Hp Hc mem lexer a ws out rest Hout He Hr Hws Ha Hfit)
    as [f Hf].
  apply (json_lexer_parse_complete mem f). apply Hf. lia.
Qed.

Lemma json_stringify_then_parse_witness :
  let value :=
    Build_JsonValue JSON_OBJECT (as_object (Build_JsonObject 2
      (item (lit "a")
            (Build_JsonValue JSON_ARRAY (as_array (Build_JsonArray 2
               (node (json_value_string (lit "x"))
                  (node (json_value_string (lit "y")) node_NULL)))))
         (item (lit "b") (json_value_string (lit "z")) item_NULL)))) in
  let out := lit "{" ++ quote :: lit "a" ++ quote :: lit ": [" ++
             quote :: lit "x" ++ quote :: lit ", " ++ quote :: lit "y" ++ quote ::
             lit "], " ++ quote :: lit "b" ++ quote :: lit ": " ++
             quote :: lit "z" ++ quote :: lit "}" in
  json_stringify value = Done out /\
  json_lexer_parse (lit " " ++ out ++ [zero]) (json_lexer 0 28) 0 =
  Done (advance (json_lexer 0 28) 28, 154, Some value).
Proof.
  intros value out. split; [reflexivity|].
  apply (json_stringify_then_parse value (lit " " ++ out ++ [zero]) (json_lexer 0 28) 0
                                   (lit " ") out [zero]);
    try reflexivity; try (vm_compute; congruence).
  split; [cbn; lia | reflexivity].
Defined.

End Json.

(* ================================================================== *)
(** * ali_sb and main.c *)
(* ================================================================== *)

Module Demo.

Import Libc Json.

(** <<
typedef struct { char* data; size_t count; size_t capacity; } AliSb;
>>
    [data] is the bytes of the block [data] points to, all [capacity]
    of them; it is empty for the NULL of a builder that is all zero. *)
Record AliSb : Type := { data : text; count : Z; capacity : Z }.

(** What fopen and the reads after it find: the contents of the file,
    or the text of the error when it cannot be opened. *)
Definition file : Type := (string + text)%type.

Section Host.

(** The byte a never-written position of a block of the allocator
    holds, by its index in the block. *)
Variable heap : nat -> ascii.

Definition realloc (block : text) (capacity : Z) : text :=
  let n := Z.to_nat capacity in
  firstn n block ++ map heap (seq (List.length block) (n - List.length block)).

(** <<
void ali_sb_maybe_resize(AliSb* self, size_t to_add) {
    if (self->count + to_add >= self->capacity) {
        while (self->count + to_add >= self->capacity) {
            if (self->capacity == 0) self->capacity = ALI_DA_DEFAULT_INIT_CAPACITY;
            else self->capacity *= 2;
        }
        self->data = ALI_REALLOC(self->data, self->capacity);
    }
}
>>
    The loop is the one of the dynamic array, [Da.grow]. *)
Definition ali_sb_maybe_resize (self : AliSb) (to_add : Z) : result AliSb :=
  let needed := to_size_t (count self + to_add) in
  if capacity self <=? needed then
    (capacity' <- Da.grow Da.grow_fuel needed (capacity self) ;;
     Done {| data := realloc (data self) capacity';
             count := count self;
             capacity := capacity' |})%result
  else Done self.

(** The bytes [fread] stores from [position] on. *)
Definition store_at (block : text) (position : Z) (bytes : text) : result text :=
  let n := Z.of_nat (List.length bytes) in
  if (0 <=? position) && (position + n <=? Z.of_nat (List.length block)) then
    Done (firstn (Z.to_nat position) block ++ bytes
            ++ skipn (Z.to_nat (position + n)) block)
  else Fault.

(** <<
bool ali_sb_read_file(AliSb* self, const char* path) {
    FILE* f = fopen(path, "rb");
    if (f == NULL) {
        ali_log_error("Couldn't read %s: %s\n", path, strerror(errno));
        return false;
    }
    fseek(f, 0, SEEK_END);
    size_t n = ftell(f);
    fseek(f, 0, SEEK_SET);
    ali_sb_maybe_resize(self, n);
    fread(self->data + self->count, n, 1, f);
    self->count += n;
    if (f != NULL) fclose(f);
    return true;
}
>> *)
Definition ali_sb_read_file (self : AliSb) (path : string) (f : file)
           (log : Log.LogState) : result (bool * AliSb * Log.LogState) :=
  match f with
  | inl error =>
      let message :=
        ("Couldn't read " ++ path ++ ": " ++ error ++ Log.newline)%string in
      Done (false, self, Log.ali_log_log Log.LOG_ERROR message log)
  | inr bytes =>
      let n := to_size_t (Z.of_nat (List.length bytes)) in
      (self <- ali_sb_maybe_resize self n ;;
       block <- store_at (data self) (count self) bytes ;;
       Done (true,
             {| data := block;
                count := to_size_t (count self + n);
                capacity := capacity self |},
             log))%result
  end.

(** The loop of main:
<<
    for (size_t i = 0; i < products->len; ++i) {
        JsonValue* value = json_array_get_item(products, i);
        json_stringify(value);
        printf("\n");
    }
>>
    [turns] is the number of turns left, [products->len - i]. *)
Fixpoint print_products (products : JsonArray) (i : Z) (turns : nat) : result text :=
  match turns with
  | O => Done []
  | S turns =>
      match json_array_get_item products i with
      | value_of value =>
          (s <- json_stringify value ;;
           rest <- print_products products (i + 1) turns ;;
           Done (s ++ lit Log.newline ++ rest))%result
      | NULL | value_of_NULL => Fault
      end
  end.

Definition sb_zero : AliSb := {| data := []; count := 0; capacity := 0 |}.

(** <<
int main(void) {
    AliSb sb = {0};
    if (!sb_read_file(&sb, "products.json")) return 1;
    JsonLexer lexer = json_lexer(sb.data, sb.count);

    JsonValue value;
    if (!json_lexer_parse_value(&lexer, &value)) return 1;

    JsonObject* value_as_object = json_value_as_object(&value);
    if (value_as_object == NULL) return 1;

    JsonValue* products_json = json_object_find_value(value_as_object, "products");
    if (products_json == NULL) return 1;

    JsonArray* products = json_value_as_array(products_json);
    if (products == NULL) return 1;

    for ( ... ) { ... }

    return 0;
}
>>
    The result is the exit code and the text on the standard output,
    where the log goes too. The process starts with the globals of the
    log and the arena of json.h as their initializers leave them. *)
Definition main (products_json : file) : result (Z * text) :=
  ('(ok, sb, log) <- ali_sb_read_file sb_zero "products.json" products_json Log.initial ;;
   let out := lit (Log.written log Log.stdout) in
   if negb ok then Done (1, out) else
   let lexer := json_lexer 0 (count sb) in
   '(_, _, value) <- json_lexer_parse (data sb) lexer 0 ;;
   match value with
   | None => Done (1, out)
   | Some value =>
       match json_value_as_object value with
       | None => Done (1, out)
       | Some value_as_object =>
           value_as_object <- read_object value_as_object ;;
           match json_object_find_value value_as_object (lit "products") with
           | NULL => Done (1, out)
           | value_of_NULL => Fault
           | value_of products_json =>
               match json_value_as_array products_json with
               | None => Done (1, out)
               | Some products =>
                   products <- read_array products ;;
                   printed <- print_products products 0 (Z.to_nat (array_len products)) ;;
                   Done (0, out ++ printed)
               end
           end
       end
   end)%result.

Definition exit_code (r : result (Z * text)) : result Z :=
  bind r (fun x => Done (fst x)).

(** The first two steps of main. *)
Definition read_products (products_json : file) :=
  ali_sb_read_file sb_zero "products.json" products_json Log.initial.

Definition parse_products (sb : AliSb) : parsed JsonValue :=
  json_lexer_parse (data sb) (json_lexer 0 (count sb)) 0.

(** A file that ends before its object does: the products text cut
    short after the array, 16 characters. *)
Definition unfinished_products : text :=
  lit "{" ++ quote :: lit "products" ++ quote :: lit ": [1]".

(** ** Properties *)

(** The loop of main prints a consistent array to its end. *)
Lemma print_products_consistent (products : JsonArray) :
  consistent_array products = true ->
  forall turns i,
    0 <= i -> i + Z.of_nat turns <= array_len products ->
    exists out, print_products products i turns = Done out.
Proof.
  destruct products as [len next]. unfold consistent_array. cbn [consistent array_len].
  intros H. apply andb_true_iff in H. destruct H as [Hn Hlen].
  apply Z.eqb_eq in Hlen.
  pose proof (to_size_t_le (count_nodes next) (count_nodes_nonneg next)) as Hle.
  rewrite <- Hlen, count_nodes_values in Hle.
  induction turns as [|turns IH]; intros i Hi Hb; [eexists; reflexivity|].
  cbn [print_products]. unfold json_array_get_item. cbn [array_len array_next].
  destruct (Z.ltb_spec len i); [lia|].
  rewrite node_walk_nth.
  destruct (nth_error (node_values next) (Z.to_nat i)) as [v|] eqn:E.
  2:{ apply nth_error_None in E. lia. }
  destruct (json_stringify_consistent v (consistent_nodes_nth _ _ _ Hn E)) as [s Es].
  rewrite Es. cbn [bind].
  destruct (IH (i + 1)) as [rest Er]; [lia|lia|].
  rewrite Er. eexists; reflexivity.
Qed.

(** What main does once the file is read and parsed. *)
Lemma main_after_parse (products_json : file) (sb : AliSb) (log : Log.LogState)
      (lexer : JsonLexer) (a : Z) (v : option JsonValue) :
  read_products products_json = Done (true, sb, log) ->
  parse_products sb = Done (lexer, a, v) ->
  main products_json =
  let out := lit (Log.written log Log.stdout) in
  match v with
  | None => Done (1, out)
  | Some value =>
      match json_value_as_object value with
      | None => Done (1, out)
      | Some value_as_object =>
          bind (read_object value_as_object) (fun value_as_object =>
          match json_object_find_value value_as_object (lit "products") with
          | NULL => Done (1, out)
          | value_of_NULL => Fault
          | value_of pj =>
              match json_value_as_array pj with
              | None => Done (1, out)
              | Some products =>
                  bind (read_array products) (fun products =>
                  bind (print_products products 0 (Z.to_nat (array_len products)))
                       (fun printed => Done (0, out ++ printed)))
              end
          end)
      end
  end.
Proof.
  unfold read_products, parse_products, main. intros -> . cbn [bind negb].
  intros ->. reflexivity.
Qed.

(** The object main looks into, when the parse returned a value that
    json_value_as_object accepts. *)
Lemma parsed_object (sb : AliSb) (lexer : JsonLexer) (a : Z) (v : JsonValue)
      (p : JsonValueAs) :
  parse_products sb = Done (lexer, a, Some v) ->
  json_value_as_object v = Some p ->
  exists o, p = as_object o /\ consistent_items (object_next o) = true.
Proof.
  intros Ep Eo. apply as_if_some in Eo. destruct Eo as [Ht ->].
  apply consistent_object_payload; [|exact Ht].
  eapply json_lexer_parse_consistent; [exact Ep|]. rewrite Ht. discriminate.
Qed.

Lemma found_array (o : JsonObject) (k : text) (pj : JsonValue) (p : JsonValueAs) :
  consistent_items (object_next o) = true ->
  json_object_find_value o k = value_of pj ->
  json_value_as_array pj = Some p ->
  exists x, p = as_array x /\ consistent_array x = true.
Proof.
  intros Ho Ef Ea. unfold json_object_find_value in Ef.
  destruct (object_len o =? 0); [discriminate|].
  apply as_if_some in Ea. destruct Ea as [Ht ->].
  apply consistent_array_payload; [|exact Ht].
  eapply item_find_consistent; eassumption.
Qed.

(** The exit code by the steps of main: 0 when ali_sb_read_file returns
    true, the parse of the buffer returns true, json_value_as_object
    accepts the value, json_object_find_value finds the key products in
    it, and json_value_as_array accepts what it found (the loop then
    prints the array to its end); 1 when the first of these steps to
    fail is the read, the parse, the object test, the lookup or the
    array test. What the parse of the buffer returns is not a matter of
    the file alone: the parser reads the bytes of the block behind the
    contents as well. *)
Lemma main_exit_code_by_steps (products_json : file) :
  (exit_code (main products_json) = Done 0 <->
   exists sb log lexer a v o pj x,
     read_products products_json = Done (true, sb, log) /\
     parse_products sb = Done (lexer, a, Some v) /\
     json_value_as_object v = Some (as_object o) /\
     json_object_find_value o (lit "products") = value_of pj /\
     json_value_as_array pj = Some (as_array x)) /\
  (forall sb log,
      read_products products_json = Done (false, sb, log) ->
      exit_code (main products_json) = Done 1) /\
  (forall sb log lexer a,
      read_products products_json = Done (true, sb, log) ->
      parse_products sb = Done (lexer, a, None) ->
      exit_code (main products_json) = Done 1) /\
  (forall sb log lexer a v,
      read_products products_json = Done (true, sb, log) ->
      parse_products sb = Done (lexer, a, Some v) ->
      json_value_as_object v = None ->
      exit_code (main products_json) = Done 1) /\
  (forall sb log lexer a v o,
      read_products products_json = Done (true, sb, log) ->
      parse_products sb = Done (lexer, a, Some v) ->
      json_value_as_object v = Some (as_object o) ->
      json_object_find_value o (lit "products") = NULL ->
      exit_code (main products_json) = Done 1) /\
  (forall sb log lexer a v o pj,
      read_products products_json = Done (true, sb, log) ->
      parse_products sb = Done (lexer, a, Some v) ->
      json_value_as_object v = Some (as_object o) ->
      json_object_find_value o (lit "products") = value_of pj ->
      json_value_as_array pj = None ->
      exit_code (main products_json) = Done 1).
Proof.
  split; [split|].
  - (* exit code 0: every step succeeded *)
    intros E0.
    destruct (read_products products_json) as [[[ok sb] log]| |] eqn:Er;
      try (unfold main, read_products in *; rewrite Er in E0; discriminate).
    destruct ok;
      [|unfold main, read_products in *; rewrite Er in E0; discriminate].
    destruct (parse_products sb) as [[[lexer a] v]| |] eqn:Ep;
      try (unfold main, read_products, parse_products in *;
           rewrite Er in E0; cbn [bind negb] in E0; rewrite Ep in E0; discriminate).
    rewrite (main_after_parse _ _ _ _ _ _ Er Ep) in E0. cbv zeta in E0.
    destruct v as [v|]; [|discriminate].
    destruct (json_value_as_object v) as [p|] eqn:Eo; [|discriminate].
    destruct (parsed_object _ _ _ _ _ Ep Eo) as (o & -> & Ho).
    cbn [read_object bind] in E0.
    destruct (json_object_find_value o (lit "products")) as [|pj|] eqn:Ef;
      try discriminate.
    destruct (json_value_as_array pj) as [q|] eqn:Ea; [|discriminate].
    destruct (found_array _ _ _ _ Ho Ef Ea) as (x & -> & _).
    exists sb, log, lexer, a, v, o, pj, x. auto.
  - (* every step succeeded: the loop prints the array, exit code 0 *)
    intros (sb & log & lexer & a & v & o & pj & x & Er & Ep & Eo & Ef & Ea).
    rewrite (main_after_parse _ _ _ _ _ _ Er Ep). cbv zeta.
    rewrite Eo. cbn [read_object bind]. rewrite Ef, Ea. cbn [read_array bind].
    destruct (parsed_object _ _ _ _ _ Ep Eo) as (o' & [= <-] & Ho).
    destruct (found_array _ _ _ _ Ho Ef Ea) as (x' & [= <-] & Hx).
    destruct (print_products_consistent x Hx (Z.to_nat (array_len x)) 0)
      as [out Eout]; [lia | |].
    { destruct x as [len next]. unfold consistent_array in Hx. cbn [consistent] in Hx.
      apply andb_true_iff in Hx. destruct Hx as [_ Hlen]. apply Z.eqb_eq in Hlen.
      cbn [array_len].
      pose proof (to_size_t_le _ (count_nodes_nonneg next)). lia. }
    rewrite Eout. reflexivity.
  - repeat split.
    + intros sb log Er. unfold main, read_products in *. rewrite Er. reflexivity.
    + intros sb log lexer a Er Ep.
      rewrite (main_after_parse _ _ _ _ _ _ Er Ep). reflexivity.
    + intros sb log lexer a v Er Ep Eo.
      rewrite (main_after_parse _ _ _ _ _ _ Er Ep). cbv zeta. rewrite Eo. reflexivity.
    + intros sb log lexer a v o Er Ep Eo Ef.
      rewrite (main_after_parse _ _ _ _ _ _ Er Ep). cbv zeta.
      rewrite Eo. cbn [read_object bind]. rewrite Ef. reflexivity.
    + intros sb log lexer a v o pj Er Ep Eo Ef Ea.
      rewrite (main_after_parse _ _ _ _ _ _ Er Ep). cbv zeta.
      rewrite Eo. cbn [read_object bind]. rewrite Ef, Ea. reflexivity.
Qed.

(** What ali_sb_read_file leaves of the unfinished file: the 16
    characters in a block of 32, the other 16 as the allocator left
    them. *)
Lemma read_unfinished_products :
  read_products (inr unfinished_products) =
  Done (true,
        {| data := unfinished_products ++ map heap (seq 16 16);
           count := 16; capacity := 32 |},
        Log.initial).
Proof. reflexivity. Qed.

End Host.

(** C8: the exit code of main is not a matter of the file alone. A
    file that cannot be opened gives 1. But the lexer never finds the
    end of the contents: json_is_empty compares [content_start], not
    the cursor, with the end, so that it answers the same wherever the
    cursor is, and the parser reads on into the bytes of the block
    behind what was read from the file. On the file that holds
    [{"products": [1]] and ends there, which is no JSON value, main
    prints the product and returns 0 when the byte behind the contents
    happens to be a closing brace, returns 1 when it is a question
    mark, and reads past the end of the block when the bytes behind the
    contents are blanks. *)
Theorem main_exit_code_follows_bytes_behind_file :
  (forall heap, heap 16%nat = "}"%char ->
     main heap (inr unfinished_products) = Done (0, lit "1.00" ++ lit Log.newline)) /\
  (forall heap, heap 16%nat = "?"%char ->
     main heap (inr unfinished_products) = Done (1, [])) /\
  (forall heap, map heap (seq 16 16) = repeat " "%char 16 ->
     main heap (inr unfinished_products) = Fault) /\
  (forall heap error, main heap (inl error) = Done (1, [])) /\
  (forall lexer n, json_is_empty (advance lexer n) = json_is_empty lexer) /\
  (forall heap sb log,
     read_products heap (inr unfinished_products) = Done (true, sb, log) ->
     count sb = Z.of_nat (List.length unfinished_products) /\
     count sb < capacity sb).
Proof.
  assert (Hread : forall heap,
             ali_sb_read_file heap sb_zero "products.json" (inr unfinished_products)
                              Log.initial =
             Done (true,
                   {| data := unfinished_products ++ map heap (seq 16 16);
                      count := 16; capacity := 32 |},
                   Log.initial)).
  { intros heap. exact (read_unfinished_products heap). }
  split; [|split; [|split; [|split; [|split]]]].
  - intros heap H. unfold main. rewrite Hread. cbn [bind negb].
    change (map heap (seq 16 16)) with (heap 16%nat :: map heap (seq 17 15)).
    rewrite H. vm_compute. reflexivity.
  - intros heap H. unfold main. rewrite Hread. cbn [bind negb].
    change (map heap (seq 16 16)) with (heap 16%nat :: map heap (seq 17 15)).
    rewrite H. vm_compute. reflexivity.
  - intros heap H. unfold main. rewrite Hread. cbn [bind negb].
    rewrite H. vm_compute. reflexivity.
  - intros heap error. reflexivity.
  - intros lexer n. reflexivity.
  - intros heap sb log E. rewrite read_unfinished_products in E.
    inversion E; subst. cbn. lia.
Qed.

Lemma main_exit_code_follows_bytes_behind_file_witness :
  main (fun _ => "}"%char) (inr unfinished_products) =
    Done (0, lit "1.00" ++ lit Log.newline) /\
  main (fun _ => "?"%char) (inr unfinished_products) = Done (1, []) /\
  main (fun _ => " "%char) (inr unfinished_products) = Fault /\
  (forall sb log,
      read_products (fun _ => " "%char) (inr unfinished_products) = Done (true, sb, log) ->
      count sb = Z.of_nat (List.length unfinished_products) /\
      count sb < capacity sb) /\
  read_products (fun _ => " "%char) (inr unfinished_products) =
    Done (true,
          {| data := unfinished_products ++ repeat " "%char 16; count := 16; capacity := 32 |},
          Log.initial).
Proof.
  destruct main_exit_code_follows_bytes_behind_file as (H0 & H1 & HF & _ & _ & Hr).
  split; [apply H0; reflexivity|].
  split; [apply H1; reflexivity|].
  split; [apply HF; reflexivity|].
  split; [apply Hr | reflexivity].
Defined.

(** Two runs: the products text prints its three numbers and exits
    with 0; an array at the top level exits with 1 (as does every
    empty array: the loop parses a value before it looks for the
    closing bracket). The bytes behind the contents in the buffer are
    taken to be blanks here. *)
Lemma main_on_products :
  main (fun _ => " "%char) (inr text_products) =
    Done (0, lit "1.00" ++ lit Log.newline ++ lit "2.00" ++ lit Log.newline
               ++ lit "3.00" ++ lit Log.newline) /\
  main (fun _ => " "%char) (inr (lit "[]")) = Done (1, []) /\
  main (fun _ => " "%char) (inl "No such file or directory"%string) = Done (1, []).
Proof. repeat split; vm_compute; reflexivity. Qed.

End Demo.


(* ================================================================== *)
(** * ali_sb: building, writing and reading back *)
(* ================================================================== *)

Module Sb.

Import Libc Json Demo.

Section Host.

Variable heap : nat -> ascii.

(** <<
void ali_sb_push_strs_null(AliSb* self, ...) {
    va_list args;
    va_start(args, self);

    const char* str = va_arg(args, const char* );
    while (str != NULL) {
        size_t n = strlen(str);
        ali_sb_maybe_resize(self, n);
        ALI_MEMCPY(self->data + self->count, str, n);
        self->count += n;
        str = va_arg(args, const char* );
    }

    va_end(args);
}
>>
    [strs] is the arguments before the NULL that ends them. *)
Fixpoint ali_sb_push_strs_null (self : AliSb) (strs : list text) : result AliSb :=
  match strs with
  | [] => Done self
  | str :: strs =>
      let n := Z.of_nat (List.length (c_str str)) in
      (self <- ali_sb_maybe_resize heap self n ;;
       block <- store_at (data self) (count self) (c_str str) ;;
       ali_sb_push_strs_null {| data := block;
                                count := to_size_t (count self + n);
                                capacity := capacity self |} strs)%result
  end.

(** <<
bool ali_sb_write_file(AliSb* self, const char* path) {
    FILE* f = fopen(path, "wb");
    if (f == NULL) {
        ali_log_error("Couldn't write to %s: %s\n", path, strerror(errno));
        return false;
    }
    fwrite(self->data, 1, self->count, f);
    if (f != NULL) fclose(f);
    return true;
}
>>
    [f] is what fopen finds; the result holds the contents of the file
    after the call: [f] itself when it could not be opened, what fwrite
    wrote otherwise (the mode truncates the file). *)
Definition ali_sb_write_file (self : AliSb) (path : string) (f : file)
           (log : Log.LogState) : result (bool * file * Log.LogState) :=
  match f with
  | inl error =>
      let message :=
        ("Couldn't write to " ++ path ++ ": " ++ error ++ Log.newline)%string in
      Done (false, f, Log.ali_log_log Log.LOG_ERROR message log)
  | inr _ =>
      if (0 <=? count self) && (count self <=? Z.of_nat (List.length (data self))) then
        Done (true, inr (firstn (Z.to_nat (count self)) (data self)), log)
      else Fault
  end.

(** The characters a builder holds: the first [count] of its block. *)
Definition contents (self : AliSb) : text :=
  firstn (Z.to_nat (count self)) (data self).

(** The block of a builder is [capacity] bytes, of which [count] are in
    use. *)
Definition well_formed (self : AliSb) : Prop :=
  0 <= count self <= capacity self /\
  Z.of_nat (List.length (data self)) = capacity self.

(** One turn of the loop of ali_sb_push_strs_null, which is also what
    ali_sb_read_file does with the bytes of the file. *)
Definition push_bytes (self : AliSb) (bytes : text) : result AliSb :=
  let n := Z.of_nat (List.length bytes) in
  (self <- ali_sb_maybe_resize heap self n ;;
   block <- store_at (data self) (count self) bytes ;;
   Done {| data := block;
           count := to_size_t (count self + n);
           capacity := capacity self |})%result.

(** What the loop of main prints for the values of an array. *)
Fixpoint print_lines (values : list JsonValue) : result text :=
  match values with
  | [] => Done []
  | value :: values =>
      (s <- json_stringify value ;;
       rest <- print_lines values ;;
       Done (s ++ lit Log.newline ++ rest))%result
  end.

(** ** Properties *)

Lemma grow_ends (fuel : nat) :
  forall needed c,
    0 < c -> 0 <= needed < 2 ^ 62 -> needed < c * 2 ^ Z.of_nat fuel ->
    exists c', Da.grow (S fuel) needed c = Done c' /\ needed < c' /\ c <= c'.
Proof.
  induction fuel as [|fuel IH]; intros needed c Hc Hn Hf.
  - exists c. cbn [Da.grow]. change (2 ^ Z.of_nat 0) with 1 in Hf.
    destruct (Z.leb_spec c needed); [lia|]. split; [reflexivity|lia].
  - rewrite Da.grow_step.
    destruct (Z.leb_spec c needed) as [Hle|Hgt].
    + destruct (Z.eqb_spec c 0) as [?|_]; [lia|].
      assert (W : to_size_t (c * 2) = c * 2).
      { unfold to_size_t, size_modulus, SIZE_WIDTH. apply Z.mod_small. lia. }
      rewrite W.
      destruct (IH needed (c * 2)) as (c' & E & H1 & H2); try lia.
      { rewrite Nat2Z.inj_succ, Z.pow_succ_r in Hf by lia. lia. }
      exists c'. split; [exact E|lia].
    + exists c. split; [reflexivity|lia].
Qed.

Lemma ali_sb_maybe_resize_room (self : AliSb) (to_add : Z) :
  well_formed self -> 0 <= to_add -> count self + to_add < 2 ^ 62 ->
  exists self',
    ali_sb_maybe_resize heap self to_add = Done self' /\
    well_formed self' /\
    count self' = count self /\
    contents self' = contents self /\
    count self + to_add < capacity self'.
Proof.
  intros ((Hc0 & Hc) & Hlen) Ha Hn. unfold ali_sb_maybe_resize.
  assert (W : to_size_t (count self + to_add) = count self + to_add).
  { unfold to_size_t, size_modulus, SIZE_WIDTH. apply Z.mod_small. lia. }
  rewrite W.
  destruct (Z.leb_spec (capacity self) (count self + to_add)) as [Hfull|Hroom].
  - assert (G : exists c', Da.grow Da.grow_fuel (count self + to_add) (capacity self)
                           = Done c' /\ count self + to_add < c' /\ capacity self <= c').
    { change Da.grow_fuel with (S (S 126)). rewrite Da.grow_step.
      destruct (Z.leb_spec (capacity self) (count self + to_add)) as [_|?]; [|lia].
      destruct (Z.eqb_spec (capacity self) 0) as [E0|N0].
      - destruct (grow_ends 126 (count self + to_add) Da.ALI_DA_DEFAULT_INIT_CAPACITY)
          as (c' & E & H1 & H2); try (unfold Da.ALI_DA_DEFAULT_INIT_CAPACITY; lia).
        exists c'. split; [exact E|]. unfold Da.ALI_DA_DEFAULT_INIT_CAPACITY in *. lia.
      - assert (W2 : to_size_t (capacity self * 2) = capacity self * 2).
        { unfold to_size_t, size_modulus, SIZE_WIDTH. apply Z.mod_small. lia. }
        rewrite W2.
        destruct (grow_ends 126 (count self + to_add) (capacity self * 2))
          as (c' & E & H1 & H2); try lia.
        exists c'. split; [exact E|lia]. }
    destruct G as (c' & E & H1 & H2). rewrite E. cbn [bind].
    eexists; split; [reflexivity|].
    unfold well_formed, contents, realloc. cbn [data count capacity].
    rewrite length_app, length_firstn, length_map, length_seq.
    repeat split; try lia.
    rewrite firstn_app, firstn_firstn, length_firstn.
    replace (Z.to_nat (count self) - Nat.min (Z.to_nat c') (List.length (data self)))%nat
      with 0%nat by lia.
    cbn [firstn]. rewrite app_nil_r. f_equal. lia.
  - exists self. repeat split; try lia.
Qed.

Lemma store_at_contents (self : AliSb) (bytes : text) :
  well_formed self ->
  count self + Z.of_nat (List.length bytes) <= capacity self ->
  exists block,
    store_at (data self) (count self) bytes = Done block /\
    List.length block = List.length (data self) /\
    firstn (Z.to_nat (count self + Z.of_nat (List.length bytes))) block =
      contents self ++ bytes.
Proof.
  intros ((Hc0 & Hc) & Hlen) Hroom. unfold store_at, contents.
  destruct (Z.leb_spec 0 (count self)); [|lia].
  destruct (Z.leb_spec (count self + Z.of_nat (List.length bytes))
                       (Z.of_nat (List.length (data self)))); [|lia].
  cbn [andb]. eexists; split; [reflexivity|]. split.
  - rewrite !length_app, length_firstn, length_skipn. lia.
  - rewrite app_assoc, firstn_app, !length_app, length_firstn.
    replace (Z.to_nat (count self + Z.of_nat (List.length bytes)) -
             (Nat.min (Z.to_nat (count self)) (List.length (data self))
              + List.length bytes))%nat with 0%nat by lia.
    cbn [firstn]. rewrite app_nil_r. apply firstn_all2.
    rewrite length_app, length_firstn. lia.
Qed.

(** Bytes pushed behind the contents of a builder with room grown for
    them. *)
Lemma push_bytes_appends (self : AliSb) (bytes : text) :
  well_formed self ->
  count self + Z.of_nat (List.length bytes) < 2 ^ 62 ->
  exists self',
    push_bytes self bytes = Done self' /\
    well_formed self' /\
    contents self' = contents self ++ bytes /\
    count self' = count self + Z.of_nat (List.length bytes) /\
    count self' < capacity self'.
Proof.
  intros Hwf Hn. unfold push_bytes.
  destruct (ali_sb_maybe_resize_room self (Z.of_nat (List.length bytes)) Hwf)
    as (s1 & E1 & Hwf1 & Hc1 & Hk1 & Hroom); [lia|lia|].
  rewrite E1. cbn [bind].
  destruct (store_at_contents s1 bytes Hwf1) as (block & E2 & Hlen & Hfirst); [lia|].
  rewrite E2. cbn [bind].
  assert (W : to_size_t (count s1 + Z.of_nat (List.length bytes))
              = count s1 + Z.of_nat (List.length bytes)).
  { destruct Hwf as ((? & ?) & _).
    unfold to_size_t, size_modulus, SIZE_WIDTH. apply Z.mod_small. lia. }
  eexists; split; [reflexivity|].
  destruct Hwf as ((? & ?) & _). destruct Hwf1 as ((? & ?) & Hl1).
  unfold well_formed, contents. cbn [data count capacity]. rewrite W.
  repeat split; try lia.
  rewrite Hfirst, Hk1. reflexivity.
Qed.

Lemma ali_sb_push_strs_null_step (self : AliSb) (str : text) (strs : list text) :
  ali_sb_push_strs_null self (str :: strs) =
  bind (push_bytes self (c_str str)) (fun self => ali_sb_push_strs_null self strs).
Proof.
  cbn [ali_sb_push_strs_null]. unfold push_bytes.
  destruct (ali_sb_maybe_resize heap self _) as [s1| |]; cbn [bind]; try reflexivity.
  destruct (store_at _ _ _) as [block| |]; reflexivity.
Qed.

Lemma ali_sb_read_file_push (self : AliSb) (path : string) (bytes : text)
      (log : Log.LogState) :
  Z.of_nat (List.length bytes) < 2 ^ 62 ->
  ali_sb_read_file heap self path (inr bytes) log =
  bind (push_bytes self bytes) (fun self => Done (true, self, log)).
Proof.
  intros Hn. unfold ali_sb_read_file, push_bytes.
  assert (W : to_size_t (Z.of_nat (List.length bytes)) = Z.of_nat (List.length bytes)).
  { unfold to_size_t, size_modulus, SIZE_WIDTH. apply Z.mod_small. lia. }
  rewrite W.
  destruct (ali_sb_maybe_resize heap self _) as [s1| |]; cbn [bind]; try reflexivity.
  destruct (store_at _ _ _) as [block| |]; reflexivity.
Qed.

(** X23: ali_sb_push_strs_null puts the strings behind the contents of
    the builder, in the order of the arguments and without their NULs:
    nothing ends the contents, but the block always has a byte to spare
    behind them. *)
Theorem ali_sb_push_strs_null_appends (strs : list text) (self : AliSb) :
  well_formed self ->
  count self + Z.of_nat (List.length (List.concat (map c_str strs))) < 2 ^ 62 ->
  exists self',
    ali_sb_push_strs_null self strs = Done self' /\
    well_formed self' /\
    contents self' = contents self ++ List.concat (map c_str strs) /\
    count self' = count self + Z.of_nat (List.length (List.concat (map c_str strs))) /\
    (strs <> [] -> count self' < capacity self').
Proof.
  revert self. induction strs as [|str strs IH]; intros self Hwf Hn.
  - exists self. cbn [ali_sb_push_strs_null map List.concat List.length].
    rewrite app_nil_r. repeat split; try apply Hwf; try lia. congruence.
  - cbn [map List.concat] in Hn |- *. rewrite length_app, Nat2Z.inj_add in Hn |- *.
    destruct (push_bytes_appends self (c_str str) Hwf) as (s1 & E1 & Hwf1 & Hk1 & Hc1 & Hr1);
      [lia|].
    rewrite ali_sb_push_strs_null_step, E1. cbn [bind].
    destruct (IH s1 Hwf1) as (s2 & E2 & Hwf2 & Hk2 & Hc2 & Hr2); [lia|].
    exists s2. split; [exact E2|]. split; [exact Hwf2|].
    split; [rewrite Hk2, Hk1, app_assoc; reflexivity|].
    split; [lia|]. intros _.
    destruct strs as [|str2 strs]; [|apply Hr2; discriminate].
    cbn [ali_sb_push_strs_null] in E2. inversion E2; subst s2. exact Hr1.
Qed.

(** X24: what ali_sb_write_file writes is the contents of the builder,
    and ali_sb_read_file puts the bytes of a file behind the contents
    of the builder it reads into (it does not replace them). So a file
    written from one builder and read into an empty one gives the
    contents back. *)
Theorem ali_sb_write_file_then_read_file (self target : AliSb) (path : string)
        (old : text) (log : Log.LogState) :
  well_formed self -> well_formed target ->
  count target + count self < 2 ^ 62 ->
  ali_sb_write_file self path (inr old) log = Done (true, inr (contents self), log) /\
  exists target',
    ali_sb_read_file heap target path (inr (contents self)) log = Done (true, target', log) /\
    well_formed target' /\
    contents target' = contents target ++ contents self /\
    count target' = count target + count self /\
    count target' < capacity target'.
Proof.
  intros Hs Ht Hn.
  assert (Hlen : Z.of_nat (List.length (contents self)) = count self).
  { destruct Hs as ((? & ?) & ?). unfold contents. rewrite length_firstn. lia. }
  split.
  - unfold ali_sb_write_file. destruct Hs as ((? & ?) & ?).
    destruct (Z.leb_spec 0 (count self)); [|lia].
    destruct (Z.leb_spec (count self) (Z.of_nat (List.length (data self)))); [|lia].
    reflexivity.
  - destruct (push_bytes_appends target (contents self) Ht)
      as (t' & E & Hwf & Hk & Hc & Hr); [lia|].
    exists t'. rewrite ali_sb_read_file_push, E by (destruct Ht as ((? & ?) & ?); lia).
    cbn [bind]. repeat split; try apply Hwf; try assumption; lia.
Qed.

(** The text of a printable value is no longer than twice the bytes
    its parse takes of the arena. *)
Lemma json_stringify_length :
  forall v, printable v = true ->
            forall out, json_stringify v = Done out ->
                        Z.of_nat (List.length out) <= 2 * need v.
Proof.
  apply (JsonValue_ind'
    (fun v => printable v = true ->
              forall out, json_stringify v = Done out ->
                          Z.of_nat (List.length out) <= 2 * need v)
    (fun a => forall t, printable (Build_JsonValue t a) = true ->
              forall out, json_stringify (Build_JsonValue t a) = Done out ->
                          Z.of_nat (List.length out) <= 2 * need (Build_JsonValue t a))
    (fun o => printable_items (object_next o) = true ->
              forall out, stringify_items (object_next o) = Done out ->
                          Z.of_nat (List.length out) + 2 * count_items (object_next o)
                          <= 2 * need_items (object_next o))
    (fun x => printable_nodes (array_next x) = true ->
              forall out, stringify_nodes (array_next x) = Done out ->
                          Z.of_nat (List.length out) + 2 * count_nodes (array_next x)
                          <= 2 * need_nodes (array_next x))
    (fun cur => printable_items cur = true ->
              forall out, stringify_items cur = Done out ->
                          Z.of_nat (List.length out) + 2 * count_items cur
                          <= 2 * need_items cur)
    (fun cur => printable_nodes cur = true ->
              forall out, stringify_nodes cur = Done out ->
                          Z.of_nat (List.length out) + 2 * count_nodes cur
                          <= 2 * need_nodes cur)).
  - intros t a IH. apply IH.
  - intros d t Hp. destruct t; discriminate.
  - intros b t Hp. destruct t; discriminate.
  - intros s t Hp out Hout. destruct t; try discriminate.
    cbn [printable] in Hp. destruct (plain_text s Hp) as [Ec _].
    cbn [json_stringify] in Hout. rewrite Ec in Hout. inversion Hout; subst out.
    cbn [need List.length]. rewrite length_app. cbn [List.length]. lia.
  - intros [len next] IH t Hp out Hout. destruct t; try discriminate.
    cbn [printable object_next need] in *.
    assert (Hpn : printable_items next = true) by (destruct next; [discriminate|exact Hp]).
    assert (Hc : 1 <= count_items next).
    { destruct next as [|k v n]; [discriminate|].
      cbn [count_items]. pose proof (count_items_nonneg n). lia. }
    cbn [json_stringify] in Hout.
    destruct (stringify_items next) as [body| |] eqn:Eb; try discriminate.
    cbn [bind] in Hout. inversion Hout; subst out.
    specialize (IH Hpn body eq_refl).
    cbn [List.length]. rewrite length_app. cbn [List.length]. lia.
  - intros [len next] IH t Hp out Hout. destruct t; try discriminate.
    cbn [printable array_next need] in *.
    assert (Hpn : printable_nodes next = true) by (destruct next; [discriminate|exact Hp]).
    assert (Hc : 1 <= count_nodes next).
    { destruct next as [|v n]; [discriminate|].
      cbn [count_nodes]. pose proof (count_nodes_nonneg n). lia. }
    cbn [json_stringify] in Hout.
    destruct (stringify_nodes next) as [body| |] eqn:Eb; try discriminate.
    cbn [bind] in Hout. inversion Hout; subst out.
    specialize (IH Hpn body eq_refl).
    cbn [List.length]. rewrite length_app. cbn [List.length]. lia.
  - intros len next IH. exact IH.
  - intros len next IH. exact IH.
  - intros _ out Hout. cbn in Hout. inversion Hout; subst out. cbn. lia.
  - intros k v IHv next IHn Hp out Hout.
    cbn [printable_items] in Hp.
    apply andb_true_iff in Hp. destruct Hp as [Hp Hpn].
    apply andb_true_iff in Hp. destruct Hp as [Hpk Hpv].
    destruct (plain_text k Hpk) as [Ek _].
    cbn [stringify_items] in Hout.
    destruct (json_stringify v) as [sv| |] eqn:Esv; try discriminate.
    destruct (stringify_items next) as [sn| |] eqn:Esn; try discriminate.
    cbn [bind] in Hout. rewrite Ek in Hout. inversion Hout; subst out.
    specialize (IHv Hpv sv eq_refl). specialize (IHn Hpn sn eq_refl).
    cbn [need_items count_items List.length]. rewrite !length_app. cbn [List.length].
    rewrite !length_app.
    assert (Hsep : (List.length (separator_before
                      match next with item_NULL => true | item _ _ _ => false end) <= 2)%nat)
      by (destruct next; cbn; lia).
    change (List.length (lit ": ")) with 2%nat.
    assert (sizeof_JsonObjectItem = 40) by reflexivity. lia.
  - intros _ out Hout. cbn in Hout. inversion Hout; subst out. cbn. lia.
  - intros v IHv next IHn Hp out Hout.
    cbn [printable_nodes] in Hp.
    apply andb_true_iff in Hp. destruct Hp as [Hpv Hpn].
    cbn [stringify_nodes] in Hout.
    destruct (json_stringify v) as [sv| |] eqn:Esv; try discriminate.
    destruct (stringify_nodes next) as [sn| |] eqn:Esn; try discriminate.
    cbn [bind] in Hout. inversion Hout; subst out.
    specialize (IHv Hpv sv eq_refl). specialize (IHn Hpn sn eq_refl).
    cbn [need_nodes count_nodes]. rewrite !length_app.
    assert (Hsep : (List.length (separator_before
                      match next with node_NULL => true | node _ _ => false end) <= 2)%nat)
      by (destruct next; cbn; lia).
    assert (sizeof_JsonArrayNode = 32) by reflexivity. lia.
Qed.

Lemma first_with_key_need (k : text) (cur : JsonObjectItem) (v : JsonValue) :
  first_with_key k (item_pairs cur) = Some v -> need v <= need_items cur.
Proof.
  destruct need_nonneg as (Nv & _ & Ni).
  induction cur as [|k0 x next IH]; cbn [item_pairs first_with_key need_items];
    [discriminate|].
  pose proof (Nv x). pose proof (Ni next).
  assert (sizeof_JsonObjectItem = 40) by reflexivity.
  destruct (strcmp_eq k0 k); intros E.
  - inversion E; subst. lia.
  - specialize (IH E). lia.
Qed.

Lemma skipn_nth_error (A : Type) (l : list A) (n : nat) (a : A) :
  nth_error l n = Some a -> skipn n l = a :: skipn (S n) l.
Proof.
  revert n; induction l as [|x l IH]; intros [|n] E; cbn in E; try discriminate.
  - inversion E. reflexivity.
  - cbn [skipn]. rewrite (IH n E). reflexivity.
Qed.

Lemma print_products_lines (products : JsonArray) :
  forall turns i,
    0 <= i ->
    i + Z.of_nat turns = array_len products ->
    array_len products = Z.of_nat (List.length (node_values (array_next products))) ->
    print_products products i turns =
    print_lines (skipn (Z.to_nat i) (node_values (array_next products))).
Proof.
  induction turns as [|turns IH]; intros i Hi Hsum Hlen.
  - cbn [print_products]. rewrite skipn_all2 by lia. reflexivity.
  - cbn [print_products]. unfold json_array_get_item.
    destruct (Z.ltb_spec (array_len products) i); [lia|].
    rewrite node_walk_nth.
    destruct (nth_error (node_values (array_next products)) (Z.to_nat i)) as [v|] eqn:E.
    2:{ apply nth_error_None in E. lia. }
    rewrite (IH (i + 1)) by lia.
    replace (Z.to_nat (i + 1)) with (S (Z.to_nat i)) by lia.
    rewrite (skipn_nth_error _ _ _ _ E). cbn [print_lines]. reflexivity.
Qed.

(** What main does with a file that holds the text of a printable
    object. *)
Lemma main_on_printed (o : JsonObject) (out : text) :
  let value := Build_JsonValue JSON_OBJECT (as_object o) in
  printable value = true ->
  consistent value = true ->
  need value <= JSON_ARENA_MAX_SIZE ->
  json_stringify value = Done out ->
  main heap (inr out) =
  match first_with_key (lit "products") (item_pairs (object_next o)) with
  | None => Done (1, [])
  | Some pj =>
      match json_value_as_array pj with
      | None => Done (1, [])
      | Some products =>
          bind (read_array products) (fun products =>
          bind (print_products products 0 (Z.to_nat (array_len products)))
               (fun printed => Done (0, printed)))
      end
  end.
Proof.
  intros value Hp Hc Hneed Hout.
  pose proof (json_stringify_length value Hp out Hout) as Hlen.
  assert (J : JSON_ARENA_MAX_SIZE = 2 ^ 20) by reflexivity.
  assert (Hwf0 : well_formed sb_zero) by (unfold well_formed; cbn; lia).
  destruct (push_bytes_appends sb_zero out Hwf0) as (sb & Epush & Hwf & Hk & Hcount & Hroom).
  { cbn [count sb_zero]. lia. }
  change (contents sb_zero) with (@nil ascii) in Hk. cbn [app] in Hk.
  rewrite Z.add_0_l in Hcount.
  assert (Er : read_products heap (inr out) = Done (true, sb, Log.initial)).
  { unfold read_products. rewrite ali_sb_read_file_push, Epush by lia. reflexivity. }
  assert (Hdata : data sb = out ++ skipn (Z.to_nat (count sb)) (data sb)).
  { rewrite <- Hk at 1. unfold contents. symmetry. apply firstn_skipn. }
  assert (Hne : 0 < Z.of_nat (List.length out)).
  { destruct o as [len next]. cbn [json_stringify value] in Hout.
    destruct (stringify_items next); try discriminate.
    cbn [bind] in Hout. inversion Hout. cbn. lia. }
  assert (Ep : parse_products sb =
               Done (advance (json_lexer 0 (count sb))
                             (Z.of_nat (List.length (@nil ascii))
                              + Z.of_nat (List.length out)),
                     0 + need value, Some value)).
  { unfold parse_products.
    destruct (reads_back_every_value value Hp Hc (data sb) (json_lexer 0 (count sb)) 0
                [] out (skipn (Z.to_nat (count sb)) (data sb)) Hout) as [f Hf];
      try reflexivity; try lia.
    - unfold json_is_empty, json_lexer. cbn [content_start content_len].
      apply Z.leb_gt. lia.
    - split; [cbn; lia|]. unfold ahead, json_lexer. cbn [cursor app].
      change (Z.to_nat 0) with 0%nat. cbn [skipn Z.ltb Z.compare]. exact Hdata.
    - apply (json_lexer_parse_complete (data sb) f). apply Hf. lia. }
  rewrite (main_after_parse heap _ _ _ _ _ _ Er Ep). cbv zeta.
  change (lit (Log.written Log.initial Log.stdout)) with (@nil ascii).
  subst value. cbn [json_value_as_object as_if type type_eqb as_ read_object bind].
  unfold json_object_find_value. rewrite item_find_pairs.
  destruct o as [len next]. cbn [object_len object_next].
  cbn [printable consistent need] in Hp, Hc, Hneed.
  apply andb_true_iff in Hc. destruct Hc as [Hcn Hclen]. apply Z.eqb_eq in Hclen.
  assert (Hcount1 : 1 <= count_items next).
  { destruct next as [|k v n]; [discriminate|].
    cbn [count_items]. pose proof (count_items_nonneg n). lia. }
  pose proof (count_items_need next) as Hcn2.
  assert (M : size_modulus = 2 ^ 64) by reflexivity.
  rewrite small_size_t in Hclen by lia.
  destruct (Z.eqb_spec len 0) as [?|_]; [lia|].
  destruct (first_with_key (lit "products") (item_pairs next)) as [pj|]; [|reflexivity].
  destruct (json_value_as_array pj) as [p|]; reflexivity.
Qed.

(** X25: main on a file that holds what json_stringify prints for an
    object made of strings, arrays and objects: when the first item
    with the key products is an array, main prints the values of that
    array, each followed by a newline, and returns 0; when that item is
    no array, or no item has the key, it prints nothing and returns
    1. *)
Theorem main_prints_products (o : JsonObject) (out : text) :
  let value := Build_JsonValue JSON_OBJECT (as_object o) in
  printable value = true ->
  consistent value = true ->
  need value <= JSON_ARENA_MAX_SIZE ->
  json_stringify value = Done out ->
  (forall x,
      first_with_key (lit "products") (item_pairs (object_next o)) =
        Some (Build_JsonValue JSON_ARRAY (as_array x)) ->
      exists printed,
        print_lines (node_values (array_next x)) = Done printed /\
        main heap (inr out) = Done (0, printed)) /\
  (forall pj,
      first_with_key (lit "products") (item_pairs (object_next o)) = Some pj ->
      type pj <> JSON_ARRAY ->
      main heap (inr out) = Done (1, [])) /\
  (first_with_key (lit "products") (item_pairs (object_next o)) = None ->
   main heap (inr out) = Done (1, [])).
Proof.
  intros value Hp Hc Hneed Hout.
  pose proof (main_on_printed o out Hp Hc Hneed Hout) as Hmain. cbv zeta in Hmain.
  split; [|split].
  - intros x Ef. rewrite Ef in Hmain.
    cbn [json_value_as_array as_if type type_eqb as_ read_array bind] in Hmain.
    assert (Hcx : consistent (Build_JsonValue JSON_ARRAY (as_array x)) = true).
    { destruct o as [len next]. cbn [consistent value object_next] in Hc, Ef.
      apply andb_true_iff in Hc. destruct Hc as [Hcn _].
      apply (item_find_consistent next (lit "products")); [exact Hcn|].
      rewrite item_find_pairs, Ef. reflexivity. }
    assert (Hnx : need (Build_JsonValue JSON_ARRAY (as_array x)) <= JSON_ARENA_MAX_SIZE).
    { destruct o as [len next]. cbn [need value object_next] in Hneed, Ef.
      pose proof (first_with_key_need _ _ _ Ef). lia. }
    destruct x as [len next]. cbn [consistent need] in Hcx, Hnx.
    apply andb_true_iff in Hcx. destruct Hcx as [Hcn Hlen]. apply Z.eqb_eq in Hlen.
    pose proof (count_nodes_need next). pose proof (count_nodes_nonneg next).
    assert (J : JSON_ARENA_MAX_SIZE = 2 ^ 20) by reflexivity.
    assert (M : size_modulus = 2 ^ 64) by reflexivity.
    rewrite small_size_t in Hlen by lia.
    rewrite (print_products_lines (Build_JsonArray len next)) in Hmain;
      cbn [array_len array_next]; try lia.
    2:{ rewrite <- count_nodes_values. exact Hlen. }
    change (Z.to_nat 0) with 0%nat in Hmain. cbn [skipn array_next] in Hmain.
    destruct (print_products_consistent (Build_JsonArray len next)) with
      (turns := Z.to_nat len) (i := 0) as [printed Eprinted];
      cbn [array_len]; try lia.
    { unfold consistent_array. cbn [consistent]. rewrite Hcn. cbn [andb].
      apply Z.eqb_eq. rewrite small_size_t by lia. exact Hlen. }
    rewrite (print_products_lines (Build_JsonArray len next)) in Eprinted;
      cbn [array_len array_next]; try lia.
    2:{ rewrite <- count_nodes_values. exact Hlen. }
    change (Z.to_nat 0) with 0%nat in Eprinted. cbn [skipn array_next] in Eprinted.
    exists printed. split; [exact Eprinted|]. rewrite Hmain, Eprinted. reflexivity.
  - intros pj Ef Ht. rewrite Ef in Hmain.
    unfold json_value_as_array, as_if in Hmain.
    destruct pj as [t a]. cbn [type] in Ht, Hmain.
    destruct t; cbn [type_eqb] in Hmain; try exact Hmain. congruence.
  - intros Ef. rewrite Ef in Hmain. exact Hmain.
Qed.

End Host.

Lemma ali_sb_push_strs_null_appends_witness :
  exists self',
    ali_sb_push_strs_null (fun _ => "?"%char) sb_zero [lit "ab"; []; lit "c" ++ zero :: lit "d"] = Done self' /\
    well_formed self' /\
    contents self' = contents sb_zero ++ lit "abc" /\
    count self' = 0 + 3 /\
    ([lit "ab"; []; lit "c" ++ zero :: lit "d"] <> [] -> count self' < capacity self').
Proof.
  apply (ali_sb_push_strs_null_appends (fun _ => "?"%char) [lit "ab"; []; lit "c" ++ zero :: lit "d"] sb_zero).
  - unfold well_formed. cbn. lia.
  - cbn. lia.
Defined.


Lemma ali_sb_write_file_then_read_file_witness :
  let heap := fun _ : nat => "?"%char in
  let self := {| data := lit "hello, file??"; count := 11; capacity := 13 |} in
  let target := {| data := lit "say: ???"; count := 5; capacity := 8 |} in
  ali_sb_write_file self "a.txt" (inr (lit "old")) Log.initial =
    Done (true, inr (contents self), Log.initial) /\
  exists target',
    ali_sb_read_file heap target "a.txt" (inr (contents self)) Log.initial =
      Done (true, target', Log.initial) /\
    well_formed target' /\
    contents target' = contents target ++ contents self /\
    count target' = count target + count self /\
    count target' < capacity target'.
Proof.
  intros heap self target.
  apply (ali_sb_write_file_then_read_file heap self target "a.txt" (lit "old") Log.initial).
  - unfold well_formed. cbn. lia.
  - unfold well_formed. cbn. lia.
  - cbn. lia.
Defined.

Lemma main_prints_products_witness :
  let heap := fun _ : nat => "?"%char in
  let products :=
    Build_JsonArray 2 (node (json_value_string (lit "a"))
                         (node (json_value_string (lit "b")) node_NULL)) in
  let o :=
    Build_JsonObject 2
      (item (lit "products") (Build_JsonValue JSON_ARRAY (as_array products))
         (item (lit "n") (json_value_string (lit "x")) item_NULL)) in
  let out :=
    lit "{" ++ quote :: lit "products" ++ quote :: lit ": [" ++
    quote :: lit "a" ++ quote :: lit ", " ++ quote :: lit "b" ++ quote :: lit "], " ++
    quote :: lit "n" ++ quote :: lit ": " ++ quote :: lit "x" ++ quote :: lit "}" in
  (forall x,
      first_with_key (lit "products") (item_pairs (object_next o)) =
        Some (Build_JsonValue JSON_ARRAY (as_array x)) ->
      exists printed,
        print_lines (node_values (array_next x)) = Done printed /\
        main heap (inr out) = Done (0, printed)) /\
  (forall pj,
      first_with_key (lit "products") (item_pairs (object_next o)) = Some pj ->
      type pj <> JSON_ARRAY ->
      main heap (inr out) = Done (1, [])) /\
  (first_with_key (lit "products") (item_pairs (object_next o)) = None ->
   main heap (inr out) = Done (1, [])).
Proof.
  intros heap products o out.
  apply (main_prints_products heap o out); try reflexivity.
  vm_compute. congruence.
Defined.

End Sb.


(* ================================================================== *)
(** * ali_temp_alloc *)
(* ================================================================== *)

Module Temp.

Import Libc.

(** <<
#define ALI_TEMP_BUF_SIZE (8 << 20)
static ali_u8 ali_temp_buffer[ALI_TEMP_BUF_SIZE] = {0};
static size_t ali_temp_buffer_size = 0;
>>
    The buffer is the byte at each of its indices; a pointer into it is
    an index. *)
Definition ALI_TEMP_BUF_SIZE : Z := Z.shiftl 8 20.

Record TempState : Type := {
  ali_temp_buffer : Z -> ascii;
  ali_temp_buffer_size : Z
}.

Definition initial : TempState :=
  {| ali_temp_buffer := fun _ => zero; ali_temp_buffer_size := 0 |}.

(** <<
void* ali_temp_alloc(size_t size) {
    ALI_ASSERT(ali_temp_buffer_size + size < ALI_TEMP_BUF_SIZE);
    void* ptr = ali_temp_buffer + ali_temp_buffer_size;
    ali_temp_buffer_size += size;
    return ptr;
}
>>
    [Done None] is the abort of a failed assertion. A pointer further
    than one past the end of the buffer cannot be formed. *)
Definition ali_temp_alloc (st : TempState) (size : Z) : result (option (Z * TempState)) :=
  let sum := to_size_t (ali_temp_buffer_size st + size) in
  if sum <? ALI_TEMP_BUF_SIZE then
    if ali_temp_buffer_size st <=? ALI_TEMP_BUF_SIZE then
      Done (Some (ali_temp_buffer_size st,
                  {| ali_temp_buffer := ali_temp_buffer st;
                     ali_temp_buffer_size := sum |}))
    else Fault
  else Done None.

(** [ALI_MEMCPY(dst, src, n)] into the buffer: [bytes] is the [n] bytes
    read from [src]. *)
Definition store (buffer : Z -> ascii) (dst : Z) (bytes : text) : Z -> ascii :=
  fun i =>
    if (dst <=? i) && (i <? dst + Z.of_nat (List.length bytes))
    then nth (Z.to_nat (i - dst)) bytes zero
    else buffer i.

Definition memcpy (buffer : Z -> ascii) (dst : Z) (src : text) (n : Z)
  : result (Z -> ascii) :=
  if (n <=? Z.of_nat (List.length src)) && (0 <=? dst) && (dst + n <=? ALI_TEMP_BUF_SIZE)
  then Done (store buffer dst (firstn (Z.to_nat n) src))
  else Fault.

(** [strlen(s)]: the number of bytes before the first NUL; a string
    without one is read past its end. *)
Definition strlen (s : text) : result Z :=
  match scan is_nul s with
  | Some n => Done n
  | None => Fault
  end.

(** <<
char* ali_temp_strdup(const char* str) {
    size_t size = strlen(str) + 1;
    char* copy = ali_temp_alloc(size);
    return ALI_MEMCPY(copy, str, size);
}
>> *)
Definition ali_temp_strdup (st : TempState) (str : text)
  : result (option (Z * TempState)) :=
  (n <- strlen str ;;
   let size := to_size_t (n + 1) in
   r <- ali_temp_alloc st size ;;
   match r with
   | None => Done None
   | Some (copy, st) =>
       buffer <- memcpy (ali_temp_buffer st) copy str size ;;
       Done (Some (copy, {| ali_temp_buffer := buffer;
                            ali_temp_buffer_size := ali_temp_buffer_size st |}))
   end)%result.

(** <<
size_t ali_temp_stamp(void) {
    return ali_temp_buffer_size;
}

void ali_temp_rewind(size_t stamp) {
    ali_temp_buffer_size = stamp;
}
>> *)
Definition ali_temp_stamp (st : TempState) : Z := ali_temp_buffer_size st.

Definition ali_temp_rewind (st : TempState) (stamp : Z) : TempState :=
  {| ali_temp_buffer := ali_temp_buffer st; ali_temp_buffer_size := stamp |}.

(** <<
char* ali_temp_sv_to_cstr(AliSv sv) {
    char* out = ali_temp_alloc(sv.len + 1);
    ALI_MEMCPY(out, sv.start, sv.len);
    out[sv.len] = 0;
    return out;
}
>>
    [mem] is the buffer the view was cut from. A copy from NULL is given
    no meaning. *)
Definition ali_temp_sv_to_cstr (st : TempState) (mem : text) (sv : Sv.AliSv)
  : result (option (Z * TempState)) :=
  (r <- ali_temp_alloc st (to_size_t (Sv.len sv + 1)) ;;
   match r with
   | None => Done None
   | Some (out, st) =>
       match Sv.start sv with
       | None => Fault
       | Some p =>
           if p <? 0 then Fault else
           buffer <- memcpy (ali_temp_buffer st) out (skipn (Z.to_nat p) mem) (Sv.len sv) ;;
           if out + Sv.len sv <? ALI_TEMP_BUF_SIZE then
             Done (Some (out,
                         {| ali_temp_buffer := store buffer (out + Sv.len sv) [zero];
                            ali_temp_buffer_size := ali_temp_buffer_size st |}))
           else Fault
       end
   end)%result.

(** A run of allocations, first to last: the pointers they return. *)
Fixpoint alloc_all (st : TempState) (sizes : list Z)
  : result (option (list Z * TempState)) :=
  match sizes with
  | [] => Done (Some ([], st))
  | size :: sizes =>
      (r <- ali_temp_alloc st size ;;
       match r with
       | None => Done None
       | Some (ptr, st) =>
           r <- alloc_all st sizes ;;
           match r with
           | None => Done None
           | Some (ptrs, st) => Done (Some (ptr :: ptrs, st))
           end
       end)%result
  end.

(** The sum of sizes, and the addresses of blocks laid one behind the
    other from [from] on. *)
Definition total (sizes : list Z) : Z := fold_right Z.add 0 sizes.

Fixpoint consecutive (from : Z) (sizes : list Z) : list Z :=
  match sizes with
  | [] => []
  | size :: sizes => from :: consecutive (from + size) sizes
  end.

(** The bytes of the buffer from [p] on, [n] of them. *)
Definition bytes_at (st : TempState) (p : Z) (n : nat) : text :=
  map (fun i => ali_temp_buffer st (p + Z.of_nat i)) (seq 0 n).

(** ** Properties *)

Lemma size_t_small (n : Z) : 0 <= n < size_modulus -> to_size_t n = n.
Proof. intros H. unfold to_size_t. apply Z.mod_small. exact H. Qed.

Lemma buf_size : ALI_TEMP_BUF_SIZE = 8388608.
Proof. reflexivity. Qed.

Lemma ali_temp_alloc_room (st : TempState) (size : Z) :
  0 <= ali_temp_buffer_size st < ALI_TEMP_BUF_SIZE ->
  0 <= size <= size_modulus - ALI_TEMP_BUF_SIZE ->
  ali_temp_alloc st size =
  Done (if ali_temp_buffer_size st + size <? ALI_TEMP_BUF_SIZE
        then Some (ali_temp_buffer_size st,
                   {| ali_temp_buffer := ali_temp_buffer st;
                      ali_temp_buffer_size := ali_temp_buffer_size st + size |})
        else None).
Proof.
  intros Hs Hn. unfold ali_temp_alloc.
  rewrite size_t_small by lia.
  destruct (Z.ltb_spec (ali_temp_buffer_size st + size) ALI_TEMP_BUF_SIZE); [|reflexivity].
  destruct (Z.leb_spec (ali_temp_buffer_size st) ALI_TEMP_BUF_SIZE); [reflexivity|lia].
Qed.

Lemma total_nonneg (sizes : list Z) : Forall (fun n => 0 <= n) sizes -> 0 <= total sizes.
Proof. induction 1 as [|n sizes Hn _ IH]; unfold total in *; cbn [fold_right]; lia. Qed.

Lemma alloc_all_spec (sizes : list Z) :
  forall st,
    0 <= ali_temp_buffer_size st < ALI_TEMP_BUF_SIZE ->
    Forall (fun n => 0 <= n <= size_modulus - ALI_TEMP_BUF_SIZE) sizes ->
    alloc_all st sizes =
    Done (if ali_temp_buffer_size st + total sizes <? ALI_TEMP_BUF_SIZE
          then Some (consecutive (ali_temp_buffer_size st) sizes,
                     {| ali_temp_buffer := ali_temp_buffer st;
                        ali_temp_buffer_size := ali_temp_buffer_size st + total sizes |})
          else None).
Proof.
  induction sizes as [|n sizes IH]; intros st Hs Hall.
  - cbn [alloc_all total fold_right consecutive]. rewrite Z.add_0_r.
    destruct (Z.ltb_spec (ali_temp_buffer_size st) ALI_TEMP_BUF_SIZE); [|lia].
    destruct st; reflexivity.
  - inversion Hall as [|? ? Hn Hrest]; subst.
    assert (Ht : 0 <= total sizes).
    { apply total_nonneg. eapply Forall_impl; [|exact Hrest]. cbn. intros; lia. }
    cbn [alloc_all total fold_right consecutive]. fold (total sizes).
    rewrite ali_temp_alloc_room by assumption.
    destruct (Z.ltb_spec (ali_temp_buffer_size st + n) ALI_TEMP_BUF_SIZE) as [Hfit|Hfull].
    + cbn [bind]. rewrite IH; [|cbn [ali_temp_buffer_size]; lia|assumption].
      cbn [ali_temp_buffer_size ali_temp_buffer bind].
      rewrite <- Z.add_assoc.
      destruct (Z.ltb_spec (ali_temp_buffer_size st + (n + total sizes)) ALI_TEMP_BUF_SIZE);
        reflexivity.
    + cbn [bind].
      destruct (Z.ltb_spec (ali_temp_buffer_size st + (n + total sizes)) ALI_TEMP_BUF_SIZE);
        [lia|reflexivity].
Qed.

(** X26: a run of ali_temp_alloc calls, none of a size near 2^64,
    returns exactly when the bytes in use and the sizes add up to less
    than ALI_TEMP_BUF_SIZE, and aborts on its assertion otherwise (the
    last byte of the buffer is never handed out). The blocks lie one
    right behind the other from the old ali_temp_buffer_size on, with no
    padding between them, and the contents of the buffer are left as
    they are; ali_temp_rewind to a stamp taken before the run gives the
    state before it back, so the next allocation returns the first block
    again. *)
Theorem ali_temp_alloc_sequence (sizes : list Z) (st : TempState) :
  0 <= ali_temp_buffer_size st < ALI_TEMP_BUF_SIZE ->
  Forall (fun n => 0 <= n <= size_modulus - ALI_TEMP_BUF_SIZE) sizes ->
  alloc_all st sizes =
    Done (if ali_temp_buffer_size st + total sizes <? ALI_TEMP_BUF_SIZE
          then Some (consecutive (ali_temp_buffer_size st) sizes,
                     {| ali_temp_buffer := ali_temp_buffer st;
                        ali_temp_buffer_size := ali_temp_buffer_size st + total sizes |})
          else None) /\
  (forall ptrs st',
      alloc_all st sizes = Done (Some (ptrs, st')) ->
      ali_temp_rewind st' (ali_temp_stamp st) = st).
Proof.
  intros Hs Hall. rewrite (alloc_all_spec sizes st Hs Hall). split; [reflexivity|].
  intros ptrs st' E.
  destruct (ali_temp_buffer_size st + total sizes <? ALI_TEMP_BUF_SIZE); [|discriminate].
  inversion E; subst. unfold ali_temp_rewind, ali_temp_stamp. destruct st; reflexivity.
Qed.

Lemma ali_temp_alloc_sequence_witness :
  (alloc_all initial [3; 0; 8388604] =
     Done (if ali_temp_buffer_size initial + total [3; 0; 8388604] <? ALI_TEMP_BUF_SIZE
           then Some (consecutive (ali_temp_buffer_size initial) [3; 0; 8388604],
                      {| ali_temp_buffer := ali_temp_buffer initial;
                         ali_temp_buffer_size :=
                           ali_temp_buffer_size initial + total [3; 0; 8388604] |})
           else None) /\
   (forall ptrs st',
       alloc_all initial [3; 0; 8388604] = Done (Some (ptrs, st')) ->
       ali_temp_rewind st' (ali_temp_stamp initial) = initial)) /\
  consecutive 0 [3; 0; 8388604] = [0; 3; 3] /\
  (0 + total [3; 0; 8388604] <? ALI_TEMP_BUF_SIZE) = true /\
  (0 + total [3; 0; 8388605] <? ALI_TEMP_BUF_SIZE) = false.
Proof.
  split; [|repeat split].
  apply (ali_temp_alloc_sequence [3; 0; 8388604] initial).
  - cbn. lia.
  - repeat constructor; cbn; lia.
Defined.

Lemma map_nth_seq (bytes : text) :
  map (fun i => nth i bytes zero) (seq 0 (List.length bytes)) = bytes.
Proof.
  induction bytes as [|b bytes IH]; [reflexivity|].
  cbn [List.length seq map nth]. rewrite <- seq_shift, map_map. cbn [nth].
  rewrite IH. reflexivity.
Qed.

Lemma store_inside (buffer : Z -> ascii) (dst : Z) (bytes : text)
      (st : TempState) :
  ali_temp_buffer st = store buffer dst bytes ->
  bytes_at st dst (List.length bytes) = bytes.
Proof.
  intros E. unfold bytes_at. rewrite E.
  etransitivity; [|apply (map_nth_seq bytes)].
  apply map_ext_in. intros i Hi. apply in_seq in Hi. unfold store.
  destruct (Z.leb_spec dst (dst + Z.of_nat i)); [|lia].
  destruct (Z.ltb_spec (dst + Z.of_nat i) (dst + Z.of_nat (List.length bytes))); [|lia].
  cbn [andb]. f_equal. lia.
Qed.

Lemma store_outside (buffer : Z -> ascii) (dst : Z) (bytes : text) (i : Z) :
  i < dst \/ dst + Z.of_nat (List.length bytes) <= i ->
  store buffer dst bytes i = buffer i.
Proof.
  intros H. unfold store.
  destruct (Z.leb_spec dst i); destruct (Z.ltb_spec i (dst + Z.of_nat (List.length bytes)));
    cbn [andb]; try reflexivity. lia.
Qed.

Lemma map_seq_from (A : Type) (f : nat -> A) (m a : nat) :
  map f (seq a m) = map (fun i => f (a + i)%nat) (seq 0 m).
Proof.
  rewrite <- (Nat.add_0_r a) at 1. generalize 0%nat as b.
  induction m as [|m IH]; intros b; [reflexivity|].
  cbn [seq map]. f_equal.
  rewrite <- (IH (S b)). f_equal. f_equal. lia.
Qed.

Lemma bytes_at_app (st : TempState) (p : Z) (n m : nat) :
  bytes_at st p (n + m) = bytes_at st p n ++ bytes_at st (p + Z.of_nat n) m.
Proof.
  unfold bytes_at. rewrite seq_app, map_app. f_equal.
  rewrite map_seq_from. apply map_ext. intros i. f_equal. lia.
Qed.

Lemma strlen_scan (s tail : text) :
  forallb (fun c => negb (is_nul c)) s = true ->
  scan is_nul (s ++ zero :: tail) = Some (Z.of_nat (List.length s)).
Proof.
  induction s as [|c s IH]; intros H; cbn [forallb] in H.
  - reflexivity.
  - apply andb_true_iff in H. destruct H as [Hc Hs]. apply negb_true_iff in Hc.
    cbn [app scan]. rewrite Hc, (IH Hs). f_equal. cbn [List.length]. lia.
Qed.

(** X27: ali_temp_sv_to_cstr turns a view into a C string and
    ali_temp_strdup copies one: with room for the characters and the
    NUL, each returns the old end of the bytes in use, where the buffer
    then holds the characters followed by a NUL; ali_temp_buffer_size
    grows by their number plus one, and no other byte of the buffer is
    changed. *)
Theorem ali_temp_copies_with_nul (st : TempState) (mem : text) (sv : Sv.AliSv)
        (s tail : text) :
  0 <= ali_temp_buffer_size st ->
  Sv.inside mem sv ->
  ali_temp_buffer_size st + Sv.len sv + 1 < ALI_TEMP_BUF_SIZE ->
  forallb (fun c => negb (is_nul c)) s = true ->
  ali_temp_buffer_size st + Z.of_nat (List.length s) + 1 < ALI_TEMP_BUF_SIZE ->
  (exists st',
      ali_temp_sv_to_cstr st mem sv = Done (Some (ali_temp_buffer_size st, st')) /\
      ali_temp_buffer_size st' = ali_temp_buffer_size st + Sv.len sv + 1 /\
      bytes_at st' (ali_temp_buffer_size st) (Z.to_nat (Sv.len sv) + 1) =
        Sv.chars mem sv ++ [zero] /\
      forall i, i < ali_temp_buffer_size st \/ ali_temp_buffer_size st' <= i ->
                ali_temp_buffer st' i = ali_temp_buffer st i) /\
  (exists st',
      ali_temp_strdup st (s ++ zero :: tail) = Done (Some (ali_temp_buffer_size st, st')) /\
      ali_temp_buffer_size st' = ali_temp_buffer_size st + Z.of_nat (List.length s) + 1 /\
      bytes_at st' (ali_temp_buffer_size st) (List.length s + 1) = s ++ [zero] /\
      forall i, i < ali_temp_buffer_size st \/ ali_temp_buffer_size st' <= i ->
                ali_temp_buffer st' i = ali_temp_buffer st i).
Proof.
  intros Hs0 (p & Hstart & Hlen & Hin) Hroom Hs Hsroom.
  pose proof buf_size as B.
  assert (M : size_modulus = 2 ^ 64) by reflexivity.
  split.
  - (* ali_temp_sv_to_cstr *)
    unfold ali_temp_sv_to_cstr.
    rewrite (size_t_small (Sv.len sv + 1)) by lia.
    rewrite ali_temp_alloc_room by lia.
    destruct (Z.ltb_spec (ali_temp_buffer_size st + (Sv.len sv + 1)) ALI_TEMP_BUF_SIZE);
      [|lia].
    cbn [bind ali_temp_buffer ali_temp_buffer_size]. rewrite Hstart.
    destruct (Z.ltb_spec (Z.of_nat p) 0); [lia|].
    unfold memcpy. rewrite length_skipn, Nat2Z.id.
    destruct (Z.leb_spec (Sv.len sv) (Z.of_nat (List.length mem - p))); [|lia].
    destruct (Z.leb_spec 0 (ali_temp_buffer_size st)); [|lia].
    destruct (Z.leb_spec (ali_temp_buffer_size st + Sv.len sv) ALI_TEMP_BUF_SIZE); [|lia].
    cbn [andb bind].
    destruct (Z.ltb_spec (ali_temp_buffer_size st + Sv.len sv) ALI_TEMP_BUF_SIZE); [|lia].
    eexists; split; [reflexivity|]. cbn [ali_temp_buffer ali_temp_buffer_size].
    assert (Hchars : Sv.chars mem sv = firstn (Z.to_nat (Sv.len sv)) (skipn p mem)).
    { unfold Sv.chars. rewrite Hstart, Nat2Z.id. reflexivity. }
    assert (Hcl : List.length (Sv.chars mem sv) = Z.to_nat (Sv.len sv)).
    { rewrite Hchars, length_firstn, length_skipn. lia. }
    rewrite <- Hchars.
    split; [lia|]. split.
    + rewrite bytes_at_app. f_equal.
      * unfold bytes_at. cbn [ali_temp_buffer].
        etransitivity; [|apply (map_nth_seq (Sv.chars mem sv))]. rewrite Hcl.
        apply map_ext_in. intros i Hi. apply in_seq in Hi.
        rewrite store_outside by (cbn [List.length]; lia).
        unfold store. rewrite Hcl.
        destruct (Z.leb_spec (ali_temp_buffer_size st)
                             (ali_temp_buffer_size st + Z.of_nat i)); [|lia].
        destruct (Z.ltb_spec (ali_temp_buffer_size st + Z.of_nat i)
                             (ali_temp_buffer_size st + Z.of_nat (Z.to_nat (Sv.len sv))));
          [|lia].
        cbn [andb]. f_equal. lia.
      * rewrite Z2Nat.id by lia.
        apply (store_inside (store (ali_temp_buffer st) (ali_temp_buffer_size st)
                                   (Sv.chars mem sv)) _ [zero]).
        reflexivity.
    + intros i Hi. rewrite store_outside by (cbn [List.length]; lia).
      apply store_outside. rewrite Hcl. lia.
  - (* ali_temp_strdup *)
    unfold ali_temp_strdup, strlen. rewrite (strlen_scan s tail Hs). cbn [bind].
    rewrite (size_t_small (Z.of_nat (List.length s) + 1)) by lia.
    rewrite ali_temp_alloc_room by lia.
    destruct (Z.ltb_spec (ali_temp_buffer_size st + (Z.of_nat (List.length s) + 1))
                         ALI_TEMP_BUF_SIZE); [|lia].
    cbn [bind ali_temp_buffer ali_temp_buffer_size].
    unfold memcpy. rewrite length_app. cbn [List.length].
    destruct (Z.leb_spec (Z.of_nat (List.length s) + 1)
                         (Z.of_nat (List.length s + S (List.length tail)))); [|lia].
    destruct (Z.leb_spec 0 (ali_temp_buffer_size st)); [|lia].
    destruct (Z.leb_spec (ali_temp_buffer_size st + (Z.of_nat (List.length s) + 1))
                         ALI_TEMP_BUF_SIZE); [|lia].
    cbn [andb bind].
    assert (Hcopy : firstn (Z.to_nat (Z.of_nat (List.length s) + 1)) (s ++ zero :: tail)
                    = s ++ [zero]).
    { replace (Z.to_nat (Z.of_nat (List.length s) + 1)) with (List.length s + 1)%nat by lia.
      rewrite firstn_app_2. reflexivity. }
    rewrite Hcopy.
    eexists; split; [reflexivity|]. cbn [ali_temp_buffer ali_temp_buffer_size].
    split; [lia|]. split.
    + replace (List.length s + 1)%nat with (List.length (s ++ [zero]))
        by (rewrite length_app; reflexivity).
      apply (store_inside (ali_temp_buffer st)). reflexivity.
    + intros i Hi. apply store_outside. rewrite length_app. cbn [List.length]. lia.
Qed.

Lemma ali_temp_copies_with_nul_witness :
  let mem := lit "key=value" in
  let sv := {| Sv.start := Some 4; Sv.len := 5 |} in
  let st := {| ali_temp_buffer := fun _ => "#"%char; ali_temp_buffer_size := 2 |} in
  (exists st',
      ali_temp_sv_to_cstr st mem sv = Done (Some (ali_temp_buffer_size st, st')) /\
      ali_temp_buffer_size st' = ali_temp_buffer_size st + Sv.len sv + 1 /\
      bytes_at st' (ali_temp_buffer_size st) (Z.to_nat (Sv.len sv) + 1) =
        Sv.chars mem sv ++ [zero] /\
      forall i, i < ali_temp_buffer_size st \/ ali_temp_buffer_size st' <= i ->
                ali_temp_buffer st' i = ali_temp_buffer st i) /\
  (exists st',
      ali_temp_strdup st (lit "ab" ++ zero :: lit "cd") =
        Done (Some (ali_temp_buffer_size st, st')) /\
      ali_temp_buffer_size st' =
        ali_temp_buffer_size st + Z.of_nat (List.length (lit "ab")) + 1 /\
      bytes_at st' (ali_temp_buffer_size st) (List.length (lit "ab") + 1) =
        lit "ab" ++ [zero] /\
      forall i, i < ali_temp_buffer_size st \/ ali_temp_buffer_size st' <= i ->
                ali_temp_buffer st' i = ali_temp_buffer st i).
Proof.
  intros mem sv st.
  apply (ali_temp_copies_with_nul st mem sv (lit "ab") (lit "cd")).
  - cbn. lia.
  - exists 4%nat. cbn. repeat split; lia.
  - cbn. lia.
  - reflexivity.
  - cbn. lia.
Defined.

End Temp.


(* ================================================================== *)
(** * ali_rand and ali_rotl64 *)
(* ================================================================== *)

Module Rand.

(** ali_u64 arithmetic wraps around at 2^64. *)
Definition to_u64 (z : Z) : Z := z mod 2 ^ 64.

(** <<
ali_u64 ali_rotl64(ali_u64 x, ali_u8 k) {
    return (x << k) | (x >> (64 - k));
}
>>
    A shift of a 64-bit value by 64 or more, or by a negative count, has
    no defined result. *)
Definition ali_rotl64 (x k : Z) : result Z :=
  if (k <? 64) && (0 <=? 64 - k) && (64 - k <? 64) then
    Done (Z.lor (to_u64 (Z.shiftl x k)) (Z.shiftr x (64 - k)))
  else Fault.

(** <<
typedef struct { ali_u64 state[4]; } AliXoshiro256ppState;
>> *)
Record AliXoshiro256ppState : Type := {
  s0 : Z; s1 : Z; s2 : Z; s3 : Z
}.

(** <<
ali_u64 ali_xoshiro256pp_next(AliXoshiro256ppState *state) {
    ali_u64 *s = state->state;
    ali_u64 const result = ali_rotl64(s[1] * 5, 7) * 9;
    ali_u64 const t = s[1] << 17;

    s[2] ^= s[0];
    s[3] ^= s[1];
    s[1] ^= s[2];
    s[0] ^= s[3];

    s[2] ^= t;
    s[3] = ali_rotl64(s[3], 45);

    return result;
}
>> *)
Definition ali_xoshiro256pp_next (state : AliXoshiro256ppState)
  : result (Z * AliXoshiro256ppState) :=
  (r <- ali_rotl64 (to_u64 (s1 state * 5)) 7 ;;
   let result := to_u64 (r * 9) in
   let t := to_u64 (Z.shiftl (s1 state) 17) in
   let s2' := Z.lxor (s2 state) (s0 state) in
   let s3' := Z.lxor (s3 state) (s1 state) in
   let s1' := Z.lxor (s1 state) s2' in
   let s0' := Z.lxor (s0 state) s3' in
   let s2'' := Z.lxor s2' t in
   s3'' <- ali_rotl64 s3' 45 ;;
   Done (result, {| s0 := s0'; s1 := s1'; s2 := s2''; s3 := s3'' |}))%result.

(** <<
AliXoshiro256ppState xoshiro_global_state = { { 0x96EA83C1, 0x218B21E5, 0xAA91FEBD, 0x976414D4 } };

ali_u64 ali_rand() {
    return ali_xoshiro256pp_next(&xoshiro_global_state);
}
>>
    The global state is passed in and handed back. *)
Definition xoshiro_global_state : AliXoshiro256ppState :=
  {| s0 := 0x96EA83C1; s1 := 0x218B21E5; s2 := 0xAA91FEBD; s3 := 0x976414D4 |}.

Definition ali_rand (global : AliXoshiro256ppState)
  : result (Z * AliXoshiro256ppState) :=
  ali_xoshiro256pp_next global.

(** <<
ali_u64 ali_rand_range(ali_u64 min, ali_u64 max) {
    if (min > max) ALI_SWAP(ali_u64, &min, &max);
    return ali_rand() % (max - min) + min;
}
>>
    The remainder of a division by zero has no defined result. *)
Definition ali_rand_range (global : AliXoshiro256ppState) (min max : Z)
  : result (Z * AliXoshiro256ppState) :=
  let '(min, max) := if max <? min then (max, min) else (min, max) in
  ('(r, global) <- ali_rand global ;;
   if to_u64 (max - min) =? 0 then Fault
   else Done (to_u64 (r mod to_u64 (max - min) + min), global))%result.

(** ** Properties *)

Lemma testbit_above (x i : Z) : 0 <= x < 2 ^ 64 -> 64 <= i -> Z.testbit x i = false.
Proof.
  intros Hx Hi. rewrite <- (Z.mod_small x (2 ^ 64)) by lia.
  apply Z.mod_pow2_bits_high. lia.
Qed.

Lemma u64_of_bits (r : Z) :
  0 <= r -> (forall i, 64 <= i -> Z.testbit r i = false) -> 0 <= r < 2 ^ 64.
Proof.
  intros Hr H. split; [exact Hr|].
  replace r with (r mod 2 ^ 64); [apply Z.mod_pos_bound; lia|].
  apply Z.bits_inj'. intros i Hi.
  destruct (Z.lt_ge_cases i 64) as [Hlt|Hge].
  - apply Z.mod_pow2_bits_low. lia.
  - rewrite Z.mod_pow2_bits_high by lia. symmetry. apply H. exact Hge.
Qed.

(** X28: for a shift count from 1 to 63, ali_rotl64 rotates the 64
    bits of x to the left: bit i of the result is bit (i - k) mod 64 of
    x, and no bit is lost. For the count 0, and for 64 and more, one of
    the two shifts is by 64 or more or by a negative count, which has
    no defined result. *)
Theorem ali_rotl64_rotates (x k : Z) :
  0 <= x < 2 ^ 64 -> 0 <= k < 2 ^ 8 ->
  (1 <= k <= 63 ->
   exists r,
     ali_rotl64 x k = Done r /\
     0 <= r < 2 ^ 64 /\
     forall i, 0 <= i < 64 -> Z.testbit r i = Z.testbit x ((i - k) mod 64)) /\
  (k = 0 \/ 64 <= k -> ali_rotl64 x k = Fault).
Proof.
  intros Hx Hk8. split.
  2:{ intros H. unfold ali_rotl64.
      destruct (Z.ltb_spec k 64); [|reflexivity].
      destruct (Z.leb_spec 0 (64 - k)); [|reflexivity].
      destruct (Z.ltb_spec (64 - k) 64); [lia|reflexivity]. }
  intros Hk. unfold ali_rotl64.
  destruct (Z.ltb_spec k 64); [|lia].
  destruct (Z.leb_spec 0 (64 - k)); [|lia].
  destruct (Z.ltb_spec (64 - k) 64); [|lia].
  cbn [andb]. eexists; split; [reflexivity|].
  assert (Hbits : forall i, 0 <= i ->
            Z.testbit (Z.lor (to_u64 (Z.shiftl x k)) (Z.shiftr x (64 - k))) i =
            if i <? 64 then Z.testbit x ((i - k) mod 64) else false).
  { intros i Hi. rewrite Z.lor_spec. unfold to_u64.
    rewrite Z.shiftr_spec by lia.
    destruct (Z.ltb_spec i 64) as [Hlt|Hge].
    - rewrite Z.mod_pow2_bits_low by lia. rewrite Z.shiftl_spec by lia.
      destruct (Z.lt_ge_cases i k) as [Hik|Hik].
      + rewrite (Z.testbit_neg_r x (i - k)) by lia. cbn [orb].
        f_equal. symmetry.
        replace (i - k) with (i + (64 - k) + (-1) * 64) by lia.
        rewrite Z.mod_add by lia. apply Z.mod_small. lia.
      + rewrite (testbit_above x (i + (64 - k))) by lia. rewrite orb_false_r.
        f_equal. symmetry. apply Z.mod_small. lia.
    - rewrite Z.mod_pow2_bits_high by lia.
      rewrite (testbit_above x (i + (64 - k))) by lia. reflexivity. }
  split.
  - apply u64_of_bits.
    + apply Z.lor_nonneg. split.
      * unfold to_u64. apply Z.mod_pos_bound. lia.
      * apply Z.shiftr_nonneg. lia.
    + intros i Hi. rewrite Hbits by lia.
      destruct (Z.ltb_spec i 64); [lia|reflexivity].
  - intros i Hi. rewrite Hbits by lia.
    destruct (Z.ltb_spec i 64); [reflexivity|lia].
Qed.

Lemma ali_rotl64_rotates_witness :
  (1 <= 4 <= 63 ->
   exists r,
     ali_rotl64 0xF00000000000000A 4 = Done r /\
     0 <= r < 2 ^ 64 /\
     forall i, 0 <= i < 64 ->
               Z.testbit r i = Z.testbit 0xF00000000000000A ((i - 4) mod 64)) /\
  (4 = 0 \/ 64 <= 4 -> ali_rotl64 0xF00000000000000A 4 = Fault).
Proof.
  apply (ali_rotl64_rotates 0xF00000000000000A 4); lia.
Defined.

Lemma ali_rand_ends (global : AliXoshiro256ppState) :
  exists r global', ali_rand global = Done (r, global') /\ 0 <= r < 2 ^ 64.
Proof.
  unfold ali_rand, ali_xoshiro256pp_next, ali_rotl64.
  change ((7 <? 64) && (0 <=? 64 - 7) && (64 - 7 <? 64)) with true.
  change ((45 <? 64) && (0 <=? 64 - 45) && (64 - 45 <? 64)) with true.
  cbn [bind]. do 2 eexists. split; [reflexivity|].
  unfold to_u64. apply Z.mod_pos_bound. lia.
Qed.

(** X29: ali_rand_range takes one number from the generator and
    returns a value from the smaller of its two bounds up to, but never
    reaching, the larger one, whichever order they are given in. With
    two equal bounds it divides by zero. *)
Theorem ali_rand_range_bounds (global : AliXoshiro256ppState) (min max : Z) :
  0 <= min < 2 ^ 64 -> 0 <= max < 2 ^ 64 ->
  (min <> max ->
   exists r v global',
     ali_rand global = Done (r, global') /\
     ali_rand_range global min max = Done (v, global') /\
     ali_rand_range global max min = Done (v, global') /\
     v = Z.min min max + r mod (Z.max min max - Z.min min max) /\
     Z.min min max <= v < Z.max min max) /\
  (min = max -> ali_rand_range global min max = Fault).
Proof.
  intros Hmin Hmax.
  destruct (ali_rand_ends global) as (r & global' & Er & Hr).
  assert (Hordered : forall lo hi,
             0 <= lo < 2 ^ 64 -> 0 <= hi < 2 ^ 64 -> lo < hi ->
             (r <- ali_rand global ;;
              (let '(r, g) := r in
               if to_u64 (hi - lo) =? 0 then Fault
               else Done (to_u64 (r mod to_u64 (hi - lo) + lo), g)))%result =
             Done (lo + r mod (hi - lo), global')).
  { intros lo hi Hlo Hhi Hlt. rewrite Er. cbn [bind].
    assert (W : to_u64 (hi - lo) = hi - lo) by (unfold to_u64; apply Z.mod_small; lia).
    rewrite W. destruct (Z.eqb_spec (hi - lo) 0); [lia|].
    pose proof (Z.mod_pos_bound r (hi - lo) ltac:(lia)).
    f_equal. f_equal. unfold to_u64. rewrite Z.mod_small by lia. lia. }
  split.
  - intros Hne. exists r, (Z.min min max + r mod (Z.max min max - Z.min min max)), global'.
    split; [exact Er|].
    pose proof (Z.mod_pos_bound r (Z.max min max - Z.min min max) ltac:(lia)).
    unfold ali_rand_range.
    destruct (Z.ltb_spec max min) as [Hgt|Hle]; destruct (Z.ltb_spec min max) as [Hlt|Hge];
      try lia.
    + rewrite (Hordered max min) by lia.
      rewrite Z.min_r, Z.max_l in * by lia. repeat split; try reflexivity; lia.
    + rewrite (Hordered min max) by lia.
      rewrite Z.min_l, Z.max_r in * by lia. repeat split; try reflexivity; lia.
  - intros ->. unfold ali_rand_range. rewrite Z.ltb_irrefl, Er. cbn [bind].
    rewrite Z.sub_diag. reflexivity.
Qed.

Lemma ali_rand_range_bounds_witness :
  (10 <> 3 ->
   exists r v global',
     ali_rand xoshiro_global_state = Done (r, global') /\
     ali_rand_range xoshiro_global_state 10 3 = Done (v, global') /\
     ali_rand_range xoshiro_global_state 3 10 = Done (v, global') /\
     v = Z.min 10 3 + r mod (Z.max 10 3 - Z.min 10 3) /\
     Z.min 10 3 <= v < Z.max 10 3) /\
  (10 = 3 -> ali_rand_range xoshiro_global_state 10 3 = Fault).
Proof.
  apply (ali_rand_range_bounds xoshiro_global_state 10 3); lia.
Defined.

End Rand.


(* ================================================================== *)
(** * ali_util *)
(* ================================================================== *)

Module Util.

Import Libc.

(** [strrchr(s, c)]: the index of the last [c] in the string, up to and
    with its terminating NUL, or [None] for NULL; a string without a
    NUL is read past its end. [i] is the index of the first character
    of [s], [found] the last match before it. *)
Fixpoint strrchr_from (s : text) (c : ascii) (i : Z) (found : option Z)
  : result (option Z) :=
  match s with
  | [] => Fault
  | x :: rest =>
      let found := if Ascii.eqb x c then Some i else found in
      if is_nul x then Done found
      else strrchr_from rest c (i + 1) found
  end.

Definition strrchr (s : text) (c : ascii) : result (option Z) :=
  strrchr_from s c 0 None.

(** <<
const char* ali_path_name(const char* path) {
    const char* slash = strrchr(path, '/');
    return slash != NULL ? slash + 1 : path;
}
>>
    The pointer returned is an index into [path]. *)
Definition ali_path_name (path : text) : result Z :=
  (slash <- strrchr path "/" ;;
   match slash with
   | Some i => Done (i + 1)
   | None => Done 0
   end)%result.

(** No character of a text is a slash, or a NUL. *)
Definition no_slash (s : text) : bool :=
  forallb (fun c => negb (Ascii.eqb c "/")) s.

Definition no_nul (s : text) : bool :=
  forallb (fun c => negb (is_nul c)) s.

(** ** Properties *)

Lemma strrchr_from_no_slash (name tail : text) (i : Z) (found : option Z) :
  no_slash name = true -> no_nul name = true ->
  strrchr_from (name ++ zero :: tail) "/" i found = Done found.
Proof.
  revert i. induction name as [|c name IH]; intros i Hs Hn.
  - reflexivity.
  - cbn [no_slash no_nul forallb] in Hs, Hn.
    apply andb_true_iff in Hs, Hn. destruct Hs as [Hc Hs]. destruct Hn as [Hz Hn].
    apply negb_true_iff in Hc, Hz.
    cbn [app strrchr_from]. rewrite Hc, Hz. apply IH; assumption.
Qed.

Lemma strrchr_from_slash (dir name tail : text) (i : Z) (found : option Z) :
  no_nul dir = true -> no_slash name = true -> no_nul name = true ->
  strrchr_from (dir ++ "/"%char :: name ++ zero :: tail) "/" i found =
  Done (Some (i + Z.of_nat (List.length dir))).
Proof.
  revert i found. induction dir as [|c dir IH]; intros i found Hd Hs Hn.
  - cbn [app strrchr_from List.length].
    change (Ascii.eqb "/" "/") with true. change (is_nul "/") with false. cbv iota.
    rewrite strrchr_from_no_slash by assumption. f_equal. f_equal. lia.
  - cbn [no_nul forallb] in Hd. apply andb_true_iff in Hd. destruct Hd as [Hz Hd].
    apply negb_true_iff in Hz.
    cbn [app strrchr_from List.length]. rewrite Hz.
    rewrite IH by assumption. f_equal. f_equal. lia.
Qed.

(** Every text is a directory part, empty or ending in a slash, and a
    name without a slash. *)
Lemma split_at_last_slash (s : text) :
  exists dir name,
    s = dir ++ name /\ no_slash name = true /\
    (dir = [] \/ exists d, dir = d ++ ["/"%char]).
Proof.
  induction s as [|c s (dir & name & E & Hn & Hd)].
  - exists [], []. repeat split. left. reflexivity.
  - destruct Hd as [->|(d & ->)].
    + cbn [app] in E. subst s.
      destruct (Ascii.eqb c "/") eqn:Ec.
      * apply Ascii.eqb_eq in Ec. subst c.
        exists ["/"%char], name. repeat split; [assumption|].
        right. exists []. reflexivity.
      * exists [], (c :: name). repeat split.
        -- cbn [no_slash forallb]. rewrite Ec. exact Hn.
        -- left. reflexivity.
    + exists (c :: d ++ ["/"%char]), name. subst s. repeat split; [assumption|].
      right. exists (c :: d). reflexivity.
Qed.

(** X30: on a NUL-terminated path, ali_path_name returns the part
    behind the last slash: the path is a directory part, empty or
    ending in a slash, followed by a name without a slash, and the
    pointer returned is the start of that name. A path without a slash
    is returned whole, and a path that ends in a slash gives the empty
    string. *)
Theorem ali_path_name_after_last_slash (path tail : text) :
  no_nul path = true ->
  exists dir name,
    path = dir ++ name /\
    no_slash name = true /\
    (dir = [] \/ exists d, dir = d ++ ["/"%char]) /\
    ali_path_name (path ++ zero :: tail) = Done (Z.of_nat (List.length dir)) /\
    c_str (skipn (List.length dir) (path ++ zero :: tail)) = name.
Proof.
  intros Hnul.
  destruct (split_at_last_slash path) as (dir & name & E & Hn & Hd).
  exists dir, name. split; [exact E|]. split; [exact Hn|]. split; [exact Hd|].
  assert (Hnn : no_nul name = true /\ no_nul dir = true).
  { subst path. unfold no_nul in *. rewrite forallb_app in Hnul.
    apply andb_true_iff in Hnul. tauto. }
  destruct Hnn as [Hnn Hnd].
  assert (Hc : forall s t, no_nul s = true -> c_str (s ++ zero :: t) = s).
  { induction s as [|c s IH]; intros t H; [reflexivity|].
    cbn [no_nul forallb] in H. apply andb_true_iff in H. destruct H as [Hz H].
    apply negb_true_iff in Hz. cbn [app c_str]. rewrite Hz, (IH t H). reflexivity. }
  split.
  - unfold ali_path_name, strrchr. subst path.
    destruct Hd as [->|(d & ->)].
    + cbn [app List.length]. rewrite strrchr_from_no_slash by assumption. reflexivity.
    + rewrite <- !app_assoc. cbn [app].
      assert (Hdn : no_nul d = true).
      { unfold no_nul in *. rewrite forallb_app in Hnd.
        apply andb_true_iff in Hnd. tauto. }
      rewrite strrchr_from_slash by assumption. cbn [bind].
      rewrite length_app. cbn [List.length]. f_equal. lia.
  - subst path. rewrite <- app_assoc, skipn_app, skipn_all, Nat.sub_diag.
    cbn [skipn app]. apply Hc. exact Hnn.
Qed.

Lemma ali_path_name_after_last_slash_witness :
  exists dir name,
    lit "src/lib/ali.h" = dir ++ name /\
    no_slash name = true /\
    (dir = [] \/ exists d, dir = d ++ ["/"%char]) /\
    ali_path_name (lit "src/lib/ali.h" ++ zero :: lit "??") =
      Done (Z.of_nat (List.length dir)) /\
    c_str (skipn (List.length dir) (lit "src/lib/ali.h" ++ zero :: lit "??")) = name.
Proof.
  apply (ali_path_name_after_last_slash (lit "src/lib/ali.h") (lit "??")).
  reflexivity.
Defined.

End Util.
